(** * rondiveTV download pipeline: a shallow embedding and its properties

    The development follows [src/app/api/download/route.ts] (the download
    core: header/URL directive parser, playlist resolver, segment fetcher
    pool, transcode driver, quota manager) and the segment proxy gateway
    route.  TypeScript functions keep their names.

    Conventions of the embedding
    - A JavaScript string is a [string] of bytes, its UTF-8 encoding
      (strings are well formed: no lone surrogate).
      [trim] and the class [\s] cover the white space of ECMAScript, in
      and outside ASCII.  [toLowerCase] and [toUpperCase] convert the
      ASCII letters and the characters whose converted form holds an
      ASCII character; other letters are left as they are, since the code
      compares converted text with ASCII constants only.  A regular
      expression with the flag [i] folds ASCII letters only.
    - Platform services that are not code of the repository ([fetch], the
      WHATWG [URL] parser, the shared cache [db], the transcoder process)
      are Section variables or explicit inputs; nothing is assumed of them.
    - [async] code that awaits one thing at a time is sequential state
      passing; an exception is a value of an error type.  The workers of
      the segment pool run side by side: each is a state that is resumed
      when what it awaits arrives, and a schedule gives the order of the
      arrivals. *)

From Stdlib Require Import ZArith QArith Qround Lia Bool Ascii String List DecimalString.
From Stdlib Require Import Sorted Permutation.
From Stdlib Require DecimalNat.
From stdpp Require Import base option list gmap strings.

Local Open Scope Z_scope.

(** ** JavaScript string primitives *)

Module JS.

(** The white space of one byte: TAB, LF, VT, FF, CR and the space. *)
Definition isSpace (c : ascii) : bool :=
  match c with
  | "009" | "010" | "011" | "012" | "013" | " " => true
  | _ => false
  end%char.

(** ECMAScript WhiteSpace and LineTerminator, what [trim] removes and
    [\s] matches: the number of bytes of the white-space character [s]
    starts with, 0 when it starts with none.  Beyond the one-byte ones
    these are U+00A0, U+1680, U+2000 to U+200A, U+2028, U+2029, U+202F,
    U+205F, U+3000 and U+FEFF. *)
Definition whiteSpaceLength (s : string) : nat :=
  match s with
  | "" => O
  | String c r =>
      if isSpace c then 1%nat
      else
        match r with
        | "" => O
        | String d r2 =>
            let b0 := N_of_ascii c in
            let b1 := N_of_ascii d in
            if ((b0 =? 194) && (b1 =? 160))%N then 2%nat
            else
              match r2 with
              | "" => O
              | String e _ =>
                  let b2 := N_of_ascii e in
                  if ((b0 =? 225) && (b1 =? 154) && (b2 =? 128)
                      || (b0 =? 226) && (b1 =? 128)
                         && ((128 <=? b2) && (b2 <=? 138) || (b2 =? 168)
                             || (b2 =? 169) || (b2 =? 175))
                      || (b0 =? 226) && (b1 =? 129) && (b2 =? 159)
                      || (b0 =? 227) && (b1 =? 128) && (b2 =? 128)
                      || (b0 =? 239) && (b1 =? 187) && (b2 =? 191))%N
                  then 3%nat else O
              end
        end
  end.

Definition lowerChar (c : ascii) : ascii :=
  let n := nat_of_ascii c in
  if (Nat.leb 65 n && Nat.leb n 90)%bool then ascii_of_nat (n + 32)%nat else c.

Definition upperChar (c : ascii) : ascii :=
  let n := nat_of_ascii c in
  if (Nat.leb 97 n && Nat.leb n 122)%bool then ascii_of_nat (n - 32)%nat else c.

(** The folding of a regular expression with the flag [i] and without the
    flag [u]: ASCII letters only, no other character is folded onto one. *)
Fixpoint asciiLower (s : string) : string :=
  match s with
  | "" => ""
  | String c r => String (lowerChar c) (asciiLower r)
  end.

(** [s.slice(0, n)] and [s.slice(n)] for [0 <= n]. *)
Fixpoint take (n : nat) (s : string) : string :=
  match n, s with
  | S k, String c r => String c (take k r)
  | _, _ => ""
  end.

Fixpoint drop (n : nat) (s : string) : string :=
  match n, s with
  | S k, String _ r => drop k r
  | _, _ => s
  end.

Fixpoint startsWith (p s : string) : bool :=
  match p, s with
  | "", _ => true
  | String a p', String b s' => if Ascii.eqb a b then startsWith p' s' else false
  | _, "" => false
  end.

(** The first entry of a conversion table that [s] starts with: what it is
    converted to, and what follows it in [s]. *)
Fixpoint convertFront (table : list (string * string)) (s : string)
  : option (string * string) :=
  match table with
  | [] => None
  | (from, to) :: rest =>
      if startsWith from s then Some (to, drop (String.length from) s)
      else convertFront rest s
  end.

(** Case conversion from the left: a character of the table is replaced by
    its entry, any other byte goes through [f]. *)
Fixpoint convertCase (fuel : nat) (table : list (string * string))
    (f : ascii -> ascii) (s : string) : string :=
  match fuel, s with
  | S k, String c r =>
      match convertFront table s with
      | Some (to, rest) => to +:+ convertCase k table f rest
      | None => String (f c) (convertCase k table f r)
      end
  | _, _ => ""
  end.

(** The characters outside ASCII whose lower-case form holds an ASCII
    character: U+0130 (to [i] and U+0307) and U+212A, the Kelvin sign
    (to [k]). *)
Definition lowerTable : list (string * string) :=
  [("İ", "i̇"); ("K", "k")].

Definition toLowerCase (s : string) : string :=
  convertCase (String.length s) lowerTable lowerChar s.

(** The characters outside ASCII whose upper-case form holds an ASCII
    character: U+00DF, U+0131, U+0149, U+017F and U+01F0, then U+1E96 to
    U+1E9A and the ligatures U+FB00 to U+FB06. *)
Definition upperTable : list (string * string) :=
  [("ß", "SS"); ("ı", "I"); ("ŉ", "ʼN"); ("ſ", "S"); ("ǰ", "J̌");
   ("ẖ", "H̱"); ("ẗ", "T̈"); ("ẘ", "W̊"); ("ẙ", "Y̊"); ("ẚ", "Aʾ");
   ("ﬀ", "FF"); ("ﬁ", "FI"); ("ﬂ", "FL"); ("ﬃ", "FFI"); ("ﬄ", "FFL");
   ("ﬅ", "ST"); ("ﬆ", "ST")].

Definition toUpperCase (s : string) : string :=
  convertCase (String.length s) upperTable upperChar s.

Definition isEmpty (s : string) : bool :=
  match s with "" => true | _ => false end.

(** [s.trimStart()]: white-space characters are removed from the front,
    one at a time. *)
Fixpoint trimStart (s : string) : string :=
  match s with
  | "" => ""
  | String _ r =>
      match whiteSpaceLength s with
      | O => s
      | S O => trimStart r
      | S (S O) =>
          match r with
          | String _ r2 => trimStart r2
          | "" => s
          end
      | _ =>
          match r with
          | String _ (String _ r3) => trimStart r3
          | _ => s
          end
      end
  end.

(** A string of white-space characters only. *)
Definition isWhiteSpaceOnly (s : string) : bool := isEmpty (trimStart s).

(** [s.trimEnd()]: the longest end of [s] made of white space is cut. *)
Fixpoint trimEnd (s : string) : string :=
  match s with
  | "" => ""
  | String c r => if isWhiteSpaceOnly s then "" else String c (trimEnd r)
  end.

Definition trim (s : string) : string := trimEnd (trimStart s).

(** [s.endsWith(suf)] *)
Fixpoint endsWith (suf s : string) : bool :=
  if String.eqb suf s then true
  else match s with
       | "" => false
       | String _ r => endsWith suf r
       end.

(** [s.includes(sub)] *)
Fixpoint includes (sub s : string) : bool :=
  if startsWith sub s then true
  else match s with
       | "" => false
       | String _ r => includes sub r
       end.

(** [s.indexOf(c)] for a one-character needle, [None] for -1. *)
Fixpoint indexOf (c : ascii) (s : string) : option nat :=
  match s with
  | "" => None
  | String a r =>
      if Ascii.eqb a c then Some O
      else match indexOf c r with Some i => Some (S i) | None => None end
  end.

(** [s.lastIndexOf(c)] *)
Fixpoint lastIndexOf (c : ascii) (s : string) : option nat :=
  match s with
  | "" => None
  | String a r =>
      match lastIndexOf c r with
      | Some i => Some (S i)
      | None => if Ascii.eqb a c then Some O else None
      end
  end.

(** [s.split(c)] for a one-character separator: never the empty list. *)
Fixpoint split (c : ascii) (s : string) : list string :=
  match s with
  | "" => [""]
  | String a r =>
      if Ascii.eqb a c then "" :: split c r
      else match split c r with
           | h :: t => String a h :: t
           | [] => [String a ""]
           end
  end.

(** [s.split(/\r?\n/)]: a separator is LF, or CR immediately before LF. *)
Fixpoint splitLines (s : string) : list string :=
  match s with
  | "" => [""]
  | String a r =>
      if Ascii.eqb a "010" then "" :: splitLines r
      else if (Ascii.eqb a "013" && startsWith (String "010" "") r)%bool
      then splitLines r
      else match splitLines r with
           | h :: t => String a h :: t
           | [] => [String a ""]
           end
  end.

(** [l.join(sep)] *)
Fixpoint join (sep : string) (l : list string) : string :=
  match l with
  | [] => ""
  | [x] => x
  | x :: t => x +:+ sep +:+ join sep t
  end.

(** [/sub/i.test(s)] for a literal pattern [sub] given in lower case. *)
Definition includesCI (sub s : string) : bool := includes sub (asciiLower s).

Definition head (l : list string) : string :=
  match l with h :: _ => h | [] => "" end.

(** [a || b] on strings: the empty string is falsy. *)
Definition orElse (a b : string) : string := if isEmpty a then b else a.

Definition isNone {A} (o : option A) : bool :=
  match o with None => true | Some _ => false end.

Fixpoint hasChar (c : ascii) (s : string) : bool :=
  match s with
  | "" => false
  | String a r => (Ascii.eqb a c || hasChar c r)%bool
  end.

(** [String(n)] for a natural number *)
Definition natToString (n : nat) : string :=
  NilZero.string_of_uint (Nat.to_uint n).

(** [String(n)] for a non-negative integer such as an HTTP status *)
Definition intToString (n : Z) : string := natToString (Z.to_nat n).

End JS.

(** ** 4.1 Header/URL directive parser *)

Module Parser.
Import JS.

Definition isCRLF (c : ascii) : bool :=
  (Ascii.eqb c "013" || Ascii.eqb c "010")%bool.

(** [value.replace(/[\r\n]+/g, ' ')]: every maximal run of CR/LF becomes
    one space (emitted at the last character of the run). *)
Fixpoint collapseCRLF (s : string) : string :=
  match s with
  | "" => ""
  | String c r =>
      if isCRLF c then
        match r with
        | String d _ => if isCRLF d then collapseCRLF r
                        else String " " (collapseCRLF r)
        | "" => " "
        end
      else String c (collapseCRLF r)
  end.

Definition sanitizeHeaderValue (value : string) : string :=
  trim (collapseCRLF value).

(** *** [decodeURIComponent] on UTF-8 bytes

    ECMAScript [Decode]: [%XX] escapes are replaced by their byte; an
    escape that is not two hex digits, or a run of escaped bytes that is
    not the UTF-8 encoding of a code point, raises [URIError] ([None]). *)

Definition hexVal (c : ascii) : option N :=
  let n := N_of_ascii c in
  if (48 <=? n)%N && (n <=? 57)%N then Some (n - 48)%N
  else if (97 <=? n)%N && (n <=? 102)%N then Some (n - 87)%N
  else if (65 <=? n)%N && (n <=? 70)%N then Some (n - 55)%N
  else None.

(** Reads one [%XX] at the front of [s]. *)
Definition readEscape (s : string) : option (N * string) :=
  match s with
  | String "%" (String h (String l r)) =>
      match hexVal h, hexVal l with
      | Some a, Some b => Some (16 * a + b, r)%N
      | _, _ => None
      end
  | _ => None
  end.

Definition isContinuation (b : N) : bool := ((128 <=? b) && (b <=? 191))%N.

Fixpoint readContinuations (n : nat) (s : string) : option (list N * string) :=
  match n with
  | O => Some ([], s)
  | S k =>
      match readEscape s with
      | Some (b, r) =>
          if isContinuation b then
            match readContinuations k r with
            | Some (bs, r') => Some (b :: bs, r')
            | None => None
            end
          else None
      | None => None
      end
  end.

(** Number of continuation bytes announced by a lead byte. *)
Definition continuationCount (b : N) : option nat :=
  if ((192 <=? b) && (b <=? 223))%N then Some 1%nat
  else if ((224 <=? b) && (b <=? 239))%N then Some 2%nat
  else if ((240 <=? b) && (b <=? 247))%N then Some 3%nat
  else None.

(** Well-formed UTF-8: no overlong form, no surrogate, at most U+10FFFF. *)
Definition validUtf8 (lead : N) (rest : list N) : bool :=
  match rest with
  | [_] => (194 <=? lead)%N
  | [b1; _] =>
      if (lead =? 224)%N then (160 <=? b1)%N
      else if (lead =? 237)%N then (b1 <=? 159)%N
      else true
  | [b1; _; _] =>
      if (lead =? 240)%N then (144 <=? b1)%N
      else if (lead =? 244)%N then (b1 <=? 143)%N
      else (lead <=? 243)%N
  | _ => false
  end.

Fixpoint bytesToString (bs : list N) (tail : string) : string :=
  match bs with
  | [] => tail
  | b :: r => String (ascii_of_N b) (bytesToString r tail)
  end.

Fixpoint decodeFrom (fuel : nat) (s : string) : option string :=
  match s with
  | "" => Some ""
  | String c r =>
      match fuel with
      | O => None
      | S f =>
          if Ascii.eqb c "%" then
            match readEscape s with
            | None => None
            | Some (b, r1) =>
                if (b <? 128)%N then String (ascii_of_N b) <$> decodeFrom f r1
                else
                  match continuationCount b with
                  | None => None
                  | Some n =>
                      match readContinuations n r1 with
                      | None => None
                      | Some (bs, r2) =>
                          if validUtf8 b bs
                          then bytesToString (b :: bs) <$> decodeFrom f r2
                          else None
                      end
                  end
            end
          else String c <$> decodeFrom f r
      end
  end.

Definition decodeURIComponent (s : string) : option string :=
  decodeFrom (String.length s) s.

(** *** [parseUrlWithHeaders] *)

Record ParsedUrl := { url : string; headers : gmap string string }.

(** The [if / else if] chain on the lower-cased key: the property of
    [headers] that the pair assigns, if any. *)
Definition headerNameOf (key : string) : option string :=
  if (String.eqb key "referer" || String.eqb key "referrer")%bool
  then Some "Referer"
  else if (String.eqb key "user-agent" || String.eqb key "useragent"
           || String.eqb key "ua")%bool
  then Some "User-Agent"
  else if String.eqb key "origin" then Some "Origin"
  else if String.eqb key "cookie" then Some "Cookie"
  else if String.eqb key "authorization" then Some "Authorization"
  else None.

(** [try { value = decodeURIComponent(rawValue) } catch { value = rawValue }] *)
Definition decodeOrRaw (rawValue : string) : string :=
  match decodeURIComponent rawValue with
  | Some v => v
  | None => rawValue
  end.

(** One iteration of [for (const pair of pairs)]. *)
Definition parsePair (hs : gmap string string) (pair : string)
  : gmap string string :=
  let trimmedPair := trim pair in
  if isEmpty trimmedPair then hs
  else
    match split "=" trimmedPair with
    | rawKey :: rest =>
        if (isEmpty rawKey || Nat.eqb (List.length rest) 0)%bool then hs
        else
          let key := toLowerCase (trim rawKey) in
          let rawValue := trim (join "=" rest) in
          if isEmpty rawValue then hs
          else
            let value := sanitizeHeaderValue (decodeOrRaw rawValue) in
            if isEmpty value then hs
            else
              match headerNameOf key with
              | Some name => <[name := value]> hs
              | None => hs
              end
    | [] => hs
    end.

Definition parseUrlWithHeaders (rawUrl : string) : ParsedUrl :=
  let trimmed := trim rawUrl in
  match indexOf "|" trimmed with
  | None => {| url := trimmed; headers := ∅ |}
  | Some pipeIndex =>
      let url := trim (take pipeIndex trimmed) in
      let headerPart := trim (drop (S pipeIndex) trimmed) in
      if isEmpty headerPart then {| url := url; headers := ∅ |}
      else {| url := url;
              headers := fold_left parsePair (split "&" headerPart) ∅ |}
  end.

(** The key and raw value a pair is read as (for the statements). *)
Definition pairKey (pair : string) : string :=
  toLowerCase (trim (head (split "=" (trim pair)))).

Definition pairRawValue (pair : string) : string :=
  trim (join "=" (tail (split "=" (trim pair)))).

(** The recognized keys as the specification lists them
    (Referer/Referrer, User-Agent/UA, Origin, Cookie, Authorization),
    compared case-insensitively. *)
Definition specRecognizedKeys : list string :=
  ["referer"; "referrer"; "user-agent"; "ua"; "origin"; "cookie";
   "authorization"].

Definition codeRecognizedKeys : list string :=
  ["referer"; "referrer"; "user-agent"; "useragent"; "ua"; "origin";
   "cookie"; "authorization"].

Definition forwardedNames : list string :=
  ["Referer"; "User-Agent"; "Origin"; "Cookie"; "Authorization"].

End Parser.

(** ** Platform interfaces

  What the download core receives from the runtime.  [fetch] answers a
  request with a response or fails (network error, timeout); within one
  playlist resolution it is a function of the request. *)

Module Platform.

(** The outcome of a call that may throw. *)
Inductive Res (A : Type) : Type :=
| Ret (value : A)
| Throw (message : string).
Arguments Ret {A} value.
Arguments Throw {A} message.

Record Request := {
  req_url : string;
  req_range : option string   (* the Range header, when one is set *)
}.

Record Response := {
  ok : bool;                  (* status in 200..299 *)
  status : Z;
  contentType : option string;
  body : string;              (* text, or the bytes of a binary body *)
  responseUrl : string        (* [response.url], empty when unknown *)
}.

Definition plainGet (u : string) : Request :=
  {| req_url := u; req_range := None |}.

End Platform.

(** ** 4.2 Playlist resolver *)

Module Playlist.
Import JS Platform.

Definition INVALID_SEGMENT_EXTENSIONS : list string :=
  [".jpg"; ".jpeg"; ".png"; ".gif"; ".webp"; ".bmp"; ".svg"; ".ico"].

Definition SEGMENT_EXTENSION_FALLBACKS : list (string * list string) :=
  [(".jpg", [".ts"; ".m4s"; ".mp4"]);
   (".jpeg", [".ts"; ".m4s"; ".mp4"]);
   (".png", [".ts"; ".m4s"; ".mp4"]);
   (".gif", [".ts"; ".m4s"; ".mp4"]);
   (".webp", [".ts"; ".m4s"; ".mp4"])].

Definition DEFAULT_FALLBACK_EXTENSIONS : list string := [".ts"; ".m4s"; ".mp4"].
Definition MAX_SEGMENT_PROBES : nat := 5.

(** [arr.includes(x)] on strings *)
Definition includesStr (x : string) (l : list string) : bool :=
  existsb (String.eqb x) l.

(** [obj[key]] on a literal object given as its list of properties *)
Fixpoint lookupProp {A} (key : string) (obj : list (string * A)) : option A :=
  match obj with
  | [] => None
  | (k, v) :: r => if String.eqb k key then Some v else lookupProp key r
  end.

Definition looksLikeM3U8 (content : string) : bool :=
  let trimmed := trim content in
  if isEmpty trimmed then false
  else if startsWith "#EXTM3U" trimmed then true
  else (includesCI "#extinf" trimmed
        || includesCI "#ext-x-stream-inf" trimmed
        || includesCI "#ext-x-targetduration" trimmed)%bool.

Definition hasMediaSegments (content : string) : bool :=
  existsb (fun line => startsWith "#EXTINF" (trim line)) (splitLines content).

Definition isVodPlaylist (content : string) : bool :=
  includesCI "#ext-x-endlist" content.

Definition hasEncryptionOrMap (content : string) : bool :=
  (includesCI "#ext-x-key" content || includesCI "#ext-x-map" content)%bool.

Definition getSegmentExtension (raw : string) : option string :=
  let trimmed := trim raw in
  if (isEmpty trimmed || startsWith "#" trimmed)%bool then None
  else
    let withoutHash := orElse (head (split "#" trimmed)) trimmed in
    let withoutQuery := orElse (head (split "?" withoutHash)) withoutHash in
    match lastIndexOf "." withoutQuery with
    | None => None
    | Some dotIndex => Some (toLowerCase (drop dotIndex withoutQuery))
    end.

Definition replaceSegmentExtension (raw fromExt toExt : string) : string :=
  let trimmed := trim raw in
  if isEmpty trimmed then raw
  else
    let endIndex :=
      match indexOf "#" trimmed, indexOf "?" trimmed with
      | Some h, Some q => Nat.min h q
      | Some h, None => h
      | None, Some q => q
      | None, None => String.length trimmed
      end in
    let base := take endIndex trimmed in
    let suffix := drop endIndex trimmed in
    if endsWith fromExt (toLowerCase base)
    then take (String.length base - String.length fromExt) base
           +:+ toExt +:+ suffix
    else raw.

Definition rewriteSegmentExtensions
    (content : string) (mapping : list (string * string)) : string :=
  let rewriteLine (line : string) : string :=
    let trimmed := trim line in
    if (isEmpty trimmed || startsWith "#" trimmed)%bool then line
    else
      match getSegmentExtension trimmed with
      | None => line
      | Some ext =>
          match lookupProp ext mapping with
          | None => line
          | Some toExt =>
              if isEmpty toExt then line
              else replaceSegmentExtension line ext toExt
          end
      end in
  join (String "010" "") (map rewriteLine (splitLines content)).

Definition getFallbackExtensions (ext : string) : list string :=
  match lookupProp ext SEGMENT_EXTENSION_FALLBACKS with
  | Some (x :: r) => x :: r
  | _ => DEFAULT_FALLBACK_EXTENSIONS
  end.

Record Candidate := { cand_ext : string; cand_resolved : string }.

(** [isLikelyMediaBytes]: MPEG-TS sync byte, or an ISO-BMFF box type at
    offset 4. *)
Definition isLikelyMediaBytes (buffer : string) : bool :=
  match buffer with
  | "" => false
  | String b0 _ =>
      if Ascii.eqb b0 "G" (* 0x47 *) then true
      else if Nat.leb 8 (String.length buffer) then
        let signature := take 4 (drop 4 buffer) in
        includesStr signature ["ftyp"; "moof"; "styp"; "sidx"; "mdat"]
      else false
  end.

(** [normalized.endsWith(ext)] for some invalid extension, where
    [normalized] is the resolved URL cut at the first [?] and then at the
    first [#], in lower case. *)
Definition hasInvalidExtension (resolved : string) : bool :=
  let normalized := toLowerCase (head (split "#" (head (split "?" resolved)))) in
  (negb (isEmpty normalized)
   && existsb (fun ext => endsWith ext normalized) INVALID_SEGMENT_EXTENSIONS)%bool.

Section WithPlatform.

(** [try { new URL(x, base).toString() } catch { x }] *)
Variable resolveUrl : string -> string -> string.
Variable fetch : Request -> option Response.

(** The loop of [collectInvalidSegmentCandidates], with its [seen] set. *)
Fixpoint collectLoop (lines : list string) (baseUrl : string)
    (seen : gset string) : list Candidate :=
  match lines with
  | [] => []
  | line :: rest =>
      let trimmed := trim line in
      if (isEmpty trimmed || startsWith "#" trimmed)%bool
      then collectLoop rest baseUrl seen
      else
        match getSegmentExtension trimmed with
        | None => collectLoop rest baseUrl seen
        | Some ext =>
            if negb (includesStr ext INVALID_SEGMENT_EXTENSIONS)
            then collectLoop rest baseUrl seen
            else
              let resolved := resolveUrl trimmed baseUrl in
              if bool_decide (resolved ∈ seen)
              then collectLoop rest baseUrl seen
              else {| cand_ext := ext; cand_resolved := resolved |}
                     :: collectLoop rest baseUrl ({[resolved]} ∪ seen)
        end
  end.

Definition collectInvalidSegmentCandidates
    (content baseUrl : string) : list Candidate :=
  collectLoop (splitLines content) baseUrl ∅.

Definition probeSegmentContent (url : string) : bool :=
  match fetch {| req_url := url; req_range := Some "bytes=0-15" |} with
  | None => false
  | Some response =>
      if negb (ok response) then false
      else
        let lowerType := toLowerCase (default "" (contentType response)) in
        if (startsWith "text/html" lowerType
            || startsWith "application/json" lowerType)%bool then false
        else if isLikelyMediaBytes (body response) then true
        else if startsWith "image/" lowerType then false
        else (includes "video" lowerType || includes "mp2t" lowerType
              || includes "octet-stream" lowerType)%bool
  end.

Fixpoint findInvalidLoop (lines : list string) (baseUrl : string)
    : option string :=
  match lines with
  | [] => None
  | line :: rest =>
      let trimmed := trim line in
      if (isEmpty trimmed || startsWith "#" trimmed)%bool
      then findInvalidLoop rest baseUrl
      else if hasInvalidExtension (resolveUrl trimmed baseUrl)
      then Some trimmed
      else findInvalidLoop rest baseUrl
  end.

Definition findInvalidSegmentLine (content baseUrl : string) : option string :=
  if negb (hasMediaSegments content) then None
  else findInvalidLoop (splitLines content) baseUrl.

(** [for (const candidate of sample) { if (!ok) return false }] *)
Definition areImageSegmentsMedia (content baseUrl : string) : bool :=
  let candidates := collectInvalidSegmentCandidates content baseUrl in
  match candidates with
  | [] => false
  | _ =>
      let sample := firstn MAX_SEGMENT_PROBES candidates in
      (forallb (fun c => probeSegmentContent (cand_resolved c)) sample
       && Nat.ltb 0 (List.length sample))%bool
  end.

(** The inner loop of [tryRewriteImageSegments]: [okCount] after the
    sample was tried with one fallback extension (0 after a [break]). *)
Fixpoint countRewritable (sample : list Candidate)
    (primaryExt fallbackExt : string) (okCount : nat) : nat :=
  match sample with
  | [] => okCount
  | candidate :: rest =>
      let rewrittenUrl :=
        replaceSegmentExtension (cand_resolved candidate) primaryExt fallbackExt in
      if String.eqb rewrittenUrl (cand_resolved candidate) then O
      else if negb (probeSegmentContent rewrittenUrl) then O
      else countRewritable rest primaryExt fallbackExt (S okCount)
  end.

Fixpoint tryFallbacks (fallbackExts : list string) (sample : list Candidate)
    (primaryExt content baseUrl : string) : option string :=
  match fallbackExts with
  | [] => None
  | fallbackExt :: rest =>
      let okCount := countRewritable sample primaryExt fallbackExt O in
      let next := tryFallbacks rest sample primaryExt content baseUrl in
      if (Nat.eqb okCount (List.length sample) && Nat.ltb 0 okCount)%bool then
        let rewritten :=
          rewriteSegmentExtensions content [(primaryExt, fallbackExt)] in
        if (hasMediaSegments rewritten
            && isNone (findInvalidSegmentLine rewritten baseUrl))%bool
        then Some rewritten
        else next
      else next
  end.

Definition tryRewriteImageSegments (content baseUrl : string) : option string :=
  match collectInvalidSegmentCandidates content baseUrl with
  | [] => None
  | (first :: _) as candidates =>
      let primaryExt := cand_ext first in
      if isEmpty primaryExt then None
      else
        let sample :=
          firstn MAX_SEGMENT_PROBES
            (List.filter (fun c => String.eqb (cand_ext c) primaryExt) candidates) in
        match sample with
        | [] => None
        | _ => tryFallbacks (getFallbackExtensions primaryExt) sample
                 primaryExt content baseUrl
        end
  end.


(** The loop of [filterInvalidSegments]: [filtered], [pendingSegmentTags]
    and [removed] are its three mutable variables. *)
Fixpoint filterLoop (lines : list string) (baseUrl : string)
    (filtered pendingSegmentTags : list string) (removed : nat)
    : list string * nat :=
  match lines with
  | [] => (filtered, removed)
  | line :: rest =>
      let trimmed := trim line in
      if isEmpty trimmed then
        match pendingSegmentTags with
        | [] => filterLoop rest baseUrl (filtered ++ [line]) [] removed
        | _ => filterLoop rest baseUrl filtered pendingSegmentTags removed
        end
      else if (startsWith "#EXTINF" trimmed
               || startsWith "#EXT-X-BYTERANGE" trimmed)%bool then
        filterLoop rest baseUrl filtered (pendingSegmentTags ++ [line]) removed
      else if startsWith "#" trimmed then
        filterLoop rest baseUrl (filtered ++ pendingSegmentTags ++ [line]) [] removed
      else if hasInvalidExtension (resolveUrl trimmed baseUrl) then
        filterLoop rest baseUrl filtered [] (S removed)
      else
        filterLoop rest baseUrl (filtered ++ pendingSegmentTags ++ [line]) [] removed
  end.

Record Filtered := { flt_content : string; flt_removed : nat }.

Definition filterInvalidSegments (content baseUrl : string) : Filtered :=
  if negb (hasMediaSegments content)
  then {| flt_content := content; flt_removed := 0 |}
  else
    let '(filtered, removed) :=
      filterLoop (splitLines content) baseUrl [] [] 0 in
    {| flt_content := join (String "010" "") filtered;
       flt_removed := removed |}.

Definition isLikelyPlayableMediaPlaylist (content baseUrl : string) : bool :=
  if negb (looksLikeM3U8 content) then false
  else if negb (hasMediaSegments content) then false
  else isNone (findInvalidSegmentLine content baseUrl).

(** *** The disguised-segment stage of [runAttempt]

    From the resolved playlist to the content handed to
    [sanitizeM3U8Content], with the two flags stored in the proxy token
    context. *)

Record Repaired := {
  contentToSanitize : string;
  allowImageSegments : bool;
  allowEncryptedImageSegments : bool
}.

Definition repairPlaylist (content url : string) : Res Repaired :=
  if negb (looksLikeM3U8 content)
  then Throw "Playlist content is not a valid M3U8"
  else
    let hasInvalidCandidates :=
      Nat.ltb 0 (List.length (collectInvalidSegmentCandidates content url)) in
    let hasEncryption := hasEncryptionOrMap content in
    let st :=
      if hasInvalidCandidates then
        if hasEncryption then
          {| contentToSanitize := content;
             allowImageSegments := true;
             allowEncryptedImageSegments := true |}
        else if areImageSegmentsMedia content url then
          {| contentToSanitize := content;
             allowImageSegments := true;
             allowEncryptedImageSegments := false |}
        else
          match tryRewriteImageSegments content url with
          | Some rewritten =>
              if isEmpty rewritten then
                {| contentToSanitize := content;
                   allowImageSegments := true;
                   allowEncryptedImageSegments := false |}
              else
                {| contentToSanitize := rewritten;
                   allowImageSegments :=
                     negb (isNone (findInvalidSegmentLine rewritten url));
                   allowEncryptedImageSegments := false |}
          | None =>
              {| contentToSanitize := content;
                 allowImageSegments := true;
                 allowEncryptedImageSegments := false |}
          end
      else
        {| contentToSanitize := content;
           allowImageSegments := false;
           allowEncryptedImageSegments := false |} in
    let invalidSegment :=
      if allowImageSegments st then None
      else findInvalidSegmentLine (contentToSanitize st) url in
    match invalidSegment with
    | Some seg =>
        if isEmpty seg then Ret st
        else
          let filtered := filterInvalidSegments (contentToSanitize st) url in
          if (Nat.ltb 0 (flt_removed filtered)
              && hasMediaSegments (flt_content filtered))%bool
          then Ret {| contentToSanitize := flt_content filtered;
                      allowImageSegments := allowImageSegments st;
                      allowEncryptedImageSegments :=
                        allowEncryptedImageSegments st |}
          else Throw ("Playlist contains non-media segment: " +:+ seg)
    | None => Ret st
    end.

(** *** Master playlists *)

Record Variant := { var_url : string; bandwidth : N }.

Definition isDigit (c : ascii) : bool :=
  let n := N_of_ascii c in ((48 <=? n) && (n <=? 57))%N.

Fixpoint takeDigits (s : string) : string :=
  match s with
  | String c r => if isDigit c then String c (takeDigits r) else ""
  | "" => ""
  end.

(** [Number(digits)], exact *)
Fixpoint decimalValue (digits : string) (acc : N) : N :=
  match digits with
  | "" => acc
  | String c r => decimalValue r (10 * acc + (N_of_ascii c - 48))%N
  end.

(** [line.match(/BANDWIDTH=(\d+)/)]: the leftmost occurrence of
    [BANDWIDTH=] that a digit follows. *)
Fixpoint matchBandwidth (line : string) : option N :=
  let here :=
    if startsWith "BANDWIDTH=" line then
      let digits := takeDigits (drop 10 line) in
      if isEmpty digits then None else Some (decimalValue digits 0%N)
    else None in
  match here with
  | Some n => Some n
  | None =>
      match line with
      | "" => None
      | String _ r => matchBandwidth r
      end
  end.

(** The [while (nextIndex < lines.length)] scan for the variant's URI. *)
Fixpoint nextUriLine (lines : list string) : option string :=
  match lines with
  | [] => None
  | l :: rest =>
      let nextLine := trim l in
      if isEmpty nextLine then nextUriLine rest
      else if startsWith "#" nextLine then None
      else Some nextLine
  end.

Fixpoint parseVariantLoop (lines : list string) (baseUrl : string)
    : list Variant :=
  match lines with
  | [] => []
  | l :: rest =>
      let line := trim l in
      if negb (startsWith "#EXT-X-STREAM-INF:" line)
      then parseVariantLoop rest baseUrl
      else
        let bw := default 0%N (matchBandwidth line) in
        match nextUriLine rest with
        | Some nextLine =>
            {| var_url := resolveUrl nextLine baseUrl; bandwidth := bw |}
              :: parseVariantLoop rest baseUrl
        | None => parseVariantLoop rest baseUrl
        end
  end.

Definition parseVariantStreams (content baseUrl : string) : list Variant :=
  parseVariantLoop (splitLines content) baseUrl.

(** [variants.sort((a, b) => b.bandwidth - a.bandwidth)]: a stable sort,
    larger bandwidth first. *)
Fixpoint insertVariant (v : Variant) (sorted : list Variant) : list Variant :=
  match sorted with
  | [] => [v]
  | w :: rest =>
      if (bandwidth w <=? bandwidth v)%N then v :: w :: rest
      else w :: insertVariant v rest
  end.

Fixpoint sortVariants (variants : list Variant) : list Variant :=
  match variants with
  | [] => []
  | v :: rest => insertVariant v (sortVariants rest)
  end.

Record PlaylistResult := { pl_content : string; pl_url : string }.

Definition fetchPlaylist (url : string) : Res PlaylistResult :=
  match fetch (plainGet url) with
  | None => Throw "fetch failed"
  | Some response =>
      if negb (ok response)
      then Throw ("Playlist fetch failed with " +:+ intToString (status response))
      else Ret {| pl_content := body response;
                  pl_url := orElse (responseUrl response) url |}
  end.

Inductive VariantOutcome :=
| Found (candidate : PlaylistResult)
| Exhausted (fallback : option PlaylistResult)
| FetchFailed (message : string).

(** [for (const variant of variants)], with the URLs it fetched. *)
Fixpoint tryVariants (variants : list Variant) (visited : gset string)
    (fallback : option PlaylistResult) : VariantOutcome * list string :=
  match variants with
  | [] => (Exhausted fallback, [])
  | variant :: rest =>
      if (isEmpty (var_url variant)
          || bool_decide (var_url variant ∈ visited))%bool
      then tryVariants rest visited fallback
      else
        match fetchPlaylist (var_url variant) with
        | Throw m => (FetchFailed m, [var_url variant])
        | Ret candidate =>
            let fallback' :=
              match fallback with
              | None => Some candidate
              | Some f => Some f
              end in
            if isLikelyPlayableMediaPlaylist (pl_content candidate)
                 (pl_url candidate)
            then (Found candidate, [var_url variant])
            else
              let '(o, t) := tryVariants rest visited fallback' in
              (o, var_url variant :: t)
        end
  end.

(** [for (let depth = 0; depth < maxDepth; depth += 1)], by the number
    of iterations left. *)
Fixpoint resolveLoop (remaining : nat) (current : PlaylistResult)
    (visited : gset string) : Res PlaylistResult * list string :=
  match remaining with
  | O => (Ret current, [])
  | S k =>
      if bool_decide (pl_url current ∈ visited) then (Ret current, [])
      else
        let visited' := {[pl_url current]} ∪ visited in
        match parseVariantStreams (pl_content current) (pl_url current) with
        | [] => (Ret current, [])
        | variants =>
            match tryVariants (sortVariants variants) visited' None with
            | (Found candidate, t) => (Ret candidate, t)
            | (FetchFailed m, t) => (Throw m, t)
            | (Exhausted None, t) => (Ret current, t)
            | (Exhausted (Some fallback), t) =>
                let '(r, t') := resolveLoop k fallback visited' in
                (r, t ++ t')
            end
        end
  end.

Definition resolveMediaPlaylist (initialUrl : string) (maxDepth : nat)
    : Res PlaylistResult * list string :=
  match fetchPlaylist initialUrl with
  | Throw m => (Throw m, [initialUrl])
  | Ret current =>
      let '(r, t) := resolveLoop maxDepth current ∅ in
      (r, initialUrl :: t)
  end.

Definition DEFAULT_MAX_DEPTH : nat := 3.

End WithPlatform.
End Playlist.

(** ** 4.3 Segment fetcher pool *)

Module Fetcher.
Import JS Platform Playlist.

Definition DEFAULT_SEGMENT_CONCURRENCY : Z := 8.
Definition DEFAULT_SEGMENT_RETRY : Z := 2.
Definition DEFAULT_SEGMENT_TIMEOUT_MS : Z := 25000.
Definition DEFAULT_SEGMENT_MIN_COUNT : nat := 6.

(** *** Attribute lists *)

Fixpoint countChar (c : ascii) (s : string) : nat :=
  match s with
  | "" => O
  | String a r => if Ascii.eqb a c then S (countChar c r) else countChar c r
  end.

(** The double quote character, and a string holding one. *)
Definition dquote : ascii := "034".
Definition dq : string := String dquote "".

(** [list.split(re)] with the lookahead regular expression of
    [parseAttributeList]: a comma separates when an even number of double
    quotes follows it up to the end of the list. *)
Fixpoint splitAttributes (s : string) : list string :=
  match s with
  | "" => [""]
  | String a r =>
      if (Ascii.eqb a "," && Nat.even (countChar dquote r))%bool
      then "" :: splitAttributes r
      else match splitAttributes r with
           | h :: t => String a h :: t
           | [] => [String a ""]
           end
  end.

Definition unquote (value : string) : string :=
  if (startsWith dq value && endsWith dq value)%bool
  then take (String.length value - 2) (drop 1 value)
  else value.

Definition parseAttribute (attrs : gmap string string) (part : string)
  : gmap string string :=
  let trimmed := trim part in
  if isEmpty trimmed then attrs
  else
    match split "=" trimmed with
    | rawKey :: rest =>
        if (isEmpty rawKey || Nat.eqb (List.length rest) 0)%bool then attrs
        else
          let key := toUpperCase (trim rawKey) in
          let value := unquote (trim (join "=" rest)) in
          <[key := value]> attrs
    | [] => attrs
    end.

Definition parseAttributeList (line : string) : gmap string string :=
  match indexOf ":" line with
  | None => ∅
  | Some idx =>
      let list := trim (drop (S idx) line) in
      if isEmpty list then ∅
      else fold_left parseAttribute (splitAttributes list) ∅
  end.

(** [attrs.NAME || ''] *)
Definition attr (attrs : gmap string string) (name : string) : string :=
  default "" (attrs !! name).

(** *** [replaceUriAttribute] *)

(** The text up to and including the first double quote of [s], and what
    follows it. *)
Fixpoint untilClosingQuote (s : string) : option (string * string) :=
  match s with
  | "" => None
  | String c r =>
      if Ascii.eqb c dquote then Some (String c "", r)
      else match untilClosingQuote r with
           | Some (m, rest) => Some (String c m, rest)
           | None => None
           end
  end.

(** The quoted form (URI= followed by a quoted value, in any letter
    case) anchored at the front of [s]: the text matched and what follows
    it. *)
Definition matchQuotedForm (s : string) : option (string * string) :=
  if String.eqb (asciiLower (take 5 s)) ("uri=" +:+ dq) then
    match untilClosingQuote (drop 5 s) with
    | Some (m, rest) => Some (take 5 s +:+ m, rest)
    | None => None
    end
  else None.

Fixpoint takeUntilComma (s : string) : string :=
  match s with
  | "" => ""
  | String c r => if Ascii.eqb c "," then "" else String c (takeUntilComma r)
  end.

(** The bare form [/URI=[^,]+/i] anchored at the front of [s]. *)
Definition matchBareForm (s : string) : option (string * string) :=
  if String.eqb (asciiLower (take 4 s)) "uri=" then
    let value := takeUntilComma (drop 4 s) in
    if isEmpty value then None
    else Some (take 4 s +:+ value, drop (String.length value) (drop 4 s))
  else None.

(** The first match of a pattern in [s]: the text before it, the text
    matched and the text after it. *)
Fixpoint firstMatch (pattern : string -> option (string * string))
    (s : string) : option (string * string * string) :=
  match pattern s with
  | Some (m, rest) => Some ("", m, rest)
  | None =>
      match s with
      | "" => None
      | String c r =>
          match firstMatch pattern r with
          | Some (b, m, a) => Some (String c b, m, a)
          | None => None
          end
      end
  end.

(** The replacement text of [String.prototype.replace] for a pattern
    without capture groups: in the template, a dollar sign followed by a
    dollar sign is one dollar sign, followed by [&] it is the text
    matched, followed by a backquote the text before the match, followed
    by a quote the text after it; any other dollar sign stands for
    itself. *)
Fixpoint getSubstitution (template before matched after : string) : string :=
  match template with
  | "" => ""
  | String c r =>
      if Ascii.eqb c "$" then
        match r with
        | String d r2 =>
            if Ascii.eqb d "$"
            then String "$" (getSubstitution r2 before matched after)
            else if Ascii.eqb d "&"
            then matched +:+ getSubstitution r2 before matched after
            else if Ascii.eqb d "`"
            then before +:+ getSubstitution r2 before matched after
            else if Ascii.eqb d "'"
            then after +:+ getSubstitution r2 before matched after
            else String c (getSubstitution r before matched after)
        | "" => String c ""
        end
      else String c (getSubstitution r before matched after)
  end.

(** [line.replace(pattern, template)] for a pattern that is not global;
    [None] when the pattern does not match ([pattern.test(line)] is
    false). *)
Definition replaceFirst (pattern : string -> option (string * string))
    (line template : string) : option string :=
  match firstMatch pattern line with
  | Some (b, m, a) => Some (b +:+ getSubstitution template b m a +:+ a)
  | None => None
  end.

Definition replaceUriAttribute (line newUri : string) : string :=
  let template := "URI=" +:+ dq +:+ newUri +:+ dq in
  match replaceFirst matchQuotedForm line template with
  | Some r => r
  | None =>
      match replaceFirst matchBareForm line template with
      | Some r => r
      | None => line
      end
  end.

(** *** Local names *)

Fixpoint dropTrailingSlashes (s : string) : string :=
  match s with
  | "" => ""
  | String c r =>
      let r' := dropTrailingSlashes r in
      if (Ascii.eqb c "/" && isEmpty r')%bool then "" else String c r'
  end.

(** The last [/]-separated component. *)
Definition lastComponent (p : string) : string :=
  match lastIndexOf "/" p with
  | Some i => drop (S i) p
  | None => p
  end.

(** Node's [path.posix.extname]: from the last dot of the last path
    component (trailing slashes ignored) to its end; empty when there is
    no dot, when the only dot starts the component, or for [..]. *)
Definition extname (p : string) : string :=
  let component := lastComponent (dropTrailingSlashes p) in
  match lastIndexOf "." component with
  | None => ""
  | Some O => ""
  | Some (S i) =>
      if String.eqb component ".." then "" else drop (S i) component
  end.

Fixpoint zeros (n : nat) : string :=
  match n with O => "" | S k => String "0" (zeros k) end.

(** [s.padStart(width, '0')] *)
Definition padStart0 (width : nat) (s : string) : string :=
  zeros (width - String.length s) +:+ s.

(** [path.posix.join(dir, name)] for a directory name and a file name
    without separators. *)
Definition joinPath (dir name : string) : string := dir +:+ "/" +:+ name.

Record Parsed := { lineIndex : nat; resolved : string; localPath : string }.

Record PlanState := {
  segments : list Parsed;
  keys : list Parsed;
  maps : list Parsed;
  keyMap : list (string * string);   (* insertion-ordered Map *)
  mapMap : list (string * string);
  hasByterange : bool;
  hasPartial : bool
}.

Definition emptyPlan : PlanState :=
  {| segments := []; keys := []; maps := []; keyMap := []; mapMap := [];
     hasByterange := false; hasPartial := false |}.

Section WithPlatform.

Variable resolveUrl : string -> string -> string.
(** [new URL(u).pathname], [None] when the constructor throws *)
Variable urlPathname : string -> option string.

Definition getSafeSegmentExtension (resolvedUrl : string) : string :=
  match urlPathname resolvedUrl with
  | None => ".ts"
  | Some pathname =>
      let ext := toLowerCase (extname pathname) in
      if (isEmpty ext || includesStr ext INVALID_SEGMENT_EXTENSIONS)%bool
      then ".ts" else ext
  end.

Definition segmentName (count : nat) (resolvedUrl : string) : string :=
  "seg_" +:+ padStart0 5 (natToString (count + 1))
    +:+ getSafeSegmentExtension resolvedUrl.

(** One iteration of the classification loop; [None] is [return null]. *)
Definition planLine (baseUrl : string) (i : nat) (rawLine : string)
    (st : PlanState) : option PlanState :=
  let line := trim rawLine in
  if isEmpty line then Some st
  else if startsWith "#EXT-X-BYTERANGE" line then
    Some {| segments := segments st; keys := keys st; maps := maps st;
            keyMap := keyMap st; mapMap := mapMap st;
            hasByterange := true; hasPartial := hasPartial st |}
  else if (startsWith "#EXT-X-PART" line
           || startsWith "#EXT-X-PRELOAD-HINT" line)%bool then
    Some {| segments := segments st; keys := keys st; maps := maps st;
            keyMap := keyMap st; mapMap := mapMap st;
            hasByterange := hasByterange st; hasPartial := true |}
  else if startsWith "#EXT-X-KEY" line then
    let attrs := parseAttributeList line in
    let method := toUpperCase (attr attrs "METHOD") in
    let keyformat := toLowerCase (attr attrs "KEYFORMAT") in
    if (negb (isEmpty keyformat) && negb (String.eqb keyformat "identity"))%bool
    then None
    else
      let uri := attr attrs "URI" in
      if (negb (isEmpty method) && negb (String.eqb method "NONE")
          && negb (isEmpty uri))%bool then
        let resolved := resolveUrl uri baseUrl in
        let keyMap' :=
          match lookupProp resolved (keyMap st) with
          | Some _ => keyMap st
          | None =>
              keyMap st ++
                [(resolved,
                  "key_" +:+ natToString (List.length (keyMap st) + 1) +:+ ".key")]
          end in
        let localName := default "" (lookupProp resolved keyMap') in
        Some {| segments := segments st;
                keys :=
                  if isEmpty localName then keys st
                  else keys st ++
                         [{| lineIndex := i; resolved := resolved;
                             localPath := joinPath "keys" localName |}];
                maps := maps st; keyMap := keyMap'; mapMap := mapMap st;
                hasByterange := hasByterange st; hasPartial := hasPartial st |}
      else Some st
  else if startsWith "#EXT-X-MAP" line then
    let attrs := parseAttributeList line in
    let uri := attr attrs "URI" in
    if negb (isEmpty uri) then
      let resolved := resolveUrl uri baseUrl in
      let mapMap' :=
        match lookupProp resolved (mapMap st) with
        | Some _ => mapMap st
        | None =>
            mapMap st ++
              [(resolved,
                "init_" +:+ natToString (List.length (mapMap st) + 1)
                  +:+ getSafeSegmentExtension resolved)]
        end in
      let localName := default "" (lookupProp resolved mapMap') in
      Some {| segments := segments st; keys := keys st;
              maps :=
                if isEmpty localName then maps st
                else maps st ++
                       [{| lineIndex := i; resolved := resolved;
                           localPath := joinPath "maps" localName |}];
              keyMap := keyMap st; mapMap := mapMap';
              hasByterange := hasByterange st; hasPartial := hasPartial st |}
    else Some st
  else if startsWith "#" line then Some st
  else
    let resolved := resolveUrl line baseUrl in
    let name := segmentName (List.length (segments st)) resolved in
    Some {| segments :=
              segments st ++
                [{| lineIndex := i; resolved := resolved;
                    localPath := joinPath "segments" name |}];
            keys := keys st; maps := maps st;
            keyMap := keyMap st; mapMap := mapMap st;
            hasByterange := hasByterange st; hasPartial := hasPartial st |}.

(** [for (let i = 0; i < lines.length; i++)] *)
Fixpoint planLoop (baseUrl : string) (lines : list string) (i : nat)
    (st : PlanState) : option PlanState :=
  match lines with
  | [] => Some st
  | rawLine :: rest =>
      match planLine baseUrl i rawLine st with
      | None => None
      | Some st' => planLoop baseUrl rest (S i) st'
      end
  end.

(** Everything [downloadHlsSegmentsParallel] decides before its first
    effect: [None] when it returns [null]. *)
Definition planDownload (content baseUrl : string) : option PlanState :=
  if (negb (isVodPlaylist content) || negb (hasMediaSegments content))%bool
  then None
  else
    match planLoop baseUrl (splitLines content) 0 emptyPlan with
    | None => None
    | Some st =>
        if (hasByterange st || hasPartial st)%bool then None
        else if Nat.ltb (List.length (segments st)) DEFAULT_SEGMENT_MIN_COUNT
        then None
        else Some st
    end.

(** [new Map] filled by [for (const x of xs) m.set(x.lineIndex, x.localPath)] *)
Definition lineTable (xs : list Parsed) : gmap nat string :=
  fold_left (fun m x => <[lineIndex x := localPath x]> m) xs ∅.

Definition rewriteLine (st : PlanState) (index : nat) (line : string)
    : string :=
  match lineTable (keys st) !! index with
  | Some p => replaceUriAttribute line p
  | None =>
      match lineTable (maps st) !! index with
      | Some p => replaceUriAttribute line p
      | None =>
          match lineTable (segments st) !! index with
          | Some p => orElse p line
          | None => line
          end
      end
  end.

Definition rewriteManifest (st : PlanState) (lines : list string)
    : list string :=
  imap (rewriteLine st) lines.

End WithPlatform.

(** *** Downloads *)

(** Who acts: the body of [downloadHlsSegmentsParallel] itself, or one of
    its workers. *)
Inductive Task :=
| MainTask
| WorkerTask (w : nat).

Inductive Event :=
| EvFetch (url : string) (timeoutMs : Z)
| EvSleep (ms : Z)
| EvWrite (filePath : string).

(** What has happened so far, each event with the task it belongs to. *)
Definition Log : Type := list (Task * Event).

(** What one [fetchWithTimeout] followed by [writeResponseToFile] meets. *)
Inductive Outcome :=
| FetchError (message : string)       (* network error or timeout *)
| Status (code : Z) (writeError : option string).
                                      (* a response, and the error that
                                         writing its body met, if any *)

Definition statusOk (code : Z) : bool := ((200 <=? code) && (code <=? 299))%Z.

(** [Math.max(0, Math.floor(toNumber(process.env.DOWNLOAD_SEGMENT_RETRY, 2)))]
    for an unset variable or one holding an integer. *)
Definition configuredRetries (env : option Z) : nat :=
  Z.to_nat (Z.max 0 (default DEFAULT_SEGMENT_RETRY env)).

Definition configuredTimeoutMs (env : option Z) : Z :=
  Z.max 5000 (default DEFAULT_SEGMENT_TIMEOUT_MS env).

Definition configuredConcurrency (env : option Z) : nat :=
  Z.to_nat (Z.max 2 (default DEFAULT_SEGMENT_CONCURRENCY env)).

(** What a download is suspended on. *)
Inductive Pending :=
| AwaitResponse   (* [await fetchWithTimeout] and [await writeResponseToFile] *)
| AwaitTimer.     (* [await new Promise (setTimeout)] *)

(** A call of [downloadFileWithRetry] that is suspended. *)
Record Download := {
  dl_url : string;
  dl_filePath : string;
  dl_attempt : nat;
  dl_pending : Pending
}.

(** What a call of [downloadFileWithRetry] has come to. *)
Inductive Progress :=
| Waiting (d : Download)
| Returned
| Threw (message : string).

Section WithNetwork.

(** What answers a request, and the state of the cancellation signal,
    given everything that has happened when the answer arrives or the
    signal is looked at. *)
Variable network : Log -> string -> Outcome.
Variable aborted : Log -> bool.

Variable timeoutMs : Z.
Variable retries : nat.

(** The call up to its first [await]: the first request is sent
    ([attempt <= retries] holds for [attempt = 0]). *)
Definition startDownload (task : Task) (url filePath : string) (log : Log)
  : Download * Log :=
  ({| dl_url := url; dl_filePath := filePath; dl_attempt := 0;
      dl_pending := AwaitResponse |},
   log ++ [(task, EvFetch url timeoutMs)]).

(** The call from the arrival of what it waits for to its next [await],
    its return or its throw. *)
Definition resumeDownload (task : Task) (d : Download) (log : Log)
  : Progress * Log :=
  match dl_pending d with
  | AwaitTimer =>
      (* [while (attempt <= retries)] *)
      if Nat.leb (dl_attempt d) retries
      then (Waiting {| dl_url := dl_url d; dl_filePath := dl_filePath d;
                       dl_attempt := dl_attempt d;
                       dl_pending := AwaitResponse |},
            log ++ [(task, EvFetch (dl_url d) timeoutMs)])
      else (Returned, log)
  | AwaitResponse =>
      let catch (message : string) :=
        if aborted log then (Threw "Download aborted", log)
        else if Nat.leb retries (dl_attempt d) then (Threw message, log)
        else (Waiting {| dl_url := dl_url d; dl_filePath := dl_filePath d;
                         dl_attempt := S (dl_attempt d);
                         dl_pending := AwaitTimer |},
              log ++ [(task, EvSleep (400 * Z.of_nat (S (dl_attempt d))))]) in
      match network log (dl_url d) with
      | FetchError message => catch message
      | Status code writeError =>
          if negb (statusOk code) then catch ("HTTP " +:+ intToString code)
          else match writeError with
               | Some message => catch message
               | None => (Returned, log ++ [(task, EvWrite (dl_filePath d))])
               end
      end
  end.

(** A call that nothing else runs beside: what it waits for is what
    arrives next. *)
Fixpoint awaitDownload (fuel : nat) (task : Task) (d : Download) (log : Log)
  : option (Res unit * Log) :=
  match fuel with
  | O => None
  | S fuel' =>
      match resumeDownload task d log with
      | (Waiting d', log') => awaitDownload fuel' task d' log'
      | (Returned, log') => Some (Ret tt, log')
      | (Threw message, log') => Some (Throw message, log')
      end
  end.

(** [await downloadFileWithRetry(...)] in the body of the function, where
    no worker runs yet: a request and a pause for each attempt but the
    last, and the last request. *)
Definition downloadFileWithRetry (url filePath : string) (log : Log)
  : option (Res unit * Log) :=
  let '(d, log') := startDownload MainTask url filePath log in
  awaitDownload (2 * retries + 1) MainTask d log'.

(** Downloads one after the other, stopping at the first that throws:
    the loops over the keys and over the init-maps. *)
Fixpoint downloadEach (items : list (string * string)) (log : Log)
    : option (Res unit * Log) :=
  match items with
  | [] => Some (Ret tt, log)
  | (url, filePath) :: rest =>
      match downloadFileWithRetry url filePath log with
      | None => None
      | Some (Throw m, log') => Some (Throw m, log')
      | Some (Ret _, log') => downloadEach rest log'
      end
  end.

(** *** The workers *)

(** A worker: suspended on the download of the segment [index], returned,
    or rejected. *)
Inductive Worker :=
| Working (index : nat) (d : Download)
| Finished
| Rejected (message : string).

Record Pool := {
  nextIndex : nat;
  workers : list Worker;
  poolLog : Log;
  rejection : option string   (* the error of the first worker to reject *)
}.

Variable tempDir : string.
Variable segs : list Parsed.

(** A worker from the head of its [while] loop to its next [await]. *)
Definition workerLoop (w : nat) (next : nat) (log : Log)
  : Worker * nat * Log :=
  if Nat.ltb next (List.length segs) then
    if aborted log then (Rejected "Download aborted", next, log)
    else
      match segs !! next with
      | Some segment =>
          let '(d, log') :=
            startDownload (WorkerTask w) (resolved segment)
              (joinPath tempDir (localPath segment)) log in
          (Working next d, S next, log')
      | None => (Finished, S next, log)
      end
  else (Finished, next, log).

(** A worker from the arrival of what its download waits for to its next
    [await]; a download that returns is followed by the next turn of the
    loop.  (The progress report between the two has no part in what is
    downloaded.) *)
Definition resumeWorker (w : nat) (index : nat) (d : Download) (next : nat)
    (log : Log) : Worker * nat * Log :=
  match resumeDownload (WorkerTask w) d log with
  | (Waiting d', log') => (Working index d', next, log')
  | (Threw message, log') => (Rejected message, next, log')
  | (Returned, log') => workerLoop w next log'
  end.

Definition firstRejection (rejection : option string) (worker : Worker)
  : option string :=
  match rejection, worker with
  | None, Rejected message => Some message
  | _, _ => rejection
  end.

(** [new Array(count).fill(0).map(async () => ...)]: the workers are
    started one after the other, each running to its first [await]. *)
Fixpoint startWorkers (count : nat) (pool : Pool) : Pool :=
  match count with
  | O => pool
  | S count' =>
      let '(worker, next, log) :=
        workerLoop (List.length (workers pool)) (nextIndex pool)
          (poolLog pool) in
      startWorkers count'
        {| nextIndex := next; workers := workers pool ++ [worker];
           poolLog := log;
           rejection := firstRejection (rejection pool) worker |}
  end.

(** What the worker [w] waits for arrives. *)
Definition poolStep (w : nat) (pool : Pool) : Pool :=
  match workers pool !! w with
  | Some (Working index d) =>
      let '(worker, next, log) :=
        resumeWorker w index d (nextIndex pool) (poolLog pool) in
      {| nextIndex := next; workers := <[w := worker]> (workers pool);
         poolLog := log;
         rejection := firstRejection (rejection pool) worker |}
  | _ => pool
  end.

(** The workers that are suspended, by their numbers. *)
Definition isWorking (worker : Worker) : bool :=
  match worker with Working _ _ => true | _ => false end.

Fixpoint suspendedFrom (w : nat) (ws : list Worker) : list nat :=
  match ws with
  | [] => []
  | worker :: rest =>
      (if isWorking worker then [w] else []) ++ suspendedFrom (S w) rest
  end.

Definition suspended (ws : list Worker) : list nat := suspendedFrom 0 ws.

(** The worker whose wait ends next: the choice [k] is taken among the
    suspended workers, whatever its value. *)
Definition chosen (ws : list Worker) (k : nat) : option nat :=
  suspended ws !! (k mod List.length (suspended ws))%nat.

(** [await Promise.all(workers)]: it throws as soon as a worker has
    rejected, with that worker's error, and returns when every worker has
    returned.  [schedule] gives, for each arrival, the choice of the
    worker it is for.  The workers that are suspended when it throws stay
    so: nothing cancels them. *)
Fixpoint awaitWorkers (fuel : nat) (schedule : nat -> nat) (step : nat)
    (pool : Pool) : option (Res unit * Pool) :=
  match rejection pool with
  | Some message => Some (Throw message, pool)
  | None =>
      match chosen (workers pool) (schedule step) with
      | None => Some (Ret tt, pool)
      | Some w =>
          match fuel with
          | O => None
          | S fuel' => awaitWorkers fuel' schedule (S step) (poolStep w pool)
          end
      end
  end.

(** The number of arrivals after which every worker has settled. *)
Definition arrivalBound : nat := (List.length segs * (2 * retries + 1))%nat.

(** The worker pool over the segments. *)
Definition downloadSegments (concurrency : nat) (schedule : nat -> nat)
    (log : Log) : option (Res unit * Pool) :=
  awaitWorkers arrivalBound schedule 0
    (startWorkers (Nat.min concurrency (List.length segs))
       {| nextIndex := 0; workers := []; poolLog := log; rejection := None |}).

End WithNetwork.

Inductive PoolResult :=
| Declined                                   (* [return null] *)
| PoolFailed (message : string)              (* the promise rejects *)
| Downloaded (playlistPath : string) (manifest : string) (segmentCount : nat).

Definition downloadHlsSegmentsParallel
    (resolveUrl : string -> string -> string)
    (urlPathname : string -> option string)
    (network : Log -> string -> Outcome)
    (aborted : Log -> bool)
    (concurrencyEnv retryEnv timeoutEnv : option Z)
    (schedule : nat -> nat)
    (content baseUrl tempDir : string)
    : option (PoolResult * Log) :=
  match planDownload resolveUrl urlPathname content baseUrl with
  | None => Some (Declined, [])
  | Some st =>
      let retries := configuredRetries retryEnv in
      let timeoutMs := configuredTimeoutMs timeoutEnv in
      let keyFiles :=
        map (fun '(resolved, localName) =>
               (resolved, joinPath tempDir (joinPath "keys" localName)))
            (keyMap st) in
      let mapFiles :=
        map (fun '(resolved, localName) =>
               (resolved, joinPath tempDir (joinPath "maps" localName)))
            (mapMap st) in
      match downloadEach network aborted timeoutMs retries keyFiles [] with
      | None => None
      | Some (Throw m, log) => Some (PoolFailed m, log)
      | Some (Ret _, log) =>
          match downloadEach network aborted timeoutMs retries mapFiles log with
          | None => None
          | Some (Throw m, log) => Some (PoolFailed m, log)
          | Some (Ret _, log) =>
              match downloadSegments network aborted timeoutMs retries
                      tempDir (segments st)
                      (configuredConcurrency concurrencyEnv) schedule log with
              | None => None
              | Some (Throw m, pool) => Some (PoolFailed m, poolLog pool)
              | Some (Ret _, pool) =>
                  let playlistPath := joinPath tempDir "playlist-local.m3u8" in
                  let rewritten :=
                    rewriteManifest st (splitLines content) in
                  Some (Downloaded playlistPath
                          (join (String "010" "") rewritten)
                          (List.length (segments st)),
                        poolLog pool ++ [(MainTask, EvWrite playlistPath)])
              end
          end
      end
  end.

End Fetcher.

(** ** The shared cache *)

Module Db.
Import Platform.

(** The forwarding context stored under a proxy token. *)
Record TokenContext := {
  tc_username : option string;
  tc_referer : option string;
  tc_userAgent : option string;
  tc_origin : option string;
  tc_cookie : option string;
  tc_authorization : option string;
  tc_allowImageSegments : option bool;
  tc_allowEncryptedImageSegments : option bool
}.

Inductive CacheValue :=
| VNumber (n : Z)
| VToken (ctx : TokenContext).

(** Modelled from the spec: the shared cache [db] of [@/lib/db], whose code
    is not among the sources.  It is a key-value store with
    [get(key) -> value|none] and [set(key, value, ttlSeconds)]; an entry is
    returned until its time to live has passed.  A call may fail when the
    store is unreachable. *)
Record Cache := {
  now : Z;                                    (* seconds *)
  entries : gmap string (CacheValue * Z);     (* value, expiry time *)
  online : bool
}.

Definition getCache (c : Cache) (key : string) : Res (option CacheValue) :=
  if negb (online c) then Throw "cache unavailable"
  else
    match entries c !! key with
    | Some (v, expiresAt) => if now c <? expiresAt then Ret (Some v) else Ret None
    | None => Ret None
    end.

Definition setCache (c : Cache) (key : string) (v : CacheValue) (ttlSeconds : Z)
  : Res Cache :=
  if negb (online c) then Throw "cache unavailable"
  else Ret {| now := now c;
              entries := <[key := (v, now c + ttlSeconds)]> (entries c);
              online := online c |}.

(** Time passes. *)
Definition elapse (seconds : Z) (c : Cache) : Cache :=
  {| now := now c + seconds; entries := entries c; online := online c |}.

End Db.

(** ** 4.6 Quota manager *)

Module Quota.
Import JS Platform Db.

Definition DEFAULT_DAILY_LIMIT : Z := 3.

Record QuotaResult := {
  allowed : bool;
  remaining : option Z;
  reason : option string;
  cacheKey : option string;
  expireSeconds : option Z
}.

(** [Math.max(0, Math.floor(toNumber(rawCount, 0)))] on cache values: an
    absent entry, or one that is not a number, counts as 0. *)
Definition currentCountOf (rawCount : option CacheValue) : Z :=
  match rawCount with
  | Some (VNumber n) => Z.max 0 n
  | _ => 0
  end.

Definition quotaKey (username dateKey : string) : string :=
  "download-limit:" +:+ username +:+ ":" +:+ dateKey.

Definition exhausted : QuotaResult :=
  {| allowed := false; remaining := Some 0;
     reason := Some "下载次数已用尽";
     cacheKey := None; expireSeconds := None |}.

Definition failOpen : QuotaResult :=
  {| allowed := true; remaining := None; reason := None;
     cacheKey := None; expireSeconds := None |}.

(** [checkAndConsumeQuota]; [dateKey] and [secondsUntilNextDay] are what
    [formatDateKey(now)] and [secondsUntilNextDay(now)] give at the call. *)
Definition checkAndConsumeQuota
    (username : string) (limitEnabled : bool) (limitPerDay : Z)
    (checkOnly : bool) (dateKey : string) (secondsUntilNextDay : Z)
    (c : Cache) : QuotaResult * Cache :=
  if negb limitEnabled then (failOpen, c)
  else if limitPerDay <=? 0 then (exhausted, c)
  else
    let key := quotaKey username dateKey in
    match getCache c key with
    | Throw _ => (failOpen, c)
    | Ret rawCount =>
        let currentCount := currentCountOf rawCount in
        if limitPerDay <=? currentCount then (exhausted, c)
        else if checkOnly then
          ({| allowed := true;
              remaining := Some (Z.max 0 (limitPerDay - currentCount));
              reason := None;
              cacheKey := Some key;
              expireSeconds := Some secondsUntilNextDay |}, c)
        else
          let nextCount := currentCount + 1 in
          match setCache c key (VNumber nextCount) secondsUntilNextDay with
          | Throw _ => (failOpen, c)
          | Ret c' =>
              ({| allowed := true;
                  remaining := Some (Z.max 0 (limitPerDay - nextCount));
                  reason := None;
                  cacheKey := Some key;
                  expireSeconds := Some secondsUntilNextDay |}, c')
          end
    end.

(** The [refundQuota] closure of [executeDownloadCore], over the result of
    the consuming call. *)
Definition refundQuota (limitEnabled : bool) (quotaResult : QuotaResult)
    (c : Cache) : Cache :=
  match cacheKey quotaResult, expireSeconds quotaResult with
  | Some key, Some expire =>
      if (negb limitEnabled || isEmpty key || (expire =? 0))%bool then c
      else
        match getCache c key with
        | Throw _ => c
        | Ret rawCount =>
            let currentCount := currentCountOf rawCount in
            if 0 <? currentCount then
              match setCache c key (VNumber (currentCount - 1)) expire with
              | Throw _ => c
              | Ret c' => c'
              end
            else c
        end
  | _, _ => c
  end.

(** The counter a cache holds for a user and day. *)
Definition counter (c : Cache) (username dateKey : string) : Z :=
  match getCache c (quotaKey username dateKey) with
  | Ret rawCount => currentCountOf rawCount
  | Throw _ => 0
  end.

End Quota.

(** ** 4.4 Proxy gateway *)

Module Gateway.
Import JS Platform Db Playlist.

Record URL := {
  protocol : string;
  hostname : string;
  pathname : string;
  href : string
}.

Record GatewayRequest := {
  param_u : option string;        (* searchParams.get('u') *)
  param_url : option string;
  param_token : option string;
  header_host : option string;
  header_range : option string;
  request_url : string
}.

Record Upstream := {
  up_ok : bool;
  up_status : Z;
  up_statusText : string;
  up_contentType : option string;
  up_firstChunk : string;         (* what [peekStream] reads first *)
  up_body : string
}.

Record GatewayResponse := {
  g_status : Z;
  g_contentType : option string;
  g_body : string
}.

(** [NextResponse.json({ error }, { status })] *)
Definition jsonError (message : string) (status : Z) : GatewayResponse :=
  {| g_status := status; g_contentType := Some "application/json";
     g_body := message |}.

Definition textResponse (message : string) (status : Z) : GatewayResponse :=
  {| g_status := status; g_contentType := Some "text/plain";
     g_body := message |}.

(** [!x] for a string or null *)
Definition falsy (x : option string) : bool :=
  match x with None => true | Some s => isEmpty s end.

(** [/^172\.(1[6-9]|2[0-9]|3[0-1])\./.test(lower)] *)
Definition isPrivate172 (lower : string) : bool :=
  existsb (fun p => startsWith p lower)
    ["172.16."; "172.17."; "172.18."; "172.19."; "172.20."; "172.21.";
     "172.22."; "172.23."; "172.24."; "172.25."; "172.26."; "172.27.";
     "172.28."; "172.29."; "172.30."; "172.31."].

Definition isPrivateHost (host : string) : bool :=
  let lower := toLowerCase host in
  (String.eqb lower "localhost" || String.eqb lower "::1"
   || startsWith "127." lower || startsWith "0." lower
   || startsWith "10." lower || isPrivate172 lower
   || startsWith "192.168." lower)%bool.

(** [/\.(jpg|jpeg|png|gif|webp|bmp|svg|ico)$/.test(pathLower)] *)
Definition hasImageExtension (pathLower : string) : bool :=
  existsb (fun ext => endsWith ext pathLower) INVALID_SEGMENT_EXTENSIONS.

Definition tokenKey (token : string) : string := "download-proxy:" +:+ token.

Definition truthyValue (v : option CacheValue) : bool :=
  match v with
  | None => false
  | Some (VNumber n) => negb (n =? 0)
  | Some (VToken _) => true
  end.

Definition tokenDataOf (v : option CacheValue) : option TokenContext :=
  match v with
  | Some (VToken ctx) => Some ctx
  | _ => None
  end.

Definition DEFAULT_USER_AGENT : string :=
  "Mozilla/5.0 (Windows NT 10.0; Win64; x64) AppleWebKit/537.36 (KHTML, like Gecko) Chrome/124.0.0.0 Safari/537.36".

Section WithPlatform.

(** [new URL(target, base)], [None] when it throws *)
Variable parseURL : string -> string -> option URL.
(** [Buffer.from(s, 'base64url').toString('utf-8')] *)
Variable base64urlDecode : string -> string.
(** The upstream [fetch] of the target with the forwarded headers. *)
Variable upstream : string -> list (string * string) -> Upstream.

Definition unexpectedContentType (contentType : string) : GatewayResponse :=
  textResponse ("Unexpected segment content-type: "
                  +:+ orElse contentType "unknown") 502.

(** The route handler [GET]; [Throw] when the cache lookup throws. *)
Definition GET (request : GatewayRequest) (cache : Cache)
    : Res GatewayResponse :=
  if (falsy (param_u request) && falsy (param_url request))%bool
  then Ret (jsonError "Missing url" 400)
  else if falsy (param_token request)
  then Ret (jsonError "Unauthorized" 403)
  else
    match getCache cache (tokenKey (default "" (param_token request))) with
    | Throw m => Throw m
    | Ret tokenValue =>
        if negb (truthyValue tokenValue)
        then Ret (jsonError "Unauthorized" 403)
        else
          let tokenData := tokenDataOf tokenValue in
          let stored (f : TokenContext -> option string) : option string :=
            match tokenData with Some d => f d | None => None end in
          let allowImageSegments :=
            match tokenData with
            | Some d => bool_decide (tc_allowImageSegments d = Some true)
            | None => false
            end in
          let allowEncryptedImageSegments :=
            match tokenData with
            | Some d => bool_decide (tc_allowEncryptedImageSegments d = Some true)
            | None => false
            end in
          let resolvedUrl :=
            if falsy (param_u request) then default "" (param_url request)
            else base64urlDecode (default "" (param_u request)) in
          match parseURL resolvedUrl (request_url request) with
          | None => Ret (jsonError "Invalid url" 400)
          | Some targetUrl =>
              if negb (includesStr (protocol targetUrl) ["http:"; "https:"])
              then Ret (jsonError "Unsupported protocol" 400)
              else
                let requestHost :=
                  match header_host request with
                  | Some h => Some (toLowerCase (head (split ":" h)))
                  | None => None
                  end in
                if (isPrivateHost (hostname targetUrl)
                    && negb (bool_decide
                               (Some (toLowerCase (hostname targetUrl))
                                = requestHost)))%bool
                then Ret (jsonError "Blocked host" 403)
                else
                  let pathLower := toLowerCase (pathname targetUrl) in
                  if (negb allowImageSegments && hasImageExtension pathLower)%bool
                  then Ret (textResponse "Unsupported segment type" 422)
                  else
                    let headers :=
                      [("User-Agent",
                        orElse (default "" (stored tc_userAgent)) DEFAULT_USER_AGENT);
                       ("Accept", "*/*"); ("Accept-Encoding", "identity");
                       ("Connection", "keep-alive")]
                      ++ (if falsy (stored tc_referer) then []
                          else [("Referer", default "" (stored tc_referer))])
                      ++ (if falsy (stored tc_origin) then []
                          else [("Origin", default "" (stored tc_origin))])
                      ++ (if falsy (stored tc_cookie) then []
                          else [("Cookie", default "" (stored tc_cookie))])
                      ++ (if falsy (stored tc_authorization) then []
                          else [("Authorization",
                                 default "" (stored tc_authorization))])
                      ++ (if falsy (header_range request) then []
                          else [("Range", default "" (header_range request))]) in
                    let response := upstream (href targetUrl) headers in
                    if negb (up_ok response) then
                      Ret (textResponse
                             ("HTTP Error " +:+ intToString (up_status response)
                              +:+ ": " +:+ up_statusText response)
                             (if 500 <=? up_status response then 502
                              else up_status response))
                    else
                      let contentType := default "" (up_contentType response) in
                      let lowerType := toLowerCase contentType in
                      if (startsWith "text/html" lowerType
                          || startsWith "application/json" lowerType)%bool
                      then Ret (unexpectedContentType contentType)
                      else if startsWith "image/" lowerType then
                        if negb allowImageSegments
                        then Ret (unexpectedContentType contentType)
                        else if (negb allowEncryptedImageSegments
                                 && negb (isLikelyMediaBytes
                                            (up_firstChunk response)))%bool
                        then Ret (unexpectedContentType contentType)
                        else Ret {| g_status := up_status response;
                                    g_contentType := Some "application/octet-stream";
                                    g_body := up_body response |}
                      else Ret {| g_status := up_status response;
                                  g_contentType :=
                                    if isEmpty contentType then None
                                    else Some contentType;
                                  g_body := up_body response |}
          end
    end.

End WithPlatform.
End Gateway.

(** ** 4.5 Transcode driver *)

Module Driver.
Import JS Platform Playlist.

(** *** Reading unsupported options off the transcoder's error text *)

Fixpoint takeWhile (p : ascii -> bool) (s : string) : string :=
  match s with
  | "" => ""
  | String c r => if p c then String c (takeWhile p r) else ""
  end.

Fixpoint dropWhile (p : ascii -> bool) (s : string) : string :=
  match s with
  | "" => ""
  | String c r => if p c then dropWhile p r else s
  end.

Definition quoteChar : ascii := "'".
Definition dquoteChar : ascii := "034".

(** The longest front of [s] matched by the class of the third pattern:
    characters that are neither a double quote nor white space. *)
Fixpoint takeWord (s : string) : string :=
  match s with
  | "" => ""
  | String c r =>
      if (Ascii.eqb c dquoteChar || negb (Nat.eqb (whiteSpaceLength s) 0))%bool
      then "" else String c (takeWord r)
  end.

(** [/Unrecognized option '([^']+)'/i] anchored at the front of [s]: the
    captured group and what follows the match. *)
Definition matchUnrecognized (s : string) : option (string * string) :=
  if String.eqb (asciiLower (take 21 s)) "unrecognized option '" then
    let r := drop 21 s in
    let captured := takeWhile (fun c => negb (Ascii.eqb c quoteChar)) r in
    if isEmpty captured then None
    else
      match drop (String.length captured) r with
      | String _ rest => Some (captured, rest)
      | "" => None
      end
  else None.

(** [/Option ([^ ]+) not found/i] anchored at the front of [s]. *)
Definition matchNotFound (s : string) : option (string * string) :=
  if String.eqb (asciiLower (take 7 s)) "option " then
    let r := drop 7 s in
    let captured := takeWhile (fun c => negb (Ascii.eqb c " ")) r in
    let after := drop (String.length captured) r in
    if isEmpty captured then None
    else if String.eqb (asciiLower (take 10 after)) " not found"
    then Some (captured, drop 10 after)
    else None
  else None.

(** The third pattern, anchored at the front of [s]: [Unknown option],
    a space, an optional double quote, one or more characters that are
    neither a double quote nor white space (the captured group), and an
    optional double quote; case-insensitive. *)
Definition matchUnknown (s : string) : option (string * string) :=
  if String.eqb (asciiLower (take 15 s)) "unknown option " then
    let r := drop 15 s in
    let r1 := match r with
              | String c t => if Ascii.eqb c dquoteChar then t else r
              | "" => r
              end in
    let captured := takeWord r1 in
    let after := drop (String.length captured) r1 in
    if isEmpty captured then None
    else Some (captured,
               match after with
               | String c t => if Ascii.eqb c dquoteChar then t else after
               | "" => after
               end)
  else None.

(** [while ((match = pattern.exec(stderr)) !== null)] for a global pattern:
    the captured groups of the successive matches, left to right. *)
Fixpoint execAll (fuel : nat) (pattern : string -> option (string * string))
    (s : string) : list string :=
  match fuel with
  | O => []
  | S fuel' =>
      match pattern s with
      | Some (captured, rest) => captured :: execAll fuel' pattern rest
      | None =>
          match s with
          | "" => []
          | String _ r => execAll fuel' pattern r
          end
      end
  end.

(** [unsupported.add(option)] on an insertion-ordered set *)
Definition addOption (unsupported : list string) (captured : string)
  : list string :=
  let option := trim (dropWhile (fun c => Ascii.eqb c "-") captured) in
  if isEmpty option then unsupported
  else if includesStr option unsupported then unsupported
  else unsupported ++ [option].

Definition detectUnsupportedFfmpegOptions (stderr : string) : list string :=
  let fuel := S (String.length stderr) in
  fold_left addOption
    (execAll fuel matchUnrecognized stderr
       ++ execAll fuel matchNotFound stderr
       ++ execAll fuel matchUnknown stderr) [].

(** *** Arguments and their narrowing *)

Record OptionState := {
  includeHeaders : bool;
  includeProtocolWhitelist : bool;
  includeAllowedExtensions : bool;
  includeAllowedSegmentExtensions : bool
}.

Definition baseArgs : list string :=
  ["-hide_banner"; "-loglevel"; "error"; "-progress"; "pipe:1"; "-nostats"].

Definition inputArgs (inputUrl outputPath : string) : list string :=
  ["-i"; inputUrl; "-c"; "copy"; "-movflags"; "+faststart"; "-y"; outputPath].

Definition protocolWhitelistArgs : list string :=
  ["-protocol_whitelist"; "file,http,https,tcp,tls,crypto,data"].
Definition allowedExtensionsArgs : list string := ["-allowed_extensions"; "ALL"].
Definition allowedSegmentExtensionsArgs : list string :=
  ["-allowed_segment_extensions"; "ALL"].

(** What one run of the transcoder process ends with. *)
Inductive ProcessExit :=
| SpawnError (message : string)          (* the 'error' event *)
| Close (code : option Z) (killed : bool). (* the 'close' event; [killed] by the abort handler *)

Record ProcessRun := {
  exit : ProcessExit;
  stderrOutput : string;     (* the captured standard error *)
  lastOutTimeUs : Z          (* the last [out_time_ms] value read, 0 if none;
                                [lastOutTimeMs] is this divided by 1000 *)
}.

Record FfmpegResult := {
  fr_ok : bool;
  fr_stderr : string;
  fr_error : option string;
  fr_unsupportedOptions : option (list string);
  fr_outTimeUs : option Z
}.

(** The three [finalize] calls of [runFfmpeg]. *)
Definition finalize (run : ProcessRun) : FfmpegResult :=
  match exit run with
  | SpawnError message =>
      {| fr_ok := false; fr_stderr := stderrOutput run;
         fr_error := Some message;
         fr_unsupportedOptions :=
           Some (detectUnsupportedFfmpegOptions (stderrOutput run));
         fr_outTimeUs := None |}
  | Close code killed =>
      if killed then
        {| fr_ok := false; fr_stderr := stderrOutput run;
           fr_error := Some "Download aborted";
           fr_unsupportedOptions := None; fr_outTimeUs := None |}
      else if bool_decide (code = Some 0) then
        {| fr_ok := true; fr_stderr := stderrOutput run;
           fr_error := None; fr_unsupportedOptions := None;
           fr_outTimeUs := Some (lastOutTimeUs run) |}
      else
        {| fr_ok := false; fr_stderr := stderrOutput run;
           fr_error :=
             Some ("FFmpeg exited with code "
                     +:+ match code with
                         | Some c => intToString c
                         | None => "unknown"
                         end);
           fr_unsupportedOptions :=
             Some (detectUnsupportedFfmpegOptions (stderrOutput run));
           fr_outTimeUs := None |}
  end.

(** The four [if] statements of one pass of the narrowing loop: the new
    option state and [changed]. *)
Definition narrow (st : OptionState) (unsupported : list string)
  : OptionState * bool :=
  let has (o : string) := includesStr o unsupported in
  let dropHeaders :=
    (includeHeaders st && (has "headers" || has "user_agent"))%bool in
  let dropWhitelist :=
    (includeProtocolWhitelist st && has "protocol_whitelist")%bool in
  let dropExtensions :=
    (includeAllowedExtensions st && has "allowed_extensions")%bool in
  let dropSegmentExtensions :=
    (includeAllowedSegmentExtensions st && has "allowed_segment_extensions")%bool in
  ({| includeHeaders := if dropHeaders then false else includeHeaders st;
      includeProtocolWhitelist :=
        if dropWhitelist then false else includeProtocolWhitelist st;
      includeAllowedExtensions :=
        if dropExtensions then false else includeAllowedExtensions st;
      includeAllowedSegmentExtensions :=
        if dropSegmentExtensions then false
        else includeAllowedSegmentExtensions st |},
   (dropHeaders || dropWhitelist || dropExtensions || dropSegmentExtensions)%bool).

Section WithTranscoder.

Variable isHls : bool.
Variable headerArgs : list string.
Variable inputUrl outputPath : string.

(** The transcoder: what a run with the given arguments ends with, given
    the argument lists of the runs before it. *)
Variable transcoder : list (list string) -> list string -> ProcessRun.

Definition buildArgs (o : OptionState) : list string :=
  baseArgs
    ++ (if includeHeaders o then headerArgs else [])
    ++ (if (isHls && includeProtocolWhitelist o)%bool
        then protocolWhitelistArgs else [])
    ++ (if (isHls && includeAllowedExtensions o)%bool
        then allowedExtensionsArgs else [])
    ++ (if (isHls && includeAllowedSegmentExtensions o)%bool
        then allowedSegmentExtensionsArgs else [])
    ++ inputArgs inputUrl outputPath.

Definition runFfmpeg (calls : list (list string)) (o : OptionState)
  : FfmpegResult :=
  finalize (transcoder calls (buildArgs o)).

Definition initialOptionState : OptionState :=
  {| includeHeaders := Nat.ltb 0 (List.length headerArgs);
     includeProtocolWhitelist := isHls;
     includeAllowedExtensions := isHls;
     includeAllowedSegmentExtensions := isHls |}.

(** [while (!ffmpegResult.ok && attempts < 3)], by the number of retries
    left; [calls] are the argument lists of the runs so far. *)
Fixpoint narrowLoop (retriesLeft : nat) (o : OptionState)
    (ffmpegResult : FfmpegResult) (calls : list (list string))
    : FfmpegResult * list (list string) :=
  if fr_ok ffmpegResult then (ffmpegResult, calls)
  else
    match retriesLeft with
    | O => (ffmpegResult, calls)
    | S k =>
        let unsupported := default [] (fr_unsupportedOptions ffmpegResult) in
        if Nat.eqb (List.length unsupported) 0 then (ffmpegResult, calls)
        else
          let '(o', changed) := narrow o unsupported in
          if negb changed then (ffmpegResult, calls)
          else narrowLoop k o' (runFfmpeg calls o') (calls ++ [buildArgs o'])
    end.

Definition MAX_NARROWING_RETRIES : nat := 3.

(** The first run and the narrowing retries: the last result and the
    argument lists of all runs, in order. *)
Definition runWithNarrowing : FfmpegResult * list (list string) :=
  narrowLoop MAX_NARROWING_RETRIES initialOptionState
    (runFfmpeg [] initialOptionState) [buildArgs initialOptionState].

End WithTranscoder.

(** *** Expected duration and output validation *)

Definition digitsValue (digits : string) : Z := Z.of_N (decimalValue digits 0%N).

(** [Number.parseFloat] on a run of digits and dots: the longest prefix
    [digits], [digits.digits], [digits.] or [.digits]; [None] is NaN. *)
Definition parseFloatPrefix (s : string) : option Q :=
  let intPart := takeDigits s in
  match drop (String.length intPart) s with
  | String "." r =>
      let fracPart := takeDigits r in
      if (isEmpty intPart && isEmpty fracPart)%bool then None
      else Some (inject_Z (digitsValue intPart)
                 + Qmake (digitsValue fracPart)
                         (Pos.pow 10 (Pos.of_nat (String.length fracPart))))%Q
  | _ => if isEmpty intPart then None
         else Some (inject_Z (digitsValue intPart))
  end.

(** [Math.round(x)]: the nearest integer, halves upwards. *)
Definition mathRound (x : Q) : Z := Qfloor (x + (1 # 2))%Q.

Fixpoint sumDurations (lines : list string) (total : Q) (hasDuration : bool)
  : Q * bool :=
  match lines with
  | [] => (total, hasDuration)
  | line :: rest =>
      let trimmed := trim line in
      if negb (startsWith "#EXTINF:" trimmed) then sumDurations rest total hasDuration
      else
        match parseFloatPrefix (drop 8 trimmed) with
        | None => sumDurations rest total hasDuration
        | Some seconds => sumDurations rest (total + seconds)%Q true
        end
  end.

(** Durations are summed exactly, where the source sums doubles. *)
Definition parsePlaylistDurationMs (content : string) : option Z :=
  let '(total, hasDuration) := sumDurations (splitLines content) 0%Q false in
  if negb hasDuration then None
  else Some (mathRound (total * 1000)%Q).

(** [isVodPlaylist(c) && parsePlaylistDurationMs(c) ? parsePlaylistDurationMs(c) : null] *)
Definition expectedDurationOf (playlistContent : string) : option Z :=
  if isVodPlaylist playlistContent then
    match parsePlaylistDurationMs playlistContent with
    | Some d => if d =? 0 then None else Some d
    | None => None
    end
  else None.

(** [ffmpegResult.outTimeMs ? Math.round(ffmpegResult.outTimeMs) : null],
    [outTimeMs] being [us / 1000]. *)
Definition attemptDurationOf (outTimeUs : option Z) : option Z :=
  match outTimeUs with
  | Some us => if us =? 0 then None else Some ((us + 500) / 1000)
  | None => None
  end.

(** The end of [runAttempt], from the last transcoder result: the output
    duration it records, or the [DownloadError] it throws.  [stats] is the
    size of the output file, [None] when [fs.stat] fails.  On integers
    [a < e * 0.9] is [10 * a < 9 * e]. *)
Definition completeAttempt (ffmpegResult : FfmpegResult) (stats : option Z)
    (expectedDurationMs : option Z) : Res (option Z) :=
  if negb (fr_ok ffmpegResult)
  then Throw (orElse (default "" (fr_error ffmpegResult)) "FFmpeg failed")
  else
    let attemptDurationMs := attemptDurationOf (fr_outTimeUs ffmpegResult) in
    match stats with
    | None => Throw "Empty output from ffmpeg"
    | Some size =>
        if size <=? 0 then Throw "Empty output from ffmpeg"
        else
          match expectedDurationMs, attemptDurationMs with
          | Some e, Some a =>
              if (negb (e =? 0) && negb (a =? 0) && (10 * a <? 9 * e))%bool
              then Throw "Output appears incomplete"
              else Ret attemptDurationMs
          | _, _ => Ret attemptDurationMs
          end
    end.

End Driver.

(** * Vocabulary of the statements, and example data *)

Module CommonTerms.
Import JS.

(** A segment line: not blank and not a tag or comment. *)
Definition isUriLine (l : string) : bool :=
  (negb (isEmpty (trim l)) && negb (startsWith "#" (trim l)))%bool.

Definition newline : string := String "010" "".

(** Absolute URLs that need no normalisation resolve to themselves. *)
Definition resolveAbsolute (line baseUrl : string) : string := line.

End CommonTerms.

Module QuotaTerms.
Import JS Platform Db Quota.

Definition freshCache : Cache := {| now := 0; entries := ∅; online := true |}.

End QuotaTerms.

Module GatewayTerms.
Import JS Platform Db Playlist Gateway.

(** The target the handler resolves for a request. *)
Definition targetOf (parseURL : string -> string -> option URL)
    (base64urlDecode : string -> string) (request : GatewayRequest)
  : option URL :=
  parseURL
    (if falsy (param_u request) then default "" (param_url request)
     else base64urlDecode (default "" (param_u request)))
    (request_url request).

(** The private-host rule does not stop the target. *)
Definition hostAllowed (request : GatewayRequest) (target : URL) : bool :=
  negb (isPrivateHost (hostname target)
        && negb (bool_decide
                   (Some (toLowerCase (hostname target))
                    = match header_host request with
                      | Some h => Some (toLowerCase (head (split ":" h)))
                      | None => None
                      end)))%bool.

Definition namesTarget (request : GatewayRequest) : bool :=
  negb (falsy (param_u request) && falsy (param_url request)).

Definition segmentUrl : string := "http://cdn.example/seg/0001.jpg".

(** A [URL] constructor for the one absolute URL of the example. *)
Definition exampleParseURL (target base : string) : option URL :=
  if String.eqb target segmentUrl
  then Some {| protocol := "http:"; hostname := "cdn.example";
               pathname := "/seg/0001.jpg"; href := segmentUrl |}
  else if String.eqb target "http://127.0.0.1/seg/0001.jpg"
  then Some {| protocol := "http:"; hostname := "127.0.0.1";
               pathname := "/seg/0001.jpg";
               href := "http://127.0.0.1/seg/0001.jpg" |}
  else None.

Definition exampleUpstream (u : string) (hs : list (string * string)) : Upstream :=
  {| up_ok := true; up_status := 200; up_statusText := "OK";
     up_contentType := Some "image/jpeg"; up_firstChunk := "JFIF";
     up_body := "JFIF" |}.

Definition plainContext : TokenContext :=
  {| tc_username := Some "alice"; tc_referer := None;
     tc_userAgent := Some "agent"; tc_origin := None; tc_cookie := None;
     tc_authorization := None; tc_allowImageSegments := None;
     tc_allowEncryptedImageSegments := None |}.

Definition tokenCache : Cache :=
  {| now := 100;
     entries := {[ tokenKey "t1" := (VToken plainContext, 1900) ]};
     online := true |}.

Definition requestFor (target token : string) : GatewayRequest :=
  {| param_u := None; param_url := Some target; param_token := Some token;
     header_host := Some "app.example:3000"; header_range := None;
     request_url := "http://app.example:3000/api/download/segment.ts" |}.

End GatewayTerms.

Module ParserTerms.
Import JS Parser.

Definition noCRLF (v : string) : Prop :=
  hasChar "013" v = false /\ hasChar "010" v = false.

(** The invariant of the loop over the pairs. *)
Definition fromPairs (pairs : list string) (name v : string) : Prop :=
  In name forwardedNames /\ noCRLF v /\ v <> ""
  /\ exists pair,
       In pair pairs
       /\ headerNameOf (pairKey pair) = Some name
       /\ v = sanitizeHeaderValue (decodeOrRaw (pairRawValue pair)).

(** The pair is a [key=value] pair that sets the header [name] to [v]: it
    holds a [=], its key is a recognized one, and its value, decoded and
    sanitized, is not empty. *)
Definition assigns (pair name v : string) : Prop :=
  hasChar "=" (trim pair) = true
  /\ headerNameOf (pairKey pair) = Some name
  /\ v = sanitizeHeaderValue (decodeOrRaw (pairRawValue pair))
  /\ v <> "".

(** [v] is what the last pair that sets [name] gives. *)
Definition lastAssigned (pairs : list string) (name v : string) : Prop :=
  exists before pair after,
    pairs = before ++ pair :: after
    /\ assigns pair name v
    /\ forall later w, In later after -> ~ assigns later name w.

(** A cookie key written with the Kelvin sign (U+212A) for its [k]. *)
Definition kelvinDirective : string := "http://a/v.m3u8|cooKie=a".

End ParserTerms.

Module NarrowingTerms.
Import JS Platform Playlist Driver.


Definition pickyTranscoder (calls : list (list string)) (args : list string)
  : ProcessRun :=
  let reject (o : string) :=
    {| exit := Close (Some 1) false;
       stderrOutput := "Unrecognized option '" +:+ o +:+ "'.";
       lastOutTimeUs := 0 |} in
  if includesStr "-protocol_whitelist" args then reject "protocol_whitelist"
  else if includesStr "-allowed_extensions" args then reject "allowed_extensions"
  else if includesStr "-allowed_segment_extensions" args
  then reject "allowed_segment_extensions"
  else if includesStr "-headers" args then reject "headers"
  else {| exit := Close (Some 0) false; stderrOutput := "";
          lastOutTimeUs := 1000000 |}.














End NarrowingTerms.

Module ValidationTerms.
Import JS Platform Playlist Driver CommonTerms.

Definition sixtySeconds : list string :=
  ["#EXTM3U"; "#EXT-X-TARGETDURATION:30";
   "#EXTINF:30.0,"; "http://cdn.example/a.ts";
   "#EXTINF:30.0,"; "http://cdn.example/b.ts"].

Definition livePlaylist : string := join newline sixtySeconds.
Definition vodPlaylist : string :=
  join newline (sixtySeconds ++ ["#EXT-X-ENDLIST"]).

Definition successfulRun (outTimeUs : Z) : FfmpegResult :=
  finalize {| exit := Close (Some 0) false; stderrOutput := "";
              lastOutTimeUs := outTimeUs |}.

End ValidationTerms.

Module RetryTerms.
Import JS Platform Playlist Fetcher.

Definition isFetch (e : Event) : bool :=
  match e with EvFetch _ _ => true | _ => false end.

Definition countFetches (events : list Event) : nat :=
  List.length (List.filter isFetch events).

(** [n] failed attempts from attempt number [attempt] on, each followed by
    its backoff: 400 ms times the number of the retry it precedes. *)
Fixpoint failedAttempts (timeoutMs : Z) (url : string) (n attempt : nat)
  : list Event :=
  match n with
  | O => []
  | S m =>
      EvFetch url timeoutMs :: EvSleep (400 * Z.of_nat (S attempt))
        :: failedAttempts timeoutMs url m (S attempt)
  end.

Definition completion (filePath : string) (result : Res unit) : list Event :=
  match result with
  | Ret _ => [EvWrite filePath]
  | Throw _ => []
  end.

(** The events of a download that ended after [j] failed attempts. *)
Definition downloadTrace (timeoutMs : Z) (url filePath : string) (j : nat)
    (result : Res unit) : list Event :=
  failedAttempts timeoutMs url j 0
    ++ EvFetch url timeoutMs :: completion filePath result.

(** The events of a download that is suspended. *)
Definition pendingTrace (timeoutMs : Z) (d : Download) : list Event :=
  failedAttempts timeoutMs (dl_url d) (dl_attempt d) 0
    ++ match dl_pending d with
       | AwaitResponse => [EvFetch (dl_url d) timeoutMs]
       | AwaitTimer => []
       end.

Definition sameTask (a b : Task) : bool :=
  match a, b with
  | MainTask, MainTask => true
  | WorkerTask v, WorkerTask w => Nat.eqb v w
  | _, _ => false
  end.

(** The events of one task, in their order. *)
Definition traceOf (task : Task) (log : Log) : list Event :=
  map snd (List.filter (fun e => sameTask (fst e) task) log).

(** Events as the log holds them. *)
Definition tagged (task : Task) (events : list Event) : Log :=
  map (pair task) events.

(** The events of the downloads a worker has completed: each segment with
    the number of its failed attempts. *)
Definition servedTrace (timeoutMs : Z) (tempDir : string)
    (served : list (Parsed * nat)) : list Event :=
  concat (map (fun '(segment, j) =>
                 downloadTrace timeoutMs (resolved segment)
                   (joinPath tempDir (localPath segment)) j (Ret tt))
              served).

(** What the events of a worker end with, by its state. *)
Definition lastTrace (timeoutMs : Z) (retries : nat) (tempDir : string)
    (segs : list Parsed) (worker : Worker) (tail : list Event) : Prop :=
  match worker with
  | Working index d =>
      exists segment,
        segs !! index = Some segment
        /\ dl_url d = resolved segment
        /\ dl_filePath d = joinPath tempDir (localPath segment)
        /\ (dl_attempt d <= retries)%nat
        /\ tail = pendingTrace timeoutMs d
  | Finished => tail = []
  | Rejected message =>
      (tail = [] /\ message = "Download aborted")
      \/ exists segment j,
           In segment segs /\ (j <= retries)%nat
           /\ (j = retries \/ message = "Download aborted")
           /\ tail = downloadTrace timeoutMs (resolved segment)
                       (joinPath tempDir (localPath segment)) j (Throw message)
  end.

(** The events of the worker [w] are those of the downloads it has
    completed, each with at most [retries] failed attempts, followed by
    those of the download it is suspended on or rejected with; a download
    it is rejected with has failed [1 + retries] times, unless the job was
    cancelled. *)
Definition workerTrace (timeoutMs : Z) (retries : nat) (tempDir : string)
    (segs : list Parsed) (w : nat) (worker : Worker) (log : Log) : Prop :=
  exists served tail,
    traceOf (WorkerTask w) log = servedTrace timeoutMs tempDir served ++ tail
    /\ Forall (fun p => In (fst p) segs /\ (snd p <= retries)%nat) served
    /\ lastTrace timeoutMs retries tempDir segs worker tail.

(** The arrivals a suspended download can still take. *)
Definition arrivalsLeft (retries : nat) (d : Download) : nat :=
  (2 * (retries - dl_attempt d)
   + match dl_pending d with AwaitResponse => 1 | AwaitTimer => 2 end)%nat.

Definition cost (retries : nat) (worker : Worker) : nat :=
  match worker with
  | Working _ d => arrivalsLeft retries d
  | _ => O
  end.

Fixpoint costs (retries : nat) (ws : list Worker) : nat :=
  match ws with
  | [] => O
  | worker :: rest => (cost retries worker + costs retries rest)%nat
  end.

(** The arrivals the workers can still take. *)
Definition workLeft (retries : nat) (segs : list Parsed) (pool : Pool) : nat :=
  (costs retries (workers pool)
   + (List.length segs - nextIndex pool) * (2 * retries + 1))%nat.

(** The pools a run of the workers goes through. *)
Inductive Reachable (network : Log -> string -> Outcome) (aborted : Log -> bool)
    (timeoutMs : Z) (retries : nat) (tempDir : string) (segs : list Parsed)
    (count : nat) (log : Log) : Pool -> Prop :=
| ReachStart :
    Reachable network aborted timeoutMs retries tempDir segs count log
      (startWorkers aborted timeoutMs tempDir segs count
         {| nextIndex := 0; workers := []; poolLog := log; rejection := None |})
| ReachStep (w : nat) (pool : Pool) :
    Reachable network aborted timeoutMs retries tempDir segs count log pool ->
    Reachable network aborted timeoutMs retries tempDir segs count log
      (poolStep network aborted timeoutMs retries tempDir segs w pool).

(** No worker has acted yet. *)
Definition mainOnly (log : Log) : Prop :=
  forall w, traceOf (WorkerTask w) log = [].

(** What holds of every pool a run goes through. *)
Definition poolTraces (timeoutMs : Z) (retries : nat) (tempDir : string)
    (segs : list Parsed) (pool : Pool) : Prop :=
  (forall w worker,
      workers pool !! w = Some worker ->
      workerTrace timeoutMs retries tempDir segs w worker (poolLog pool))
  /\ (forall w, (List.length (workers pool) <= w)%nat ->
                traceOf (WorkerTask w) (poolLog pool) = [])
  /\ (rejection pool = None ->
      forall w m, workers pool !! w <> Some (Rejected m))
  /\ (forall m, rejection pool = Some m ->
                exists w, workers pool !! w = Some (Rejected m)).

(** A request that is answered with a 2xx status and whose body is
    written. *)
Definition succeeds (o : Outcome) : bool :=
  match o with
  | Status code None => statusOk code
  | _ => false
  end.

(** Whatever has happened, the request for [url] fails. *)
Definition neverServed (network : Log -> string -> Outcome) (url : string)
  : Prop :=
  forall log, succeeds (network log url) = false.

(** Every segment that has been taken is being downloaded, or has been
    served, unless a worker has been rejected. *)
Definition poolCovers (network : Log -> string -> Outcome) (retries : nat)
    (segs : list Parsed) (pool : Pool) : Prop :=
  (forall w index d,
      workers pool !! w = Some (Working index d) ->
      (index < nextIndex pool)%nat
      /\ (dl_attempt d <= retries)%nat
      /\ exists segment,
           segs !! index = Some segment /\ dl_url d = resolved segment)
  /\ (forall index segment,
        (index < nextIndex pool)%nat -> segs !! index = Some segment ->
        (exists w d, workers pool !! w = Some (Working index d))
        \/ (exists log, succeeds (network log (resolved segment)) = true)
        \/ (exists w m, workers pool !! w = Some (Rejected m)))
  /\ (forall w, workers pool !! w = Some Finished ->
                (List.length segs <= nextIndex pool)%nat)
  /\ (rejection pool = None ->
      forall w m, workers pool !! w <> Some (Rejected m)).

Definition alwaysBroken (log : Log) (url : string) : Outcome :=
  Status 500 None.
Definition neverAborted (log : Log) : bool := false.

(** Seven segments and the end-of-list marker. *)
Definition sevenSegments : string :=
  join (String "010" "")
    ["#EXTM3U"; "#EXT-X-TARGETDURATION:6";
     "#EXTINF:6.0,"; "http://cdn.example/v/1.ts";
     "#EXTINF:6.0,"; "http://cdn.example/v/2.ts";
     "#EXTINF:6.0,"; "http://cdn.example/v/3.ts";
     "#EXTINF:6.0,"; "http://cdn.example/v/4.ts";
     "#EXTINF:6.0,"; "http://cdn.example/v/5.ts";
     "#EXTINF:6.0,"; "http://cdn.example/v/6.ts";
     "#EXTINF:6.0,"; "http://cdn.example/v/7.ts";
     "#EXT-X-ENDLIST"].

(** Two workers; the arrivals alternate between them. *)
Definition alternating (step : nat) : nat := step.

(** The first segment answers 500, every other request is served. *)
Definition firstBroken (log : Log) (url : string) : Outcome :=
  if String.eqb url "http://cdn.example/v/1.ts" then Status 500 None
  else Status 200 None.

(** The workers when the first segment has failed for the third time: the
    second worker is left waiting for the sixth segment. *)
Definition brokenRun : Pool :=
  {| nextIndex := 6;
     workers :=
       [Rejected "HTTP 500";
        Working 5
          {| dl_url := "http://cdn.example/v/6.ts";
             dl_filePath := "/tmp/job/segments/seg_00006.ts";
             dl_attempt := 0; dl_pending := AwaitResponse |}];
     poolLog :=
       [(WorkerTask 0, EvFetch "http://cdn.example/v/1.ts" 25000);
        (WorkerTask 1, EvFetch "http://cdn.example/v/2.ts" 25000);
        (WorkerTask 0, EvSleep 400);
        (WorkerTask 1, EvWrite "/tmp/job/segments/seg_00002.ts");
        (WorkerTask 1, EvFetch "http://cdn.example/v/3.ts" 25000);
        (WorkerTask 0, EvFetch "http://cdn.example/v/1.ts" 25000);
        (WorkerTask 1, EvWrite "/tmp/job/segments/seg_00003.ts");
        (WorkerTask 1, EvFetch "http://cdn.example/v/4.ts" 25000);
        (WorkerTask 0, EvSleep 800);
        (WorkerTask 1, EvWrite "/tmp/job/segments/seg_00004.ts");
        (WorkerTask 1, EvFetch "http://cdn.example/v/5.ts" 25000);
        (WorkerTask 0, EvFetch "http://cdn.example/v/1.ts" 25000);
        (WorkerTask 1, EvWrite "/tmp/job/segments/seg_00005.ts");
        (WorkerTask 1, EvFetch "http://cdn.example/v/6.ts" 25000)];
     rejection := Some "HTTP 500" |}.

End RetryTerms.

Module PlanTerms.
Import JS Platform Playlist Fetcher.

(** An extension: a dot followed by characters that are not dots. *)
Definition DotExt (s : string) : Prop :=
  exists r, s = String "." r /\ hasChar "." r = false.

(** A local path without an image extension, in whatever letter case. *)
Definition safePath (p : string) : Prop :=
  forall e, In e INVALID_SEGMENT_EXTENSIONS ->
    endsWith e p = false /\ endsWith e (asciiLower p) = false.

(** The invariant of the classification loop. *)
Definition safePlan (st : PlanState) : Prop :=
  Forall (fun p => safePath (localPath p)) (segments st)
  /\ Forall (fun p => safePath (localPath p)) (maps st)
  /\ Forall (fun kv => safePath (joinPath "maps" (snd kv))) (mapMap st)
  /\ Forall (fun p => safePath (localPath p)) (keys st)
  /\ Forall (fun kv => safePath (joinPath "keys" (snd kv))) (keyMap st).

(** The path of a URL under [http://cdn.example] that needs no
    normalisation or escaping: what follows the host, up to [?] or [#]. *)
Definition examplePathname (u : string) : option string :=
  if startsWith "http://cdn.example/" u
  then Some (head (split "#" (head (split "?" (drop 18 u)))))
  else None.

Definition disguisedPlaylist : string :=
  join (String "010" "")
    ["#EXTM3U"; "#EXT-X-TARGETDURATION:6";
     "#EXTINF:6.0,"; "http://cdn.example/v/0001.jpg";
     "#EXTINF:6.0,"; "http://cdn.example/v/0002.PNG?sig=abc";
     "#EXTINF:6.0,"; "http://cdn.example/v/0003";
     "#EXTINF:6.0,"; "http://cdn.example/v/0004.m4s";
     "#EXTINF:6.0,"; "http://cdn.example/v/0005.ts";
     "#EXTINF:6.0,"; "http://cdn.example/v/0006.webp";
     "#EXT-X-ENDLIST"].

(** The resolution of a URI against [http://cdn.example/v/index.m3u8],
    for an absolute URL or a file name that needs no escaping. *)
Definition exampleResolve (uri base : string) : string :=
  if startsWith "http://" uri then uri else "http://cdn.example/v/" +:+ uri.

Definition sixSegments : list string :=
  ["#EXTINF:6.0,"; "http://cdn.example/v/0001.ts";
   "#EXTINF:6.0,"; "http://cdn.example/v/0002.ts";
   "#EXTINF:6.0,"; "http://cdn.example/v/0003.ts";
   "#EXTINF:6.0,"; "http://cdn.example/v/0004.ts";
   "#EXTINF:6.0,"; "http://cdn.example/v/0005.ts";
   "#EXTINF:6.0,"; "http://cdn.example/v/0006.ts"].

(** An init-map line with a space before the equals sign. *)
Definition spacedMapLine : string := "#EXT-X-MAP:URI =init.jpg".

Definition spacedMapPlaylist : string :=
  join (String "010" "")
    (["#EXTM3U"; "#EXT-X-TARGETDURATION:6"; spacedMapLine]
     ++ sixSegments ++ ["#EXT-X-ENDLIST"]).

(** An init-map line whose file name ends in a dollar sign and a quote,
    followed by another attribute. *)
Definition dollarMapLine : string :=
  "#EXT-X-MAP:URI=" +:+ dq +:+ "http://cdn.example/v/init.$'" +:+ dq
    +:+ ",X=.jpg".

Definition dollarMapPlaylist : string :=
  join (String "010" "")
    (["#EXTM3U"; "#EXT-X-TARGETDURATION:6"; dollarMapLine]
     ++ sixSegments ++ ["#EXT-X-ENDLIST"]).

(** Every request is served. *)
Definition alwaysServed (log : Log) (url : string) : Outcome := Status 200 None.

Definition sixthSegment : Parsed :=
  {| lineIndex := 13; resolved := "http://cdn.example/v/0006.webp";
     localPath := "segments/seg_00006.ts" |}.

End PlanTerms.

Module EngageTerms.
Import JS Platform Playlist Fetcher CommonTerms.

Definition countSegmentLines (content : string) : nat :=
  List.length (List.filter isUriLine (splitLines content)).

(** Some line of the playlist is the given tag. *)
Definition hasTag (tag content : string) : bool :=
  existsb (fun l => startsWith tag (trim l)) (splitLines content).

(** An [#EXT-X-KEY] line whose KEYFORMAT is set and is not [identity]. *)
Definition foreignKeyLine (l : string) : bool :=
  (startsWith "#EXT-X-KEY" (trim l)
   && (negb (isEmpty (toLowerCase (attr (parseAttributeList (trim l)) "KEYFORMAT")))
       && negb (String.eqb
                  (toLowerCase (attr (parseAttributeList (trim l)) "KEYFORMAT"))
                  "identity")))%bool.

Definition hasForeignKeyformat (content : string) : bool :=
  existsb foreignKeyLine (splitLines content).

Definition flagged (st : PlanState) : bool :=
  (hasByterange st || hasPartial st)%bool.

(** A line that rules the pool out. *)
Definition triggers (l : string) : bool :=
  (startsWith "#EXT-X-BYTERANGE" (trim l)
   || startsWith "#EXT-X-PART" (trim l)
   || startsWith "#EXT-X-PRELOAD-HINT" (trim l)
   || foreignKeyLine l)%bool.

(** A key line whose KEYFORMAT ends with a no-break space (U+00A0). *)
Definition noBreakKeyLine : string :=
  "#EXT-X-KEY:METHOD=AES-128,URI=k.key,KEYFORMAT=identity"
    +:+ String "194" (String "160" "").

Definition rangedSegment (offset : string) : list string :=
  ["#EXTINF:6.0,"; "#EXT-X-BYTERANGE:1000@" +:+ offset;
   "http://cdn.example/all.ts"].

Definition rangedPlaylist : string :=
  join (String "010" "")
    (["#EXTM3U"; "#EXT-X-VERSION:4"; "#EXT-X-TARGETDURATION:6"]
     ++ rangedSegment "0" ++ rangedSegment "1000" ++ rangedSegment "2000"
     ++ rangedSegment "3000" ++ rangedSegment "4000" ++ rangedSegment "5000"
     ++ rangedSegment "6000" ++ ["#EXT-X-ENDLIST"]).

End EngageTerms.

Module RepairTerms.
Import JS Platform Playlist CommonTerms.

(** A tag that is kept with the segment that follows it. *)
Definition isSegmentTag (l : string) : bool :=
  (startsWith "#EXTINF" (trim l) || startsWith "#EXT-X-BYTERANGE" (trim l))%bool.

(** Any other tag or comment line. *)
Definition isPlainTag (l : string) : bool :=
  (negb (isEmpty (trim l)) && startsWith "#" (trim l) && negb (isSegmentTag l))%bool.

(** An [#EXTINF] line followed by its segment line. *)
Definition entryLines (e : string * string) : list string := [fst e; snd e].

Definition wellFormedEntry (e : string * string) : bool :=
  (startsWith "#EXTINF" (trim (fst e)) && isUriLine (snd e))%bool.

(** The segment line resolves to a URL with an image extension. *)
Definition invalidLine (resolveUrl : string -> string -> string)
    (baseUrl l : string) : bool :=
  hasInvalidExtension (resolveUrl (trim l) baseUrl).

Definition validEntry (resolveUrl : string -> string -> string)
    (baseUrl : string) (e : string * string) : bool :=
  negb (invalidLine resolveUrl baseUrl (snd e)).

(** No upstream answers: every probe fails. *)
Definition offline (r : Request) : option Response := None.

Definition mixedPlaylist : string :=
  join newline
    ["#EXTM3U"; "#EXT-X-TARGETDURATION:10";
     "#EXTINF:10.0,"; "http://cdn.example/v/0001.jpg";
     "#EXTINF:10.0,"; "http://cdn.example/v/0002.ts";
     "#EXT-X-ENDLIST"].

Definition imageOnlyPlaylist : string :=
  join newline
    ["#EXTM3U"; "#EXT-X-TARGETDURATION:10";
     "#EXTINF:10.0,"; "http://cdn.example/v/0001.jpg";
     "#EXTINF:10.0,"; "http://cdn.example/v/0002.jpg";
     "#EXT-X-ENDLIST"].

Definition playlistUrl : string := "http://cdn.example/v/index.m3u8".

Fixpoint removeTabs (s : string) : string :=
  match s with
  | "" => ""
  | String c r =>
      if Ascii.eqb c "009" then removeTabs r else String c (removeTabs r)
  end.

(** The URL parser drops tab characters from its input. *)
Definition resolveDroppingTabs (line baseUrl : string) : string := removeTabs line.

Definition tabbedPlaylist : string :=
  join newline
    ["#EXTM3U"; "#EXT-X-TARGETDURATION:10";
     "#EXTINF:10.0,"; "http://cdn.example/v/0001.j" +:+ String "009" "pg";
     "#EXTINF:10.0,"; "http://cdn.example/v/0002.ts";
     "#EXT-X-ENDLIST"].

End RepairTerms.

Module ResolveTerms.
Import JS Platform Playlist CommonTerms.

Definition byBandwidthDescending (a b : Variant) : Prop :=
  (bandwidth b <= bandwidth a)%N.

Definition highVariantLine : string :=
  "#EXT-X-STREAM-INF:AVERAGE-BANDWIDTH=800000,BANDWIDTH=2500000,RESOLUTION=1280x720".
Definition lowVariantLine : string :=
  "#EXT-X-STREAM-INF:BANDWIDTH=1200000,RESOLUTION=640x360".

Definition masterPlaylist : string :=
  join newline
    ["#EXTM3U";
     highVariantLine; "http://cdn.example/hi/index.m3u8";
     lowVariantLine; "http://cdn.example/lo/index.m3u8"].

Definition mediaPlaylist : string :=
  join newline
    ["#EXTM3U"; "#EXT-X-TARGETDURATION:10";
     "#EXTINF:10.0,"; "http://cdn.example/s/0001.ts";
     "#EXT-X-ENDLIST"].

Definition masterUrl : string := "http://cdn.example/master.m3u8".

(** The master playlist at its URL, a playable media playlist anywhere
    else. *)
Definition exampleSite (r : Request) : option Response :=
  Some {| ok := true; status := 200;
          contentType := Some "application/vnd.apple.mpegurl";
          body := if String.eqb (req_url r) masterUrl
                  then masterPlaylist else mediaPlaylist;
          responseUrl := req_url r |}.

(** Every URL serves a master playlist that points one level further. *)
Definition endlessMasters (r : Request) : option Response :=
  Some {| ok := true; status := 200; contentType := None;
          body := join newline
                    ["#EXTM3U"; "#EXT-X-STREAM-INF:BANDWIDTH=1000";
                     req_url r +:+ "/next"];
          responseUrl := req_url r |}.

End ResolveTerms.

(** * Further parts of the download core *)

Module DetectTerms.
Import JS Platform Playlist Driver.

(** What [addOption] keeps true of the set it builds. *)
Definition cleanOptions (l : list string) : Prop :=
  List.NoDup l /\ forall o, In o l -> isEmpty o = false /\ trim o = o.

(** A transcoder that cannot reach its input. *)
Definition refusedTranscoder (calls : list (list string)) (args : list string)
  : ProcessRun :=
  {| exit := Close (Some 1) false;
     stderrOutput := "in.m3u8: Connection refused";
     lastOutTimeUs := 0 |}.

End DetectTerms.

(** ** Calendar helpers of the quota manager *)

Module Calendar.
Import JS Fetcher.

(** The fields of a [Date] that [formatDateKey] reads, in local time:
    [getFullYear()] (years from 0 on), [getMonth()] (0 to 11) and
    [getDate()]. *)
Record LocalDate := { fullYear : nat; monthIndex : nat; dayOfMonth : nat }.

Definition formatDateKey (date : LocalDate) : string :=
  natToString (fullYear date) +:+ "-"
    +:+ padStart0 2 (natToString (monthIndex date + 1)) +:+ "-"
    +:+ padStart0 2 (natToString (dayOfMonth date)).

(** [Math.max(1, Math.ceil((next.getTime() - date.getTime()) / 1000))];
    [msUntilMidnight] is the difference of the two times. *)
Definition secondsUntilNextDay (msUntilMidnight : Z) : Z :=
  Z.max 1 (- ((- msUntilMidnight) / 1000)).

End Calendar.

Module QuotaRuns.
Import JS Platform Db Quota Calendar.

(** [n] consuming calls of one user on one day, one after the other. *)
Fixpoint consumeTimes (n : nat) (username : string) (limitPerDay : Z)
    (dateKey : string) (ttl : Z) (c : Cache) : Cache :=
  match n with
  | O => c
  | S k =>
      snd (checkAndConsumeQuota username true limitPerDay false dateKey ttl
             (consumeTimes k username limitPerDay dateKey ttl c))
  end.

(** The value of a run of decimal digits, [None] when another character
    occurs. *)
Definition digitsNat (s : string) : option nat :=
  option_map Nat.of_uint (NilEmpty.uint_of_string s).

Definition newYearsDay : LocalDate :=
  {| fullYear := 2026; monthIndex := 0; dayOfMonth := 1 |}.

End QuotaRuns.

(** ** The request stage of [executeDownloadCore] *)

Module Core.
Import JS Platform Parser Db Quota.

Definition DOWNLOAD_PROXY_TTL_SECONDS : Z := 60 * 30.

Definition DEFAULT_USER_AGENT : string :=
  "Mozilla/5.0 (Windows NT 10.0; Win64; x64) AppleWebKit/537.36 (KHTML, like Gecko) Chrome/124.0.0.0 Safari/537.36".

(** [isPrivateHost] as the download route declares it. *)
Definition isPrivateHost (host : string) : bool :=
  let lower := toLowerCase host in
  (String.eqb lower "localhost" || String.eqb lower "::1"
   || startsWith "127." lower || startsWith "0." lower
   || startsWith "10." lower || Gateway.isPrivate172 lower
   || startsWith "192.168." lower)%bool.

(** [a || b || null] on strings that may be null or undefined *)
Definition orNull (a b : option string) : option string :=
  if negb (Gateway.falsy a) then a
  else if negb (Gateway.falsy b) then b
  else None.

(** The header values the core forwards: [userAgent], [referer],
    [origin], [cookie] and [authorization]. *)
Record ForwardHeaders := {
  userAgent : string;
  referer : option string;
  origin : option string;
  cookie : option string;
  authorization : option string
}.

(** [x ? sanitizeHeaderValue(x) : null] *)
Definition sanitizedOrNull (x : option string) : option string :=
  if Gateway.falsy x then None else Some (sanitizeHeaderValue (default "" x)).

(** The values read off the URL directive and the [referer] parameter. *)
Definition deriveHeaders (urlHeaders : gmap string string)
    (refererParam : option string) : ForwardHeaders :=
  {| userAgent :=
       sanitizeHeaderValue
         (orElse (default "" (urlHeaders !! "User-Agent")) DEFAULT_USER_AGENT);
     referer := sanitizedOrNull (orNull refererParam (urlHeaders !! "Referer"));
     origin := sanitizedOrNull (urlHeaders !! "Origin");
     cookie := sanitizedOrNull (urlHeaders !! "Cookie");
     authorization := sanitizedOrNull (urlHeaders !! "Authorization") |}.

Definition isHlsUrl (targetPathname normalizedUrl : string) : bool :=
  (includes ".m3u8" (toLowerCase targetPathname)
   || includes "m3u8" (toLowerCase normalizedUrl))%bool.

(** [if (isHls && !referer) referer = targetUrl.origin], and the same for
    [origin]. *)
Definition withHlsDefaults (isHls : bool) (targetOrigin : string)
    (fh : ForwardHeaders) : ForwardHeaders :=
  {| userAgent := userAgent fh;
     referer := if (isHls && Gateway.falsy (referer fh))%bool
                then Some targetOrigin else referer fh;
     origin := if (isHls && Gateway.falsy (origin fh))%bool
               then Some targetOrigin else origin fh;
     cookie := cookie fh;
     authorization := authorization fh |}.

(** [if (x) list.push(...)] *)
Definition whenSet {A} (x : option string) (f : string -> A) : list A :=
  if Gateway.falsy x then [] else [f (default "" x)].

(** The [Headers] object of the core's own requests. *)
Definition requestHeaders (fh : ForwardHeaders) : list (string * string) :=
  [("User-Agent", userAgent fh)]
    ++ whenSet (referer fh) (fun v => ("Referer", v))
    ++ whenSet (origin fh) (fun v => ("Origin", v))
    ++ whenSet (cookie fh) (fun v => ("Cookie", v))
    ++ whenSet (authorization fh) (fun v => ("Authorization", v)).

Definition headerLines (fh : ForwardHeaders) : list string :=
  ["User-Agent: " +:+ userAgent fh]
    ++ whenSet (referer fh) (fun v => "Referer: " +:+ v)
    ++ whenSet (origin fh) (fun v => "Origin: " +:+ v)
    ++ whenSet (cookie fh) (fun v => "Cookie: " +:+ v)
    ++ whenSet (authorization fh) (fun v => "Authorization: " +:+ v).

Definition CRLF : string := String "013" (String "010" "").

(** The [-headers] argument pair of the transcoder. *)
Definition headerArgs (fh : ForwardHeaders) : list string :=
  if Nat.ltb 0 (List.length (headerLines fh))
  then ["-headers"; join CRLF (headerLines fh) +:+ CRLF]
  else [].

(** The context stored under a new proxy token, and the one stored again
    once image segments are allowed. *)
Definition tokenContext (username : string) (fh : ForwardHeaders)
  : TokenContext :=
  {| tc_username := Some username;
     tc_referer := orNull (referer fh) None;
     tc_userAgent := Some (userAgent fh);
     tc_origin := orNull (origin fh) None;
     tc_cookie := orNull (cookie fh) None;
     tc_authorization := orNull (authorization fh) None;
     tc_allowImageSegments := None;
     tc_allowEncryptedImageSegments := None |}.

Definition imageTokenContext (username : string) (fh : ForwardHeaders)
    (allowEncryptedImageSegments : bool) : TokenContext :=
  {| tc_username := Some username;
     tc_referer := orNull (referer fh) None;
     tc_userAgent := Some (userAgent fh);
     tc_origin := orNull (origin fh) None;
     tc_cookie := orNull (cookie fh) None;
     tc_authorization := orNull (authorization fh) None;
     tc_allowImageSegments := Some true;
     tc_allowEncryptedImageSegments := Some allowEncryptedImageSegments |}.


(** [if (allowImageSegments && proxyToken) await db.setCache(...)] *)
Definition allowImagesForToken (proxyToken username : string)
    (fh : ForwardHeaders) (allowEncryptedImageSegments : bool) (c : Cache)
  : Res Cache :=
  setCache c (Gateway.tokenKey proxyToken)
    (VToken (imageTokenContext username fh allowEncryptedImageSegments))
    DOWNLOAD_PROXY_TTL_SECONDS.

End Core.

Module CoreTerms.
Import JS Platform Parser Db Quota Gateway.

(** The host names [isPrivateHost] answers true for, in lower case. *)
Definition privateForm (lower : string) : Prop :=
  lower = "localhost" \/ lower = "::1"
  \/ (exists r, lower = "127." +:+ r)
  \/ (exists r, lower = "0." +:+ r)
  \/ (exists r, lower = "10." +:+ r)
  \/ (exists n r, (16 <= n <= 31)%nat
                  /\ lower = "172." +:+ natToString n +:+ "." +:+ r)
  \/ (exists r, lower = "192.168." +:+ r).

(** The names of that rule a URL's [hostname] can hold.  [hostname] writes
    an IPv6 address in brackets, so the rule's [::1] is never one of them. *)
Definition blockedForm (lower : string) : Prop :=
  lower = "localhost"
  \/ (exists r, lower = "127." +:+ r)
  \/ (exists r, lower = "0." +:+ r)
  \/ (exists r, lower = "10." +:+ r)
  \/ (exists n r, (16 <= n <= 31)%nat
                  /\ lower = "172." +:+ natToString n +:+ "." +:+ r)
  \/ (exists r, lower = "192.168." +:+ r).

(** The request names another host than the target's. *)
Definition foreignHost (request : GatewayRequest) (target : URL) : Prop :=
  match header_host request with
  | Some h => toLowerCase (head (split ":" h)) <> toLowerCase (hostname target)
  | None => True
  end.

(** An answer the gateway writes itself, as opposed to a relayed body. *)
Definition ownAnswer (resp : GatewayResponse) : Prop :=
  exists message status,
    resp = jsonError message status \/ resp = textResponse message status.

Definition mediaType (contentType : string) : Prop :=
  let lowerType := toLowerCase contentType in
  startsWith "text/html" lowerType = false
  /\ startsWith "application/json" lowerType = false
  /\ startsWith "image/" lowerType = false.

Definition routerUrl : string := "http://192.168.1.1/seg/0001.ts".

Definition routerParseURL (target base : string) : option URL :=
  if String.eqb target routerUrl
  then Some {| protocol := "http:"; hostname := "192.168.1.1";
               pathname := "/seg/0001.ts"; href := routerUrl |}
  else None.

(** The IPv6 loopback address as a target. *)
Definition loopbackUrl : string := "http://[::1]/seg/0001.ts".

Definition tsUrl : string := "http://cdn.example/seg/0001.ts".

Definition tsParseURL (target base : string) : option URL :=
  if String.eqb target tsUrl
  then Some {| protocol := "http:"; hostname := "cdn.example";
               pathname := "/seg/0001.ts"; href := tsUrl |}
  else None.

Definition tsUpstream (u : string) (hs : list (string * string)) : Upstream :=
  {| up_ok := true; up_status := 200; up_statusText := "OK";
     up_contentType := Some "video/mp2t"; up_firstChunk := "G";
     up_body := "G" |}.

(** A header value free of line breaks, when there is one. *)
Definition cleanValue (x : option string) : Prop :=
  forall v, x = Some v -> ParserTerms.noCRLF v.

(** A [referer] parameter that tries to add a header of its own. *)
Definition injectedReferer : string :=
  "http://r" +:+ Core.CRLF +:+ "X-Injected: 1".

Definition exampleHeaders : Core.ForwardHeaders :=
  {| Core.userAgent := "agent"; Core.referer := Some "http://cdn.example";
     Core.origin := None; Core.cookie := None; Core.authorization := None |}.

End CoreTerms.

(** ** File names

    [sanitizeFilename] counts and cuts by UTF-16 code unit, so the strings
    of this part are lists of code units. *)

Module Naming.

Definition ustring := list N.

(** The code units of an ASCII literal. *)
Fixpoint ofString (s : string) : ustring :=
  match s with
  | EmptyString => []
  | String c r => N_of_ascii c :: ofString r
  end.

(** ECMAScript WhiteSpace and LineTerminator: what [\s] matches and
    [trim] removes. *)
Definition isWhiteSpace (c : N) : bool :=
  ((9 <=? c) && (c <=? 13) || (c =? 32) || (c =? 160) || (c =? 5760)
   || (8192 <=? c) && (c <=? 8202) || (c =? 8232) || (c =? 8233)
   || (c =? 8239) || (c =? 8287) || (c =? 12288) || (c =? 65279))%N%bool.

(** The characters of the class in the first [replace] of
    [sanitizeFilename]: backslash, slash, colon, asterisk, question mark,
    double quote, less-than, greater-than and the vertical bar. *)
Definition isReserved (c : N) : bool :=
  existsb (N.eqb c) [92; 47; 58; 42; 63; 34; 60; 62; 124]%N.

Definition removeReserved (s : ustring) : ustring :=
  List.filter (fun c => negb (isReserved c)) s.

(** [s.replace(/\s+/g, ' ')] *)
Fixpoint collapseWhiteSpace (s : ustring) : ustring :=
  match s with
  | [] => []
  | c :: r =>
      if isWhiteSpace c then
        match r with
        | d :: _ => if isWhiteSpace d then collapseWhiteSpace r
                    else 32%N :: collapseWhiteSpace r
        | [] => [32%N]
        end
      else c :: collapseWhiteSpace r
  end.

Fixpoint trimStartU (s : ustring) : ustring :=
  match s with
  | [] => []
  | c :: r => if isWhiteSpace c then trimStartU r else s
  end.

Fixpoint trimEndU (s : ustring) : ustring :=
  match s with
  | [] => []
  | c :: r =>
      match trimEndU r with
      | [] => if isWhiteSpace c then [] else [c]
      | r' => c :: r'
      end
  end.

Definition trimU (s : ustring) : ustring := trimEndU (trimStartU s).

Definition isEmptyU (s : ustring) : bool :=
  match s with [] => true | _ => false end.

Definition sanitizeFilename (input : ustring) : ustring :=
  let sanitized := trimU (collapseWhiteSpace (removeReserved input)) in
  if isEmptyU sanitized then ofString "video"
  else if Nat.ltb 150 (List.length sanitized)
  then trimU (firstn 150 sanitized)
  else sanitized.

(** [s.replace(/\.mp4$/i, '')] *)
Definition stripMp4 (s : ustring) : ustring :=
  match rev s with
  | c4 :: p :: m :: dot :: r =>
      if ((dot =? 46) && ((m =? 109) || (m =? 77))
          && ((p =? 112) || (p =? 80)) && (c4 =? 52))%N%bool
      then rev r else s
  | _ => s
  end.

Record FilenameParams := {
  title : option ustring;
  year : option ustring;
  episode : option ustring;
  episodeTitle : option ustring
}.

(** A string that is neither null, undefined nor empty. *)
Definition truthyU (x : option ustring) : bool :=
  match x with Some (_ :: _) => true | _ => false end.

Fixpoint joinU (sep : ustring) (parts : list ustring) : ustring :=
  match parts with
  | [] => []
  | [x] => x
  | x :: t => x ++ sep ++ joinU sep t
  end.

Definition buildFilename (params : FilenameParams) : ustring :=
  let title :=
    stripMp4 (sanitizeFilename
                (if truthyU (title params) then default [] (title params)
                 else ofString "video")) in
  let year :=
    if truthyU (year params) then sanitizeFilename (default [] (year params))
    else [] in
  let episodeLabel :=
    if truthyU (episodeTitle params)
    then sanitizeFilename (default [] (episodeTitle params))
    else if truthyU (episode params)
    then [31532%N] ++ default [] (episode params) ++ [38598%N]
    else [] in
  let parts :=
    [title]
      ++ (if isEmptyU year then [] else [ofString "(" ++ year ++ ofString ")"])
      ++ (if isEmptyU episodeLabel then [] else [episodeLabel]) in
  joinU (ofString " ") parts ++ ofString ".mp4".

(** [filename.replace(/[^ -~]/g, '').trim() || 'video.mp4'], the
    [filename=] fallback of the Content-Disposition header. *)
Definition asciiFallback (filename : ustring) : ustring :=
  let printable :=
    trimU (List.filter (fun c => ((32 <=? c) && (c <=? 126))%N%bool) filename) in
  if isEmptyU printable then ofString "video.mp4" else printable.

End Naming.

Module NamingTerms.
Import Naming.

Definition unreserved (s : ustring) : Prop :=
  forall c, In c s -> isReserved c = false.

(** White space occurs only as single spaces. *)
Fixpoint singleSpaced (s : ustring) : Prop :=
  match s with
  | [] => True
  | c :: r =>
      (isWhiteSpace c = true ->
       c = 32%N /\ match r with
                   | d :: _ => isWhiteSpace d = false
                   | [] => True
                   end)
      /\ singleSpaced r
  end.

(** What [sanitizeFilename] guarantees of its result. *)
Definition safeName (s : ustring) : Prop :=
  s <> [] /\ (List.length s <= 150)%nat /\ unreserved s
  /\ trimU s = s /\ singleSpaced s.

(** The episode number is pasted into the name as it is; this says that
    it is not used, or holds no reserved character. *)
Definition plainEpisode (params : FilenameParams) : Prop :=
  truthyU (episodeTitle params) = true
  \/ forall e, episode params = Some e -> unreserved e.

Definition endsWithU (suffix s : ustring) : Prop :=
  exists front, s = front ++ suffix.

Definition exampleParams : FilenameParams :=
  {| title := Some (ofString "The  Movie: Part 2.mp4");
     year := Some (ofString "2024");
     episode := Some (ofString "3");
     episodeTitle := None |}.

End NamingTerms.

(** ** Lines of a playlist *)

Module LineTerms.
Import JS Platform Playlist CommonTerms RepairTerms.

Definition LF : ascii := "010".
Definition CR : ascii := "013".

(** A line as it is read back after the lines were joined with LF and
    split again: the same, or without a carriage return at its end. *)
Definition sameLine (l' l : string) : Prop :=
  l' = l \/ l = l' +:+ String CR "".

(** A segment line whose resolved URL has an image extension. *)
Definition invalidUri (resolveUrl : string -> string -> string)
    (baseUrl l : string) : bool :=
  (isUriLine l && invalidLine resolveUrl baseUrl l)%bool.

(** A segment line the filter keeps. *)
Definition validUri (resolveUrl : string -> string -> string)
    (baseUrl l : string) : bool :=
  (isUriLine l && negb (invalidLine resolveUrl baseUrl l))%bool.

End LineTerms.

(** ** The manifest handed to the transcoder *)

Module Sanitizer.
Import JS Platform Playlist Fetcher.

Section WithPlatform.

(** [try { new URL(x, base).toString() } catch { x }] *)
Variable resolveUrl : string -> string -> string.
(** [new URL(u).protocol], [None] when the constructor throws *)
Variable protocolOf : string -> option string.
(** [Buffer.from(t, 'utf-8').toString('base64url')] *)
Variable base64url : string -> string.
(** The form encoding [URLSearchParams] gives a value. *)
Variable formEncode : string -> string.

Definition buildProxyUrl (proxyBase targetUrl : string) (token : option string)
  : string :=
  proxyBase +:+ "?" +:+ "u=" +:+ formEncode (base64url targetUrl)
    +:+ (if Gateway.falsy token then ""
         else "&token=" +:+ formEncode (default "" token)).

(** The [if (proxyBase) { ... }] block shared by segment lines and URI
    attributes: an http(s) URL is replaced by its proxy URL. *)
Definition throughProxy (proxyBase token : option string) (resolved : string)
  : string :=
  if Gateway.falsy proxyBase then resolved
  else
    match protocolOf resolved with
    | Some protocol =>
        if includesStr protocol ["http:"; "https:"]
        then buildProxyUrl (default "" proxyBase) resolved token
        else resolved
    | None => resolved
    end.

(** The quoted URI attribute at the front of [s]: its value, one or more
    characters other than the double quote, and what follows the closing
    quote. *)
Definition matchQuotedUri (s : string) : option (string * string) :=
  if startsWith ("URI=" +:+ dq) s then
    let r := drop 5 s in
    let uri := Driver.takeWhile (fun c => negb (Ascii.eqb c dquote)) r in
    if isEmpty uri then None
    else
      match drop (String.length uri) r with
      | String _ rest => Some (uri, rest)
      | "" => None
      end
  else None.

(** [line.replace(re, callback)] for the global pattern of
    [rewriteUriAttributes]: the matches are replaced from left to right. *)
Fixpoint rewriteUriLoop (fuel : nat) (baseUrl : string)
    (proxyBase token : option string) (s : string) : string :=
  match fuel with
  | O => s
  | S fuel' =>
      match matchQuotedUri s with
      | Some (uri, rest) =>
          "URI=" +:+ dq +:+ throughProxy proxyBase token (resolveUrl uri baseUrl)
            +:+ dq +:+ rewriteUriLoop fuel' baseUrl proxyBase token rest
      | None =>
          match s with
          | "" => ""
          | String c r => String c (rewriteUriLoop fuel' baseUrl proxyBase token r)
          end
      end
  end.

Definition rewriteUriAttributes (line baseUrl : string)
    (proxyBase token : option string) : string :=
  rewriteUriLoop (S (String.length line)) baseUrl proxyBase token line.

Definition carriesUri (line : string) : bool :=
  (startsWith "#EXT-X-KEY:" line || startsWith "#EXT-X-MAP:" line
   || startsWith "#EXT-X-SESSION-KEY:" line || startsWith "#EXT-X-MEDIA:" line
   || startsWith "#EXT-X-PART:" line
   || startsWith "#EXT-X-PRELOAD-HINT:" line)%bool.

(** One iteration of the loop of [sanitizeM3U8Content]: what it pushes. *)
Definition sanitizeLine (baseUrl : string) (proxyBase token : option string)
    (rawLine : string) : string :=
  let line := trim rawLine in
  if isEmpty line then line
  else if startsWith "#" line then
    if carriesUri line then rewriteUriAttributes line baseUrl proxyBase token
    else line
  else throughProxy proxyBase token (resolveUrl line baseUrl).

Definition sanitizeM3U8Content (content baseUrl : string)
    (proxyBase token : option string) : string :=
  if isEmpty content then ""
  else join (String "010" "")
         (map (sanitizeLine baseUrl proxyBase token) (splitLines content)).

(** The step of [runAttempt] after the sanitiser: the playlist content the
    attempt goes on with, or the error it throws. *)
Definition choosePlaylistContent (contentToSanitize baseUrl : string)
    (proxyBase token : option string) : Res string :=
  let sanitized :=
    sanitizeM3U8Content contentToSanitize baseUrl proxyBase token in
  let playlistContent :=
    if hasMediaSegments sanitized then sanitized else contentToSanitize in
  if negb (hasMediaSegments playlistContent)
  then Throw "No playable media segments found in playlist"
  else Ret playlistContent.

End WithPlatform.

End Sanitizer.

Module SanitizerTerms.
Import JS Platform Playlist Fetcher Sanitizer CommonTerms.

(** A URL parser for absolute http URLs. *)
Definition httpProtocol (u : string) : option string :=
  if startsWith "http://" u then Some "http:" else None.

Definition proxyBaseUrl : option string :=
  Some "http://127.0.0.1:3000/api/download/segment.ts".

Definition shortPlaylist : string :=
  join newline ["#EXTM3U"; "#EXTINF:10.0,"; "http://cdn.example/s/0001.ts"].

End SanitizerTerms.

(** ** The local manifest of the segment pool *)

Module LocalTerms.
Import JS Platform Playlist Fetcher CommonTerms.

(** The indices of the segment lines among [lines], the first line having
    index [i]. *)
Fixpoint uriIndices (lines : list string) (i : nat) : list nat :=
  match lines with
  | [] => []
  | l :: rest =>
      if isUriLine l then i :: uriIndices rest (S i) else uriIndices rest (S i)
  end.

(** What the classification loop has built after the lines [done]. *)
Definition localPlan (resolveUrl : string -> string -> string)
    (urlPathname : string -> option string) (baseUrl : string)
    (done : list string) (st : PlanState) : Prop :=
  map lineIndex (segments st) = uriIndices done 0
  /\ (forall k s, segments st !! k = Some s ->
        localPath s
        = joinPath "segments" (segmentName urlPathname k (resolved s))
        /\ exists line, done !! lineIndex s = Some line
                        /\ resolved s = resolveUrl (trim line) baseUrl)
  /\ (forall p, In p (keys st) ->
        exists line, done !! lineIndex p = Some line
                     /\ startsWith "#EXT-X-KEY" (trim line) = true)
  /\ (forall p, In p (maps st) ->
        exists line, done !! lineIndex p = Some line
                     /\ startsWith "#EXT-X-MAP" (trim line) = true).

End LocalTerms.

(** ** Narrowing, step by step *)

Module ChainTerms.
Import JS Platform Playlist Driver.

(** [o'] passes no flag group that [o] does not pass, and passes fewer. *)
Definition narrower (o' o : OptionState) : Prop :=
  (includeHeaders o' = true -> includeHeaders o = true)
  /\ (includeProtocolWhitelist o' = true -> includeProtocolWhitelist o = true)
  /\ (includeAllowedExtensions o' = true -> includeAllowedExtensions o = true)
  /\ (includeAllowedSegmentExtensions o' = true ->
      includeAllowedSegmentExtensions o = true)
  /\ o' <> o.

(** Each state of the list is narrower than the one before it, the first
    being narrower than [o]. *)
Fixpoint narrowingChain (o : OptionState) (os : list OptionState) : Prop :=
  match os with
  | [] => True
  | o' :: rest => narrower o' o /\ narrowingChain o' rest
  end.

End ChainTerms.

(** ** The checks of [executeDownloadCore] before any download *)

Module Precheck.
Import JS Platform Parser Playlist Db Quota.

(** [DownloadError]: a message and an HTTP status. *)
Record DownloadError := { de_message : string; de_status : Z }.

(** What a stage comes to: its value, or the [DownloadError] it throws. *)
Inductive Checked (A : Type) : Type :=
| Passed (value : A)
| Rejected (error : DownloadError).
Arguments Passed {A} value.
Arguments Rejected {A} error.

(** The fields of an entry of [adminConfig.UserConfig.Users] that the core
    reads.  [downloadLimitEnabled] may be unset; [downloadLimitPerDay] is
    unset or holds an integer. *)
Record UserEntry := {
  ue_username : string;
  ue_banned : bool;
  ue_downloadLimitEnabled : option bool;
  ue_downloadLimitPerDay : option Z
}.

(** [request.url] and the [host] header. *)
Record CoreRequest := { cr_url : string; cr_host : option string }.

Record QuotaInfo := {
  qi_limitEnabled : bool;
  qi_limitPerDay : option Z;
  qi_remaining : option Z
}.

Record Cleared := {
  cl_targetUrl : Gateway.URL;
  cl_limitEnabled : bool;
  cl_limitPerDay : Z;
  cl_quotaResult : QuotaResult;
  cl_quotaInfo : QuotaInfo
}.

Definition downloadError (message : string) (status : Z) : DownloadError :=
  {| de_message := message; de_status := status |}.

(** [Users.find((user) => user.username === username)] *)
Definition findUser (users : list UserEntry) (username : string)
  : option UserEntry :=
  List.find (fun user => String.eqb (ue_username user) username) users.

Section WithPlatform.

(** [new URL(target, base)], [None] when it throws *)
Variable parseURL : string -> string -> option Gateway.URL.

(** [executeDownloadCore] up to the quota check.  [users] is the user list
    of [getConfig()]; [dateKey] and [secondsUntilNextDay] are what the
    calendar helpers give at the call. *)
Definition precheck (urlParam : option string) (request : CoreRequest)
    (users : list UserEntry) (username : string) (checkOnly : bool)
    (dateKey : string) (secondsUntilNextDay : Z) (c : Cache)
  : Checked Cleared * Cache :=
  if Gateway.falsy urlParam
  then (Rejected (downloadError "缺少播放地址" 400), c)
  else
    let parsed := parseUrlWithHeaders (default "" urlParam) in
    match parseURL (url parsed) (cr_url request) with
    | None => (Rejected (downloadError "播放地址无效" 400), c)
    | Some targetUrl =>
        if negb (includesStr (Gateway.protocol targetUrl) ["http:"; "https:"])
        then (Rejected (downloadError "不支持的协议" 400), c)
        else
          let requestHost :=
            match cr_host request with
            | Some h => Some (toLowerCase (head (split ":" h)))
            | None => None
            end in
          if (Core.isPrivateHost (Gateway.hostname targetUrl)
              && negb (bool_decide
                         (Some (toLowerCase (Gateway.hostname targetUrl))
                          = requestHost)))%bool
          then (Rejected (downloadError "目标地址被阻止" 403), c)
          else
            match findUser users username with
            | None => (Rejected (downloadError "无权限" 403), c)
            | Some userEntry =>
                if ue_banned userEntry
                then (Rejected (downloadError "无权限" 403), c)
                else
                  let limitEnabled :=
                    negb (bool_decide
                            (ue_downloadLimitEnabled userEntry = Some false)) in
                  let limitPerDay :=
                    Z.max 0 (default DEFAULT_DAILY_LIMIT
                               (ue_downloadLimitPerDay userEntry)) in
                  let '(quotaResult, c') :=
                    checkAndConsumeQuota username limitEnabled limitPerDay
                      checkOnly dateKey secondsUntilNextDay c in
                  if negb (allowed quotaResult)
                  then (Rejected
                          (downloadError
                             (orElse (default "" (reason quotaResult))
                                "下载次数已用尽") 429), c')
                  else
                    (Passed
                       {| cl_targetUrl := targetUrl;
                          cl_limitEnabled := limitEnabled;
                          cl_limitPerDay := limitPerDay;
                          cl_quotaResult := quotaResult;
                          cl_quotaInfo :=
                            {| qi_limitEnabled := limitEnabled;
                               qi_limitPerDay :=
                                 if limitEnabled then Some limitPerDay else None;
                               qi_remaining := remaining quotaResult |} |},
                     c')
            end
    end.

End WithPlatform.

End Precheck.

(** ** The attempts of [executeDownloadCore] *)

Module Attempts.
Import JS Platform Precheck.

(** What is thrown out of an attempt: a [DownloadError], or another
    [Error] with its message. *)
Inductive Failure :=
| FailedDownload (error : DownloadError)
| FailedOther (message : string).

(** What [runAttempt(useProxy)] and the [fs.stat(outputPath)] after it come
    to: the size of the output, or the error thrown, with whether
    [ffmpegFailed] was set on the way. *)
Inductive AttemptOutcome :=
| Succeeded (sizeBytes : Z)
| Failed (setsFfmpegFailed : bool) (error : Failure).

Inductive CoreEvent :=
| Attempt (useProxy : bool)
| Refund          (* a call of [refundQuota] *)
| Cleanup.        (* a call of [cleanupTemp] *)

Record LoopState := {
  ffmpegFailed : bool;
  lastError : option Failure;
  tried : list bool
}.

Definition attemptModes (isHls preferProxy : bool) : list bool :=
  if isHls then
    if preferProxy then [true; false] else [false; true]
  else [false].

(** [if (ffmpegFailed) void refundQuota(); await cleanupTemp();] *)
Definition refundAndCleanup (st : LoopState) : list CoreEvent :=
  (if ffmpegFailed st then [Refund] else []) ++ [Cleanup].

(** The error thrown after the loop. *)
Definition errorAfterLoop (lastError : option Failure) : DownloadError :=
  match lastError with
  | Some (FailedDownload error) => error
  | Some (FailedOther message) =>
      downloadError (orElse message "Download failed") 500
  | None => downloadError "Download failed" 500
  end.

Section WithAttempt.

Variable isHls : bool.
(** The outcome of an attempt, given the modes tried before it. *)
Variable runAttempt : list bool -> bool -> AttemptOutcome.

(** [for (const useProxy of attemptModes) { try ... catch ... }] *)
Fixpoint attemptLoop (modes : list bool) (st : LoopState)
  : option Z * LoopState :=
  match modes with
  | [] => (None, st)
  | useProxy :: rest =>
      match runAttempt (tried st) useProxy with
      | Succeeded sizeBytes =>
          (Some sizeBytes,
           {| ffmpegFailed := ffmpegFailed st; lastError := lastError st;
              tried := tried st ++ [useProxy] |})
      | Failed setsFfmpegFailed error =>
          let st' :=
            {| ffmpegFailed := (ffmpegFailed st || setsFfmpegFailed)%bool;
               lastError := Some error;
               tried := tried st ++ [useProxy] |} in
          if negb isHls then (None, st') else attemptLoop rest st'
      end
  end.

(** The body of the outer [try]: the loop, and what follows it when no
    attempt returned. *)
Definition tryBlock (preferProxy : bool)
  : Checked Z * LoopState * list CoreEvent :=
  let '(result, st) :=
    attemptLoop (attemptModes isHls preferProxy)
      {| ffmpegFailed := false; lastError := None; tried := [] |} in
  match result with
  | Some sizeBytes => (Passed sizeBytes, st, map Attempt (tried st))
  | None =>
      (Rejected (errorAfterLoop (lastError st)), st,
       map Attempt (tried st) ++ refundAndCleanup st)
  end.

(** The outer [try] with its [catch]: an error thrown by the body is a
    [DownloadError], which the handler throws again after its own refund
    and cleanup. *)
Definition runAttempts (preferProxy : bool) : Checked Z * list CoreEvent :=
  let '(outcome, st, events) := tryBlock preferProxy in
  match outcome with
  | Passed sizeBytes => (Passed sizeBytes, events)
  | Rejected error => (Rejected error, events ++ refundAndCleanup st)
  end.

End WithAttempt.

End Attempts.

Module AttemptTerms.
Import JS Platform Db Quota Precheck Attempts.

Definition isCleanup (e : CoreEvent) : bool :=
  match e with Cleanup => true | _ => false end.

Definition isRefund (e : CoreEvent) : bool :=
  match e with Refund => true | _ => false end.

Definition attemptsOf (events : list CoreEvent) : list bool :=
  flat_map (fun e => match e with Attempt m => [m] | _ => [] end) events.

(** Some attempt of the run failed after it had set [ffmpegFailed]. *)
Definition transcodingFailed (runAttempt : list bool -> bool -> AttemptOutcome)
    (modes : list bool) : Prop :=
  exists k useProxy error,
    modes !! k = Some useProxy
    /\ runAttempt (firstn k modes) useProxy = Failed true error.

(** The refunds a run asked for, carried out one after the other in the
    order of the calls. *)
Definition settle (limitEnabled : bool) (quotaResult : QuotaResult)
    (events : list CoreEvent) (c : Cache) : Cache :=
  fold_left
    (fun cache e =>
       match e with
       | Refund => refundQuota limitEnabled quotaResult cache
       | _ => cache
       end)
    events c.

Definition refundsIf (b : bool) : list CoreEvent :=
  if b then [Refund] else [].

(** A user list with one banned and one ordinary user. *)
Definition exampleUsers : list UserEntry :=
  [ {| ue_username := "mallory"; ue_banned := true;
       ue_downloadLimitEnabled := None; ue_downloadLimitPerDay := None |};
    {| ue_username := "alice"; ue_banned := false;
       ue_downloadLimitEnabled := None; ue_downloadLimitPerDay := Some 2 |} ].

Definition exampleRequest : CoreRequest :=
  {| cr_url := "http://tv.example/api/download";
     cr_host := Some "tv.example" |}.

Definition emptyCache : Cache :=
  {| now := 0; entries := ∅; online := true |}.

(** The cache after one download of [alice] has been counted. *)
Definition cacheAfterOne : Cache :=
  snd (checkAndConsumeQuota "alice" true 3 false "2026-01-01" 3600 emptyCache).

(** Both modes fail in the transcoder. *)
Definition alwaysFfmpegFails (before : list bool) (useProxy : bool)
  : AttemptOutcome :=
  Failed true (FailedDownload (downloadError "FFmpeg failed" 500)).

End AttemptTerms.

(** * Properties *)

(** ** Strings *)

Module StringFacts.
Import JS.

Lemma startsWith_first (c : ascii) (p t : string) :
  startsWith (String c p) t = true -> startsWith (String c "") t = true.
Proof.
  destruct t as [|a t]; cbn [startsWith]; [auto|].
  destruct (Ascii.eqb c a); [reflexivity | auto].
Qed.

Lemma startsWith_nonempty (c : ascii) (p t : string) :
  startsWith (String c p) t = true -> isEmpty t = false.
Proof. destruct t; [discriminate | reflexivity]. Qed.

(** *** White space and trimming *)

Lemma string_length_ind (P : string -> Prop) :
  (forall s, (forall t, (String.length t < String.length s)%nat -> P t) -> P s) ->
  forall s, P s.
Proof.
  intros H s.
  assert (forall n t, (String.length t < n)%nat -> P t) as Hn.
  { induction n as [|n IH]; intros t Ht; [lia|].
    apply H. intros u Hu. apply IH. lia. }
  apply (Hn (S (String.length s))). lia.
Qed.

Lemma append_cons (c : ascii) (a b : string) :
  String c a +:+ b = String c (a +:+ b).
Proof. reflexivity. Qed.


Lemma app_assoc_s (a b c : string) : (a +:+ b) +:+ c = a +:+ (b +:+ c).
Proof. induction a as [|x a IH]; [reflexivity|]. now rewrite !append_cons, IH. Qed.


Lemma whiteSpaceLength_cases (s : string) :
  whiteSpaceLength s = 0%nat \/ whiteSpaceLength s = 1%nat
  \/ whiteSpaceLength s = 2%nat \/ whiteSpaceLength s = 3%nat.
Proof.
  destruct s as [|c [|d [|e r]]]; cbn [whiteSpaceLength]; auto;
    destruct (isSpace c); auto;
    repeat match goal with
           | |- context [if ?b then _ else _] => destruct b
           end; auto.
Qed.

(** What [trimStart] does in one step. *)
Lemma trimStart_eq (s : string) :
  trimStart s
  = match whiteSpaceLength s with
    | O => s
    | n => trimStart (drop n s)
    end.
Proof.
  destruct s as [|c r]; [reflexivity|].
  cbn [trimStart].
  destruct (whiteSpaceLength_cases (String c r)) as [H|[H|[H|H]]];
    rewrite H; try reflexivity.
  - destruct r as [|d r2]; [|reflexivity].
    cbn [whiteSpaceLength] in H. destruct (isSpace c); discriminate.
  - destruct r as [|d [|e r3]]; try reflexivity;
      cbn [whiteSpaceLength] in H; destruct (isSpace c); try discriminate;
      repeat match type of H with
             | context [if ?b then _ else _] => destruct b
             end; discriminate.
Qed.

Lemma whiteSpaceLength_le (s : string) :
  (whiteSpaceLength s <= String.length s)%nat.
Proof.
  destruct s as [|c [|d [|e r]]]; cbn [whiteSpaceLength String.length];
    try lia; destruct (isSpace c); try lia;
    repeat match goal with
           | |- context [if ?b then _ else _] => destruct b
           end; lia.
Qed.

Lemma length_drop (n : nat) (s : string) :
  String.length (drop n s) = (String.length s - n)%nat.
Proof.
  revert s. induction n as [|n IH]; intros [|c r]; cbn [drop String.length];
    try lia. apply IH.
Qed.

Lemma take_drop_s (n : nat) (s : string) : take n s +:+ drop n s = s.
Proof.
  revert s. induction n as [|n IH]; intros [|c r]; try reflexivity.
  cbn [take drop]. now rewrite append_cons, IH.
Qed.

(** [trimStart] cuts a front off. *)
Lemma trimStart_suffix (s : string) : exists w, s = w +:+ trimStart s.
Proof.
  induction s as [s IH] using string_length_ind.
  rewrite trimStart_eq.
  destruct (whiteSpaceLength s) as [|n] eqn:E; [now exists ""|].
  pose proof (whiteSpaceLength_le s) as Hle.
  destruct (IH (drop (S n) s)) as (w & Hw).
  { rewrite length_drop. lia. }
  exists (take (S n) s +:+ w).
  rewrite app_assoc_s, <- Hw. now rewrite take_drop_s.
Qed.

Lemma whiteSpaceLength_trimStart (s : string) :
  whiteSpaceLength (trimStart s) = 0%nat.
Proof.
  induction s as [s IH] using string_length_ind.
  rewrite trimStart_eq.
  destruct (whiteSpaceLength s) as [|n] eqn:E; [exact E|].
  apply IH. pose proof (whiteSpaceLength_le s). rewrite length_drop. lia.
Qed.

Lemma trimStart_fixed (s : string) :
  whiteSpaceLength s = 0%nat -> trimStart s = s.
Proof. intros H. now rewrite trimStart_eq, H. Qed.

Lemma trimStart_idem (s : string) : trimStart (trimStart s) = trimStart s.
Proof. apply trimStart_fixed, whiteSpaceLength_trimStart. Qed.

(** The white-space character at the front of a string is still there
    when the string is extended. *)
Lemma whiteSpaceLength_app (s t : string) (n : nat) :
  whiteSpaceLength s = S n -> whiteSpaceLength (s +:+ t) = S n.
Proof.
  destruct s as [|c [|d [|e r]]]; cbn [whiteSpaceLength]; try discriminate;
    rewrite ?append_cons; cbn [whiteSpaceLength];
    destruct (isSpace c); auto; try discriminate.
  all: cbn [String.append].
  all: destruct (((N_of_ascii c =? 194) && (N_of_ascii d =? 160))%N); auto;
    try discriminate.
Qed.

Lemma drop_app (n : nat) (s t : string) :
  (n <= String.length s)%nat -> drop n (s +:+ t) = drop n s +:+ t.
Proof.
  revert s. induction n as [|n IH]; intros s H; [now destruct s|].
  destruct s as [|c r]; cbn [String.length] in H; [lia|].
  rewrite append_cons. cbn [drop]. apply IH. lia.
Qed.

(** White space in front of a string does not survive [trimStart]. *)
Lemma trimStart_app_white (w t : string) :
  isWhiteSpaceOnly w = true -> trimStart (w +:+ t) = trimStart t.
Proof.
  unfold isWhiteSpaceOnly.
  induction w as [w IH] using string_length_ind. intros H.
  rewrite trimStart_eq in H.
  destruct (whiteSpaceLength w) as [|n] eqn:E.
  - destruct w; [reflexivity | discriminate].
  - pose proof (whiteSpaceLength_le w) as Hle.
    rewrite (trimStart_eq (w +:+ t)), (whiteSpaceLength_app w t n E).
    rewrite drop_app by lia. apply IH; [|exact H].
    rewrite length_drop. lia.
Qed.

Lemma isWhiteSpaceOnly_app (w t : string) :
  isWhiteSpaceOnly w = true ->
  isWhiteSpaceOnly (w +:+ t) = isWhiteSpaceOnly t.
Proof.
  intros H. unfold isWhiteSpaceOnly. now rewrite trimStart_app_white.
Qed.

(** [trimEnd] cuts an end of white space off. *)
Lemma trimEnd_prefix (s : string) :
  exists w, s = trimEnd s +:+ w /\ isWhiteSpaceOnly w = true.
Proof.
  induction s as [|c r IH]; [now exists ""|].
  cbn [trimEnd]. destruct (isWhiteSpaceOnly (String c r)) eqn:E.
  - exists (String c r). now split.
  - destruct IH as (w & Hw & Hwhite). exists w. split; [|exact Hwhite].
    rewrite append_cons. now rewrite <- Hw.
Qed.

Lemma trimEnd_white (s : string) :
  isWhiteSpaceOnly s = true -> trimEnd s = "".
Proof. destruct s as [|c r]; [reflexivity|]. cbn [trimEnd]. now intros ->. Qed.

(** No end of a trimmed string is white space. *)
Lemma trimEnd_no_white_end (s a b : string) :
  trimEnd s = a +:+ b -> isWhiteSpaceOnly b = true -> b = "".
Proof.
  revert a. induction s as [|c r IH]; intros a E Hb.
  - cbn [trimEnd] in E. destruct a; [|discriminate]. now destruct b.
  - cbn [trimEnd] in E. destruct (isWhiteSpaceOnly (String c r)) eqn:Ew.
    + destruct a; [|discriminate]. now destruct b.
    + destruct a as [|x a].
      * change ("" +:+ b) with b in E. subst b.
        destruct (trimEnd_prefix r) as (w & Hw & Hwhite).
        assert (isWhiteSpaceOnly (String c r) = true); [|congruence].
        rewrite Hw, <- append_cons, isWhiteSpaceOnly_app; [exact Hwhite | exact Hb].
      * rewrite append_cons in E. injection E as -> E. now apply (IH a).
Qed.

Lemma trimEnd_fixed (s : string) :
  (forall a b, s = a +:+ b -> isWhiteSpaceOnly b = true -> b = "") ->
  trimEnd s = s.
Proof.
  induction s as [|c r IH]; intros H; [reflexivity|].
  cbn [trimEnd]. destruct (isWhiteSpaceOnly (String c r)) eqn:E.
  - specialize (H "" (String c r) eq_refl E). discriminate.
  - f_equal. apply IH. intros a b -> Hb. apply (H (String c a) b); auto.
Qed.

Lemma trimEnd_idem (s : string) : trimEnd (trimEnd s) = trimEnd s.
Proof.
  apply trimEnd_fixed. intros a b E Hb. now apply (trimEnd_no_white_end s a b).
Qed.

(** Cutting the end keeps the front free of white space. *)
Lemma whiteSpaceLength_trimEnd (s : string) :
  whiteSpaceLength s = 0%nat -> whiteSpaceLength (trimEnd s) = 0%nat.
Proof.
  intros H. destruct (trimEnd_prefix s) as (w & Hw & _).
  destruct (whiteSpaceLength (trimEnd s)) as [|n] eqn:E; [reflexivity|].
  rewrite Hw, (whiteSpaceLength_app _ w n E) in H. discriminate.
Qed.

Lemma trim_idem (s : string) : trim (trim s) = trim s.
Proof.
  unfold trim.
  rewrite (trimStart_fixed (trimEnd (trimStart s))).
  - apply trimEnd_idem.
  - apply whiteSpaceLength_trimEnd, whiteSpaceLength_trimStart.
Qed.

Lemma hasChar_app_s (c : ascii) (a b : string) :
  hasChar c (a +:+ b) = (hasChar c a || hasChar c b)%bool.
Proof.
  induction a as [|x a IH]; [reflexivity|].
  rewrite append_cons. cbn [hasChar]. now rewrite IH, orb_assoc.
Qed.

Lemma hasChar_trimStart (c : ascii) (s : string) :
  hasChar c (trimStart s) = true -> hasChar c s = true.
Proof.
  intros H. destruct (trimStart_suffix s) as (w & Hw).
  rewrite Hw, hasChar_app_s, H. apply orb_true_r.
Qed.

Lemma hasChar_trimEnd (c : ascii) (s : string) :
  hasChar c (trimEnd s) = true -> hasChar c s = true.
Proof.
  intros H. destruct (trimEnd_prefix s) as (w & Hw & _).
  rewrite Hw, hasChar_app_s, H. reflexivity.
Qed.

Lemma hasChar_trim (c : ascii) (s : string) :
  hasChar c s = false -> hasChar c (trim s) = false.
Proof.
  intros H. destruct (hasChar c (trim s)) eqn:E; [|reflexivity].
  apply hasChar_trimEnd, hasChar_trimStart in E. congruence.
Qed.

(** A trimmed string: no white space at either end. *)
Lemma trim_front (s : string) : whiteSpaceLength (trim s) = 0%nat.
Proof. apply whiteSpaceLength_trimEnd, whiteSpaceLength_trimStart. Qed.

Lemma trim_end (s a b : string) :
  trim s = a +:+ b -> isWhiteSpaceOnly b = true -> b = "".
Proof. apply trimEnd_no_white_end. Qed.

Lemma trim_fixed (s : string) :
  whiteSpaceLength s = 0%nat ->
  (forall a b, s = a +:+ b -> isWhiteSpaceOnly b = true -> b = "") ->
  trim s = s.
Proof.
  intros H1 H2. unfold trim. rewrite (trimStart_fixed s H1).
  now apply trimEnd_fixed.
Qed.

(** *** Letter case *)

Lemma lowerChar_dot (c : ascii) : Ascii.eqb (lowerChar c) "." = Ascii.eqb c ".".
Proof. destruct c as [[] [] [] [] [] [] [] []]; reflexivity. Qed.

Lemma lowerChar_idem (c : ascii) : lowerChar (lowerChar c) = lowerChar c.
Proof. destruct c as [[] [] [] [] [] [] [] []]; reflexivity. Qed.

Lemma asciiLower_idem (s : string) : asciiLower (asciiLower s) = asciiLower s.
Proof.
  induction s as [|a s IH]; [reflexivity|].
  cbn [asciiLower]. now rewrite lowerChar_idem, IH.
Qed.

Lemma asciiLower_app (a b : string) :
  asciiLower (a +:+ b) = asciiLower a +:+ asciiLower b.
Proof.
  induction a as [|x a IH]; [reflexivity|].
  rewrite append_cons. cbn [asciiLower]. now rewrite IH.
Qed.

Lemma hasChar_asciiLower_dot (s : string) :
  hasChar "." (asciiLower s) = hasChar "." s.
Proof.
  induction s as [|a s IH]; [reflexivity|].
  cbn [asciiLower hasChar]. now rewrite lowerChar_dot, IH.
Qed.

(** Enough fuel for [convertCase]. *)
Lemma convertFront_shorter (table : list (string * string)) (s to rest : string) :
  Forall (fun e => fst e <> "") table ->
  convertFront table s = Some (to, rest) ->
  (String.length rest < String.length s)%nat.
Proof.
  intros Ht. induction Ht as [|[from to'] table Hne _ IH]; cbn [convertFront];
    [discriminate|].
  destruct (startsWith from s) eqn:E; [|exact IH].
  intros [= _ <-]. rewrite length_drop.
  cbn [fst] in Hne. destruct from as [|a from]; [congruence|].
  destruct s as [|b s]; [discriminate|]. cbn [String.length]. lia.
Qed.

Lemma convertCase_enough (table : list (string * string)) (f : ascii -> ascii)
    (fuel : nat) (s : string) :
  Forall (fun e => fst e <> "") table ->
  (String.length s <= fuel)%nat ->
  convertCase fuel table f s = convertCase (String.length s) table f s.
Proof.
  intros Ht. revert fuel.
  induction s as [s IH] using string_length_ind. intros fuel Hf.
  destruct s as [|c r]; [now destruct fuel|].
  destruct fuel as [|k]; [cbn [String.length] in Hf; lia|].
  cbn [String.length convertCase].
  destruct (convertFront table (String c r)) as [[to rest]|] eqn:E.
  - pose proof (convertFront_shorter _ _ _ _ Ht E) as Hlt.
    assert (String.length rest <= String.length r)%nat as Hr
      by (cbn [String.length] in Hlt; lia).
    assert (String.length rest <= k)%nat as Hk
      by (cbn [String.length] in Hf; lia).
    rewrite (IH rest Hlt k Hk), (IH rest Hlt (String.length r) Hr).
    reflexivity.
  - cbn [String.length] in Hf. f_equal. apply IH; cbn [String.length]; lia.
Qed.

Lemma lowerTable_fronts : Forall (fun e => fst e <> "") lowerTable.
Proof. repeat constructor; discriminate. Qed.

Lemma upperTable_fronts : Forall (fun e => fst e <> "") upperTable.
Proof. repeat constructor; discriminate. Qed.

(** What [toLowerCase] does at the front of a string. *)
Lemma toLowerCase_eq (s : string) :
  toLowerCase s
  = match s with
    | "" => ""
    | String c r =>
        match convertFront lowerTable s with
        | Some (to, rest) => to +:+ toLowerCase rest
        | None => String (lowerChar c) (toLowerCase r)
        end
    end.
Proof.
  destruct s as [|c r]; [reflexivity|].
  unfold toLowerCase at 1. cbn [String.length convertCase].
  destruct (convertFront lowerTable (String c r)) as [[to rest]|] eqn:E;
    [|reflexivity].
  pose proof (convertFront_shorter _ _ _ _ lowerTable_fronts E) as Hlt.
  cbn [String.length] in Hlt. unfold toLowerCase.
  now rewrite convertCase_enough by (apply lowerTable_fronts || lia).
Qed.

Lemma toUpperCase_eq (s : string) :
  toUpperCase s
  = match s with
    | "" => ""
    | String c r =>
        match convertFront upperTable s with
        | Some (to, rest) => to +:+ toUpperCase rest
        | None => String (upperChar c) (toUpperCase r)
        end
    end.
Proof.
  destruct s as [|c r]; [reflexivity|].
  unfold toUpperCase at 1. cbn [String.length convertCase].
  destruct (convertFront upperTable (String c r)) as [[to rest]|] eqn:E;
    [|reflexivity].
  pose proof (convertFront_shorter _ _ _ _ upperTable_fronts E) as Hlt.
  cbn [String.length] in Hlt. unfold toUpperCase.
  now rewrite convertCase_enough by (apply upperTable_fronts || lia).
Qed.

(** An entry of a table that [s] starts with. *)
Lemma convertFront_In (table : list (string * string)) (s to rest : string) :
  convertFront table s = Some (to, rest) ->
  exists from, In (from, to) table /\ s = from +:+ rest.
Proof.
  induction table as [|[from to'] table IH]; cbn [convertFront]; [discriminate|].
  destruct (startsWith from s) eqn:E.
  - intros [= <- <-]. exists from. split; [now left|].
    clear IH. revert s E. induction from as [|a from IHf]; intros s E;
      [reflexivity|].
    destruct s as [|b s]; [discriminate|]. cbn [startsWith] in E.
    destruct (Ascii.eqb_spec a b) as [->|]; [|discriminate].
    cbn [String.length drop]. rewrite append_cons. f_equal. now apply IHf.
  - intros H. destruct (IH H) as (from' & Hin & Hs). exists from'.
    split; [now right | exact Hs].
Qed.

(** A string that starts with an ASCII character starts with no entry of
    the tables. *)
Lemma convertFront_lower_ascii (c : ascii) (r : string) :
  (N_of_ascii c < 128)%N -> convertFront lowerTable (String c r) = None.
Proof.
  intros H. destruct (convertFront lowerTable (String c r)) as [[to rest]|] eqn:E;
    [|reflexivity].
  apply convertFront_In in E as (from & Hin & Hs). exfalso.
  cbn [lowerTable In] in Hin.
  repeat (destruct Hin as [[= <- <-] | Hin];
          [injection Hs as -> _; cbn in H; lia|]).
  contradiction.
Qed.

Lemma convertFront_upper_ascii (c : ascii) (r : string) :
  (N_of_ascii c < 128)%N -> convertFront upperTable (String c r) = None.
Proof.
  intros H. destruct (convertFront upperTable (String c r)) as [[to rest]|] eqn:E;
    [|reflexivity].
  apply convertFront_In in E as (from & Hin & Hs). exfalso.
  cbn [upperTable In] in Hin.
  repeat (destruct Hin as [[= <- <-] | Hin];
          [injection Hs as -> _; cbn in H; lia|]).
  contradiction.
Qed.

Lemma toLowerCase_cons (c : ascii) (r : string) :
  (N_of_ascii c < 128)%N ->
  toLowerCase (String c r) = String (lowerChar c) (toLowerCase r).
Proof.
  intros H. now rewrite toLowerCase_eq, convertFront_lower_ascii.
Qed.

Lemma toUpperCase_cons (c : ascii) (r : string) :
  (N_of_ascii c < 128)%N ->
  toUpperCase (String c r) = String (upperChar c) (toUpperCase r).
Proof.
  intros H. now rewrite toUpperCase_eq, convertFront_upper_ascii.
Qed.

Lemma hasChar_toLowerCase_dot (s : string) :
  hasChar "." (toLowerCase s) = hasChar "." s.
Proof.
  induction s as [s IH] using string_length_ind.
  rewrite toLowerCase_eq. destruct s as [|c r]; [reflexivity|].
  destruct (convertFront lowerTable (String c r)) as [[to rest]|] eqn:E.
  - pose proof (convertFront_shorter _ _ _ _ lowerTable_fronts E) as Hlt.
    apply convertFront_In in E as (from & Hin & Hs).
    rewrite Hs, !hasChar_app_s, (IH rest Hlt).
    cbn [lowerTable In] in Hin.
    repeat (destruct Hin as [[= <- <-] | Hin]; [reflexivity|]).
    contradiction.
  - cbn [hasChar]. rewrite lowerChar_dot, IH by (cbn [String.length]; lia).
    reflexivity.
Qed.

(** The result of [toLowerCase] holds no ASCII capital. *)
Lemma asciiLower_toLowerCase (s : string) :
  asciiLower (toLowerCase s) = toLowerCase s.
Proof.
  induction s as [s IH] using string_length_ind.
  rewrite toLowerCase_eq. destruct s as [|c r]; [reflexivity|].
  destruct (convertFront lowerTable (String c r)) as [[to rest]|] eqn:E.
  - pose proof (convertFront_shorter _ _ _ _ lowerTable_fronts E) as Hlt.
    apply convertFront_In in E as (from & Hin & Hs).
    rewrite asciiLower_app, (IH rest Hlt).
    cbn [lowerTable In] in Hin.
    repeat (destruct Hin as [[= <- <-] | Hin]; [reflexivity|]).
    contradiction.
  - cbn [asciiLower]. rewrite lowerChar_idem, IH by (cbn [String.length]; lia).
    reflexivity.
Qed.

(** On ASCII text [toLowerCase] is the folding of ASCII letters. *)
Lemma toLowerCase_ascii (s : string) :
  (forall c, hasChar c s = true -> (N_of_ascii c < 128)%N) ->
  toLowerCase s = asciiLower s.
Proof.
  induction s as [|c r IH]; intros H; [reflexivity|].
  rewrite toLowerCase_cons.
  - cbn [asciiLower]. f_equal. apply IH. intros x Hx. apply H.
    cbn [hasChar]. rewrite Hx. apply orb_true_r.
  - apply H. cbn [hasChar]. now rewrite Ascii.eqb_refl.
Qed.

End StringFacts.

(** ** Quota manager *)

Module QuotaFacts.
Import JS Platform Db Quota QuotaTerms.

Lemma currentCountOf_nonneg (raw : option CacheValue) : 0 <= currentCountOf raw.
Proof. destruct raw as [[n|ctx]|]; simpl; lia. Qed.

Lemma counter_nonneg (c : Cache) (u d : string) : 0 <= counter c u d.
Proof.
  unfold counter. destruct (getCache c _); [apply currentCountOf_nonneg | lia].
Qed.

Lemma getCache_online (c : Cache) (key : string) :
  online c = true ->
  exists raw, getCache c key = Ret raw.
Proof.
  intros Hon. unfold getCache. rewrite Hon. simpl.
  destruct (entries c !! key) as [[v e]|]; [destruct (now c <? e)|]; eauto.
Qed.

Lemma counter_online (c : Cache) (u d : string) (raw : option CacheValue) :
  getCache c (quotaKey u d) = Ret raw -> counter c u d = currentCountOf raw.
Proof. intros H. unfold counter. now rewrite H. Qed.

(** Reading back what was just written, while it has not expired. *)
Lemma getCache_setCache (c c' : Cache) (key : string) (v : CacheValue) (ttl : Z) :
  0 < ttl ->
  setCache c key v ttl = Ret c' ->
  getCache c' key = Ret (Some v) /\ online c' = true /\ now c' = now c.
Proof.
  intros Httl. unfold setCache.
  destruct (online c) eqn:Hon; simpl; [|discriminate].
  intros [= <-]. unfold getCache. simpl.
  rewrite lookup_insert_eq.
  assert ((now c <? now c + ttl) = true) as -> by (apply Z.ltb_lt; lia).
  auto.
Qed.

Lemma setCache_online (c : Cache) (key : string) (v : CacheValue) (ttl : Z) :
  online c = true -> exists c', setCache c key v ttl = Ret c'.
Proof. intros Hon. unfold setCache. rewrite Hon. simpl. eauto. Qed.

(** A consuming call below the limit. *)
Lemma consume_allowed (u d : string) (ttl limit : Z) (c : Cache) :
  online c = true -> 0 < ttl -> counter c u d < limit ->
  exists c',
    checkAndConsumeQuota u true limit false d ttl c
    = ({| allowed := true;
          remaining := Some (Z.max 0 (limit - (counter c u d + 1)));
          reason := None;
          cacheKey := Some (quotaKey u d);
          expireSeconds := Some ttl |}, c')
    /\ online c' = true
    /\ counter c' u d = counter c u d + 1.
Proof.
  intros Hon Httl Hlt.
  pose proof (counter_nonneg c u d) as Hnn.
  destruct (getCache_online c (quotaKey u d) Hon) as [raw Hget].
  pose proof (counter_online _ _ _ _ Hget) as Hc.
  destruct (setCache_online c (quotaKey u d)
              (VNumber (currentCountOf raw + 1)) ttl Hon) as [c' Hset].
  exists c'. unfold checkAndConsumeQuota. simpl.
  assert ((limit <=? 0) = false) as -> by (apply Z.leb_gt; lia).
  rewrite Hget.
  assert ((limit <=? currentCountOf raw) = false) as -> by (apply Z.leb_gt; lia).
  rewrite Hset, Hc.
  destruct (getCache_setCache _ _ _ _ _ Httl Hset) as (Hget' & Hon' & _).
  repeat split; [exact Hon'|].
  unfold counter. rewrite Hget'. simpl.
  pose proof (currentCountOf_nonneg raw). lia.
Qed.

(** A consuming call at or above the limit. *)
Lemma consume_denied (u d : string) (ttl limit : Z) (c : Cache) :
  online c = true -> limit <= counter c u d ->
  checkAndConsumeQuota u true limit false d ttl c = (exhausted, c).
Proof.
  intros Hon Hle. unfold checkAndConsumeQuota. simpl.
  destruct (limit <=? 0) eqn:H0; [reflexivity|].
  destruct (getCache_online c (quotaKey u d) Hon) as [raw Hget].
  rewrite Hget. rewrite (counter_online _ _ _ _ Hget) in Hle.
  assert ((limit <=? currentCountOf raw) = true) as -> by (apply Z.leb_le; lia).
  reflexivity.
Qed.

Lemma check_only_pure (u d : string) (enabled : bool) (ttl limit : Z) (c : Cache) :
  snd (checkAndConsumeQuota u enabled limit true d ttl c) = c.
Proof.
  unfold checkAndConsumeQuota.
  destruct enabled; simpl; [|reflexivity].
  destruct (limit <=? 0); [reflexivity|].
  destruct (getCache c _); [|reflexivity].
  destruct (limit <=? _); reflexivity.
Qed.

Lemma check_only_remaining (u d : string) (ttl limit : Z) (c : Cache) :
  online c = true -> counter c u d < limit ->
  allowed (fst (checkAndConsumeQuota u true limit true d ttl c)) = true
  /\ remaining (fst (checkAndConsumeQuota u true limit true d ttl c))
     = Some (limit - counter c u d).
Proof.
  intros Hon Hlt. pose proof (counter_nonneg c u d) as Hnn.
  destruct (getCache_online c (quotaKey u d) Hon) as [raw Hget].
  pose proof (counter_online _ _ _ _ Hget) as Hc.
  unfold checkAndConsumeQuota. simpl.
  assert ((limit <=? 0) = false) as -> by (apply Z.leb_gt; lia).
  rewrite Hget.
  assert ((limit <=? currentCountOf raw) = false) as -> by (apply Z.leb_gt; lia).
  simpl. split; [reflexivity|]. f_equal. lia.
Qed.

Lemma quotaKey_nonempty (u d : string) : isEmpty (quotaKey u d) = false.
Proof. reflexivity. Qed.

(** A refund takes one off the counter and stops at zero. *)
Lemma refund_counter (u d : string) (ttl : Z) (r : QuotaResult) (c : Cache) :
  online c = true -> 0 < ttl ->
  cacheKey r = Some (quotaKey u d) -> expireSeconds r = Some ttl ->
  counter (refundQuota true r c) u d = Z.max 0 (counter c u d - 1)
  /\ online (refundQuota true r c) = true.
Proof.
  intros Hon Httl Hk He. unfold refundQuota. rewrite Hk, He. simpl.
  rewrite ?quotaKey_nonempty. simpl.
  assert ((ttl =? 0) = false) as -> by (apply Z.eqb_neq; lia).
  destruct (getCache_online c (quotaKey u d) Hon) as [raw Hget].
  pose proof (counter_online _ _ _ _ Hget) as Hc.
  pose proof (currentCountOf_nonneg raw) as Hnn.
  rewrite Hget.
  destruct (0 <? currentCountOf raw) eqn:Hpos.
  - apply Z.ltb_lt in Hpos.
    destruct (setCache_online c (quotaKey u d)
                (VNumber (currentCountOf raw - 1)) ttl Hon) as [c' Hset].
    rewrite Hset.
    destruct (getCache_setCache _ _ _ _ _ Httl Hset) as (Hget' & Hon' & _).
    split; [|exact Hon'].
    unfold counter at 1. rewrite Hget'. simpl. lia.
  - apply Z.ltb_ge in Hpos. split; [lia | exact Hon].
Qed.

(** Whatever a refund writes is not negative. *)
Lemma refund_writes_nonneg (enabled : bool) (r : QuotaResult) (c : Cache)
    (key : string) (n e : Z) :
  entries (refundQuota enabled r c) !! key = Some (VNumber n, e) ->
  entries c !! key = Some (VNumber n, e) \/ 0 <= n.
Proof.
  unfold refundQuota.
  destruct (cacheKey r) as [k|]; [|auto].
  destruct (expireSeconds r) as [ex|]; [|auto].
  destruct (negb enabled || isEmpty k || (ex =? 0))%bool; [auto|].
  destruct (getCache c k) as [raw|]; [|auto].
  destruct (0 <? currentCountOf raw) eqn:Hpos; [|auto].
  apply Z.ltb_lt in Hpos.
  unfold setCache. destruct (online c); simpl; [|auto].
  destruct (decide (k = key)) as [->|Hne].
  - rewrite lookup_insert_eq. intros [= <- <-]. right. lia.
  - rewrite lookup_insert_ne by exact Hne. auto.
Qed.

(** C2.  Quota enabled, three downloads a day, counter at zero: three
    consuming calls are allowed and leave 2, 1 and 0; a fourth is denied and
    changes nothing; after one refund a check-only call is allowed and
    reports 1 remaining.  A check-only call never changes the cache, and a
    refund lowers the counter by one without going below zero. *)
Theorem quota_three_a_day (u d : string) (ttl : Z) (c0 : Cache) :
  online c0 = true -> 0 < ttl -> counter c0 u d = 0 ->
  let consume := checkAndConsumeQuota u true 3 false d ttl in
  let check := checkAndConsumeQuota u true 3 true d ttl in
  let r1 := fst (consume c0) in let c1 := snd (consume c0) in
  let r2 := fst (consume c1) in let c2 := snd (consume c1) in
  let r3 := fst (consume c2) in let c3 := snd (consume c2) in
  let r4 := fst (consume c3) in let c4 := snd (consume c3) in
  let c5 := refundQuota true r3 c4 in
  let r6 := fst (check c5) in let c6 := snd (check c5) in
  (allowed r1 = true /\ remaining r1 = Some 2)
  /\ (allowed r2 = true /\ remaining r2 = Some 1)
  /\ (allowed r3 = true /\ remaining r3 = Some 0)
  /\ (allowed r4 = false /\ c4 = c3)
  /\ counter c5 u d = 2
  /\ (allowed r6 = true /\ remaining r6 = Some 1 /\ c6 = c5)
  /\ (forall enabled limit c,
        snd (checkAndConsumeQuota u enabled limit true d ttl c) = c)
  /\ (forall r c, online c = true ->
        cacheKey r = Some (quotaKey u d) -> expireSeconds r = Some ttl ->
        counter (refundQuota true r c) u d = Z.max 0 (counter c u d - 1))
  /\ (forall enabled r c key n e,
        entries (refundQuota enabled r c) !! key = Some (VNumber n, e) ->
        entries c !! key = Some (VNumber n, e) \/ 0 <= n).
Proof.
  intros Hon Httl H0. cbv zeta.
  destruct (consume_allowed u d ttl 3 c0 Hon Httl ltac:(lia)) as (c1 & E1 & Hon1 & K1).
  rewrite H0 in E1, K1. rewrite E1. cbn [fst snd].
  destruct (consume_allowed u d ttl 3 c1 Hon1 Httl ltac:(lia)) as (c2 & E2 & Hon2 & K2).
  rewrite K1 in E2, K2. rewrite E2. cbn [fst snd].
  destruct (consume_allowed u d ttl 3 c2 Hon2 Httl ltac:(lia)) as (c3 & E3 & Hon3 & K3).
  rewrite K2 in E3, K3. rewrite E3. cbn [fst snd].
  rewrite (consume_denied u d ttl 3 c3 Hon3 ltac:(lia)). cbn [fst snd].
  match goal with
  | |- context [refundQuota true ?r c3] =>
      destruct (refund_counter u d ttl r c3 Hon3 Httl eq_refl eq_refl) as (K5 & Hon5)
  end.
  rewrite K3 in K5.
  cbn [allowed remaining exhausted].
  repeat split; try reflexivity.
  - rewrite K5. reflexivity.
  - apply check_only_remaining; [exact Hon5 | lia].
  - rewrite (proj2 (check_only_remaining u d ttl 3 _ Hon5 ltac:(lia))).
    rewrite K5. reflexivity.
  - apply check_only_pure.
  - intros. apply check_only_pure.
  - intros r c Hc Hk He. apply (refund_counter u d ttl r c Hc Httl Hk He).
  - intros. eapply refund_writes_nonneg; eauto.
Qed.

Lemma quota_three_a_day_witness :
  let consume := checkAndConsumeQuota "alice" true 3 false "2026-01-01" 3600 in
  remaining (fst (consume freshCache)) = Some 2.
Proof.
  pose proof (quota_three_a_day "alice" "2026-01-01" 3600 freshCache
                eq_refl ltac:(lia) ltac:(vm_compute; reflexivity)) as H.
  cbv zeta in H. exact (proj2 (proj1 H)).
Defined.

End QuotaFacts.

(** ** Proxy gateway *)

Module GatewayFacts.
Import JS Platform Db Playlist Gateway GatewayTerms.

#[local] Arguments includesStr : simpl never.
#[local] Arguments isPrivateHost : simpl never.
#[local] Arguments hasImageExtension : simpl never.
#[local] Arguments toLowerCase : simpl never.
#[local] Arguments split : simpl never.
#[local] Arguments head : simpl never.

Section Gate.

Variable parseURL : string -> string -> option URL.
Variable base64urlDecode : string -> string.
Variable upstream : string -> list (string * string) -> Upstream.

Lemma missing_token_unauthorized (request : GatewayRequest) (cache : Cache) :
  namesTarget request = true ->
  falsy (param_token request) = true ->
  GET parseURL base64urlDecode upstream request cache = Ret (jsonError "Unauthorized" 403).
Proof.
  unfold namesTarget, GET. intros Ht Hk.
  apply negb_true_iff in Ht. rewrite Ht, Hk. reflexivity.
Qed.

(** A token the cache does not return: never stored, or expired. *)
Lemma unknown_token_unauthorized (request : GatewayRequest) (cache : Cache)
    (token : string) :
  namesTarget request = true ->
  param_token request = Some token ->
  getCache cache (tokenKey token) = Ret None ->
  GET parseURL base64urlDecode upstream request cache = Ret (jsonError "Unauthorized" 403).
Proof.
  unfold namesTarget, GET. intros Ht Hk Hget.
  apply negb_true_iff in Ht. rewrite Ht, Hk. simpl.
  destruct (isEmpty token); [reflexivity|].
  rewrite Hget. reflexivity.
Qed.

Lemma expired_entry_not_returned (cache : Cache) (key : string)
    (v : CacheValue) (expiresAt : Z) :
  online cache = true ->
  entries cache !! key = Some (v, expiresAt) ->
  expiresAt <= now cache ->
  getCache cache key = Ret None.
Proof.
  intros Hon He Hle. unfold getCache. rewrite Hon, He. simpl.
  assert ((now cache <? expiresAt) = false) as -> by (apply Z.ltb_ge; lia).
  reflexivity.
Qed.

Lemma absent_entry_not_returned (cache : Cache) (key : string) :
  online cache = true ->
  entries cache !! key = None ->
  getCache cache key = Ret None.
Proof. intros Hon He. unfold getCache. rewrite Hon, He. reflexivity. Qed.

(** An image-extension path under a token that does not permit images. *)
Lemma image_path_rejected (request : GatewayRequest) (cache : Cache)
    (token : string) (ctx : TokenContext) (target : URL) :
  namesTarget request = true ->
  param_token request = Some token -> isEmpty token = false ->
  getCache cache (tokenKey token) = Ret (Some (VToken ctx)) ->
  tc_allowImageSegments ctx <> Some true ->
  targetOf parseURL base64urlDecode request = Some target ->
  includesStr (protocol target) ["http:"; "https:"] = true ->
  hostAllowed request target = true ->
  hasImageExtension (toLowerCase (pathname target)) = true ->
  GET parseURL base64urlDecode upstream request cache = Ret (textResponse "Unsupported segment type" 422).
Proof.
  unfold namesTarget, targetOf, hostAllowed, GET.
  intros Ht Hk Hne Hget Hallow Htarget Hproto Hhost Himg.
  apply negb_true_iff in Ht. rewrite Ht, Hk. simpl. rewrite Hne.
  rewrite Hget. simpl. rewrite Htarget, Hproto. simpl.
  apply negb_true_iff in Hhost. rewrite Hhost.
  rewrite bool_decide_eq_false_2 by exact Hallow. simpl.
  rewrite Himg. reflexivity.
Qed.

End Gate.

(** C7 (amended).  A request that names no target (neither [u] nor
    [url]) is answered 400 [Missing url], whatever its token.  A request
    that names a target but carries no token, or a token the reachable
    cache does not return (unknown or expired), is answered 403
    Unauthorized.  A request with a valid token whose target is an http(s)
    URL that the private-host rule lets through, with a path ending in an
    image extension, under a token context that does not permit image
    segments, is answered 422 with the message [Unsupported segment type]. *)
Theorem gateway_unauthorized_and_image_gate
    (parseURL : string -> string -> option URL)
    (base64urlDecode : string -> string)
    (upstream : string -> list (string * string) -> Upstream)
    (request : GatewayRequest) (cache : Cache) :
  (namesTarget request = false ->
   GET parseURL base64urlDecode upstream request cache
   = Ret (jsonError "Missing url" 400))
  /\ (namesTarget request = true -> falsy (param_token request) = true ->
      GET parseURL base64urlDecode upstream request cache
      = Ret (jsonError "Unauthorized" 403))
  /\ (forall token,
        namesTarget request = true ->
        param_token request = Some token -> online cache = true ->
        entries cache !! tokenKey token = None ->
        GET parseURL base64urlDecode upstream request cache
        = Ret (jsonError "Unauthorized" 403))
  /\ (forall token v expiresAt,
        namesTarget request = true ->
        param_token request = Some token -> online cache = true ->
        entries cache !! tokenKey token = Some (v, expiresAt) ->
        expiresAt <= now cache ->
        GET parseURL base64urlDecode upstream request cache
        = Ret (jsonError "Unauthorized" 403))
  /\ (forall token ctx expiresAt target,
        namesTarget request = true ->
        param_token request = Some token -> isEmpty token = false ->
        online cache = true ->
        entries cache !! tokenKey token = Some (VToken ctx, expiresAt) ->
        now cache < expiresAt ->
        tc_allowImageSegments ctx <> Some true ->
        targetOf parseURL base64urlDecode request = Some target ->
        includesStr (protocol target) ["http:"; "https:"] = true ->
        hostAllowed request target = true ->
        hasImageExtension (toLowerCase (pathname target)) = true ->
        GET parseURL base64urlDecode upstream request cache
        = Ret (textResponse "Unsupported segment type" 422)).
Proof.
  split; [|split; [|split; [|split]]].
  - unfold namesTarget, GET. intros Ht. apply negb_false_iff in Ht.
    now rewrite Ht.
  - intros Ht Hk. now apply missing_token_unauthorized.
  - intros token Ht Hk Hon He.
    eapply unknown_token_unauthorized; eauto using absent_entry_not_returned.
  - intros token v e Ht Hk Hon He Hle.
    eapply unknown_token_unauthorized; eauto using expired_entry_not_returned.
  - intros token ctx e target Ht Hk Hne Hon He Hlt Hallow Htarget Hproto
      Hhost Himg.
    eapply image_path_rejected; eauto.
    unfold getCache. rewrite Hon, He. simpl.
    assert ((now cache <? e) = true) as -> by (apply Z.ltb_lt; lia).
    reflexivity.
Qed.

(** *** A concrete exchange *)

(** C7, counterexample.  With a valid token that does not permit images
    and an image-extension target, the 422 answer carries the message
    [Unsupported segment type], not [Unexpected segment content-type]; and
    when the target host is a blocked private host the answer is 403, not
    422. *)
Lemma gateway_image_message_counterexample :
  GET exampleParseURL (fun s => s) exampleUpstream
      (requestFor segmentUrl "t1") tokenCache
  = Ret {| g_status := 422; g_contentType := Some "text/plain";
           g_body := "Unsupported segment type" |}
  /\ startsWith "Unexpected segment content-type" "Unsupported segment type"
     = false
  /\ GET exampleParseURL (fun s => s) exampleUpstream
       (requestFor "http://127.0.0.1/seg/0001.jpg" "t1") tokenCache
     = Ret {| g_status := 403; g_contentType := Some "application/json";
              g_body := "Blocked host" |}.
Proof. vm_compute. repeat split; reflexivity. Qed.

Lemma gateway_unauthorized_and_image_gate_witness :
  GET exampleParseURL (fun s => s) exampleUpstream
    {| param_u := None; param_url := None; param_token := Some "t1";
       header_host := None; header_range := None;
       request_url := "http://tv.example/api/download/segment.ts" |}
    tokenCache
  = Ret (jsonError "Missing url" 400)
  /\ GET exampleParseURL (fun s => s) exampleUpstream
       (requestFor segmentUrl "t1") tokenCache
     = Ret (textResponse "Unsupported segment type" 422)
  /\ GET exampleParseURL (fun s => s) exampleUpstream
       (requestFor segmentUrl "t2") tokenCache
     = Ret (jsonError "Unauthorized" 403)
  /\ GET exampleParseURL (fun s => s) exampleUpstream
       (requestFor segmentUrl "t1") (elapse 1800 tokenCache)
     = Ret (jsonError "Unauthorized" 403).
Proof.
  split; [|split; [|split]].
  - exact (proj1
      (gateway_unauthorized_and_image_gate exampleParseURL (fun s => s)
         exampleUpstream
         {| param_u := None; param_url := None; param_token := Some "t1";
            header_host := None; header_range := None;
            request_url := "http://tv.example/api/download/segment.ts" |}
         tokenCache) eq_refl).
  - refine (proj2 (proj2 (proj2 (proj2
      (gateway_unauthorized_and_image_gate exampleParseURL (fun s => s)
         exampleUpstream (requestFor segmentUrl "t1") tokenCache))))
      "t1" plainContext 1900
      {| protocol := "http:"; hostname := "cdn.example";
         pathname := "/seg/0001.jpg"; href := segmentUrl |}
      eq_refl eq_refl eq_refl eq_refl _ _ _ _ eq_refl eq_refl eq_refl).
    + vm_compute. reflexivity.
    + reflexivity.
    + discriminate.
    + vm_compute. reflexivity.
  - refine (proj1 (proj2 (proj2
      (gateway_unauthorized_and_image_gate exampleParseURL (fun s => s)
         exampleUpstream (requestFor segmentUrl "t2") tokenCache)))
      "t2" eq_refl eq_refl eq_refl _).
    vm_compute. reflexivity.
  - refine (proj1 (proj2 (proj2 (proj2
      (gateway_unauthorized_and_image_gate exampleParseURL (fun s => s)
         exampleUpstream (requestFor segmentUrl "t1")
         (elapse 1800 tokenCache)))))
      "t1" (VToken plainContext) 1900 eq_refl eq_refl eq_refl _ _).
    + vm_compute. reflexivity.
    + vm_compute. discriminate.
Defined.

End GatewayFacts.

(** ** Header/URL directive parser *)

Module ParserFacts.
Import JS Parser ParserTerms StringFacts.

Lemma isCRLF_eqb (a c : ascii) :
  isCRLF a = false -> isCRLF c = true -> Ascii.eqb a c = false.
Proof.
  intros Ha Hc. destruct (Ascii.eqb_spec a c) as [->|]; [congruence | reflexivity].
Qed.

Lemma collapseCRLF_clean (c : ascii) (s : string) :
  isCRLF c = true -> hasChar c (collapseCRLF s) = false.
Proof.
  intros Hc.
  assert (Ascii.eqb " " c = false) as Hsp by (now apply isCRLF_eqb).
  induction s as [|a r IH]; [reflexivity|].
  cbn [collapseCRLF].
  destruct (isCRLF a) eqn:Ha.
  - destruct r as [|d r'].
    + cbn [hasChar]. now rewrite Hsp.
    + destruct (isCRLF d); [exact IH|].
      cbn [hasChar]. now rewrite Hsp, IH.
  - cbn [hasChar]. now rewrite (isCRLF_eqb a c Ha Hc), IH.
Qed.

Lemma sanitizeHeaderValue_clean (value : string) :
  noCRLF (sanitizeHeaderValue value).
Proof.
  split; apply hasChar_trim, collapseCRLF_clean; reflexivity.
Qed.

Lemma isEmpty_false (s : string) : isEmpty s = false -> s <> "".
Proof. destruct s; [discriminate | discriminate]. Qed.

(** What one pair does to the header object. *)
Lemma parsePair_cases (hs : gmap string string) (pair : string) :
  parsePair hs pair = hs
  \/ exists name,
       headerNameOf (pairKey pair) = Some name
       /\ isEmpty (sanitizeHeaderValue (decodeOrRaw (pairRawValue pair))) = false
       /\ parsePair hs pair
          = <[name := sanitizeHeaderValue (decodeOrRaw (pairRawValue pair))]> hs.
Proof.
  unfold parsePair, pairKey, pairRawValue.
  destruct (isEmpty (trim pair)); [auto|].
  destruct (split "=" (trim pair)) as [|rawKey rest]; [auto|].
  cbn [head tail].
  destruct (isEmpty rawKey || Nat.eqb (List.length rest) 0)%bool; [auto|].
  destruct (isEmpty (trim (join "=" rest))); [auto|].
  destruct (isEmpty (sanitizeHeaderValue _)) eqn:Hv; [auto|].
  destruct (headerNameOf _) as [name|]; [|auto].
  right. exists name. auto.
Qed.

Lemma parsePair_unrecognized (hs : gmap string string) (pair : string) :
  headerNameOf (pairKey pair) = None -> parsePair hs pair = hs.
Proof.
  intros Hk. destruct (parsePair_cases hs pair) as [H|(name & Hn & _)]; [exact H|].
  congruence.
Qed.

Lemma headerNameOf_forwarded (key name : string) :
  headerNameOf key = Some name -> In name forwardedNames.
Proof.
  unfold headerNameOf, forwardedNames.
  repeat match goal with
         | |- context [if ?b then _ else _] => destruct b
         end; intros [= <-]; simpl; auto 10.
Qed.

Lemma headerNameOf_recognized (key : string) :
  headerNameOf key <> None <-> In key codeRecognizedKeys.
Proof.
  unfold headerNameOf, codeRecognizedKeys. split.
  - intros H.
    repeat match type of H with
           | context [String.eqb key ?k] =>
               let E := fresh "E" in
               destruct (String.eqb key k) eqn:E;
               [apply String.eqb_eq in E; rewrite E; simpl; auto 10|]
           end.
    simpl in H. congruence.
  - intros H. simpl in H.
    repeat (destruct H as [<-|H]; [simpl; discriminate|]).
    contradiction.
Qed.

Lemma fold_parsePair_inv (all pairs : list string) (hs : gmap string string) :
  (forall pair, In pair pairs -> In pair all) ->
  (forall name v, hs !! name = Some v -> fromPairs all name v) ->
  forall name v,
    fold_left parsePair pairs hs !! name = Some v -> fromPairs all name v.
Proof.
  revert hs. induction pairs as [|pair rest IH]; intros hs Hsub Hinv; [exact Hinv|].
  cbn [fold_left]. apply IH; [intros p Hp; apply Hsub; now right|].
  intros name v.
  destruct (parsePair_cases hs pair) as [->|(n & Hn & Hv & ->)]; [apply Hinv|].
  destruct (decide (n = name)) as [->|Hne].
  - rewrite lookup_insert_eq. intros [= <-].
    split; [eapply headerNameOf_forwarded; eauto|].
    split; [apply sanitizeHeaderValue_clean|].
    split; [now apply isEmpty_false|].
    exists pair. split; [apply Hsub; now left | auto].
  - rewrite lookup_insert_ne by exact Hne. apply Hinv.
Qed.

Lemma indexOf_first (c : ascii) (s : string) (i : nat) :
  indexOf c s = Some i -> hasChar c (take i s) = false.
Proof.
  revert i. induction s as [|a r IH]; intros i; simpl; [discriminate|].
  destruct (Ascii.eqb a c) eqn:E.
  - intros [= <-]. reflexivity.
  - destruct (indexOf c r) as [j|]; [|discriminate].
    intros [= <-]. simpl. rewrite E. now apply IH.
Qed.

Lemma split_cons (c : ascii) (s : string) :
  exists h t, split c s = h :: t.
Proof.
  induction s as [|a r (h & t & IH)]; [now exists "", []|].
  cbn [split]. rewrite IH. destruct (Ascii.eqb a c); eauto.
Qed.

Lemma split_rest (c : ascii) (s h : string) (t : list string) :
  split c s = h :: t -> Nat.eqb (List.length t) 0 = negb (hasChar c s).
Proof.
  revert h t. induction s as [|a r IH]; intros h t.
  - intros [= <- <-]. reflexivity.
  - cbn [split hasChar].
    destruct (split_cons c r) as (h' & t' & E). rewrite E.
    destruct (Ascii.eqb a c); cbn [orb].
    + intros [= <- <-]. reflexivity.
    + intros [= <- <-]. exact (IH _ _ E).
Qed.

Lemma isEmpty_true (s : string) : isEmpty s = true -> s = "".
Proof. now destruct s. Qed.

(** One pair either assigns the header it names or changes nothing. *)
Lemma parsePair_exact (hs : gmap string string) (pair : string) :
  (exists name v, assigns pair name v /\ parsePair hs pair = <[name := v]> hs)
  \/ ((forall name v, ~ assigns pair name v) /\ parsePair hs pair = hs).
Proof.
  unfold assigns, parsePair, pairKey, pairRawValue.
  destruct (split_cons "=" (trim pair)) as (rawKey & rest & E).
  rewrite E. cbn [head tail].
  rewrite (split_rest _ _ _ _ E).
  destruct (isEmpty (trim pair)) eqn:Hp.
  { apply isEmpty_true in Hp. rewrite Hp in *. right. split; [|reflexivity].
    intros name v (H & _). discriminate H. }
  destruct (hasChar "=" (trim pair)) eqn:Heq; cbn [negb].
  2:{ rewrite orb_true_r. right. split; [|reflexivity].
      intros name v (H & _). discriminate H. }
  rewrite orb_false_r.
  destruct (isEmpty rawKey) eqn:Hk.
  { apply isEmpty_true in Hk. subst rawKey. right. split; [|reflexivity].
    intros name v (_ & H & _). vm_compute in H. discriminate H. }
  destruct (isEmpty (trim (join "=" rest))) eqn:Hr.
  { apply isEmpty_true in Hr. rewrite Hr. right. split; [|reflexivity].
    intros name v (_ & _ & -> & H). apply H. vm_compute. reflexivity. }
  set (v0 := sanitizeHeaderValue (decodeOrRaw (trim (join "=" rest)))).
  destruct (isEmpty v0) eqn:Hv.
  { apply isEmpty_true in Hv. right. split; [|reflexivity].
    intros name v (_ & _ & -> & H). congruence. }
  destruct (headerNameOf (toLowerCase (trim rawKey))) as [n|] eqn:Hn.
  - left. exists n, v0. repeat split; auto. now apply isEmpty_false.
  - right. split; [|reflexivity]. intros name v (_ & H & _). discriminate H.
Qed.

Lemma assigns_one (pair name name' v v' : string) :
  assigns pair name v -> assigns pair name' v' -> name = name' /\ v = v'.
Proof. intros (_ & H1 & -> & _) (_ & H2 & -> & _). split; congruence. Qed.

Lemma assigns_sound (pair name v : string) :
  assigns pair name v -> In name forwardedNames /\ noCRLF v /\ v <> "".
Proof.
  intros (_ & Hn & -> & Hv).
  split; [eapply headerNameOf_forwarded; eauto|].
  split; [apply sanitizeHeaderValue_clean | exact Hv].
Qed.

(** The header object after the pairs: each name holds what the last pair
    assigning it gives. *)
Lemma fold_parsePair_last (pairs : list string) (name v : string) :
  fold_left parsePair pairs ∅ !! name = Some v <-> lastAssigned pairs name v.
Proof.
  unfold lastAssigned.
  induction pairs as [|p l IH] using rev_ind.
  - cbn [fold_left]. rewrite lookup_empty. split; [discriminate|].
    intros (before & pair & after & E & _). now destruct before.
  - rewrite fold_left_app. cbn [fold_left].
    destruct (parsePair_exact (fold_left parsePair l ∅) p)
      as [(n & w & Ha & ->)|(Hno & ->)].
    + destruct (decide (n = name)) as [->|Hne].
      * rewrite lookup_insert_eq. split.
        -- intros [= <-]. exists l, p, []. split; [reflexivity|].
           split; [exact Ha | intros later w' []].
        -- intros (before & pair & after & E & Hp & Hafter).
           destruct after as [|x after] using rev_ind.
           ++ apply app_inj_tail in E as [_ <-].
              f_equal. now destruct (assigns_one _ _ _ _ _ Ha Hp).
           ++ clear IHafter. rewrite app_comm_cons, app_assoc in E.
              apply app_inj_tail in E as [_ <-].
              exfalso. apply (Hafter p w); [|exact Ha].
              apply in_or_app. right. now left.
      * rewrite lookup_insert_ne by exact Hne. rewrite IH. split.
        -- intros (before & pair & after & -> & Hp & Hafter).
           exists before, pair, (after ++ [p]).
           split; [now rewrite <- app_assoc|]. split; [exact Hp|].
           intros later w' Hin Hl. apply in_app_or in Hin as [Hin|[<-|[]]].
           ++ now apply (Hafter later w').
           ++ now destruct (assigns_one _ _ _ _ _ Ha Hl).
        -- intros (before & pair & after & E & Hp & Hafter).
           destruct after as [|x after] using rev_ind.
           ++ apply app_inj_tail in E as [_ <-].
              now destruct (assigns_one _ _ _ _ _ Ha Hp).
           ++ clear IHafter. rewrite app_comm_cons, app_assoc in E.
              apply app_inj_tail in E as [-> <-].
              exists before, pair, after. split; [reflexivity|].
              split; [exact Hp|]. intros later w' Hin.
              apply Hafter, in_or_app. now left.
    + rewrite IH. split.
      * intros (before & pair & after & -> & Hp & Hafter).
        exists before, pair, (after ++ [p]).
        split; [now rewrite <- app_assoc|]. split; [exact Hp|].
        intros later w' Hin. apply in_app_or in Hin as [Hin|[<-|[]]].
        -- now apply Hafter.
        -- apply Hno.
      * intros (before & pair & after & E & Hp & Hafter).
        destruct after as [|x after] using rev_ind.
        -- apply app_inj_tail in E as [_ <-]. now apply Hno in Hp.
        -- clear IHafter. rewrite app_comm_cons, app_assoc in E.
           apply app_inj_tail in E as [-> <-].
           exists before, pair, after. split; [reflexivity|].
           split; [exact Hp|]. intros later w' Hin.
           apply Hafter, in_or_app. now left.
Qed.

Lemma lastAssigned_fromPairs (pairs : list string) (name v : string) :
  lastAssigned pairs name v ->
  In name forwardedNames /\ noCRLF v /\ v <> ""
  /\ exists pair, In pair pairs /\ assigns pair name v.
Proof.
  intros (before & pair & after & -> & Hp & _).
  destruct (assigns_sound _ _ _ Hp) as (H1 & H2 & H3).
  repeat split; try assumption; try apply H2.
  exists pair. split; [apply in_or_app; right; now left | exact Hp].
Qed.

Lemma lastAssigned_empty (name v : string) : ~ lastAssigned [""] name v.
Proof.
  intros (before & pair & after & E & (H & _) & _).
  assert (In pair [""]) as [<-|[]] by (rewrite E; apply in_or_app; right; now left).
  discriminate H.
Qed.

(** C9 (amended).  [parseUrlWithHeaders] works on the trimmed input.
    Without a [|] the whole is the URL and there are no headers.  Otherwise
    the URL is the trimmed text before the first [|], and the headers are
    exactly what the [key=value] pairs of the [&]-separated remainder set:
    a header has the value [v] if and only if some pair sets it to [v] and
    no later pair sets it again.  A pair sets a header when it holds a
    [=], its trimmed, lower-cased key is recognized, and its value - the
    percent-decoded raw value (the raw value itself when it does not
    decode) after sanitizing - is not empty; the header is then one of
    Referer, User-Agent, Origin, Cookie, Authorization and its value holds
    no CR or LF.  A pair whose key is not recognized leaves the headers
    unchanged; the recognized keys are referer, referrer, user-agent,
    useragent, ua, origin, cookie, authorization. *)
Theorem parseUrlWithHeaders_spec (rawUrl : string) :
  let trimmed := trim rawUrl in
  let parsed := parseUrlWithHeaders rawUrl in
  (indexOf "|" trimmed = None -> url parsed = trimmed /\ headers parsed = ∅)
  /\ (forall i, indexOf "|" trimmed = Some i ->
        url parsed = trim (take i trimmed)
        /\ hasChar "|" (take i trimmed) = false
        /\ forall name v,
             headers parsed !! name = Some v
             <-> lastAssigned (split "&" (trim (drop (S i) trimmed))) name v)
  /\ (forall pair name v,
        assigns pair name v ->
        In name forwardedNames /\ noCRLF v /\ v <> "")
  /\ (forall hs pair,
        headerNameOf (pairKey pair) = None -> parsePair hs pair = hs)
  /\ (forall key, headerNameOf key <> None <-> In key codeRecognizedKeys).
Proof.
  cbv zeta. unfold parseUrlWithHeaders.
  split; [|split; [|split; [|split]]].
  - intros ->. simpl. auto.
  - intros i Hi. rewrite Hi.
    split; [destruct (isEmpty _); reflexivity|].
    split; [now apply indexOf_first|].
    intros name v.
    destruct (isEmpty (trim (drop (S i) (trim rawUrl)))) eqn:He; cbn [headers].
    + apply isEmpty_true in He. rewrite He. rewrite lookup_empty.
      split; [discriminate|]. intros H. now apply lastAssigned_empty in H.
    + apply fold_parsePair_last.
  - apply assigns_sound.
  - apply parsePair_unrecognized.
  - apply headerNameOf_recognized.
Qed.

(** C9, counterexample.  [useragent] is not in the set of keys the claim
    lists, yet a [useragent=] pair sets User-Agent; and the URL returned is
    not the text before the first [|] as it stands, but that text trimmed. *)
Lemma parser_key_set_counterexample :
  (~ In "useragent" specRecognizedKeys
   /\ headers (parseUrlWithHeaders "http://a/v.m3u8|useragent=X") !! "User-Agent"
      = Some "X")
  /\ (take 17 " http://a/v.m3u8 |ua=x" = " http://a/v.m3u8 "
      /\ indexOf "|" " http://a/v.m3u8 |ua=x" = Some 17%nat
      /\ url (parseUrlWithHeaders " http://a/v.m3u8 |ua=x") = "http://a/v.m3u8").
Proof.
  split; [split|].
  - simpl. intros H. repeat (destruct H as [H|H]; [discriminate|]). exact H.
  - vm_compute. reflexivity.
  - vm_compute. repeat split; reflexivity.
Qed.

Lemma parseUrlWithHeaders_spec_witness :
  headers (parseUrlWithHeaders "http://a/v.m3u8|ua=x%0D%0Ay&k=v") !! "User-Agent"
  = Some "x y"
  /\ headers (parseUrlWithHeaders kelvinDirective) !! "Cookie" = Some "a".
Proof.
  split.
  - refine (proj2 (proj2 (proj2 (proj1 (proj2
      (parseUrlWithHeaders_spec "http://a/v.m3u8|ua=x%0D%0Ay&k=v"))
      15%nat eq_refl)) "User-Agent" "x y") _).
    exists [], "ua=x%0D%0Ay", ["k=v"].
    split; [vm_compute; reflexivity|]. split.
    + repeat split; try (vm_compute; reflexivity). discriminate.
    + intros later w [<-|[]] (_ & H & _). vm_compute in H. discriminate H.
  - refine (proj2 (proj2 (proj2 (proj1 (proj2
      (parseUrlWithHeaders_spec kelvinDirective))
      15%nat eq_refl)) "Cookie" "a") _).
    exists [], "cooKie=a", [].
    split; [vm_compute; reflexivity|]. split.
    + repeat split; try (vm_compute; reflexivity). discriminate.
    + intros later w [].
Defined.

End ParserFacts.

(** ** Transcode driver: output validation *)

Module ValidationFacts.
Import JS Platform Playlist Driver ValidationTerms CommonTerms.

Lemma expectedDurationOf_spec (content : string) (e : Z) :
  expectedDurationOf content = Some e
  <-> isVodPlaylist content = true
      /\ parsePlaylistDurationMs content = Some e /\ e <> 0.
Proof.
  unfold expectedDurationOf.
  destruct (isVodPlaylist content); [|split; [discriminate | intros [? _]; discriminate]].
  destruct (parsePlaylistDurationMs content) as [d|];
    [|split; [discriminate | intros (_ & ? & _); discriminate]].
  destruct (Z.eqb_spec d 0) as [->|Hd].
  - split; [discriminate | intros (_ & [= <-] & H); contradiction].
  - split; [intros [= <-]; auto | intros (_ & [= <-] & _); reflexivity].
Qed.

Lemma attemptDurationOf_spec (us a : Z) :
  attemptDurationOf (Some us) = Some a <-> us <> 0 /\ a = (us + 500) / 1000.
Proof.
  unfold attemptDurationOf. destruct (Z.eqb_spec us 0) as [->|Hus].
  - split; [discriminate | intros [H _]; contradiction].
  - split; [intros [= <-]; auto | intros [_ ->]; reflexivity].
Qed.

Lemma empty_output_fails (r : FfmpegResult) (stats expected : option Z) :
  fr_ok r = true ->
  (stats = None \/ exists size, stats = Some size /\ size <= 0) ->
  completeAttempt r stats expected = Throw "Empty output from ffmpeg".
Proof.
  intros Hok H. unfold completeAttempt. rewrite Hok. cbn [negb].
  destruct H as [->|(size & -> & Hle)]; [reflexivity|].
  assert ((size <=? 0) = true) as -> by (apply Z.leb_le; lia).
  reflexivity.
Qed.

Lemma short_output_fails (r : FfmpegResult) (size e a : Z) :
  fr_ok r = true -> 0 < size ->
  e <> 0 -> attemptDurationOf (fr_outTimeUs r) = Some a -> a <> 0 ->
  10 * a < 9 * e ->
  completeAttempt r (Some size) (Some e) = Throw "Output appears incomplete".
Proof.
  intros Hok Hsize He Ha Ha0 Hshort. unfold completeAttempt.
  rewrite Hok, Ha. cbn [negb].
  assert ((size <=? 0) = false) as -> by (apply Z.leb_gt; lia).
  assert ((e =? 0) = false) as -> by (apply Z.eqb_neq; lia).
  assert ((a =? 0) = false) as -> by (apply Z.eqb_neq; lia).
  assert ((10 * a <? 9 * e) = true) as -> by (apply Z.ltb_lt; lia).
  reflexivity.
Qed.

(** Without an expected duration, or without a measured one, the length of
    the output is not checked. *)
Lemma unchecked_output_passes (r : FfmpegResult) (size : Z) (expected : option Z) :
  fr_ok r = true -> 0 < size ->
  (expected = None \/ attemptDurationOf (fr_outTimeUs r) = None
   \/ attemptDurationOf (fr_outTimeUs r) = Some 0) ->
  completeAttempt r (Some size) expected
  = Ret (attemptDurationOf (fr_outTimeUs r)).
Proof.
  intros Hok Hsize H. unfold completeAttempt. rewrite Hok. cbn [negb].
  assert ((size <=? 0) = false) as -> by (apply Z.leb_gt; lia).
  destruct H as [->|[->| ->]]; [reflexivity | destruct expected; reflexivity |].
  destruct expected as [e|]; [|reflexivity].
  cbn. rewrite andb_false_r. reflexivity.
Qed.

(** C6 (amended).  After a run that exits successfully the attempt fails
    when the output file is missing or empty; it fails as incomplete when
    an expected duration is set (the playlist is VOD, has an end-of-list
    marker, and its [#EXTINF] durations sum to a non-zero total), the
    elapsed output time rounds to a non-zero number of milliseconds, and
    that number is below 90% of the expected duration.  With no expected
    duration, or an elapsed time of zero, the length is not checked. *)
Theorem output_validation (r : FfmpegResult) (stats expected : option Z) :
  fr_ok r = true ->
  ((stats = None \/ exists size, stats = Some size /\ size <= 0) ->
   completeAttempt r stats expected = Throw "Empty output from ffmpeg")
  /\ (forall size e a,
        stats = Some size -> 0 < size ->
        expected = Some e -> e <> 0 ->
        attemptDurationOf (fr_outTimeUs r) = Some a -> a <> 0 ->
        10 * a < 9 * e ->
        completeAttempt r stats expected = Throw "Output appears incomplete")
  /\ (forall size,
        stats = Some size -> 0 < size ->
        (expected = None \/ attemptDurationOf (fr_outTimeUs r) = None
         \/ attemptDurationOf (fr_outTimeUs r) = Some 0) ->
        completeAttempt r stats expected
        = Ret (attemptDurationOf (fr_outTimeUs r)))
  /\ (forall content e,
        expectedDurationOf content = Some e
        <-> isVodPlaylist content = true
            /\ parsePlaylistDurationMs content = Some e /\ e <> 0)
  /\ (forall us a,
        attemptDurationOf (Some us) = Some a
        <-> us <> 0 /\ a = (us + 500) / 1000).
Proof.
  intros Hok. split; [|split; [|split; [|split]]].
  - now apply empty_output_fails.
  - intros size e a -> Hsize -> He Ha Ha0 Hshort.
    eapply short_output_fails; eauto.
  - intros size -> Hsize H. now apply unchecked_output_passes.
  - apply expectedDurationOf_spec.
  - apply attemptDurationOf_spec.
Qed.

(** *** Examples *)

(** C6, counterexample.  A playlist without an end-of-list marker declares
    60 s of [#EXTINF] durations, the transcoder reports 1 s, the output is
    not empty: the attempt is accepted.  A VOD playlist declares 60 s and
    the transcoder exits successfully with an elapsed time of 0: the
    attempt is accepted. *)
Lemma output_validation_counterexample :
  (parsePlaylistDurationMs livePlaylist = Some 60000
   /\ attemptDurationOf (fr_outTimeUs (successfulRun 1000000)) = Some 1000
   /\ 10 * 1000 < 9 * 60000
   /\ completeAttempt (successfulRun 1000000) (Some 4096)
        (expectedDurationOf livePlaylist) = Ret (Some 1000))
  /\ (expectedDurationOf vodPlaylist = Some 60000
      /\ completeAttempt (successfulRun 0) (Some 4096)
           (expectedDurationOf vodPlaylist) = Ret None).
Proof. vm_compute. repeat split; reflexivity. Qed.

Lemma output_validation_witness :
  fr_ok (successfulRun 1000000) = true
  /\ completeAttempt (successfulRun 1000000) (Some 4096)
       (expectedDurationOf vodPlaylist) = Throw "Output appears incomplete"
  /\ completeAttempt (successfulRun 59000000) None
       (expectedDurationOf vodPlaylist) = Throw "Empty output from ffmpeg".
Proof.
  split; [reflexivity|]. split.
  - refine (proj1 (proj2
      (output_validation (successfulRun 1000000) (Some 4096)
         (expectedDurationOf vodPlaylist) eq_refl))
      4096 60000 1000 eq_refl _ _ _ _ _ _).
    + reflexivity.
    + vm_compute. reflexivity.
    + discriminate.
    + vm_compute. reflexivity.
    + discriminate.
    + reflexivity.
  - refine (proj1
      (output_validation (successfulRun 59000000) None
         (expectedDurationOf vodPlaylist) eq_refl) _).
    left. reflexivity.
Defined.

End ValidationFacts.

(** ** Segment fetcher pool: retries *)

Module RetryFacts.
Import JS Platform Playlist Fetcher RetryTerms.

Lemma failedAttempts_snoc (timeoutMs : Z) (url : string) (n attempt : nat) :
  failedAttempts timeoutMs url (S n) attempt
  = failedAttempts timeoutMs url n attempt
      ++ [EvFetch url timeoutMs; EvSleep (400 * Z.of_nat (S (attempt + n)))].
Proof.
  revert attempt. induction n as [|n IH]; intros attempt.
  - cbn. now rewrite Nat.add_0_r.
  - change (failedAttempts timeoutMs url (S (S n)) attempt)
      with (EvFetch url timeoutMs :: EvSleep (400 * Z.of_nat (S attempt))
              :: failedAttempts timeoutMs url (S n) (S attempt)).
    rewrite IH. cbn [failedAttempts app].
    now replace (S attempt + n)%nat with (attempt + S n)%nat by lia.
Qed.

Lemma countFetches_failedAttempts (timeoutMs : Z) (url : string) (n attempt : nat) :
  countFetches (failedAttempts timeoutMs url n attempt) = n.
Proof.
  revert attempt. induction n as [|m IH]; intros attempt; [reflexivity|].
  unfold countFetches in *. cbn. now rewrite IH.
Qed.

Lemma countFetches_downloadTrace (timeoutMs : Z) (url filePath : string)
    (j : nat) (result : Res unit) :
  countFetches (downloadTrace timeoutMs url filePath j result) = S j.
Proof.
  unfold downloadTrace, countFetches. rewrite List.filter_app, length_app.
  fold (countFetches (failedAttempts timeoutMs url j 0)).
  rewrite countFetches_failedAttempts. destruct result; cbn; lia.
Qed.

Lemma sameTask_refl (task : Task) : sameTask task task = true.
Proof. destruct task; cbn; [reflexivity | apply Nat.eqb_refl]. Qed.

Lemma sameTask_worker (v w : nat) :
  v <> w -> sameTask (WorkerTask v) (WorkerTask w) = false.
Proof. intros H. cbn. now apply Nat.eqb_neq. Qed.

Lemma traceOf_app (task : Task) (a b : Log) :
  traceOf task (a ++ b) = traceOf task a ++ traceOf task b.
Proof. unfold traceOf. now rewrite List.filter_app, map_app. Qed.

Lemma traceOf_tagged (task : Task) (events : list Event) :
  traceOf task (tagged task events) = events.
Proof.
  unfold traceOf, tagged. induction events as [|e r IH]; [reflexivity|].
  cbn. rewrite sameTask_refl. cbn. now rewrite IH.
Qed.

Lemma traceOf_other (task other : Task) (events : list Event) :
  sameTask other task = false -> traceOf task (tagged other events) = [].
Proof.
  intros H. unfold traceOf, tagged. induction events as [|e r IH]; [reflexivity|].
  cbn. now rewrite H.
Qed.

Section Machine.

Variable network : Log -> string -> Outcome.
Variable aborted : Log -> bool.
Variable timeoutMs : Z.
Variable retries : nat.

(** One arrival in the life of a download: what it adds to the events of
    its task, and what the events so far then amount to. *)
Lemma resumeDownload_trace (task : Task) (d : Download) (log : Log) :
  (dl_attempt d <= retries)%nat ->
  exists extra,
    snd (resumeDownload network aborted timeoutMs retries task d log)
    = log ++ tagged task extra
    /\ match fst (resumeDownload network aborted timeoutMs retries task d log) with
       | Waiting d' =>
           dl_url d' = dl_url d /\ dl_filePath d' = dl_filePath d
           /\ (dl_attempt d' <= retries)%nat
           /\ pendingTrace timeoutMs d ++ extra = pendingTrace timeoutMs d'
           /\ (arrivalsLeft retries d' < arrivalsLeft retries d)%nat
       | Returned =>
           pendingTrace timeoutMs d ++ extra
           = downloadTrace timeoutMs (dl_url d) (dl_filePath d) (dl_attempt d)
               (Ret tt)
       | Threw message =>
           extra = []
           /\ pendingTrace timeoutMs d
              = downloadTrace timeoutMs (dl_url d) (dl_filePath d)
                  (dl_attempt d) (Throw message)
           /\ dl_pending d = AwaitResponse
           /\ (dl_attempt d = retries \/ aborted log = true)
           /\ (dl_attempt d = retries \/ message = "Download aborted")
       end.
Proof.
  intros Hle. unfold resumeDownload, pendingTrace, downloadTrace, arrivalsLeft.
  destruct d as [url filePath attempt pending]. cbn [dl_url dl_filePath dl_attempt dl_pending] in *.
  destruct pending.
  - assert (Hcatch : forall message,
      exists extra,
        snd (if aborted log then (Threw "Download aborted", log)
             else if Nat.leb retries attempt then (Threw message, log)
             else (Waiting {| dl_url := url; dl_filePath := filePath;
                              dl_attempt := S attempt;
                              dl_pending := AwaitTimer |},
                   log ++ [(task, EvSleep (400 * Z.of_nat (S attempt)))]))
        = log ++ tagged task extra
        /\ match fst (if aborted log then (Threw "Download aborted", log)
                      else if Nat.leb retries attempt then (Threw message, log)
                      else (Waiting {| dl_url := url; dl_filePath := filePath;
                                       dl_attempt := S attempt;
                                       dl_pending := AwaitTimer |},
                            log ++ [(task, EvSleep (400 * Z.of_nat (S attempt)))]))
           with
           | Waiting d' =>
               dl_url d' = url /\ dl_filePath d' = filePath
               /\ (dl_attempt d' <= retries)%nat
               /\ (failedAttempts timeoutMs url attempt 0
                     ++ [EvFetch url timeoutMs]) ++ extra
                  = failedAttempts timeoutMs (dl_url d') (dl_attempt d') 0
                      ++ match dl_pending d' with
                         | AwaitResponse => [EvFetch (dl_url d') timeoutMs]
                         | AwaitTimer => []
                         end
               /\ (2 * (retries - dl_attempt d')
                   + match dl_pending d' with
                     | AwaitResponse => 1 | AwaitTimer => 2 end
                   < 2 * (retries - attempt) + 1)%nat
           | Returned =>
               (failedAttempts timeoutMs url attempt 0
                  ++ [EvFetch url timeoutMs]) ++ extra
               = failedAttempts timeoutMs url attempt 0
                   ++ EvFetch url timeoutMs :: completion filePath (Ret tt)
           | Threw m =>
               extra = []
               /\ failedAttempts timeoutMs url attempt 0 ++ [EvFetch url timeoutMs]
                  = failedAttempts timeoutMs url attempt 0
                      ++ EvFetch url timeoutMs :: completion filePath (Throw m)
               /\ AwaitResponse = AwaitResponse
               /\ (attempt = retries \/ aborted log = true)
               /\ (attempt = retries \/ m = "Download aborted")
           end).
    { intros message. destruct (aborted log) eqn:Hab.
      - exists []. cbn. rewrite app_nil_r. auto 10.
      - destruct (Nat.leb retries attempt) eqn:Hlast.
        + apply Nat.leb_le in Hlast. exists []. cbn. rewrite app_nil_r.
          repeat split; auto; left; lia.
        + apply Nat.leb_gt in Hlast.
          exists [EvSleep (400 * Z.of_nat (S attempt))].
          cbn [fst snd dl_url dl_filePath dl_attempt dl_pending tagged map].
          split; [reflexivity|]. repeat split; [lia| |lia].
          rewrite app_nil_r, <- app_assoc. cbn [app].
          now rewrite failedAttempts_snoc. }
    destruct (network log url) as [message|code writeError]; [apply Hcatch|].
    destruct (statusOk code); cbn [negb]; [|apply Hcatch].
    destruct writeError as [message|]; [apply Hcatch|].
    exists [EvWrite filePath]. cbn. split; [reflexivity|].
    now rewrite <- app_assoc.
  - assert (Nat.leb attempt retries = true) as -> by (apply Nat.leb_le; lia).
    exists [EvFetch url timeoutMs].
    cbn [fst snd dl_url dl_filePath dl_attempt dl_pending tagged map].
    split; [reflexivity|]. split; [reflexivity|]. split; [reflexivity|].
    split; [exact Hle|]. split; [|lia].
    now rewrite app_nil_r.
Qed.

(** A download that nothing runs beside returns or throws, and the events
    of its task are then those of a whole download. *)
Lemma awaitDownload_trace (task : Task) (fuel : nat) (d : Download) (log : Log) :
  (dl_attempt d <= retries)%nat -> (arrivalsLeft retries d <= fuel)%nat ->
  exists j result extra,
    (j <= retries)%nat
    /\ awaitDownload network aborted timeoutMs retries fuel task d log
       = Some (result, log ++ tagged task extra)
    /\ pendingTrace timeoutMs d ++ extra
       = downloadTrace timeoutMs (dl_url d) (dl_filePath d) j result
    /\ (forall m, result = Throw m ->
          j = retries \/ aborted (log ++ tagged task extra) = true).
Proof.
  revert d log. induction fuel as [|fuel IH]; intros d log Hle Hfuel.
  { unfold arrivalsLeft in Hfuel. destruct (dl_pending d); lia. }
  cbn [awaitDownload].
  destruct (resumeDownload_trace task d log Hle) as (extra & Elog & H).
  destruct (resumeDownload _ _ _ _ task d log) as [[d'| |m] log'];
    cbn [fst snd] in *; subst log'.
  - destruct H as (Hu & Hp & Hle' & Ht & Hlt).
    destruct (IH d' (log ++ tagged task extra) Hle' ltac:(lia))
      as (j & result & extra' & Hj & E & Ht' & Hthrow).
    exists j, result, (extra ++ extra'). split; [exact Hj|]. split.
    + rewrite E. unfold tagged. now rewrite map_app, app_assoc.
    + split.
      * rewrite app_assoc, Ht, Ht', Hu, Hp. reflexivity.
      * intros m Hm. unfold tagged in *. rewrite map_app, app_assoc.
        now apply (Hthrow m).
  - exists (dl_attempt d), (Ret tt), extra. split; [exact Hle|].
    split; [reflexivity|]. split; [exact H|]. intros m [=].
  - destruct H as (-> & Ht & _ & Hlast & _).
    exists (dl_attempt d), (Throw m), []. split; [exact Hle|].
    split; [reflexivity|]. split; [now rewrite app_nil_r|].
    intros _ _. cbn. now rewrite app_nil_r.
Qed.

(** One download in the body of the function: it returns or throws; it
    makes at most [1 + retries] requests, all with the same timeout; the
    [k]-th retry comes after a pause of [400 * k] ms; and it throws only
    after the last attempt, or once the cancellation signal is set. *)
Lemma downloadFileWithRetry_shape (url filePath : string) (log : Log) :
  exists j result,
    (j <= retries)%nat
    /\ downloadFileWithRetry network aborted timeoutMs retries url filePath log
       = Some (result,
               log ++ tagged MainTask
                        (downloadTrace timeoutMs url filePath j result))
    /\ countFetches (downloadTrace timeoutMs url filePath j result) = S j
    /\ (forall m, result = Throw m ->
          j = retries
          \/ aborted (log ++ tagged MainTask
                               (downloadTrace timeoutMs url filePath j result))
             = true).
Proof.
  unfold downloadFileWithRetry, startDownload.
  set (d := {| dl_url := url; dl_filePath := filePath; dl_attempt := 0;
               dl_pending := AwaitResponse |}).
  destruct (awaitDownload_trace MainTask (2 * retries + 1) d
              (log ++ [(MainTask, EvFetch url timeoutMs)]))
    as (j & result & extra & Hj & E & Ht & Hthrow).
  { cbn. lia. }
  { unfold arrivalsLeft. cbn. lia. }
  change (dl_url d) with url in Ht. change (dl_filePath d) with filePath in Ht.
  assert (log ++ tagged MainTask (downloadTrace timeoutMs url filePath j result)
          = (log ++ [(MainTask, EvFetch url timeoutMs)]) ++ tagged MainTask extra)
    as Elog.
  { rewrite <- Ht. unfold pendingTrace, tagged. cbn.
    now rewrite <- app_assoc. }
  exists j, result. split; [exact Hj|]. split; [now rewrite E, Elog|].
  split; [apply countFetches_downloadTrace|].
  intros m Hm. rewrite Elog. now apply (Hthrow m).
Qed.

(** A download that throws ends the sequence it belongs to. *)
Lemma downloadEach_propagates (before after : list (string * string))
    (u p : string) (log log1 log2 : Log) (m : string) :
  downloadEach network aborted timeoutMs retries before log = Some (Ret tt, log1) ->
  downloadFileWithRetry network aborted timeoutMs retries u p log1
  = Some (Throw m, log2) ->
  downloadEach network aborted timeoutMs retries (before ++ (u, p) :: after) log
  = Some (Throw m, log2).
Proof.
  revert log. induction before as [|[u0 p0] rest IH]; intros log Hb Hd.
  - cbn [downloadEach] in Hb. injection Hb as <-.
    cbn [downloadEach app]. now rewrite Hd.
  - cbn [downloadEach app] in Hb |- *.
    destruct (downloadFileWithRetry _ _ _ _ u0 p0 log) as [[[[]|m0] l0]|];
      try discriminate.
    now apply IH.
Qed.

Lemma downloadEach_total (items : list (string * string)) (log : Log) :
  exists result log',
    downloadEach network aborted timeoutMs retries items log = Some (result, log').
Proof.
  revert log. induction items as [|[u p] rest IH]; intros log; [cbn; eauto|].
  cbn [downloadEach].
  destruct (downloadFileWithRetry_shape u p log)
    as (j & [[]|m] & _ & -> & _); [apply IH | eauto].
Qed.

End Machine.

Section Workers.

Variable network : Log -> string -> Outcome.
Variable aborted : Log -> bool.
Variable timeoutMs : Z.
Variable retries : nat.
Variable tempDir : string.
Variable segs : list Parsed.

Lemma suspendedFrom_In (start : nat) (ws : list Worker) (v : nat) :
  In v (suspendedFrom start ws)
  <-> exists i index d,
        v = (start + i)%nat /\ ws !! i = Some (Working index d).
Proof.
  revert start. induction ws as [|worker rest IH]; intros start;
    cbn [suspendedFrom].
  - split; [intros [] | intros (i & index & d & _ & H); discriminate H].
  - rewrite in_app_iff, IH. split.
    + intros [H | (i & index & d & -> & H)].
      * destruct worker as [index d| |m]; cbn in H; try contradiction.
        destruct H as [<- | []]. exists O, index, d. split; [lia | reflexivity].
      * exists (S i), index, d. split; [lia | exact H].
    + intros ([|i] & index & d & -> & H).
      * cbn in H. injection H as ->. left. cbn. left. lia.
      * right. exists i, index, d. split; [lia | exact H].
Qed.

Lemma chosen_working (ws : list Worker) (k w : nat) :
  chosen ws k = Some w -> exists index d, ws !! w = Some (Working index d).
Proof.
  unfold chosen, suspended. intros H.
  apply list_elem_of_lookup_2, list_elem_of_In, suspendedFrom_In in H
    as (i & index & d & -> & H).
  eauto.
Qed.

Lemma chosen_none (ws : list Worker) (k : nat) :
  chosen ws k = None ->
  forall w index d, ws !! w <> Some (Working index d).
Proof.
  unfold chosen, suspended. intros H w index d Hw.
  assert (In w (suspendedFrom 0 ws)) as Hin
    by (apply suspendedFrom_In; exists w, index, d; auto).
  destruct (suspendedFrom 0 ws) as [|x l] eqn:E; [contradiction|].
  apply lookup_ge_None in H.
  assert (k mod List.length (x :: l) < List.length (x :: l))%nat
    by (apply Nat.mod_upper_bound; discriminate).
  lia.
Qed.

(** **** What is left to do *)

Lemma resumeDownload_less (task : Task) (d : Download) (log : Log) :
  match fst (resumeDownload network aborted timeoutMs retries task d log) with
  | Waiting d' => (arrivalsLeft retries d' < arrivalsLeft retries d)%nat
  | _ => (1 <= arrivalsLeft retries d)%nat
  end.
Proof.
  unfold resumeDownload, arrivalsLeft.
  destruct d as [url filePath attempt pending]. cbn [dl_attempt dl_pending dl_url dl_filePath].
  destruct pending.
  - assert (Hcatch : forall message,
      match fst (if aborted log then (Threw "Download aborted", log)
                 else if Nat.leb retries attempt then (Threw message, log)
                 else (Waiting {| dl_url := url; dl_filePath := filePath;
                                  dl_attempt := S attempt;
                                  dl_pending := AwaitTimer |},
                       log ++ [(task, EvSleep (400 * Z.of_nat (S attempt)))]))
      with
      | Waiting d' =>
          (2 * (retries - dl_attempt d')
           + match dl_pending d' with AwaitResponse => 1 | AwaitTimer => 2 end
           < 2 * (retries - attempt) + 1)%nat
      | _ => (1 <= 2 * (retries - attempt) + 1)%nat
      end).
    { intros message. destruct (aborted log); [cbn; lia|].
      destruct (Nat.leb retries attempt) eqn:E; [cbn; lia|].
      apply Nat.leb_gt in E. cbn [fst dl_attempt dl_pending]. lia. }
    destruct (network log url) as [message|code writeError]; [apply Hcatch|].
    destruct (statusOk code); cbn [negb]; [|apply Hcatch].
    destruct writeError; [apply Hcatch|]. cbn. lia.
  - destruct (Nat.leb attempt retries); cbn [fst dl_attempt dl_pending]; lia.
Qed.

Lemma costs_insert (ws : list Worker) (w : nat) (old new : Worker) :
  ws !! w = Some old ->
  (costs retries (<[w := new]> ws) + cost retries old
   = costs retries ws + cost retries new)%nat.
Proof.
  revert w. induction ws as [|x r IH]; intros [|w] H; try discriminate H.
  - cbn in H. injection H as ->.
    change (<[0%nat := new]> (old :: r)) with (new :: r). cbn [costs]. lia.
  - cbn in H. specialize (IH w H).
    change (<[S w := new]> (x :: r)) with (x :: <[w := new]> r).
    cbn [costs]. lia.
Qed.

Lemma costs_app (a b : list Worker) :
  costs retries (a ++ b) = (costs retries a + costs retries b)%nat.
Proof. induction a as [|x r IH]; [reflexivity|]. cbn [app costs]. lia. Qed.

Lemma workerLoop_left (w next : nat) (log : Log) :
  let '(worker, next', _) :=
    workerLoop aborted timeoutMs tempDir segs w next log in
  (next <= next')%nat
  /\ (cost retries worker + (List.length segs - next') * (2 * retries + 1)
      <= (List.length segs - next) * (2 * retries + 1))%nat.
Proof.
  unfold workerLoop. destruct (Nat.ltb next (List.length segs)) eqn:E.
  - apply Nat.ltb_lt in E. destruct (aborted log); [cbn; lia|].
    destruct (segs !! next) as [segment|].
    + cbn. unfold arrivalsLeft. cbn.
      replace (List.length segs - next)%nat
        with (S (List.length segs - S next))%nat by lia.
      lia.
    + cbn. split; [lia|]. nia.
  - cbn. lia.
Qed.

Lemma poolStep_less (w index : nat) (d : Download) (pool : Pool) :
  workers pool !! w = Some (Working index d) ->
  (workLeft retries segs (poolStep network aborted timeoutMs retries tempDir segs w pool)
   < workLeft retries segs pool)%nat.
Proof.
  intros Hw. unfold poolStep, workLeft. rewrite Hw. unfold resumeWorker.
  pose proof (resumeDownload_less (WorkerTask w) d (poolLog pool)) as Hless.
  destruct (resumeDownload _ _ _ _ (WorkerTask w) d (poolLog pool))
    as [[d'| |m] log']; cbn [fst] in Hless.
  - cbn [nextIndex workers].
    pose proof (costs_insert _ w _ (Working index d') Hw) as Hs.
    cbn [cost] in Hs. lia.
  - pose proof (workerLoop_left w (nextIndex pool) log') as Hl.
    destruct (workerLoop _ _ _ _ w (nextIndex pool) log') as [[worker next'] log''].
    cbn [nextIndex workers]. destruct Hl as [Hn Hl].
    pose proof (costs_insert _ w _ worker Hw) as Hs.
    cbn [cost] in Hs. lia.
  - cbn [nextIndex workers].
    pose proof (costs_insert _ w _ (Rejected m) Hw) as Hs.
    cbn [cost] in Hs. lia.
Qed.

Lemma startWorkers_left (count : nat) (pool : Pool) :
  (workLeft retries segs (startWorkers aborted timeoutMs tempDir segs count pool)
   <= workLeft retries segs pool)%nat.
Proof.
  revert pool. induction count as [|count IH]; intros pool; [cbn; lia|].
  cbn [startWorkers].
  pose proof (workerLoop_left (List.length (workers pool)) (nextIndex pool)
                (poolLog pool)) as Hl.
  destruct (workerLoop _ _ _ _ _ (nextIndex pool) (poolLog pool))
    as [[worker next'] log'].
  etransitivity; [apply IH|].
  unfold workLeft. cbn [nextIndex workers].
  rewrite costs_app. cbn [costs]. lia.
Qed.

(** The wait for the workers ends. *)
Lemma awaitWorkers_total (schedule : nat -> nat) (fuel step : nat) (pool : Pool) :
  (workLeft retries segs pool <= fuel)%nat ->
  exists result pool',
    awaitWorkers network aborted timeoutMs retries tempDir segs fuel schedule
      step pool = Some (result, pool').
Proof.
  revert step pool. induction fuel as [|fuel IH]; intros step pool Hfuel;
    cbn [awaitWorkers].
  - destruct (rejection pool); [eauto|].
    destruct (chosen (workers pool) (schedule step)) as [w|] eqn:E; [|eauto].
    apply chosen_working in E as (index & d & Hw).
    pose proof (poolStep_less w index d pool Hw). lia.
  - destruct (rejection pool); [eauto|].
    destruct (chosen (workers pool) (schedule step)) as [w|] eqn:E; [|eauto].
    apply chosen_working in E as (index & d & Hw).
    apply IH. pose proof (poolStep_less w index d pool Hw). lia.
Qed.

Lemma downloadSegments_total (concurrency : nat) (schedule : nat -> nat)
    (log : Log) :
  exists result pool,
    downloadSegments network aborted timeoutMs retries tempDir segs
      concurrency schedule log = Some (result, pool).
Proof.
  unfold downloadSegments. apply awaitWorkers_total.
  etransitivity; [apply startWorkers_left|].
  unfold workLeft, arrivalBound. cbn. lia.
Qed.

End Workers.

Section Traces.

Variable network : Log -> string -> Outcome.
Variable aborted : Log -> bool.
Variable timeoutMs : Z.
Variable retries : nat.
Variable tempDir : string.
Variable segs : list Parsed.

Lemma workerTrace_other (v w : nat) (worker : Worker) (log : Log)
    (extra : list Event) :
  v <> w ->
  workerTrace timeoutMs retries tempDir segs v worker log ->
  workerTrace timeoutMs retries tempDir segs v worker
    (log ++ tagged (WorkerTask w) extra).
Proof.
  intros Hne (served & tail & Ht & Hs & Hl). exists served, tail.
  rewrite traceOf_app, traceOf_other, app_nil_r by (apply sameTask_worker; lia).
  auto.
Qed.

Lemma servedTrace_snoc (served : list (Parsed * nat)) (segment : Parsed) (j : nat) :
  servedTrace timeoutMs tempDir (served ++ [(segment, j)])
  = servedTrace timeoutMs tempDir served
      ++ downloadTrace timeoutMs (resolved segment)
           (joinPath tempDir (localPath segment)) j (Ret tt).
Proof.
  unfold servedTrace. rewrite map_app, concat_app. cbn. now rewrite app_nil_r.
Qed.

(** A turn of the loop of a worker that has completed the downloads
    [served]. *)
Lemma workerLoop_trace (w next : nat) (log : Log) (served : list (Parsed * nat)) :
  traceOf (WorkerTask w) log = servedTrace timeoutMs tempDir served ->
  Forall (fun p => In (fst p) segs /\ (snd p <= retries)%nat) served ->
  let '(worker, _, log') :=
    workerLoop aborted timeoutMs tempDir segs w next log in
  (exists extra, log' = log ++ tagged (WorkerTask w) extra)
  /\ workerTrace timeoutMs retries tempDir segs w worker log'.
Proof.
  intros Ht Hs. unfold workerLoop.
  assert (workerTrace timeoutMs retries tempDir segs w Finished log) as Hfin.
  { exists served, []. rewrite app_nil_r. cbn. auto. }
  assert (exists extra : list Event, log = log ++ tagged (WorkerTask w) extra)
    as Hsame by (exists []; cbn; now rewrite app_nil_r).
  destruct (Nat.ltb next (List.length segs)); [|now split].
  destruct (aborted log).
  { split; [exact Hsame|]. exists served, []. rewrite app_nil_r. cbn. auto 10. }
  destruct (segs !! next) as [segment|] eqn:Es; [|now split].
  cbn [startDownload]. split.
  - exists [EvFetch (resolved segment) timeoutMs]. reflexivity.
  - exists served, [EvFetch (resolved segment) timeoutMs].
    split; [|split; [exact Hs|]].
    + rewrite traceOf_app, Ht.
      change [(WorkerTask w, EvFetch (resolved segment) timeoutMs)]
        with (tagged (WorkerTask w) [EvFetch (resolved segment) timeoutMs]).
      now rewrite traceOf_tagged.
    + exists segment. cbn. repeat split; auto. lia.
Qed.

Lemma resumeWorker_trace (w index : nat) (d : Download) (next : nat) (log : Log) :
  workerTrace timeoutMs retries tempDir segs w (Working index d) log ->
  let '(worker, _, log') :=
    resumeWorker network aborted timeoutMs retries tempDir segs w index d next
      log in
  (exists extra, log' = log ++ tagged (WorkerTask w) extra)
  /\ workerTrace timeoutMs retries tempDir segs w worker log'.
Proof.
  intros (served & tail & Ht & Hs & segment & Hseg & Hu & Hp & Hle & ->).
  unfold resumeWorker.
  destruct (resumeDownload_trace network aborted timeoutMs retries
              (WorkerTask w) d log Hle) as (extra & Elog & H).
  destruct (resumeDownload _ _ _ _ (WorkerTask w) d log) as [[d'| |m] log'];
    cbn [fst snd] in *; subst log'.
  - destruct H as (Hu' & Hp' & Hle' & Ht' & _). split; [eauto|].
    exists served, (pendingTrace timeoutMs d').
    split; [|split; [exact Hs|]].
    + now rewrite traceOf_app, traceOf_tagged, Ht, <- app_assoc, Ht'.
    + exists segment. repeat split; auto; congruence.
  - assert (traceOf (WorkerTask w) (log ++ tagged (WorkerTask w) extra)
            = servedTrace timeoutMs tempDir (served ++ [(segment, dl_attempt d)]))
      as Ht'.
    { rewrite traceOf_app, traceOf_tagged, Ht, <- app_assoc, H.
      now rewrite servedTrace_snoc, Hu, Hp. }
    assert (Forall (fun p => In (fst p) segs /\ (snd p <= retries)%nat)
              (served ++ [(segment, dl_attempt d)])) as Hs'.
    { apply Forall_app. split; [exact Hs|]. constructor; [|constructor].
      cbn. split; [|exact Hle].
      apply list_elem_of_In. eapply list_elem_of_lookup_2; eauto. }
    pose proof (workerLoop_trace w next _ _ Ht' Hs') as Hl.
    destruct (workerLoop _ _ _ _ w next _) as [[worker next'] log''].
    destruct Hl as [(extra' & ->) Hw]. split; [|exact Hw].
    exists (extra ++ extra'). unfold tagged. now rewrite map_app, app_assoc.
  - destruct H as (-> & Ht' & _ & _ & Hlast). split; [exists []; reflexivity|].
    cbn. rewrite app_nil_r.
    exists served, (pendingTrace timeoutMs d). split; [exact Ht|].
    split; [exact Hs|]. right. exists segment, (dl_attempt d).
    split; [apply list_elem_of_In; eapply list_elem_of_lookup_2; eauto|].
    split; [exact Hle|]. split; [exact Hlast|]. now rewrite Ht', Hu, Hp.
Qed.

Lemma firstRejection_cases (rejection : option string) (worker : Worker) :
  (firstRejection rejection worker = None
   <-> rejection = None /\ forall m, worker <> Rejected m)
  /\ (forall m, firstRejection rejection worker = Some m ->
        rejection = Some m \/ worker = Rejected m).
Proof.
  split.
  - split.
    + intros H. destruct rejection, worker; cbn in H; try discriminate H;
        (split; [reflexivity | discriminate]).
    + intros [-> H]. destruct worker as [index d| |m']; cbn; auto.
      now destruct (H m').
  - intros m H. destruct rejection, worker; cbn in H; try discriminate H;
      injection H as <-; auto.
Qed.

Lemma startWorkers_traces (count : nat) (pool : Pool) :
  poolTraces timeoutMs retries tempDir segs pool ->
  poolTraces timeoutMs retries tempDir segs
    (startWorkers aborted timeoutMs tempDir segs count pool).
Proof.
  revert pool. induction count as [|count IH]; intros pool Hinv; [exact Hinv|].
  cbn [startWorkers]. destruct Hinv as (Hw & Hnone & Hr1 & Hr2).
  set (w := List.length (workers pool)).
  pose proof (workerLoop_trace w (nextIndex pool) (poolLog pool) []
                (Hnone w (Nat.le_refl _)) (List.Forall_nil _)) as Hl.
  destruct (workerLoop _ _ _ _ w (nextIndex pool) (poolLog pool))
    as [[worker next'] log'].
  destruct Hl as [(extra & ->) Hnew].
  destruct (firstRejection_cases (rejection pool) worker) as [Hf1 Hf2].
  apply IH. unfold poolTraces. cbn [workers poolLog rejection].
  split; [|split; [|split]].
  - intros v x Hv. destruct (Nat.lt_ge_cases v w) as [Hlt|Hge].
    + rewrite lookup_app_l in Hv by exact Hlt.
      apply workerTrace_other; [lia | now apply Hw].
    + rewrite lookup_app_r in Hv by exact Hge.
      apply list_lookup_singleton_Some in Hv as [Ek <-].
      replace v with w by lia. exact Hnew.
  - intros v Hv. rewrite length_app in Hv. cbn in Hv.
    rewrite traceOf_app, traceOf_other by (apply sameTask_worker; unfold w; lia).
    rewrite app_nil_r. apply Hnone. lia.
  - intros Hnone' v m Hv. apply Hf1 in Hnone' as [Hnr Hnw].
    destruct (Nat.lt_ge_cases v w) as [Hlt|Hge].
    + rewrite lookup_app_l in Hv by exact Hlt. now apply (Hr1 Hnr v m).
    + rewrite lookup_app_r in Hv by exact Hge.
      apply list_lookup_singleton_Some in Hv as [_ ->]. now apply (Hnw m).
  - intros m Hm. apply Hf2 in Hm as [Hm | ->].
    + destruct (Hr2 m Hm) as (v & Hv). exists v.
      rewrite lookup_app_l; [exact Hv|]. now apply lookup_lt_Some in Hv.
    + exists w. rewrite lookup_app_r by lia. now rewrite Nat.sub_diag.
Qed.

Lemma poolStep_traces (w : nat) (pool : Pool) :
  poolTraces timeoutMs retries tempDir segs pool ->
  poolTraces timeoutMs retries tempDir segs
    (poolStep network aborted timeoutMs retries tempDir segs w pool).
Proof.
  intros Hinv. unfold poolStep.
  destruct (workers pool !! w) as [[index d| |m0]|] eqn:Ew; try exact Hinv.
  destruct Hinv as (Hw & Hnone & Hr1 & Hr2).
  pose proof (resumeWorker_trace w index d (nextIndex pool) (poolLog pool)
                (Hw w _ Ew)) as Hl.
  destruct (resumeWorker _ _ _ _ _ _ w index d (nextIndex pool) (poolLog pool))
    as [[worker next'] log'].
  destruct Hl as [(extra & ->) Hnew].
  destruct (firstRejection_cases (rejection pool) worker) as [Hf1 Hf2].
  pose proof (lookup_lt_Some _ _ _ Ew) as Hlt.
  unfold poolTraces. cbn [workers poolLog rejection].
  split; [|split; [|split]].
  - intros v x Hv. destruct (decide (v = w)) as [->|Hne].
    + rewrite list_lookup_insert_eq in Hv by exact Hlt. now injection Hv as <-.
    + rewrite list_lookup_insert_ne in Hv by congruence.
      apply workerTrace_other; [exact Hne | now apply Hw].
  - intros v Hv. rewrite length_insert in Hv.
    rewrite traceOf_app, traceOf_other by (apply sameTask_worker; lia).
    rewrite app_nil_r. now apply Hnone.
  - intros Hnone' v m Hv. apply Hf1 in Hnone' as [Hnr Hnw].
    destruct (decide (v = w)) as [->|Hne].
    + rewrite list_lookup_insert_eq in Hv by exact Hlt. injection Hv as ->.
      now apply (Hnw m).
    + rewrite list_lookup_insert_ne in Hv by congruence. now apply (Hr1 Hnr v m).
  - intros m Hm. apply Hf2 in Hm as [Hm | ->].
    + destruct (Hr2 m Hm) as (v & Hv). exists v.
      destruct (decide (v = w)) as [->|Hne]; [congruence|].
      now rewrite list_lookup_insert_ne by congruence.
    + exists w. now rewrite list_lookup_insert_eq.
Qed.

Lemma reachable_traces (count : nat) (log : Log) (pool : Pool) :
  mainOnly log ->
  Reachable network aborted timeoutMs retries tempDir segs count log pool ->
  poolTraces timeoutMs retries tempDir segs pool.
Proof.
  intros Hmain H. induction H as [|w pool _ IH].
  - apply startWorkers_traces. unfold poolTraces. cbn.
    split; [intros w worker H; discriminate H|].
    split; [intros w _; apply Hmain|].
    split; [intros _ w m H; discriminate H | intros m H; discriminate H].
  - now apply poolStep_traces.
Qed.

(** What the wait for the workers ends with. *)
Lemma awaitWorkers_result (count : nat) (log : Log) (schedule : nat -> nat)
    (fuel step : nat) (pool pool' : Pool) (result : Res unit) :
  Reachable network aborted timeoutMs retries tempDir segs count log pool ->
  awaitWorkers network aborted timeoutMs retries tempDir segs fuel schedule
    step pool = Some (result, pool') ->
  Reachable network aborted timeoutMs retries tempDir segs count log pool'
  /\ match result with
     | Throw m => rejection pool' = Some m
     | Ret _ =>
         rejection pool' = None
         /\ forall w index d, workers pool' !! w <> Some (Working index d)
     end.
Proof.
  revert step pool. induction fuel as [|fuel IH]; intros step pool Hr;
    cbn [awaitWorkers].
  - destruct (rejection pool) as [m|] eqn:Er; [intros [= <- <-]; auto|].
    destruct (chosen (workers pool) (schedule step)) as [w|] eqn:E;
      [discriminate|].
    intros [= <- <-]. split; [exact Hr|]. split; [exact Er|].
    now apply (chosen_none _ _ E).
  - destruct (rejection pool) as [m|] eqn:Er; [intros [= <- <-]; auto|].
    destruct (chosen (workers pool) (schedule step)) as [w|] eqn:E.
    + apply IH. now constructor.
    + intros [= <- <-]. split; [exact Hr|]. split; [exact Er|].
      now apply (chosen_none _ _ E).
Qed.

(** When the wait returns, every worker has returned. *)
Lemma all_finished (pool : Pool) :
  poolTraces timeoutMs retries tempDir segs pool ->
  rejection pool = None ->
  (forall w index d, workers pool !! w <> Some (Working index d)) ->
  forall w worker, workers pool !! w = Some worker -> worker = Finished.
Proof.
  intros (_ & _ & Hr & _) Hnone Hnw w [index d| |m] Hw; [|reflexivity|].
  - now destruct (Hnw w index d).
  - now destruct (Hr Hnone w m).
Qed.

Lemma startWorkers_count (count : nat) (pool : Pool) :
  List.length (workers (startWorkers aborted timeoutMs tempDir segs count pool))
  = (List.length (workers pool) + count)%nat.
Proof.
  revert pool. induction count as [|count IH]; intros pool; [cbn; lia|].
  cbn [startWorkers].
  destruct (workerLoop _ _ _ _ _ _ _) as [[worker next'] log'].
  rewrite IH. cbn [workers]. rewrite length_app. cbn. lia.
Qed.

Lemma reachable_count (count : nat) (log : Log) (pool : Pool) :
  Reachable network aborted timeoutMs retries tempDir segs count log pool ->
  List.length (workers pool) = count.
Proof.
  intros H. induction H as [|w pool _ IH].
  - now rewrite startWorkers_count.
  - unfold poolStep. destruct (workers pool !! w) as [[index d| |m]|]; auto.
    destruct (resumeWorker _ _ _ _ _ _ _ _ _ _ _) as [[worker next'] log'].
    cbn [workers]. now rewrite length_insert.
Qed.

(** A download of a worker that throws makes the wait throw, then and
    there, with its error. *)
Lemma worker_throw_rejects (w index : nat) (d : Download) (m : string)
    (pool : Pool) (schedule : nat -> nat) (fuel step : nat) :
  rejection pool = None ->
  workers pool !! w = Some (Working index d) ->
  fst (resumeDownload network aborted timeoutMs retries (WorkerTask w) d
         (poolLog pool)) = Threw m ->
  awaitWorkers network aborted timeoutMs retries tempDir segs fuel schedule
    step (poolStep network aborted timeoutMs retries tempDir segs w pool)
  = Some (Throw m,
          poolStep network aborted timeoutMs retries tempDir segs w pool)
  /\ workers (poolStep network aborted timeoutMs retries tempDir segs w pool)
     = <[w := Rejected m]> (workers pool)
  /\ poolLog (poolStep network aborted timeoutMs retries tempDir segs w pool)
     = snd (resumeDownload network aborted timeoutMs retries (WorkerTask w) d
              (poolLog pool)).
Proof.
  intros Hr Hw Hd.
  assert (poolStep network aborted timeoutMs retries tempDir segs w pool
          = {| nextIndex := nextIndex pool;
               workers := <[w := Rejected m]> (workers pool);
               poolLog := snd (resumeDownload network aborted timeoutMs retries
                                 (WorkerTask w) d (poolLog pool));
               rejection := Some m |}) as ->.
  { unfold poolStep. rewrite Hw. unfold resumeWorker.
    destruct (resumeDownload _ _ _ _ _ d _) as [p log']. cbn in Hd. subst p.
    cbn. now rewrite Hr. }
  split; [|split; reflexivity].
  destruct fuel; reflexivity.
Qed.

End Traces.

Section Served.

Variable network : Log -> string -> Outcome.
Variable aborted : Log -> bool.
Variable timeoutMs : Z.
Variable retries : nat.

(** A download returns only on a request that is served. *)
Lemma resumeDownload_served (task : Task) (d : Download) (log : Log) :
  (dl_attempt d <= retries)%nat ->
  match fst (resumeDownload network aborted timeoutMs retries task d log) with
  | Waiting d' => dl_url d' = dl_url d /\ (dl_attempt d' <= retries)%nat
  | Returned => succeeds (network log (dl_url d)) = true
  | Threw _ => True
  end.
Proof.
  intros Hle. unfold resumeDownload.
  destruct d as [url filePath attempt pending].
  cbn [dl_url dl_filePath dl_attempt dl_pending] in *.
  destruct pending.
  - assert (Hcatch : forall (P : Prop) message,
      match fst (if aborted log then (Threw "Download aborted", log)
                 else if Nat.leb retries attempt then (Threw message, log)
                 else (Waiting {| dl_url := url; dl_filePath := filePath;
                                  dl_attempt := S attempt;
                                  dl_pending := AwaitTimer |},
                       log ++ [(task, EvSleep (400 * Z.of_nat (S attempt)))]))
      with
      | Waiting d' => dl_url d' = url /\ (dl_attempt d' <= retries)%nat
      | Returned => P
      | Threw _ => True
      end).
    { intros P message. destruct (aborted log); [exact I|].
      destruct (Nat.leb retries attempt) eqn:E; [exact I|].
      apply Nat.leb_gt in E. cbn. split; [reflexivity | lia]. }
    destruct (network log url) as [message|code writeError]; [apply Hcatch|].
    cbn [succeeds].
    destruct (statusOk code); cbn [negb]; [|apply Hcatch].
    destruct writeError as [message|]; [apply Hcatch|]. reflexivity.
  - assert (Nat.leb attempt retries = true) as -> by (apply Nat.leb_le; lia).
    cbn. auto.
Qed.

Lemma awaitDownload_served (task : Task) (fuel : nat) (d : Download)
    (log log' : Log) :
  (dl_attempt d <= retries)%nat ->
  awaitDownload network aborted timeoutMs retries fuel task d log
  = Some (Ret tt, log') ->
  exists log0, succeeds (network log0 (dl_url d)) = true.
Proof.
  revert d log. induction fuel as [|fuel IH]; intros d log Hle;
    cbn [awaitDownload]; [discriminate|].
  pose proof (resumeDownload_served task d log Hle) as H.
  destruct (resumeDownload _ _ _ _ task d log) as [[d'| |m] l];
    cbn [fst] in H.
  - destruct H as [Hu Hle']. intros E.
    destruct (IH d' l Hle' E) as [log0 H0]. exists log0. now rewrite <- Hu.
  - intros _. eauto.
  - discriminate.
Qed.

Lemma downloadFileWithRetry_served (url filePath : string) (log log' : Log) :
  downloadFileWithRetry network aborted timeoutMs retries url filePath log
  = Some (Ret tt, log') ->
  exists log0, succeeds (network log0 url) = true.
Proof.
  unfold downloadFileWithRetry, startDownload. intros H.
  apply awaitDownload_served in H; [exact H | cbn; lia].
Qed.

Lemma downloadEach_served (items : list (string * string)) (log log' : Log) :
  downloadEach network aborted timeoutMs retries items log
  = Some (Ret tt, log') ->
  forall url, In url (map fst items) ->
  exists log0, succeeds (network log0 url) = true.
Proof.
  revert log. induction items as [|[u p] rest IH]; intros log H url Hin;
    [destruct Hin|].
  cbn [downloadEach] in H.
  destruct (downloadFileWithRetry _ _ _ _ u p log) as [[[[]|m] l]|] eqn:E;
    try discriminate.
  destruct Hin as [<- | Hin].
  - eapply downloadFileWithRetry_served; eauto.
  - eapply IH; eauto.
Qed.

(** A download of a URL that is never served throws, after its last
    attempt or on cancellation. *)
Lemma downloadFileWithRetry_fails (url filePath : string) (log : Log) :
  neverServed network url ->
  exists j m,
    downloadFileWithRetry network aborted timeoutMs retries url filePath log
    = Some (Throw m,
            log ++ tagged MainTask
                     (downloadTrace timeoutMs url filePath j (Throw m)))
    /\ (j = retries
        \/ aborted (log ++ tagged MainTask
                              (downloadTrace timeoutMs url filePath j (Throw m)))
           = true).
Proof.
  intros Hnever.
  destruct (downloadFileWithRetry_shape network aborted timeoutMs retries
              url filePath log) as (j & [[]|m] & _ & E & _ & Hthrow).
  - apply downloadFileWithRetry_served in E as [log0 H0].
    rewrite Hnever in H0. discriminate H0.
  - exists j, m. split; [exact E|]. now apply (Hthrow m).
Qed.

Variable tempDir : string.
Variable segs : list Parsed.

Lemma workerLoop_covers (w next : nat) (log : Log) :
  let '(worker, next', _) :=
    workerLoop aborted timeoutMs tempDir segs w next log in
  (next <= next')%nat
  /\ match worker with
     | Working index d =>
         index = next /\ next' = S next /\ dl_attempt d = O
         /\ exists segment,
              segs !! index = Some segment /\ dl_url d = resolved segment
     | Finished => (List.length segs <= next)%nat
     | Rejected _ => next' = next
     end.
Proof.
  unfold workerLoop. destruct (Nat.ltb next (List.length segs)) eqn:E.
  - destruct (aborted log); [cbn; lia|].
    destruct (segs !! next) as [segment|] eqn:Es.
    + cbn. split; [lia|]. repeat split; eauto.
    + apply lookup_ge_None in Es. cbn. lia.
  - apply Nat.ltb_ge in E. cbn. lia.
Qed.

Lemma startWorkers_covers (count : nat) (pool : Pool) :
  poolCovers network retries segs pool ->
  poolCovers network retries segs
    (startWorkers aborted timeoutMs tempDir segs count pool).
Proof.
  revert pool. induction count as [|count IH]; intros pool Hinv; [exact Hinv|].
  cbn [startWorkers]. destruct Hinv as (Ha & Hb & Hc & Hd).
  set (w := List.length (workers pool)).
  pose proof (workerLoop_covers w (nextIndex pool) (poolLog pool)) as Hl.
  destruct (workerLoop _ _ _ _ w (nextIndex pool) (poolLog pool))
    as [[worker next'] log'].
  destruct Hl as [Hnext Hworker].
  destruct (firstRejection_cases (rejection pool) worker) as [Hf1 _].
  apply IH. unfold poolCovers. cbn [workers nextIndex rejection].
  split; [|split; [|split]].
  - intros v index d Hv. destruct (Nat.lt_ge_cases v w) as [Hlt|Hge].
    + rewrite lookup_app_l in Hv by exact Hlt.
      destruct (Ha v index d Hv) as (H1 & H2 & H3).
      split; [lia|]. auto.
    + rewrite lookup_app_r in Hv by exact Hge.
      apply list_lookup_singleton_Some in Hv as [_ ->].
      destruct Hworker as (-> & -> & H0 & Hs). split; [lia|]. split; [lia|].
      exact Hs.
  - intros index segment Hi Hs.
    destruct (Nat.lt_ge_cases index (nextIndex pool)) as [Hlt|Hge].
    + destruct (Hb index segment Hlt Hs)
        as [(v & d & Hv) | [H | (v & m & Hv)]].
      * left. exists v, d. rewrite lookup_app_l; [exact Hv|].
        now apply lookup_lt_Some in Hv.
      * right. now left.
      * right. right. exists v, m. rewrite lookup_app_l; [exact Hv|].
        now apply lookup_lt_Some in Hv.
    + destruct worker as [i d| |m].
      * destruct Hworker as (-> & -> & _). left. exists w, d.
        replace index with (nextIndex pool) by lia.
        rewrite lookup_app_r by (unfold w; lia).
        unfold w. now rewrite Nat.sub_diag.
      * apply lookup_lt_Some in Hs. lia.
      * lia.
  - intros v Hv. destruct (Nat.lt_ge_cases v w) as [Hlt|Hge].
    + rewrite lookup_app_l in Hv by exact Hlt.
      specialize (Hc v Hv). lia.
    + rewrite lookup_app_r in Hv by exact Hge.
      apply list_lookup_singleton_Some in Hv as [_ ->]. lia.
  - intros Hnone v m Hv. apply Hf1 in Hnone as [Hnr Hnw].
    destruct (Nat.lt_ge_cases v w) as [Hlt|Hge].
    + rewrite lookup_app_l in Hv by exact Hlt. now apply (Hd Hnr v m).
    + rewrite lookup_app_r in Hv by exact Hge.
      apply list_lookup_singleton_Some in Hv as [_ ->]. now apply (Hnw m).
Qed.

Lemma poolStep_covers (w : nat) (pool : Pool) :
  poolCovers network retries segs pool ->
  poolCovers network retries segs
    (poolStep network aborted timeoutMs retries tempDir segs w pool).
Proof.
  intros Hinv. unfold poolStep.
  destruct (workers pool !! w) as [[index d| |m0]|] eqn:Ew; try exact Hinv.
  destruct Hinv as (Ha & Hb & Hc & Hd).
  destruct (Ha w index d Ew) as (Hindex & Hle & segment & Hseg & Hurl).
  pose proof (lookup_lt_Some _ _ _ Ew) as Hlt.
  unfold resumeWorker.
  pose proof (resumeDownload_served (WorkerTask w) d (poolLog pool) Hle) as Hr.
  destruct (resumeDownload _ _ _ _ (WorkerTask w) d (poolLog pool))
    as [[d'| |m] log']; cbn [fst] in Hr.
  - (* still waiting *)
    destruct Hr as [Hu' Hle'].
    unfold poolCovers. cbn [workers nextIndex rejection firstRejection].
    split; [|split; [|split]].
    + intros v i x Hv. destruct (decide (v = w)) as [->|Hne].
      * rewrite list_lookup_insert_eq in Hv by exact Hlt.
        injection Hv as <- <-. split; [exact Hindex|]. split; [exact Hle'|].
        exists segment. split; [exact Hseg | congruence].
      * rewrite list_lookup_insert_ne in Hv by congruence. now apply (Ha v).
    + intros i s Hi Hs.
      destruct (Hb i s Hi Hs) as [(v & x & Hv) | [H | (v & m & Hv)]].
      * left. destruct (decide (v = w)) as [->|Hne].
        -- rewrite Ew in Hv. injection Hv as <- <-. exists w, d'.
           now rewrite list_lookup_insert_eq.
        -- exists v, x. now rewrite list_lookup_insert_ne by congruence.
      * right. now left.
      * right. right. exists v, m.
        destruct (decide (v = w)) as [->|Hne]; [congruence|].
        now rewrite list_lookup_insert_ne by congruence.
    + intros v Hv. destruct (decide (v = w)) as [->|Hne].
      * rewrite list_lookup_insert_eq in Hv by exact Hlt. discriminate Hv.
      * rewrite list_lookup_insert_ne in Hv by congruence. now apply (Hc v).
    + intros Hnone v m Hv.
      assert (rejection pool = None) as Hnr by (now destruct (rejection pool)).
      destruct (decide (v = w)) as [->|Hne].
      * rewrite list_lookup_insert_eq in Hv by exact Hlt. discriminate Hv.
      * rewrite list_lookup_insert_ne in Hv by congruence.
        now apply (Hd Hnr v m).
  - (* returned: the segment is served, the loop goes on *)
    rewrite Hurl in Hr.
    pose proof (workerLoop_covers w (nextIndex pool) log') as Hl.
    destruct (workerLoop _ _ _ _ w (nextIndex pool) log')
      as [[worker next'] log''].
    destruct Hl as [Hnext Hworker].
    destruct (firstRejection_cases (rejection pool) worker) as [Hf1 _].
    unfold poolCovers. cbn [workers nextIndex rejection].
    split; [|split; [|split]].
    + intros v i x Hv. destruct (decide (v = w)) as [->|Hne].
      * rewrite list_lookup_insert_eq in Hv by exact Hlt.
        injection Hv as ->. destruct Hworker as (-> & -> & H0 & Hs).
        split; [lia|]. split; [lia|]. exact Hs.
      * rewrite list_lookup_insert_ne in Hv by congruence.
        destruct (Ha v i x Hv) as (H1 & H2 & H3). split; [lia|]. auto.
    + intros i s Hi Hs.
      destruct (Nat.lt_ge_cases i (nextIndex pool)) as [Hold|Hnew].
      * destruct (Hb i s Hold Hs) as [(v & x & Hv) | [H | (v & m & Hv)]].
        -- destruct (decide (v = w)) as [->|Hne].
           ++ rewrite Ew in Hv. injection Hv as <- <-.
              right. left. exists (poolLog pool). congruence.
           ++ left. exists v, x.
              now rewrite list_lookup_insert_ne by congruence.
        -- right. now left.
        -- right. right. exists v, m.
           destruct (decide (v = w)) as [->|Hne]; [congruence|].
           now rewrite list_lookup_insert_ne by congruence.
      * destruct worker as [i0 d0| |m].
        -- destruct Hworker as (-> & -> & _). left. exists w, d0.
           replace i with (nextIndex pool) by lia.
           now rewrite list_lookup_insert_eq.
        -- apply lookup_lt_Some in Hs. lia.
        -- lia.
    + intros v Hv. destruct (decide (v = w)) as [->|Hne].
      * rewrite list_lookup_insert_eq in Hv by exact Hlt.
        injection Hv as ->. lia.
      * rewrite list_lookup_insert_ne in Hv by congruence.
        specialize (Hc v Hv). lia.
    + intros Hnone v m Hv. apply Hf1 in Hnone as [Hnr Hnw].
      destruct (decide (v = w)) as [->|Hne].
      * rewrite list_lookup_insert_eq in Hv by exact Hlt.
        injection Hv as ->. now apply (Hnw m).
      * rewrite list_lookup_insert_ne in Hv by congruence.
        now apply (Hd Hnr v m).
  - (* rejected *)
    unfold poolCovers. cbn [workers nextIndex rejection].
    split; [|split; [|split]].
    + intros v i x Hv. destruct (decide (v = w)) as [->|Hne].
      * rewrite list_lookup_insert_eq in Hv by exact Hlt. discriminate Hv.
      * rewrite list_lookup_insert_ne in Hv by congruence. now apply (Ha v).
    + intros i s Hi Hs. right. right. exists w, m.
      now rewrite list_lookup_insert_eq.
    + intros v Hv. destruct (decide (v = w)) as [->|Hne].
      * rewrite list_lookup_insert_eq in Hv by exact Hlt. discriminate Hv.
      * rewrite list_lookup_insert_ne in Hv by congruence. now apply (Hc v).
    + intros Hnone. destruct (rejection pool); discriminate Hnone.
Qed.

Lemma reachable_covers (count : nat) (log : Log) (pool : Pool) :
  Reachable network aborted timeoutMs retries tempDir segs count log pool ->
  poolCovers network retries segs pool.
Proof.
  intros H. induction H as [|w pool _ IH].
  - apply startWorkers_covers. unfold poolCovers. cbn.
    split; [intros w index d H; discriminate H|].
    split; [intros index segment H; lia|].
    split; [intros w H; discriminate H | intros _ w m H; discriminate H].
  - now apply poolStep_covers.
Qed.

(** When the wait for the workers returns, every segment has been
    served. *)
Lemma downloadSegments_served (concurrency : nat) (schedule : nat -> nat)
    (log : Log) (pool : Pool) :
  (0 < concurrency)%nat ->
  downloadSegments network aborted timeoutMs retries tempDir segs concurrency
    schedule log = Some (Ret tt, pool) ->
  forall segment, In segment segs ->
  exists log0, succeeds (network log0 (resolved segment)) = true.
Proof.
  intros Hc H segment Hin. unfold downloadSegments in H.
  eapply awaitWorkers_result in H as [Hreach [Hnone Hnw]]; [|constructor].
  pose proof (reachable_covers _ _ _ Hreach) as (Ha & Hb & Hfin & Hd).
  pose proof (reachable_count network aborted timeoutMs retries tempDir segs
                _ _ _ Hreach) as Hcount.
  apply list_elem_of_In, list_elem_of_lookup_1 in Hin as [index Hs].
  pose proof (lookup_lt_Some _ _ _ Hs) as Hlt.
  destruct (lookup_lt_is_Some_2 (workers pool) O ltac:(lia)) as [worker E0].
  assert (List.length segs <= nextIndex pool)%nat as Hall.
  { destruct worker as [i d| |m].
    - now destruct (Hnw O i d).
    - now apply (Hfin O).
    - now destruct (Hd Hnone O m). }
  destruct (Hb index segment ltac:(lia) Hs) as [(v & d & Hv) | [H | (v & m & Hv)]].
  - now destruct (Hnw v index d).
  - exact H.
  - now destruct (Hd Hnone v m).
Qed.

End Served.

Lemma configuredConcurrency_positive (env : option Z) :
  (0 < configuredConcurrency env)%nat.
Proof. unfold configuredConcurrency. lia. Qed.

Lemma mainOnly_tagged (log : Log) (events : list Event) :
  mainOnly log -> mainOnly (log ++ tagged MainTask events).
Proof.
  intros H w. rewrite traceOf_app, H, traceOf_other; reflexivity.
Qed.

Lemma downloadEach_mainOnly
    (network : Log -> string -> Outcome) (aborted : Log -> bool)
    (timeoutMs : Z) (retries : nat) (items : list (string * string))
    (log log' : Log) (result : Res unit) :
  mainOnly log ->
  downloadEach network aborted timeoutMs retries items log = Some (result, log') ->
  mainOnly log'.
Proof.
  revert log. induction items as [|[u p] rest IH]; intros log Hm;
    cbn [downloadEach].
  - now intros [= _ <-].
  - destruct (downloadFileWithRetry_shape network aborted timeoutMs retries
                u p log) as (j & r & _ & -> & _).
    destruct r as [[]|m].
    + apply IH. now apply mainOnly_tagged.
    + intros [= _ <-]. now apply mainOnly_tagged.
Qed.

Section PoolFunction.

Variable resolveUrl : string -> string -> string.
Variable urlPathname : string -> option string.
Variable network : Log -> string -> Outcome.
Variable aborted : Log -> bool.
Variable concurrencyEnv retryEnv timeoutEnv : option Z.
Variable schedule : nat -> nat.
Variable content baseUrl tempDir : string.

Lemma pool_total :
  exists result log,
    downloadHlsSegmentsParallel resolveUrl urlPathname network aborted
      concurrencyEnv retryEnv timeoutEnv schedule content baseUrl tempDir
    = Some (result, log).
Proof.
  unfold downloadHlsSegmentsParallel.
  destruct (planDownload _ _ _ _) as [st|]; [|eauto].
  match goal with
  | |- context [downloadEach ?n ?a ?t ?r ?items []] =>
      destruct (downloadEach_total n a t r items []) as ([[]|m1] & l1 & ->)
  end; [|eauto].
  match goal with
  | |- context [downloadEach ?n ?a ?t ?r ?items l1] =>
      destruct (downloadEach_total n a t r items l1) as ([[]|m2] & l2 & ->)
  end; [|eauto].
  match goal with
  | |- context [downloadSegments ?n ?a ?t ?r ?d ?segs ?c ?s l2] =>
      destruct (downloadSegments_total n a t r d segs c s l2)
        as ([[]|m3] & pool & ->)
  end; eauto.
Qed.

(** The three phases, and what each leads to. *)
Lemma pool_phases (st : PlanState) :
  planDownload resolveUrl urlPathname content baseUrl = Some st ->
  let retries := configuredRetries retryEnv in
  let timeoutMs := configuredTimeoutMs timeoutEnv in
  let keyFiles :=
    map (fun '(resolved, localName) =>
           (resolved, joinPath tempDir (joinPath "keys" localName)))
        (keyMap st) in
  let mapFiles :=
    map (fun '(resolved, localName) =>
           (resolved, joinPath tempDir (joinPath "maps" localName)))
        (mapMap st) in
  let pool := downloadHlsSegmentsParallel resolveUrl urlPathname network
                aborted concurrencyEnv retryEnv timeoutEnv schedule content
                baseUrl tempDir in
  (forall m log,
      downloadEach network aborted timeoutMs retries keyFiles []
      = Some (Throw m, log) ->
      pool = Some (PoolFailed m, log))
  /\ (forall l1 m log,
        downloadEach network aborted timeoutMs retries keyFiles []
        = Some (Ret tt, l1) ->
        downloadEach network aborted timeoutMs retries mapFiles l1
        = Some (Throw m, log) ->
        pool = Some (PoolFailed m, log))
  /\ (forall l1 l2 m workersPool,
        downloadEach network aborted timeoutMs retries keyFiles []
        = Some (Ret tt, l1) ->
        downloadEach network aborted timeoutMs retries mapFiles l1
        = Some (Ret tt, l2) ->
        downloadSegments network aborted timeoutMs retries tempDir
          (segments st) (configuredConcurrency concurrencyEnv) schedule l2
        = Some (Throw m, workersPool) ->
        pool = Some (PoolFailed m, poolLog workersPool))
  /\ (forall playlistPath manifest count log,
        pool = Some (Downloaded playlistPath manifest count, log) ->
        exists l1 l2 workersPool,
          downloadEach network aborted timeoutMs retries keyFiles []
          = Some (Ret tt, l1)
          /\ downloadEach network aborted timeoutMs retries mapFiles l1
             = Some (Ret tt, l2)
          /\ downloadSegments network aborted timeoutMs retries tempDir
               (segments st) (configuredConcurrency concurrencyEnv) schedule l2
             = Some (Ret tt, workersPool)
          /\ (forall w worker,
                workers workersPool !! w = Some worker -> worker = Finished)
          /\ log = poolLog workersPool ++ [(MainTask, EvWrite playlistPath)]).
Proof.
  intros Hplan retries timeoutMs keyFiles mapFiles pool.
  unfold pool, downloadHlsSegmentsParallel. rewrite Hplan.
  fold retries timeoutMs keyFiles mapFiles.
  split; [|split; [|split]].
  - now intros m log ->.
  - now intros l1 m log -> ->.
  - now intros l1 l2 m workersPool -> -> ->.
  - intros playlistPath manifest count log.
    destruct (downloadEach _ _ _ _ keyFiles []) as [[[[]|m1] l1]|] eqn:E1;
      try discriminate.
    destruct (downloadEach _ _ _ _ mapFiles l1) as [[[[]|m2] l2]|] eqn:E2;
      try discriminate.
    destruct (downloadSegments _ _ _ _ _ _ _ _ l2) as [[[[]|m3] wp]|] eqn:E3;
      try discriminate.
    intros [= <- <- <- <-]. exists l1, l2, wp.
    do 3 (split; [first [reflexivity | eassumption]|]).
    split; [|reflexivity].
    assert (mainOnly l2) as Hmain.
    { eapply downloadEach_mainOnly; [|exact E2].
      eapply downloadEach_mainOnly; [|exact E1]. intros w. reflexivity. }
    unfold downloadSegments in E3.
    eapply awaitWorkers_result in E3 as [Hreach [Hnone Hnw]]; [|constructor].
    eapply all_finished; eauto. eapply reachable_traces; eauto.
Qed.

(** The manifest is written only when every file of the plan has been
    served. *)
Lemma pool_served (st : PlanState) (playlistPath manifest : string)
    (count : nat) (log : Log) (url : string) :
  planDownload resolveUrl urlPathname content baseUrl = Some st ->
  downloadHlsSegmentsParallel resolveUrl urlPathname network aborted
    concurrencyEnv retryEnv timeoutEnv schedule content baseUrl tempDir
  = Some (Downloaded playlistPath manifest count, log) ->
  In url (map fst (keyMap st)) \/ In url (map fst (mapMap st))
  \/ In url (map resolved (segments st)) ->
  exists log0, succeeds (network log0 url) = true.
Proof.
  intros Hplan. unfold downloadHlsSegmentsParallel. rewrite Hplan.
  destruct (downloadEach _ _ _ _ _ []) as [[[[]|m1] l1]|] eqn:E1;
    try discriminate.
  destruct (downloadEach _ _ _ _ _ l1) as [[[[]|m2] l2]|] eqn:E2;
    try discriminate.
  destruct (downloadSegments _ _ _ _ _ _ _ _ l2) as [[[[]|m3] wp]|] eqn:E3;
    try discriminate.
  intros _ [Hin | [Hin | Hin]].
  - eapply downloadEach_served; [exact E1|].
    rewrite map_map. rewrite in_map_iff in Hin |- *.
    destruct Hin as ([u n] & <- & Hin). exists (u, n). auto.
  - eapply downloadEach_served; [exact E2|].
    rewrite map_map. rewrite in_map_iff in Hin |- *.
    destruct Hin as ([u n] & <- & Hin). exists (u, n). auto.
  - apply in_map_iff in Hin as (segment & <- & Hin).
    eapply downloadSegments_served; [|exact E3|exact Hin].
    apply configuredConcurrency_positive.
Qed.

(** A file of the plan that is never served makes the pool fail. *)
Lemma pool_fails (st : PlanState) (url : string) :
  planDownload resolveUrl urlPathname content baseUrl = Some st ->
  In url (map fst (keyMap st)) \/ In url (map fst (mapMap st))
  \/ In url (map resolved (segments st)) ->
  neverServed network url ->
  exists m log,
    downloadHlsSegmentsParallel resolveUrl urlPathname network aborted
      concurrencyEnv retryEnv timeoutEnv schedule content baseUrl tempDir
    = Some (PoolFailed m, log).
Proof.
  intros Hplan Hin Hnever.
  destruct pool_total as ([|m|playlistPath manifest count] & log & E).
  - unfold downloadHlsSegmentsParallel in E. rewrite Hplan in E.
    destruct (downloadEach _ _ _ _ _ []) as [[[[]|m1] l1]|]; try discriminate.
    destruct (downloadEach _ _ _ _ _ l1) as [[[[]|m2] l2]|]; try discriminate.
    destruct (downloadSegments _ _ _ _ _ _ _ _ l2) as [[[[]|m3] wp]|];
      discriminate.
  - eauto.
  - destruct (pool_served st _ _ _ _ url Hplan E Hin) as [log0 H0].
    rewrite Hnever in H0. discriminate H0.
Qed.

End PoolFunction.

(** C8.  Every download of the pool - of a key, of an init-map or of a
    segment - makes at most [1 + retries] requests, each with the
    configured timeout, the [k]-th retry after a pause of [400 * k] ms,
    and throws only when its last attempt failed (or the job was
    cancelled); the defaults are 2 retries, 25 s and 8 workers.  The keys
    and the init-maps are downloaded one after the other, and the first
    download that throws ends the sequence with its error.  The segments
    are served by [min(concurrency, n)] workers whose arrivals come in any
    order: whatever the order, the events of each worker are those of the
    downloads it has completed, one after the other, followed by those of
    the download it waits for or was rejected with; a download of a worker
    that throws makes the wait for the workers throw with that error then
    and there (the other workers are left suspended, not cancelled).  The
    pool always comes to a result; it fails with the error of the phase
    that threw, and it writes the manifest only when the keys, the
    init-maps and every worker have returned.  What a download comes to
    follows the answers it gets: a download whose requests all fail
    throws, and the manifest is written only when every key, init-map and
    segment of the plan has been answered with a 2xx status and written;
    so a file of the plan that is never served makes the pool fail,
    whatever the order of the arrivals. *)
Theorem fetcher_retry_policy
    (network : Log -> string -> Outcome) (aborted : Log -> bool)
    (timeoutMs : Z) (retries : nat) :
  (configuredRetries None = 2%nat /\ configuredTimeoutMs None = 25000
   /\ configuredConcurrency None = 8%nat)
  /\ (forall url filePath log,
        exists j result,
          (j <= retries)%nat
          /\ downloadFileWithRetry network aborted timeoutMs retries url
               filePath log
             = Some (result,
                     log ++ tagged MainTask
                              (downloadTrace timeoutMs url filePath j result))
          /\ countFetches (downloadTrace timeoutMs url filePath j result)
             = S j
          /\ (forall m, result = Throw m ->
                j = retries
                \/ aborted
                     (log ++ tagged MainTask
                               (downloadTrace timeoutMs url filePath j result))
                   = true))
  /\ (forall before after u p log log1 log2 m,
        downloadEach network aborted timeoutMs retries before log
        = Some (Ret tt, log1) ->
        downloadFileWithRetry network aborted timeoutMs retries u p log1
        = Some (Throw m, log2) ->
        downloadEach network aborted timeoutMs retries
          (before ++ (u, p) :: after) log = Some (Throw m, log2))
  /\ (forall tempDir segs count log pool,
        mainOnly log ->
        Reachable network aborted timeoutMs retries tempDir segs count log
          pool ->
        List.length (workers pool) = count
        /\ forall w worker,
             workers pool !! w = Some worker ->
             workerTrace timeoutMs retries tempDir segs w worker
               (poolLog pool))
  /\ (forall tempDir segs pool w index d m schedule fuel step,
        rejection pool = None ->
        workers pool !! w = Some (Working index d) ->
        fst (resumeDownload network aborted timeoutMs retries (WorkerTask w) d
               (poolLog pool)) = Threw m ->
        awaitWorkers network aborted timeoutMs retries tempDir segs fuel
          schedule step
          (poolStep network aborted timeoutMs retries tempDir segs w pool)
        = Some (Throw m,
                poolStep network aborted timeoutMs retries tempDir segs w pool)
        /\ workers
             (poolStep network aborted timeoutMs retries tempDir segs w pool)
           = <[w := Rejected m]> (workers pool))
  /\ (forall resolveUrl urlPathname concurrencyEnv retryEnv timeoutEnv
             schedule content baseUrl tempDir,
        let pool :=
          downloadHlsSegmentsParallel resolveUrl urlPathname network aborted
            concurrencyEnv retryEnv timeoutEnv schedule content baseUrl
            tempDir in
        let keyFiles (st : PlanState) :=
          map (fun '(resolved, localName) =>
                 (resolved, joinPath tempDir (joinPath "keys" localName)))
              (keyMap st) in
        let mapFiles (st : PlanState) :=
          map (fun '(resolved, localName) =>
                 (resolved, joinPath tempDir (joinPath "maps" localName)))
              (mapMap st) in
        (exists result log, pool = Some (result, log))
        /\ forall st,
             planDownload resolveUrl urlPathname content baseUrl = Some st ->
             (forall m log,
                 downloadEach network aborted (configuredTimeoutMs timeoutEnv)
                   (configuredRetries retryEnv) (keyFiles st) []
                 = Some (Throw m, log) ->
                 pool = Some (PoolFailed m, log))
             /\ (forall l1 m log,
                   downloadEach network aborted (configuredTimeoutMs timeoutEnv)
                     (configuredRetries retryEnv) (keyFiles st) []
                   = Some (Ret tt, l1) ->
                   downloadEach network aborted (configuredTimeoutMs timeoutEnv)
                     (configuredRetries retryEnv) (mapFiles st) l1
                   = Some (Throw m, log) ->
                   pool = Some (PoolFailed m, log))
             /\ (forall l1 l2 m workersPool,
                   downloadEach network aborted (configuredTimeoutMs timeoutEnv)
                     (configuredRetries retryEnv) (keyFiles st) []
                   = Some (Ret tt, l1) ->
                   downloadEach network aborted (configuredTimeoutMs timeoutEnv)
                     (configuredRetries retryEnv) (mapFiles st) l1
                   = Some (Ret tt, l2) ->
                   downloadSegments network aborted
                     (configuredTimeoutMs timeoutEnv)
                     (configuredRetries retryEnv) tempDir (segments st)
                     (configuredConcurrency concurrencyEnv) schedule l2
                   = Some (Throw m, workersPool) ->
                   pool = Some (PoolFailed m, poolLog workersPool))
             /\ (forall playlistPath manifest count log,
                   pool = Some (Downloaded playlistPath manifest count, log) ->
                   exists l1 l2 workersPool,
                     downloadEach network aborted
                       (configuredTimeoutMs timeoutEnv)
                       (configuredRetries retryEnv) (keyFiles st) []
                     = Some (Ret tt, l1)
                     /\ downloadEach network aborted
                          (configuredTimeoutMs timeoutEnv)
                          (configuredRetries retryEnv) (mapFiles st) l1
                        = Some (Ret tt, l2)
                     /\ downloadSegments network aborted
                          (configuredTimeoutMs timeoutEnv)
                          (configuredRetries retryEnv) tempDir (segments st)
                          (configuredConcurrency concurrencyEnv) schedule l2
                        = Some (Ret tt, workersPool)
                     /\ (forall w worker,
                           workers workersPool !! w = Some worker ->
                           worker = Finished)
                     /\ log = poolLog workersPool
                                ++ [(MainTask, EvWrite playlistPath)]))
  /\ (forall url filePath log,
        neverServed network url ->
        exists j m,
          downloadFileWithRetry network aborted timeoutMs retries url
            filePath log
          = Some (Throw m,
                  log ++ tagged MainTask
                           (downloadTrace timeoutMs url filePath j (Throw m)))
          /\ (j = retries
              \/ aborted
                   (log ++ tagged MainTask
                             (downloadTrace timeoutMs url filePath j (Throw m)))
                 = true))
  /\ (forall resolveUrl urlPathname concurrencyEnv retryEnv timeoutEnv
             schedule content baseUrl tempDir st url,
        let pool :=
          downloadHlsSegmentsParallel resolveUrl urlPathname network aborted
            concurrencyEnv retryEnv timeoutEnv schedule content baseUrl
            tempDir in
        planDownload resolveUrl urlPathname content baseUrl = Some st ->
        In url (map fst (keyMap st)) \/ In url (map fst (mapMap st))
        \/ In url (map resolved (segments st)) ->
        (forall playlistPath manifest count log,
            pool = Some (Downloaded playlistPath manifest count, log) ->
            exists log0, succeeds (network log0 url) = true)
        /\ (neverServed network url ->
            exists m log, pool = Some (PoolFailed m, log))).
Proof.
  split; [|split; [|split; [|split; [|split; [|split; [|split]]]]]].
  - repeat split; reflexivity.
  - intros. apply downloadFileWithRetry_shape.
  - intros. eapply downloadEach_propagates; eauto.
  - intros tempDir segs count log pool Hmain Hreach.
    split; [eapply reachable_count; eauto|].
    now apply (reachable_traces network aborted timeoutMs retries tempDir segs
                 count log pool Hmain Hreach).
  - intros tempDir segs pool w index d m schedule fuel step Hr Hw Hd.
    destruct (worker_throw_rejects network aborted timeoutMs retries tempDir
                segs w index d m pool schedule fuel step Hr Hw Hd)
      as (H1 & H2 & _).
    auto.
  - intros resolveUrl urlPathname concurrencyEnv retryEnv timeoutEnv schedule
      content baseUrl tempDir pool keyFiles mapFiles.
    split; [apply pool_total|].
    intros st Hplan.
    exact (pool_phases resolveUrl urlPathname network aborted concurrencyEnv
             retryEnv timeoutEnv schedule content baseUrl tempDir st Hplan).
  - intros url filePath log Hnever. now apply downloadFileWithRetry_fails.
  - intros resolveUrl urlPathname concurrencyEnv retryEnv timeoutEnv schedule
      content baseUrl tempDir st url pool Hplan Hin.
    split.
    + intros playlistPath manifest count log E.
      exact (pool_served resolveUrl urlPathname network aborted concurrencyEnv
               retryEnv timeoutEnv schedule content baseUrl tempDir st
               playlistPath manifest count log url Hplan E Hin).
    + intros Hnever.
      exact (pool_fails resolveUrl urlPathname network aborted concurrencyEnv
               retryEnv timeoutEnv schedule content baseUrl tempDir st url
               Hplan Hin Hnever).
Qed.

(** *** A server that always answers 500, and one that refuses one segment *)

Lemma fetcher_retry_policy_witness :
  downloadFileWithRetry alwaysBroken neverAborted 25000 2
    "http://cdn.example/k.key" "/tmp/job/keys/key_1.key" []
  = Some (Throw "HTTP 500",
          tagged MainTask
            [EvFetch "http://cdn.example/k.key" 25000; EvSleep 400;
             EvFetch "http://cdn.example/k.key" 25000; EvSleep 800;
             EvFetch "http://cdn.example/k.key" 25000])
  /\ downloadHlsSegmentsParallel (fun line base => line) (fun u => None)
       firstBroken neverAborted (Some 2) None None alternating sevenSegments
       "http://cdn.example/v/index.m3u8" "/tmp/job"
     = Some (PoolFailed "HTTP 500", poolLog brokenRun).
Proof.
  split; [vm_compute; reflexivity|].
  destruct (proj1 (proj2 (proj2 (proj2 (proj2 (proj2
              (fetcher_retry_policy firstBroken neverAborted 25000 2))))))
              (fun line base => line) (fun u => None) (Some 2) None None
              alternating sevenSegments "http://cdn.example/v/index.m3u8"
              "/tmp/job") as [_ Hphases].
  destruct (planDownload (fun line base => line) (fun u => None) sevenSegments
              "http://cdn.example/v/index.m3u8") as [st|] eqn:Hplan;
    [|vm_compute in Hplan; discriminate Hplan].
  destruct (Hphases st eq_refl) as (_ & _ & Hworkers & _).
  vm_compute in Hplan. injection Hplan as <-.
  refine (Hworkers [] [] "HTTP 500" brokenRun eq_refl eq_refl _).
  vm_compute. reflexivity.
Defined.

End RetryFacts.

(** ** Segment fetcher pool: engagement and local names *)

Module PlanFacts.
Import JS Platform Playlist Fetcher PlanTerms StringFacts.

(** *** Strings *)

Lemma app_cons (a : ascii) (p x : string) :
  String a p +:+ x = String a (p +:+ x).
Proof. reflexivity. Qed.

Lemma app_assoc_string (a b c : string) : (a +:+ b) +:+ c = a +:+ (b +:+ c).
Proof. induction a as [|x a IH]; [reflexivity|]. rewrite !app_cons. now rewrite IH. Qed.

Lemma hasChar_app_r (c : ascii) (p x : string) :
  hasChar c x = true -> hasChar c (p +:+ x) = true.
Proof.
  intros H. induction p as [|a p IH]; [exact H|].
  rewrite app_cons. cbn [hasChar]. rewrite IH. apply orb_true_r.
Qed.

(** Case analysis on a string comparison. *)
Ltac case_string_eqb x y :=
  let E := fresh "E" in
  destruct (String.eqb x y) eqn:E;
  [apply String.eqb_eq in E | apply String.eqb_neq in E].

Lemma endsWith_hasChar (c : ascii) (e s : string) :
  endsWith e s = true -> hasChar c e = true -> hasChar c s = true.
Proof.
  intros He Hc. induction s as [|a s IH].
  - cbn [endsWith] in He. case_string_eqb e ""; [now subst | discriminate].
  - cbn [endsWith] in He.
    case_string_eqb e (String a s); [now subst|].
    cbn [hasChar]. rewrite (IH He). apply orb_true_r.
Qed.

(** A name built by appending an extension ends with another extension
    only when the two are the same. *)
Lemma endsWith_extension (p x e : string) :
  DotExt x -> DotExt e -> endsWith e (p +:+ x) = true -> x = e.
Proof.
  intros (r & -> & Hr) (e' & -> & He'). induction p as [|a p IH].
  - change ("" +:+ String "." r) with (String "." r). cbn [endsWith].
    case_string_eqb (String "." e') (String "." r); [intros _; now symmetry|].
    intros H. apply (endsWith_hasChar ".") in H; [congruence | reflexivity].
  - rewrite app_cons. cbn [endsWith].
    case_string_eqb (String "." e') (String a (p +:+ String "." r)); [|exact IH].
    injection E as _ E. exfalso.
    assert (hasChar "." (p +:+ String "." r) = true) as H
      by (apply hasChar_app_r; reflexivity).
    rewrite <- E in H. congruence.
Qed.

Lemma lastIndexOf_drop (c : ascii) (s : string) (i : nat) :
  lastIndexOf c s = Some i ->
  exists r, drop i s = String c r /\ hasChar c r = false.
Proof.
  revert i. induction s as [|a s IH]; intros i; cbn [lastIndexOf]; [discriminate|].
  destruct (lastIndexOf c s) as [j|] eqn:E.
  - intros [= <-]. cbn [drop]. now apply IH.
  - destruct (Ascii.eqb_spec a c) as [->|]; [|discriminate].
    intros [= <-]. cbn [drop]. exists s. split; [reflexivity|].
    clear IH. induction s as [|b s IH]; [reflexivity|].
    cbn [lastIndexOf] in E. cbn [hasChar].
    destruct (lastIndexOf c s); [discriminate|].
    destruct (Ascii.eqb b c); [discriminate|]. now apply IH.
Qed.

Lemma extname_shape (p : string) : extname p = "" \/ DotExt (extname p).
Proof.
  unfold extname.
  destruct (lastIndexOf "." _) as [[|i]|] eqn:E; [auto | | auto].
  destruct (String.eqb _ ".."); [auto|].
  right. apply lastIndexOf_drop in E as (r & -> & Hr). now exists r.
Qed.

Lemma DotExt_toLowerCase (s : string) : DotExt s -> DotExt (toLowerCase s).
Proof.
  intros (r & -> & Hr). exists (toLowerCase r). split; [reflexivity|].
  now rewrite hasChar_toLowerCase_dot.
Qed.

Lemma invalid_extensions_shape (e : string) :
  In e INVALID_SEGMENT_EXTENSIONS -> DotExt e.
Proof.
  cbn. intros H.
  repeat (destruct H as [<-|H]; [eexists; split; reflexivity|]).
  contradiction.
Qed.

Lemma includesStr_In (x : string) (l : list string) :
  includesStr x l = true <-> In x l.
Proof.
  unfold includesStr. rewrite existsb_exists. split.
  - intros (y & Hy & E). apply String.eqb_eq in E. now subst.
  - intros H. exists x. split; [exact H | apply String.eqb_refl].
Qed.

Section Names.

Variable resolveUrl : string -> string -> string.
Variable urlPathname : string -> option string.

Lemma getSafeSegmentExtension_shape (u : string) :
  DotExt (getSafeSegmentExtension urlPathname u)
  /\ includesStr (getSafeSegmentExtension urlPathname u)
       INVALID_SEGMENT_EXTENSIONS = false.
Proof.
  assert (Hts : DotExt ".ts"
                /\ includesStr ".ts" INVALID_SEGMENT_EXTENSIONS = false)
    by (split; [eexists; split; reflexivity | reflexivity]).
  unfold getSafeSegmentExtension.
  destruct (urlPathname u) as [pathname|]; [|exact Hts].
  destruct (isEmpty (toLowerCase (extname pathname))) eqn:Hempty; [exact Hts|].
  cbn [orb].
  destruct (includesStr (toLowerCase (extname pathname))
              INVALID_SEGMENT_EXTENSIONS) eqn:Hinv; [exact Hts|].
  split; [|exact Hinv].
  destruct (extname_shape pathname) as [E|H]; [now rewrite E in Hempty|].
  now apply DotExt_toLowerCase.
Qed.

Lemma getSafeSegmentExtension_lower (u : string) :
  asciiLower (getSafeSegmentExtension urlPathname u)
  = getSafeSegmentExtension urlPathname u.
Proof.
  unfold getSafeSegmentExtension.
  destruct (urlPathname u) as [pathname|]; [|reflexivity].
  destruct (isEmpty _ || includesStr _ _)%bool; [reflexivity|].
  apply asciiLower_toLowerCase.
Qed.

(** Nothing that ends in the extension [getSafeSegmentExtension] chose ends
    in an image extension. *)
Lemma safe_name_has_no_image_extension (prefix u e : string) :
  In e INVALID_SEGMENT_EXTENSIONS ->
  endsWith e (prefix +:+ getSafeSegmentExtension urlPathname u) = false.
Proof.
  intros He.
  destruct (getSafeSegmentExtension_shape u) as [Hshape Hsafe].
  destruct (endsWith e _) eqn:E; [|reflexivity].
  apply endsWith_extension in E;
    [|exact Hshape | now apply invalid_extensions_shape].
  apply includesStr_In in He. congruence.
Qed.

Lemma safe_name_safePath (prefix u : string) :
  safePath (prefix +:+ getSafeSegmentExtension urlPathname u).
Proof.
  intros e He. split; [now apply safe_name_has_no_image_extension|].
  rewrite asciiLower_app, getSafeSegmentExtension_lower.
  now apply safe_name_has_no_image_extension.
Qed.

Lemma segment_path_safe (count : nat) (u : string) :
  safePath (joinPath "segments" (segmentName urlPathname count u)).
Proof.
  unfold joinPath, segmentName.
  rewrite <- !app_assoc_string. apply safe_name_safePath.
Qed.

Lemma map_path_safe (count : nat) (u : string) :
  safePath (joinPath "maps"
              ("init_" +:+ natToString count
                 +:+ getSafeSegmentExtension urlPathname u)).
Proof.
  unfold joinPath.
  rewrite <- !app_assoc_string. apply safe_name_safePath.
Qed.

Lemma lookupProp_In {A} (key : string) (obj : list (string * A)) (v : A) :
  lookupProp key obj = Some v -> In (key, v) obj.
Proof.
  induction obj as [|[k w] rest IH]; cbn [lookupProp]; [discriminate|].
  case_string_eqb k key.
  - intros [= <-]. subst. now left.
  - intros H. right. now apply IH.
Qed.

Lemma key_path_safe (count : nat) :
  safePath (joinPath "keys" ("key_" +:+ natToString count +:+ ".key")).
Proof.
  intros e He. unfold joinPath. rewrite <- !app_assoc_string.
  assert (DotExt ".key") as Hk by (eexists; split; reflexivity).
  assert (~ In ".key" INVALID_SEGMENT_EXTENSIONS) as Hn.
  { cbn. intros H. repeat (destruct H as [H|H]; [discriminate|]). exact H. }
  split.
  - destruct (endsWith e _) eqn:E; [|reflexivity].
    apply endsWith_extension in E;
      [|exact Hk | now apply invalid_extensions_shape].
    subst e. contradiction.
  - rewrite asciiLower_app.
    change (asciiLower ".key") with ".key".
    destruct (endsWith e _) eqn:E; [|reflexivity].
    apply endsWith_extension in E;
      [|exact Hk | now apply invalid_extensions_shape].
    subst e. contradiction.
Qed.

(** A local name looked up in a table of safe names, appended to a list of
    safe paths. *)
Lemma named_entry_safe (dir resolved : string) (i : nat)
    (table : list (string * string)) (entries : list Parsed) :
  Forall (fun kv => safePath (joinPath dir (snd kv))) table ->
  Forall (fun p => safePath (localPath p)) entries ->
  Forall (fun p => safePath (localPath p))
    (if isEmpty (default "" (lookupProp resolved table)) then entries
     else entries ++
            [{| lineIndex := i; resolved := resolved;
                localPath := joinPath dir (default "" (lookupProp resolved table)) |}]).
Proof.
  intros Ht He.
  destruct (lookupProp resolved table) as [localName|] eqn:El;
    cbn [default from_option id]; [|exact He].
  destruct (isEmpty localName); [exact He|].
  apply Forall_app. split; [exact He|].
  constructor; [|constructor]. cbn [localPath].
  apply lookupProp_In in El.
  rewrite List.Forall_forall in Ht. exact (Ht _ El).
Qed.

Lemma planLine_safe (baseUrl : string) (i : nat) (rawLine : string)
    (st st' : PlanState) :
  safePlan st ->
  planLine resolveUrl urlPathname baseUrl i rawLine st = Some st' ->
  safePlan st'.
Proof.
  intros (Hs & Hm & Hmm & Hk & Hkm). unfold planLine.
  destruct (isEmpty (trim rawLine)); [intros [= <-]; repeat split; assumption|].
  destruct (startsWith "#EXT-X-BYTERANGE" _);
    [intros [= <-]; repeat split; assumption|].
  destruct (startsWith "#EXT-X-PART" _ || startsWith "#EXT-X-PRELOAD-HINT" _)%bool;
    [intros [= <-]; repeat split; assumption|].
  destruct (startsWith "#EXT-X-KEY" _).
  { destruct (negb _ && negb _)%bool; [discriminate|].
    destruct (negb _ && negb _ && negb _)%bool;
      [|intros [= <-]; repeat split; assumption].
    set (resolved := resolveUrl _ baseUrl).
    set (keyMap' := match lookupProp resolved (keyMap st) with
                    | Some _ => keyMap st
                    | None => _
                    end).
    assert (Hkm' : Forall (fun kv => safePath (joinPath "keys" (snd kv))) keyMap').
    { unfold keyMap'. destruct (lookupProp resolved (keyMap st)); [exact Hkm|].
      apply Forall_app. split; [exact Hkm|].
      constructor; [|constructor]. cbn [snd]. apply key_path_safe. }
    intros [= <-]. repeat split; try assumption.
    cbn [keys]. now apply named_entry_safe. }
  destruct (startsWith "#EXT-X-MAP" _).
  { destruct (negb (isEmpty _)); [|intros [= <-]; repeat split; assumption].
    set (resolved := resolveUrl _ baseUrl).
    set (mapMap' := match lookupProp resolved (mapMap st) with
                    | Some _ => mapMap st
                    | None => _
                    end).
    assert (Hmm' : Forall (fun kv => safePath (joinPath "maps" (snd kv))) mapMap').
    { unfold mapMap'. destruct (lookupProp resolved (mapMap st)); [exact Hmm|].
      apply Forall_app. split; [exact Hmm|].
      constructor; [|constructor]. cbn [snd]. apply map_path_safe. }
    intros [= <-]. repeat split; try assumption.
    cbn [maps]. now apply named_entry_safe. }
  destruct (startsWith "#" _); [intros [= <-]; repeat split; assumption|].
  intros [= <-]. repeat split; try assumption.
  cbn [segments]. apply Forall_app. split; [exact Hs|].
  constructor; [|constructor]. cbn [localPath]. apply segment_path_safe.
Qed.

Lemma planLoop_safe (baseUrl : string) (lines : list string) (i : nat)
    (st st' : PlanState) :
  safePlan st ->
  planLoop resolveUrl urlPathname baseUrl lines i st = Some st' ->
  safePlan st'.
Proof.
  revert i st. induction lines as [|l rest IH]; intros i st Hst; cbn [planLoop].
  - now intros [= <-].
  - destruct (planLine _ _ _ _ _ _) as [st1|] eqn:E; [|discriminate].
    apply IH. eapply planLine_safe; eauto.
Qed.

Lemma planDownload_safe (content baseUrl : string) (st : PlanState) :
  planDownload resolveUrl urlPathname content baseUrl = Some st -> safePlan st.
Proof.
  unfold planDownload.
  destruct (negb _ || negb _)%bool; [discriminate|].
  destruct (planLoop _ _ _ _ _ _) as [st1|] eqn:E; [|discriminate].
  destruct (hasByterange st1 || hasPartial st1)%bool; [discriminate|].
  destruct (Nat.ltb _ _); [discriminate|].
  intros [= <-]. eapply planLoop_safe; [|exact E].
  repeat split; constructor.
Qed.

Lemma lineTable_lookup (xs : list Parsed) (m : gmap nat string)
    (index : nat) (p : string) :
  fold_left (fun m x => <[lineIndex x := localPath x]> m) xs m !! index = Some p ->
  m !! index = Some p \/ exists x, In x xs /\ localPath x = p.
Proof.
  revert m. induction xs as [|x xs IH]; intros m; cbn [fold_left]; [auto|].
  intros H. apply IH in H as [H|(y & Hy & E)].
  - destruct (decide (lineIndex x = index)) as [<-|Hne].
    + rewrite lookup_insert_eq in H. injection H as <-.
      right. exists x. split; [now left | reflexivity].
    + rewrite lookup_insert_ne in H by exact Hne. now left.
  - right. exists y. split; [now right | exact E].
Qed.

(** What a line of the rewritten manifest is. *)
Lemma rewriteLine_cases (st : PlanState) (index : nat) (line : string) :
  rewriteLine st index line = line
  \/ (exists k, In k (keys st)
                /\ rewriteLine st index line
                   = replaceUriAttribute line (localPath k))
  \/ (exists m, In m (maps st)
                /\ rewriteLine st index line
                   = replaceUriAttribute line (localPath m))
  \/ (exists s, In s (segments st)
                /\ rewriteLine st index line = localPath s).
Proof.
  unfold rewriteLine, lineTable.
  destruct (fold_left _ (keys st) ∅ !! index) as [p|] eqn:Ek.
  { apply lineTable_lookup in Ek as [Ek|(k & Hk & <-)];
      [rewrite lookup_empty in Ek; discriminate|]. right. left. eauto. }
  destruct (fold_left _ (maps st) ∅ !! index) as [p|] eqn:Em.
  { apply lineTable_lookup in Em as [Em|(m & Hm & <-)];
      [rewrite lookup_empty in Em; discriminate|]. right. right. left. eauto. }
  destruct (fold_left _ (segments st) ∅ !! index) as [p|] eqn:Es; [|now left].
  apply lineTable_lookup in Es as [Es|(s & Hs & <-)];
    [rewrite lookup_empty in Es; discriminate|].
  unfold orElse. destruct (isEmpty (localPath s)); [now left|].
  right. right. right. eauto.
Qed.

End Names.

(** X29.  The extension chosen for a local name is never an image
    extension, and it is [.ts] when the URL does not parse, when its path
    has no extension and when the extension is an image extension (in any
    letter case); in a plan, the local path of every segment, of every
    init-map and of every key does not end in an image extension, in any
    letter case. *)
Theorem local_names_are_safe
    (resolveUrl : string -> string -> string)
    (urlPathname : string -> option string) :
  (forall u,
      includesStr (getSafeSegmentExtension urlPathname u)
        INVALID_SEGMENT_EXTENSIONS = false
      /\ (urlPathname u = None -> getSafeSegmentExtension urlPathname u = ".ts")
      /\ (forall pathname,
            urlPathname u = Some pathname ->
            extname pathname = ""
            \/ includesStr (toLowerCase (extname pathname))
                 INVALID_SEGMENT_EXTENSIONS = true ->
            getSafeSegmentExtension urlPathname u = ".ts"))
  /\ (forall content baseUrl st,
        planDownload resolveUrl urlPathname content baseUrl = Some st ->
        forall p e,
          In p (segments st) \/ In p (maps st) \/ In p (keys st) ->
          In e INVALID_SEGMENT_EXTENSIONS ->
          endsWith e (localPath p) = false
          /\ endsWith e (asciiLower (localPath p)) = false).
Proof.
  split.
  - intros u. split; [apply getSafeSegmentExtension_shape|].
    unfold getSafeSegmentExtension. split.
    + now intros ->.
    + intros pathname -> [E|E].
      * now rewrite E.
      * rewrite E. now rewrite orb_true_r.
  - intros content baseUrl st Hplan.
    destruct (planDownload_safe resolveUrl urlPathname _ _ _ Hplan)
      as (Hs & Hm & _ & Hk & _).
    rewrite List.Forall_forall in Hs, Hm, Hk.
    intros p e [Hp|[Hp|Hp]] He;
      [exact (Hs p Hp e He) | exact (Hm p Hp e He) | exact (Hk p Hp e He)].
Qed.

Lemma local_names_are_safe_witness :
  (exists st,
      planDownload (fun line base => line) examplePathname disguisedPlaylist
        "http://cdn.example/v/index.m3u8" = Some st
      /\ In sixthSegment (segments st)
      /\ map localPath (segments st)
         = ["segments/seg_00001.ts"; "segments/seg_00002.ts";
            "segments/seg_00003.ts"; "segments/seg_00004.m4s";
            "segments/seg_00005.ts"; "segments/seg_00006.ts"])
  /\ endsWith ".webp" (localPath sixthSegment) = false.
Proof.
  destruct (planDownload (fun line base => line) examplePathname
              disguisedPlaylist "http://cdn.example/v/index.m3u8")
    as [st|] eqn:Hplan; [|vm_compute in Hplan; discriminate].
  assert (In sixthSegment (segments st)) as Hin.
  { vm_compute in Hplan. injection Hplan as <-. cbn. auto 10. }
  split.
  - exists st. split; [reflexivity|]. split; [exact Hin|].
    vm_compute in Hplan. injection Hplan as <-. reflexivity.
  - refine (proj1 (proj2
      (local_names_are_safe (fun line base => line) examplePathname)
      disguisedPlaylist "http://cdn.example/v/index.m3u8" st Hplan
      sixthSegment ".webp" (or_introl Hin) _)).
    cbn. auto 10.
Defined.

(** C10.  The manifest that is written can name an image file, although
    every local name is safe.  The manifest is the playlist with its
    lines rewritten by [rewriteLine].  An init-map line
    [#EXT-X-MAP:URI =init.jpg], with a space before the equals sign, is
    read by [parseAttributeList] and the init-map is stored as
    [maps/init_1.ts]; [replaceUriAttribute], which wants [URI=] without a
    space, leaves the line as it is.  And a local name is used as a
    replacement template: an init-map whose file name ends in a dollar sign
    and a quote is stored under a name with that ending, which the
    replacement expands to the rest of the line, so that the URI written
    ends in [.jpg].  Both playlists are what the sanitiser of the download
    hands to the pool. *)
Theorem local_manifest_can_name_an_image :
  (forall resolveUrl urlPathname network aborted concurrencyEnv retryEnv
          timeoutEnv schedule content baseUrl tempDir playlistPath manifest
          count log,
      downloadHlsSegmentsParallel resolveUrl urlPathname network aborted
        concurrencyEnv retryEnv timeoutEnv schedule content baseUrl tempDir
      = Some (Downloaded playlistPath manifest count, log) ->
      exists st,
        planDownload resolveUrl urlPathname content baseUrl = Some st
        /\ manifest
           = join (String "010" "")
               (rewriteManifest st (splitLines content)))
  /\ (exists st manifest log,
        planDownload exampleResolve examplePathname spacedMapPlaylist
          "http://cdn.example/v/index.m3u8" = Some st
        /\ maps st
           = [{| lineIndex := 2; resolved := "http://cdn.example/v/init.jpg";
                 localPath := "maps/init_1.ts" |}]
        /\ downloadHlsSegmentsParallel exampleResolve examplePathname
             alwaysServed (fun log => false) None None None (fun step => step)
             spacedMapPlaylist "http://cdn.example/v/index.m3u8" "/tmp/job"
           = Some (Downloaded "/tmp/job/playlist-local.m3u8" manifest 6, log)
        /\ In (MainTask, EvWrite "/tmp/job/maps/init_1.ts") log
        /\ splitLines manifest !! 2%nat = Some "#EXT-X-MAP:URI =init.jpg"
        /\ Sanitizer.choosePlaylistContent exampleResolve (fun u => None)
             (fun t => t) (fun v => v) spacedMapPlaylist
             "http://cdn.example/v/index.m3u8" None None
           = Ret spacedMapPlaylist)
  /\ (exists st manifest log,
        planDownload exampleResolve examplePathname dollarMapPlaylist
          "http://cdn.example/v/index.m3u8" = Some st
        /\ maps st
           = [{| lineIndex := 2; resolved := "http://cdn.example/v/init.$'";
                 localPath := "maps/init_1.$'" |}]
        /\ downloadHlsSegmentsParallel exampleResolve examplePathname
             alwaysServed (fun log => false) None None None (fun step => step)
             dollarMapPlaylist "http://cdn.example/v/index.m3u8" "/tmp/job"
           = Some (Downloaded "/tmp/job/playlist-local.m3u8" manifest 6, log)
        /\ In (MainTask, EvWrite "/tmp/job/maps/init_1.$'") log
        /\ splitLines manifest !! 2%nat
           = Some ("#EXT-X-MAP:URI=" +:+ dq +:+ "maps/init_1.,X=.jpg" +:+ dq
                     +:+ ",X=.jpg")
        /\ Sanitizer.choosePlaylistContent exampleResolve (fun u => None)
             (fun t => t) (fun v => v) dollarMapPlaylist
             "http://cdn.example/v/index.m3u8" None None
           = Ret dollarMapPlaylist).
Proof.
  split; [|split].
  - intros resolveUrl urlPathname network aborted concurrencyEnv retryEnv
      timeoutEnv schedule content baseUrl tempDir playlistPath manifest count
      log.
    unfold downloadHlsSegmentsParallel.
    destruct (planDownload _ _ _ _) as [st|]; [|discriminate].
    destruct (downloadEach _ _ _ _ _ []) as [[[[]|m1] l1]|]; try discriminate.
    destruct (downloadEach _ _ _ _ _ l1) as [[[[]|m2] l2]|]; try discriminate.
    destruct (downloadSegments _ _ _ _ _ _ _ _ l2) as [[[[]|m3] wp]|];
      try discriminate.
    intros [= <- <- <- <-]. exists st. auto.
  - vm_compute. do 3 eexists. split; [reflexivity|]. split; [reflexivity|].
    split; [reflexivity|]. split; [|split; reflexivity]. auto 30.
  - vm_compute. do 3 eexists. split; [reflexivity|]. split; [reflexivity|].
    split; [reflexivity|]. split; [|split; reflexivity]. auto 30.
Qed.

End PlanFacts.

(** ** Segment fetcher pool: when it declines *)

Module EngageFacts.
Import JS Platform Playlist Fetcher EngageTerms CommonTerms StringFacts.

Section Plan.

Variable resolveUrl : string -> string -> string.
Variable urlPathname : string -> option string.

Lemma planLine_step (baseUrl : string) (i : nat) (raw : string)
    (st st' : PlanState) :
  planLine resolveUrl urlPathname baseUrl i raw st = Some st' ->
  ((flagged st || triggers raw)%bool = true -> flagged st' = true)
  /\ List.length (segments st')
     = (List.length (segments st) + (if isUriLine raw then 1 else 0))%nat.
Proof.
  unfold planLine, triggers, foreignKeyLine, isUriLine, flagged.
  set (t := trim raw).
  destruct (isEmpty t) eqn:Hemp.
  { destruct t; [|discriminate]. intros [= <-]. cbn.
    rewrite !orb_false_r. split; [auto | lia]. }
  destruct (startsWith "#EXT-X-BYTERANGE" t) eqn:Hb.
  { rewrite (startsWith_first _ _ _ Hb). intros [= <-]. cbn. split; [auto | lia]. }
  destruct (startsWith "#EXT-X-PART" t) eqn:Hp.
  { rewrite (startsWith_first _ _ _ Hp). intros [= <-]. cbn.
    rewrite !orb_true_r. split; [auto | lia]. }
  destruct (startsWith "#EXT-X-PRELOAD-HINT" t) eqn:Hh.
  { rewrite (startsWith_first _ _ _ Hh). intros [= <-]. cbn.
    rewrite !orb_true_r. split; [auto | lia]. }
  cbn [orb].
  destruct (startsWith "#EXT-X-KEY" t) eqn:Hk.
  { rewrite (startsWith_first _ _ _ Hk). cbn [andb negb].
    destruct (negb (isEmpty _) && negb (String.eqb _ "identity"))%bool;
      [discriminate|].
    rewrite !orb_false_r.
    destruct (negb _ && negb _ && negb _)%bool; intros [= <-]; cbn;
      (split; [auto | lia]). }
  cbn [andb]. rewrite !orb_false_r.
  destruct (startsWith "#EXT-X-MAP" t) eqn:Hm.
  { rewrite (startsWith_first _ _ _ Hm). cbn [andb negb].
    destruct (negb (isEmpty _)); intros [= <-]; cbn; (split; [auto | lia]). }
  destruct (startsWith "#" t); intros [= <-]; cbn [segments hasByterange hasPartial negb andb].
  - split; [auto | lia].
  - split; [auto|]. rewrite length_app. cbn. lia.
Qed.

Lemma planLoop_step (baseUrl : string) (lines : list string) (i : nat)
    (st st' : PlanState) :
  planLoop resolveUrl urlPathname baseUrl lines i st = Some st' ->
  ((flagged st || existsb triggers lines)%bool = true -> flagged st' = true)
  /\ List.length (segments st')
     = (List.length (segments st) + List.length (List.filter isUriLine lines))%nat.
Proof.
  revert i st. induction lines as [|l rest IH]; intros i st; cbn [planLoop].
  - intros [= <-]. cbn. rewrite orb_false_r. split; [auto | lia].
  - destruct (planLine _ _ _ _ _ _) as [st1|] eqn:E; [|discriminate].
    intros H. apply planLine_step in E as [Ef Ec].
    apply IH in H as [Hf Hc]. split.
    + intros Ht. apply Hf. cbn [existsb] in Ht.
      destruct (flagged st1) eqn:F1; [reflexivity|]. cbn [orb].
      destruct (existsb triggers rest); [reflexivity|].
      rewrite orb_false_r in Ht. discriminate (Ef Ht).
    + rewrite Hc, Ec. cbn [List.filter].
      destruct (isUriLine l); cbn [List.length]; lia.
Qed.

(** Each of the conditions makes [planDownload] return nothing. *)
Lemma planDownload_declines (content baseUrl : string) :
  isVodPlaylist content = false
  \/ (countSegmentLines content < DEFAULT_SEGMENT_MIN_COUNT)%nat
  \/ existsb triggers (splitLines content) = true ->
  planDownload resolveUrl urlPathname content baseUrl = None.
Proof.
  intros H. unfold planDownload.
  destruct (isVodPlaylist content) eqn:Hvod; [|reflexivity].
  destruct (hasMediaSegments content); [|reflexivity]. cbn [negb orb].
  destruct (planLoop _ _ _ _ _ _) as [st|] eqn:E; [|reflexivity].
  apply planLoop_step in E as [Hf Hc].
  destruct H as [H|[H|H]]; [discriminate | |].
  - destruct (hasByterange st || hasPartial st)%bool; [reflexivity|].
    cbn in Hc. unfold countSegmentLines in H. rewrite <- Hc in H.
    apply Nat.ltb_lt in H. now rewrite H.
  - fold (flagged st). rewrite Hf; [reflexivity|].
    rewrite H. apply orb_true_r.
Qed.

End Plan.

Lemma existsb_triggers (content : string) :
  hasTag "#EXT-X-BYTERANGE" content = true
  \/ hasTag "#EXT-X-PART" content = true
  \/ hasTag "#EXT-X-PRELOAD-HINT" content = true
  \/ hasForeignKeyformat content = true ->
  existsb triggers (splitLines content) = true.
Proof.
  unfold hasTag, hasForeignKeyformat. rewrite !existsb_exists.
  intros [(l & Hl & H)|[(l & Hl & H)|[(l & Hl & H)|(l & Hl & H)]]];
    exists l; (split; [exact Hl|]); unfold triggers; rewrite H;
    rewrite ?orb_true_r; reflexivity.
Qed.

(** C5.  The parallel downloader returns no result, before any request or
    write, whenever the playlist has no end-of-list marker, has fewer than
    6 segment lines, has a [#EXT-X-BYTERANGE], [#EXT-X-PART] or
    [#EXT-X-PRELOAD-HINT] line (whatever the number of segments), or has
    an [#EXT-X-KEY] line whose KEYFORMAT is not identity.  The KEYFORMAT is
    read as the code reads it: trimmed of white space (the no-break space
    included), without its double quotes, in any letter case; an empty
    one counts as absent. *)
Theorem pool_declines
    (resolveUrl : string -> string -> string)
    (urlPathname : string -> option string)
    (network : Log -> string -> Outcome)
    (aborted : Log -> bool) (concurrencyEnv retryEnv timeoutEnv : option Z)
    (schedule : nat -> nat) (content baseUrl tempDir : string) :
  isVodPlaylist content = false
  \/ (countSegmentLines content < 6)%nat
  \/ hasTag "#EXT-X-BYTERANGE" content = true
  \/ hasTag "#EXT-X-PART" content = true
  \/ hasTag "#EXT-X-PRELOAD-HINT" content = true
  \/ hasForeignKeyformat content = true ->
  downloadHlsSegmentsParallel resolveUrl urlPathname network aborted
    concurrencyEnv retryEnv timeoutEnv schedule content baseUrl tempDir
  = Some (Declined, []).
Proof.
  intros H. unfold downloadHlsSegmentsParallel.
  rewrite planDownload_declines; [reflexivity|].
  destruct H as [H|[H|H]]; [auto | auto |].
  right. right. now apply existsb_triggers.
Qed.

(** A KEYFORMAT followed by a no-break space is the identity format. *)
Example keyformat_is_trimmed :
  foreignKeyLine noBreakKeyLine = false
  /\ attr (parseAttributeList noBreakKeyLine) "KEYFORMAT" = "identity".
Proof. vm_compute. split; reflexivity. Qed.

(** *** A VOD playlist of seven byte-range segments *)

Lemma pool_declines_witness :
  isVodPlaylist rangedPlaylist = true
  /\ countSegmentLines rangedPlaylist = 7%nat
  /\ hasTag "#EXT-X-BYTERANGE" rangedPlaylist = true
  /\ downloadHlsSegmentsParallel (fun line base => line) (fun u => None)
       (fun log u => Status 200 None) (fun log => false) None None None
       (fun step => step) rangedPlaylist "http://cdn.example/p.m3u8" "/tmp/job"
     = Some (Declined, []).
Proof.
  assert (hasTag "#EXT-X-BYTERANGE" rangedPlaylist = true) as Ht
    by (vm_compute; reflexivity).
  split; [vm_compute; reflexivity|].
  split; [vm_compute; reflexivity|].
  split; [exact Ht|].
  apply (pool_declines (fun line base => line) (fun u => None)
           (fun log u => Status 200 None) (fun log => false) None None None
           (fun step => step) rangedPlaylist "http://cdn.example/p.m3u8"
           "/tmp/job").
  right. right. left. exact Ht.
Defined.

End EngageFacts.

(** ** Playlist resolver: disguised segments *)

Module RepairFacts.
Import JS Platform Playlist RepairTerms CommonTerms StringFacts.

Section WithPlatform.

Variable resolveUrl : string -> string -> string.
Variable fetch : Request -> option Response.

Lemma filterLoop_plain (baseUrl : string) (hs rest filtered : list string)
    (removed : nat) :
  forallb isPlainTag hs = true ->
  filterLoop resolveUrl (hs ++ rest) baseUrl filtered [] removed
  = filterLoop resolveUrl rest baseUrl (filtered ++ hs) [] removed.
Proof.
  revert filtered. induction hs as [|h hs IH]; intros filtered H.
  - cbn [app]. now rewrite app_nil_r.
  - cbn [forallb] in H. apply andb_true_iff in H as [Hh Hhs].
    unfold isPlainTag, isSegmentTag in Hh.
    apply andb_true_iff in Hh as [Hh Hseg]. apply andb_true_iff in Hh as [Hne Hsharp].
    cbn [app filterLoop].
    apply negb_true_iff in Hne, Hseg. rewrite Hne, Hseg, Hsharp.
    rewrite IH by exact Hhs. cbn [app]. now rewrite <- app_assoc.
Qed.

Lemma filterLoop_entries (baseUrl : string) (es : list (string * string))
    (rest filtered : list string) (removed : nat) :
  forallb wellFormedEntry es = true ->
  filterLoop resolveUrl (concat (map entryLines es) ++ rest) baseUrl
    filtered [] removed
  = filterLoop resolveUrl rest baseUrl
      (filtered ++ concat (map entryLines (List.filter (validEntry resolveUrl baseUrl) es)))
      []
      (removed + List.length (List.filter (fun e => negb (validEntry resolveUrl baseUrl e)) es)).
Proof.
  revert filtered removed. induction es as [|[inf uri] es IH]; intros filtered removed H.
  - cbn. now rewrite app_nil_r, Nat.add_0_r.
  - cbn [forallb] in H. apply andb_true_iff in H as [He Hes].
    unfold wellFormedEntry, isUriLine in He. cbn [fst snd] in He.
    apply andb_true_iff in He as [Hinf Huri].
    apply andb_true_iff in Huri as [Hune Husharp].
    apply negb_true_iff in Hune, Husharp.
    cbn [map concat entryLines fst snd app filterLoop].
    rewrite (startsWith_nonempty _ _ _ Hinf), Hinf. cbn [orb app].
    rewrite Hune.
    assert (startsWith "#EXTINF" (trim uri) = false) as ->.
    { destruct (startsWith "#EXTINF" (trim uri)) eqn:E; [|reflexivity].
      apply startsWith_first in E. congruence. }
    assert (startsWith "#EXT-X-BYTERANGE" (trim uri) = false) as ->.
    { destruct (startsWith "#EXT-X-BYTERANGE" (trim uri)) eqn:E; [|reflexivity].
      apply startsWith_first in E. congruence. }
    cbn [orb]. rewrite Husharp.
    cbn [List.filter].
    destruct (validEntry resolveUrl baseUrl (inf, uri)) eqn:Hv;
      unfold validEntry, invalidLine in Hv; cbn [snd] in Hv;
      [apply negb_true_iff in Hv | apply negb_false_iff in Hv];
      rewrite Hv; cbn [negb].
    + rewrite IH by exact Hes. cbn [map concat entryLines fst snd app].
      rewrite <- !app_assoc. reflexivity.
    + rewrite IH by exact Hes. cbn [List.length]. f_equal. lia.
Qed.

(** On a playlist made of tag lines, [#EXTINF]/segment pairs and tag lines,
    the filter keeps the pairs whose segment is valid and drops the others
    whole. *)
Lemma filterLoop_pairs (baseUrl : string) (header footer : list string)
    (es : list (string * string)) :
  forallb isPlainTag header = true ->
  forallb wellFormedEntry es = true ->
  forallb isPlainTag footer = true ->
  filterLoop resolveUrl (header ++ concat (map entryLines es) ++ footer)
    baseUrl [] [] 0
  = (header ++ concat (map entryLines (List.filter (validEntry resolveUrl baseUrl) es))
       ++ footer,
     List.length (List.filter (fun e => negb (validEntry resolveUrl baseUrl e)) es)).
Proof.
  intros Hh He Hf.
  rewrite filterLoop_plain by exact Hh.
  rewrite filterLoop_entries by exact He.
  rewrite <- (app_nil_r footer) at 1.
  rewrite filterLoop_plain by exact Hf.
  cbn [filterLoop app Nat.add]. now rewrite <- !app_assoc.
Qed.

(** Whatever the shape of the playlist, no invalid segment line is kept. *)
Lemma filterLoop_keeps_valid (baseUrl : string) (lines filtered pending : list string)
    (removed : nat) :
  Forall (fun l => isUriLine l = true -> invalidLine resolveUrl baseUrl l = false) filtered ->
  Forall (fun l => isUriLine l = false) pending ->
  Forall (fun l => isUriLine l = true -> invalidLine resolveUrl baseUrl l = false)
    (fst (filterLoop resolveUrl lines baseUrl filtered pending removed)).
Proof.
  revert filtered pending removed.
  induction lines as [|l lines IH]; intros filtered pending removed Hf Hp;
    [exact Hf|].
  assert (Hpend : Forall (fun l => isUriLine l = true -> invalidLine resolveUrl baseUrl l = false)
                    pending).
  { eapply List.Forall_impl; [|exact Hp]. cbn. intros a Ha Hb. congruence. }
  cbn [filterLoop].
  destruct (isEmpty (trim l)) eqn:Hemp.
  { destruct pending; apply IH; auto.
    apply Forall_app. split; [exact Hf|]. constructor; [|constructor].
    unfold isUriLine. rewrite Hemp. discriminate. }
  destruct (startsWith "#EXTINF" (trim l) || startsWith "#EXT-X-BYTERANGE" (trim l))%bool
    eqn:Hseg.
  { apply IH; [exact Hf|]. apply Forall_app. split; [exact Hp|].
    constructor; [|constructor]. unfold isUriLine.
    apply orb_true_iff in Hseg as [E|E]; apply startsWith_first in E;
      rewrite E; apply andb_false_r. }
  destruct (startsWith "#" (trim l)) eqn:Hsharp.
  { apply IH; [|constructor]. apply Forall_app. split; [exact Hf|].
    apply Forall_app. split; [exact Hpend|]. constructor; [|constructor].
    unfold isUriLine. rewrite Hsharp. rewrite andb_false_r. discriminate. }
  destruct (hasInvalidExtension (resolveUrl (trim l) baseUrl)) eqn:Hinv.
  { apply IH; [exact Hf | constructor]. }
  apply IH; [|constructor]. apply Forall_app. split; [exact Hf|].
  apply Forall_app. split; [exact Hpend|]. constructor; [|constructor].
  intros _. exact Hinv.
Qed.

(** The permissive fallback. *)
Lemma repair_permissive (content url : string) :
  looksLikeM3U8 content = true ->
  collectInvalidSegmentCandidates resolveUrl content url <> [] ->
  hasEncryptionOrMap content = false ->
  areImageSegmentsMedia resolveUrl fetch content url = false ->
  tryRewriteImageSegments resolveUrl fetch content url = None ->
  repairPlaylist resolveUrl fetch content url
  = Ret {| contentToSanitize := content;
           allowImageSegments := true;
           allowEncryptedImageSegments := false |}.
Proof.
  intros Hm Hc He Ha Ht. unfold repairPlaylist.
  rewrite Hm, He, Ha, Ht. cbn [negb].
  destruct (collectInvalidSegmentCandidates resolveUrl content url);
    [contradiction|].
  reflexivity.
Qed.

(** When the filter runs. *)
Lemma repair_filters (content url seg : string) :
  looksLikeM3U8 content = true ->
  collectInvalidSegmentCandidates resolveUrl content url = [] ->
  findInvalidSegmentLine resolveUrl content url = Some seg ->
  isEmpty seg = false ->
  repairPlaylist resolveUrl fetch content url
  = let filtered := filterInvalidSegments resolveUrl content url in
    if (Nat.ltb 0 (flt_removed filtered)
        && hasMediaSegments (flt_content filtered))%bool
    then Ret {| contentToSanitize := flt_content filtered;
                allowImageSegments := false;
                allowEncryptedImageSegments := false |}
    else Throw ("Playlist contains non-media segment: " +:+ seg).
Proof.
  intros Hm Hc Hf Hs. unfold repairPlaylist.
  rewrite Hm, Hc. cbn [negb List.length Nat.ltb Nat.leb allowImageSegments
                       contentToSanitize allowEncryptedImageSegments].
  rewrite Hf, Hs. reflexivity.
Qed.

End WithPlatform.

(** C1 (amended).  When a playlist has image-extension segment lines, no
    key or init-map tag, a failed probe and no successful substitution, the
    resolver leaves the manifest as it is and allows image segments.  The
    filter runs when image segments are not allowed and an invalid segment
    line is found: the attempt goes on with the filtered manifest when
    something was removed and an [#EXTINF] is left, and fails with
    [Playlist contains non-media segment] otherwise.  The filter itself
    drops every invalid segment line, with its [#EXTINF], and keeps the
    valid pairs and the other tags in order. *)
Theorem disguised_segments_repair
    (resolveUrl : string -> string -> string)
    (fetch : Request -> option Response) :
  (forall content url,
      looksLikeM3U8 content = true ->
      collectInvalidSegmentCandidates resolveUrl content url <> [] ->
      hasEncryptionOrMap content = false ->
      areImageSegmentsMedia resolveUrl fetch content url = false ->
      tryRewriteImageSegments resolveUrl fetch content url = None ->
      repairPlaylist resolveUrl fetch content url
      = Ret {| contentToSanitize := content;
               allowImageSegments := true;
               allowEncryptedImageSegments := false |})
  /\ (forall content url seg,
        looksLikeM3U8 content = true ->
        collectInvalidSegmentCandidates resolveUrl content url = [] ->
        findInvalidSegmentLine resolveUrl content url = Some seg ->
        isEmpty seg = false ->
        repairPlaylist resolveUrl fetch content url
        = let filtered := filterInvalidSegments resolveUrl content url in
          if (Nat.ltb 0 (flt_removed filtered)
              && hasMediaSegments (flt_content filtered))%bool
          then Ret {| contentToSanitize := flt_content filtered;
                      allowImageSegments := false;
                      allowEncryptedImageSegments := false |}
          else Throw ("Playlist contains non-media segment: " +:+ seg))
  /\ (forall baseUrl header footer es,
        forallb isPlainTag header = true ->
        forallb wellFormedEntry es = true ->
        forallb isPlainTag footer = true ->
        filterLoop resolveUrl (header ++ concat (map entryLines es) ++ footer)
          baseUrl [] [] 0
        = (header
             ++ concat (map entryLines
                          (List.filter (validEntry resolveUrl baseUrl) es))
             ++ footer,
           List.length
             (List.filter (fun e => negb (validEntry resolveUrl baseUrl e)) es)))
  /\ (forall baseUrl lines,
        Forall (fun l => isUriLine l = true ->
                         invalidLine resolveUrl baseUrl l = false)
          (fst (filterLoop resolveUrl lines baseUrl [] [] 0)))
  /\ (forall content baseUrl,
        hasMediaSegments content = true ->
        filterInvalidSegments resolveUrl content baseUrl
        = {| flt_content :=
               join (String "010" "")
                 (fst (filterLoop resolveUrl (splitLines content) baseUrl [] [] 0));
             flt_removed :=
               snd (filterLoop resolveUrl (splitLines content) baseUrl [] [] 0) |}).
Proof.
  split; [|split; [|split; [|split]]].
  - intros. now apply repair_permissive.
  - intros. now apply repair_filters.
  - intros. now apply filterLoop_pairs.
  - intros. apply filterLoop_keeps_valid; constructor.
  - intros content baseUrl H. unfold filterInvalidSegments. rewrite H. cbn [negb].
    destruct (filterLoop _ _ _ _ _ _). reflexivity.
Qed.

(** *** Examples *)

(** C1, counterexample.  The playlist has an image-extension segment and
    no key or map tag, every probe fails and no substitution succeeds: the
    resolver returns the manifest unchanged, with the invalid line still in
    it, although the filter would have removed one line.  With only image
    segments the resolver reports no error either. *)
Lemma disguised_segments_counterexample :
  (looksLikeM3U8 mixedPlaylist = true
   /\ collectInvalidSegmentCandidates resolveAbsolute mixedPlaylist playlistUrl
      = [{| cand_ext := ".jpg";
            cand_resolved := "http://cdn.example/v/0001.jpg" |}]
   /\ hasEncryptionOrMap mixedPlaylist = false
   /\ areImageSegmentsMedia resolveAbsolute offline mixedPlaylist playlistUrl
      = false
   /\ tryRewriteImageSegments resolveAbsolute offline mixedPlaylist playlistUrl
      = None
   /\ repairPlaylist resolveAbsolute offline mixedPlaylist playlistUrl
      = Ret {| contentToSanitize := mixedPlaylist;
               allowImageSegments := true;
               allowEncryptedImageSegments := false |}
   /\ findInvalidSegmentLine resolveAbsolute mixedPlaylist playlistUrl
      = Some "http://cdn.example/v/0001.jpg"
   /\ flt_removed (filterInvalidSegments resolveAbsolute mixedPlaylist playlistUrl)
      = 1%nat)
  /\ (hasMediaSegments
        (flt_content
           (filterInvalidSegments resolveAbsolute imageOnlyPlaylist playlistUrl))
      = false
      /\ repairPlaylist resolveAbsolute offline imageOnlyPlaylist playlistUrl
         = Ret {| contentToSanitize := imageOnlyPlaylist;
                  allowImageSegments := true;
                  allowEncryptedImageSegments := false |}).
Proof. vm_compute. repeat split; reflexivity. Qed.

Lemma disguised_segments_repair_witness :
  repairPlaylist resolveAbsolute offline mixedPlaylist playlistUrl
  = Ret {| contentToSanitize := mixedPlaylist;
           allowImageSegments := true;
           allowEncryptedImageSegments := false |}
  /\ repairPlaylist resolveDroppingTabs offline tabbedPlaylist playlistUrl
     = Ret {| contentToSanitize :=
                join newline
                  ["#EXTM3U"; "#EXT-X-TARGETDURATION:10";
                   "#EXTINF:10.0,"; "http://cdn.example/v/0002.ts";
                   "#EXT-X-ENDLIST"];
              allowImageSegments := false;
              allowEncryptedImageSegments := false |}.
Proof.
  split.
  - refine (proj1 (disguised_segments_repair resolveAbsolute offline)
              mixedPlaylist playlistUrl eq_refl _ eq_refl _ _).
    + vm_compute. discriminate.
    + vm_compute. reflexivity.
    + vm_compute. reflexivity.
  - rewrite (proj1 (proj2 (disguised_segments_repair resolveDroppingTabs offline))
               tabbedPlaylist playlistUrl
               ("http://cdn.example/v/0001.j" +:+ String "009" "pg")
               eq_refl ltac:(vm_compute; reflexivity)
               ltac:(vm_compute; reflexivity) eq_refl).
    vm_compute. reflexivity.
Defined.

End RepairFacts.

(** ** Playlist resolver: master playlists *)

Module ResolveFacts.
Import JS Platform Playlist ResolveTerms CommonTerms.

(** *** The order of the variants *)

Lemma insertVariant_perm (v : Variant) (l : list Variant) :
  Permutation (v :: l) (insertVariant v l).
Proof.
  induction l as [|w l IH]; cbn [insertVariant]; [reflexivity|].
  destruct (bandwidth w <=? bandwidth v)%N; [reflexivity|].
  rewrite perm_swap. now constructor.
Qed.

Lemma sortVariants_perm (l : list Variant) : Permutation l (sortVariants l).
Proof.
  induction l as [|v l IH]; cbn [sortVariants]; [reflexivity|].
  rewrite <- insertVariant_perm. now constructor.
Qed.

Lemma insertVariant_sorted (v : Variant) (l : list Variant) :
  StronglySorted byBandwidthDescending l ->
  StronglySorted byBandwidthDescending (insertVariant v l).
Proof.
  induction 1 as [|w l Hs IH Hall]; cbn [insertVariant].
  - repeat constructor.
  - destruct (bandwidth w <=? bandwidth v)%N eqn:E.
    + apply N.leb_le in E. constructor; [now constructor|].
      constructor; [exact E|].
      eapply List.Forall_impl; [|exact Hall].
      unfold byBandwidthDescending. intros a Ha. lia.
    + apply N.leb_gt in E. constructor; [exact IH|].
      assert (Forall (byBandwidthDescending w) (v :: l)) as Hv
        by (constructor; [unfold byBandwidthDescending; lia | exact Hall]).
      rewrite List.Forall_forall in Hv |- *.
      intros x Hx. apply Hv.
      eapply Permutation_in; [symmetry; apply insertVariant_perm | exact Hx].
Qed.

(** The variants are tried from the largest parsed bandwidth down. *)
Lemma sortVariants_sorted (l : list Variant) :
  StronglySorted byBandwidthDescending (sortVariants l).
Proof.
  induction l as [|v l IH]; cbn [sortVariants]; [constructor|].
  now apply insertVariant_sorted.
Qed.

Section WithPlatform.

Variable resolveUrl : string -> string -> string.
Variable fetch : Request -> option Response.

(** A candidate that is returned was fetched from one of the variants and
    is classified as playable. *)
Lemma tryVariants_found (variants : list Variant) (visited : gset string)
    (fallback : option PlaylistResult) (candidate : PlaylistResult)
    (trace : list string) :
  tryVariants resolveUrl fetch variants visited fallback = (Found candidate, trace) ->
  isLikelyPlayableMediaPlaylist resolveUrl (pl_content candidate)
    (pl_url candidate) = true
  /\ exists v, In v variants /\ fetchPlaylist fetch (var_url v) = Ret candidate.
Proof.
  revert fallback trace. induction variants as [|v vs IH]; intros fallback trace;
    cbn [tryVariants]; [discriminate|].
  destruct (isEmpty (var_url v) || bool_decide (var_url v ∈ visited))%bool.
  { intros H. apply IH in H as (Hp & w & Hw & Hf). split; [exact Hp|].
    exists w. split; [now right | exact Hf]. }
  destruct (fetchPlaylist fetch (var_url v)) as [c|m] eqn:Ef; [|discriminate].
  destruct (isLikelyPlayableMediaPlaylist resolveUrl (pl_content c) (pl_url c))
    eqn:Ep.
  - intros [= <- <-]. split; [exact Ep|]. exists v. split; [now left | exact Ef].
  - destruct (tryVariants _ _ vs visited _) as [o t] eqn:Et.
    intros [= -> <-]. apply IH in Et as (Hp & w & Hw & Hf). split; [exact Hp|].
    exists w. split; [now right | exact Hf].
Qed.

(** Every level of the loop fetches at most one playlist per variant. *)
Lemma tryVariants_trace (variants : list Variant) (visited : gset string)
    (fallback : option PlaylistResult) :
  (List.length (snd (tryVariants resolveUrl fetch variants visited fallback))
   <= List.length variants)%nat.
Proof.
  revert fallback. induction variants as [|v vs IH]; intros fallback;
    cbn [tryVariants]; [cbn; lia|].
  destruct (isEmpty (var_url v) || bool_decide (var_url v ∈ visited))%bool.
  { specialize (IH fallback). cbn [List.length]. lia. }
  destruct (fetchPlaylist fetch (var_url v)) as [c|m]; [|cbn; lia].
  destruct (isLikelyPlayableMediaPlaylist resolveUrl (pl_content c) (pl_url c));
    [cbn; lia|].
  match goal with
  | |- context [tryVariants _ _ vs visited ?fb] =>
      specialize (IH fb); destruct (tryVariants resolveUrl fetch vs visited fb)
  end.
  cbn [snd List.length] in *. lia.
Qed.

End WithPlatform.

(** *** A master playlist with AVERAGE-BANDWIDTH in front *)

(** C4, at the failing input.  The BANDWIDTH attributes of the two variants
    are 2500000 and 1200000, as [parseAttributeList] reads them;
    [parseVariantStreams] takes 800000, the AVERAGE-BANDWIDTH, for the
    first; the resolver therefore fetches the 1200000 variant first and
    returns it, both variants being playable. *)
Theorem bandwidth_match_takes_average_bandwidth :
  Fetcher.attr (Fetcher.parseAttributeList highVariantLine) "BANDWIDTH" = "2500000"
  /\ Fetcher.attr (Fetcher.parseAttributeList lowVariantLine) "BANDWIDTH" = "1200000"
  /\ parseVariantStreams resolveAbsolute masterPlaylist masterUrl
     = [{| var_url := "http://cdn.example/hi/index.m3u8"; bandwidth := 800000 |};
        {| var_url := "http://cdn.example/lo/index.m3u8"; bandwidth := 1200000 |}]
  /\ resolveMediaPlaylist resolveAbsolute exampleSite masterUrl DEFAULT_MAX_DEPTH
     = (Ret {| pl_content := mediaPlaylist;
               pl_url := "http://cdn.example/lo/index.m3u8" |},
        [masterUrl; "http://cdn.example/lo/index.m3u8"])
  /\ isLikelyPlayableMediaPlaylist resolveAbsolute mediaPlaylist
       "http://cdn.example/hi/index.m3u8" = true.
Proof. vm_compute. repeat split; reflexivity. Qed.

(** *** A chain of master playlists *)

(** Three levels are followed and the fourth playlist is returned as it
    is. *)
Example depth_is_capped :
  snd (resolveMediaPlaylist resolveAbsolute endlessMasters "http://h/m"
         DEFAULT_MAX_DEPTH)
  = ["http://h/m"; "http://h/m/next"; "http://h/m/next/next";
     "http://h/m/next/next/next"].
Proof. vm_compute. reflexivity. Qed.

End ResolveFacts.

(** * Further properties *)

(** ** More on strings *)

Module TextFacts.
Import JS.
Export StringFacts.

Lemma take_drop (n : nat) (s : string) : take n s +:+ drop n s = s.
Proof.
  revert s. induction n as [|n IH]; intros [|c r]; try reflexivity.
  cbn [take drop]. change (String c (take n r) +:+ drop n r)
    with (String c (take n r +:+ drop n r)). now rewrite IH.
Qed.

Lemma startsWith_app (p s : string) : startsWith p (p +:+ s) = true.
Proof.
  induction p as [|a p IH]; [now destruct s|].
  change (String a p +:+ s) with (String a (p +:+ s)).
  cbn [startsWith]. now rewrite Ascii.eqb_refl.
Qed.

Lemma startsWith_app_l (p a b : string) :
  startsWith p a = true -> startsWith p (a +:+ b) = true.
Proof.
  revert a. induction p as [|x p IH]; intros [|y a]; cbn [startsWith];
    try discriminate; [now destruct b | now destruct (y :: nil) | ].
  change (String y a +:+ b) with (String y (a +:+ b)). cbn [startsWith].
  destruct (Ascii.eqb x y); [apply IH | discriminate].
Qed.

Lemma startsWith_iff (p s : string) :
  startsWith p s = true <-> exists r, s = p +:+ r.
Proof.
  split.
  - revert s. induction p as [|a p IH]; intros s H; [now exists s|].
    destruct s as [|b s]; [discriminate|]. cbn [startsWith] in H.
    destruct (Ascii.eqb_spec a b) as [->|]; [|discriminate].
    destruct (IH s H) as (r & ->). now exists r.
  - intros (r & ->). apply startsWith_app.
Qed.

Lemma includes_cons (sub : string) (c : ascii) (s : string) :
  includes sub s = true -> includes sub (String c s) = true.
Proof. intros H. cbn [includes]. rewrite H. now destruct (startsWith _ _). Qed.

Lemma includes_app_l (sub a b : string) :
  includes sub a = true -> includes sub (a +:+ b) = true.
Proof.
  induction a as [|x a IH].
  - cbn [includes]. destruct (startsWith sub "") eqn:E; [|discriminate].
    intros _. destruct sub; [|discriminate]. now destruct b.
  - cbn [includes]. change (String x a +:+ b) with (String x (a +:+ b)).
    destruct (startsWith sub (String x a)) eqn:E.
    + intros _. cbn [includes].
      change (String x (a +:+ b)) with (String x a +:+ b).
      now rewrite (startsWith_app_l _ _ b E).
    + intros H. apply includes_cons. now apply IH.
Qed.

Lemma includes_app_r (sub a b : string) :
  includes sub b = true -> includes sub (a +:+ b) = true.
Proof.
  intros H. induction a as [|x a IH]; [exact H|].
  change (String x a +:+ b) with (String x (a +:+ b)). now apply includes_cons.
Qed.

Lemma includes_tail (sub : string) (c : ascii) (s : string) :
  includes sub (String c s) = false -> includes sub s = false.
Proof. cbn [includes]. now destruct (startsWith _ _). Qed.

Lemma NoDup_snoc {A} (l : list A) (x : A) :
  List.NoDup l -> ~ In x l -> List.NoDup (l ++ [x]).
Proof.
  induction l as [|y l IH]; intros Hd Hn.
  - constructor; [intros [] | constructor].
  - apply List.NoDup_cons_iff in Hd as [Hy Hd]. cbn [app].
    constructor.
    + intros Hin. apply in_app_or in Hin as [Hin | [<- | []]]; [auto|].
      apply Hn. now left.
    + apply IH; [exact Hd|]. intros Hin. apply Hn. now right.
Qed.

Lemma hasChar_app (c : ascii) (a b : string) :
  hasChar c (a +:+ b) = (hasChar c a || hasChar c b)%bool.
Proof.
  induction a as [|x a IH]; [reflexivity|].
  change (String x a +:+ b) with (String x (a +:+ b)).
  cbn [hasChar]. now rewrite IH, orb_assoc.
Qed.

End TextFacts.

(** ** Decimal digits *)

Module DigitFacts.
Import JS QuotaRuns TextFacts.

Lemma digitsNat_zero (s : string) : digitsNat (String "0" s) = digitsNat s.
Proof.
  unfold digitsNat. cbn [NilEmpty.uint_of_string].
  destruct (NilEmpty.uint_of_string s) as [d|]; reflexivity.
Qed.

Lemma digitsNat_zeros (k : nat) (s : string) :
  digitsNat (Fetcher.zeros k +:+ s) = digitsNat s.
Proof.
  induction k as [|k IH]; [reflexivity|].
  cbn [Fetcher.zeros]. change (String "0" (Fetcher.zeros k) +:+ s)
    with (String "0" (Fetcher.zeros k +:+ s)).
  now rewrite digitsNat_zero.
Qed.

Lemma to_uint_not_nil (n : nat) : Nat.to_uint n <> Decimal.Nil.
Proof.
  intros E. pose proof (DecimalNat.Unsigned.to_of (Nat.to_uint n)) as H.
  rewrite DecimalNat.Unsigned.of_to in H. rewrite E in H. discriminate.
Qed.

Lemma digitsNat_natToString (n : nat) : digitsNat (natToString n) = Some n.
Proof.
  unfold digitsNat, natToString.
  pose proof (NilZero.usu (Nat.to_uint n) (to_uint_not_nil n)) as H.
  unfold NilZero.uint_of_string in H.
  destruct (NilZero.string_of_uint (Nat.to_uint n)) as [|a r] eqn:E;
    [discriminate|].
  rewrite H. cbn [option_map]. now rewrite DecimalNat.Unsigned.of_to.
Qed.

Lemma digitsNat_padStart0 (w n : nat) :
  digitsNat (Fetcher.padStart0 w (natToString n)) = Some n.
Proof. unfold Fetcher.padStart0. now rewrite digitsNat_zeros, digitsNat_natToString. Qed.

(** A run of digits holds neither a dash nor a colon. *)
Lemma digits_free (c : ascii) (s : string) :
  digitsNat s <> None -> Playlist.isDigit c = false -> hasChar c s = false.
Proof.
  intros Hs Hc. unfold digitsNat in Hs.
  induction s as [|a s IH]; [reflexivity|].
  cbn [NilEmpty.uint_of_string] in Hs. cbn [hasChar].
  destruct (NilEmpty.uint_of_string s) as [d|] eqn:E.
  - rewrite IH by discriminate. rewrite orb_false_r.
    destruct (Ascii.eqb_spec a c) as [->|]; [|reflexivity].
    exfalso. apply Hs.
    destruct c as [[] [] [] [] [] [] [] []]; try reflexivity; discriminate.
  - exfalso. apply Hs. now destruct a as [[] [] [] [] [] [] [] []].
Qed.

Lemma app_separator_inj (sep : ascii) (a a' r r' : string) :
  hasChar sep a = false -> hasChar sep a' = false ->
  a +:+ String sep r = a' +:+ String sep r' -> a = a' /\ r = r'.
Proof.
  revert a'. induction a as [|x a IH]; intros [|x' a'] Ha Ha' E.
  - injection E as E. now split.
  - injection E as E1 E2. subst x'. cbn [hasChar] in Ha'.
    now rewrite Ascii.eqb_refl in Ha'.
  - injection E as E1 E2. subst x. cbn [hasChar] in Ha.
    now rewrite Ascii.eqb_refl in Ha.
  - injection E as E1 E2. subst x'. cbn [hasChar] in Ha, Ha'.
    apply orb_false_elim in Ha as [_ Ha]. apply orb_false_elim in Ha' as [_ Ha'].
    destruct (IH a' Ha Ha' E2) as [-> ->]. now split.
Qed.

(** The same with the separator sought from the right. *)
Lemma app_separator_inj_r (sep : ascii) (a a' r r' : string) :
  hasChar sep r = false -> hasChar sep r' = false ->
  a +:+ String sep r = a' +:+ String sep r' -> a = a' /\ r = r'.
Proof.
  revert a'. induction a as [|x a IH]; intros [|x' a'] Hr Hr' E.
  - injection E as E. now split.
  - injection E as E1 E2. subst r.
    rewrite PlanFacts.hasChar_app_r in Hr; [discriminate|].
    cbn [hasChar]. now rewrite Ascii.eqb_refl.
  - injection E as E1 E2. subst r'.
    rewrite PlanFacts.hasChar_app_r in Hr'; [discriminate|].
    cbn [hasChar]. now rewrite Ascii.eqb_refl.
  - injection E as E1 E2. subst x'.
    destruct (IH a' Hr Hr' E2) as [-> ->]. now split.
Qed.

End DigitFacts.

(** ** Unsupported options read off the error text *)

Module DetectFacts.
Import JS Platform Playlist Driver DetectTerms TextFacts.

Lemma addOption_clean (l : list string) (captured : string) :
  cleanOptions l -> cleanOptions (addOption l captured).
Proof.
  intros [Hd Hc]. unfold addOption.
  set (o := trim (dropWhile _ captured)).
  destruct (isEmpty o) eqn:Ee; [now split|].
  destruct (includesStr o l) eqn:Ei; [now split|].
  assert (~ In o l) as Hn.
  { intros Hin. apply PlanFacts.includesStr_In in Hin. congruence. }
  split.
  - now apply NoDup_snoc.
  - intros x Hx. apply in_app_or in Hx as [Hx | [<- | []]]; [now apply Hc|].
    split; [exact Ee | apply trim_idem].
Qed.

Lemma fold_addOption_clean (captured : list string) (l : list string) :
  cleanOptions l -> cleanOptions (fold_left addOption captured l).
Proof.
  revert l. induction captured as [|c r IH]; intros l H; [exact H|].
  cbn [fold_left]. apply IH. now apply addOption_clean.
Qed.

Lemma lower_prefix (n : nat) (s p : string) :
  String.eqb (asciiLower (take n s)) p = true ->
  asciiLower s = p +:+ asciiLower (drop n s).
Proof.
  intros E. apply String.eqb_eq in E. subst p.
  rewrite <- asciiLower_app. now rewrite take_drop.
Qed.

(** Each of the three patterns only matches where the text reads
    [option], in some letter case. *)
Lemma matchUnrecognized_option (s : string) (m : string * string) :
  matchUnrecognized s = Some m -> includesCI "option" s = true.
Proof.
  unfold matchUnrecognized, includesCI.
  destruct (String.eqb _ _) eqn:E; [|discriminate]. intros _.
  rewrite (lower_prefix _ _ _ E). now apply includes_app_l.
Qed.

Lemma matchNotFound_option (s : string) (m : string * string) :
  matchNotFound s = Some m -> includesCI "option" s = true.
Proof.
  unfold matchNotFound, includesCI.
  destruct (String.eqb _ _) eqn:E; [|discriminate]. intros _.
  rewrite (lower_prefix _ _ _ E). now apply includes_app_l.
Qed.

Lemma matchUnknown_option (s : string) (m : string * string) :
  matchUnknown s = Some m -> includesCI "option" s = true.
Proof.
  unfold matchUnknown, includesCI.
  destruct (String.eqb _ _) eqn:E; [|discriminate]. intros _.
  rewrite (lower_prefix _ _ _ E). now apply includes_app_l.
Qed.

Lemma execAll_none (pattern : string -> option (string * string)) :
  (forall s m, pattern s = Some m -> includesCI "option" s = true) ->
  forall fuel s, includesCI "option" s = false -> execAll fuel pattern s = [].
Proof.
  intros Hp fuel. induction fuel as [|fuel IH]; intros s Hs; [reflexivity|].
  cbn [execAll]. destruct (pattern s) as [[c r]|] eqn:E.
  - apply Hp in E. congruence.
  - destruct s as [|a s]; [reflexivity|]. apply IH.
    unfold includesCI in *. cbn [asciiLower] in Hs.
    now apply includes_tail in Hs.
Qed.

Lemma detect_none (stderr : string) :
  includesCI "option" stderr = false -> detectUnsupportedFfmpegOptions stderr = [].
Proof.
  intros H. unfold detectUnsupportedFfmpegOptions.
  rewrite (execAll_none _ matchUnrecognized_option _ _ H).
  rewrite (execAll_none _ matchNotFound_option _ _ H).
  rewrite (execAll_none _ matchUnknown_option _ _ H).
  reflexivity.
Qed.

(** X1.  The options [detectUnsupportedFfmpegOptions] reports are pairwise
    different, none is empty and none has white space around it, whatever
    the error text. *)
Theorem detected_options_are_clean (stderr : string) :
  List.NoDup (detectUnsupportedFfmpegOptions stderr)
  /\ forall o, In o (detectUnsupportedFfmpegOptions stderr) ->
       isEmpty o = false /\ trim o = o.
Proof.
  apply fold_addOption_clean. split; [constructor | intros o []].
Qed.

(** X2.  When the error text of the first run does not read [option] in
    any letter case, no unsupported option is detected and the narrowing
    loop makes no retry: the first run is the only one, whatever its exit. *)
Theorem no_option_named_no_retry
    (isHls : bool) (headerArgs : list string) (inputUrl outputPath : string)
    (transcoder : list (list string) -> list string -> ProcessRun) :
  let args := buildArgs isHls headerArgs inputUrl outputPath
                (initialOptionState isHls headerArgs) in
  includesCI "option" (stderrOutput (transcoder [] args)) = false ->
  detectUnsupportedFfmpegOptions (stderrOutput (transcoder [] args)) = []
  /\ runWithNarrowing isHls headerArgs inputUrl outputPath transcoder
     = (finalize (transcoder [] args), [args]).
Proof.
  intros args H. split; [now apply detect_none|].
  unfold runWithNarrowing, runFfmpeg. fold args.
  unfold MAX_NARROWING_RETRIES. cbn [narrowLoop].
  destruct (fr_ok (finalize (transcoder [] args))) eqn:Eok; [reflexivity|].
  assert (default [] (fr_unsupportedOptions (finalize (transcoder [] args))) = [])
    as ->; [|reflexivity].
  unfold finalize. destruct (exit (transcoder [] args)) as [m | code killed].
  - cbn. now apply detect_none.
  - destruct killed; [reflexivity|].
    destruct (bool_decide (code = Some 0)); [reflexivity|].
    cbn. now apply detect_none.
Qed.

Lemma no_option_named_no_retry_witness :
  runWithNarrowing true [] "in.m3u8" "out.mp4" refusedTranscoder
  = (finalize (refusedTranscoder [] []),
     [buildArgs true [] "in.m3u8" "out.mp4" (initialOptionState true [])]).
Proof.
  refine (proj2 (no_option_named_no_retry true [] "in.m3u8" "out.mp4"
                   refusedTranscoder _)).
  vm_compute. reflexivity.
Defined.

End DetectFacts.

(** ** Transcode driver: argument narrowing *)

Module NarrowingFacts.
Import JS Platform Playlist Driver NarrowingTerms TextFacts.



Section Loop.

Variable isHls : bool.
Variable headerArgs : list string.
Variable inputUrl outputPath : string.
Variable transcoder : list (list string) -> list string -> ProcessRun.



End Loop.







Lemma take_all (n : nat) (s : string) :
  (String.length s <= n)%nat -> take n s = s.
Proof.
  revert s. induction n as [|n IH]; intros [|c r] H; try reflexivity.
  - cbn in H. lia.
  - cbn [take]. rewrite IH; [reflexivity | cbn in H; lia].
Qed.




Lemma length_take (n : nat) (s : string) :
  String.length (take n s) = Nat.min n (String.length s).
Proof.
  revert s. induction n as [|n IH]; intros [|c r]; try reflexivity.
  cbn [take String.length]. now rewrite IH.
Qed.

Lemma append_inj_length (a b c d : string) :
  String.length a = String.length c -> a +:+ b = c +:+ d -> a = c /\ b = d.
Proof.
  revert c. induction a as [|x a IH]; intros [|y c] Hl E; try discriminate.
  - auto.
  - rewrite !append_cons in E. injection E as -> E.
    destruct (IH c) as [-> ->]; auto.
Qed.

Lemma includes_start (sub s : string) :
  startsWith sub s = true -> includes sub s = true.
Proof. intros H. destruct s; cbn [includes]; now rewrite H. Qed.

Lemma includes_middle (sub a b : string) : includes sub (a +:+ sub +:+ b) = true.
Proof. apply includes_app_r, includes_start, startsWith_app. Qed.




(** *** The three patterns on a message *)









(** *** Scanning *)





(** *** The set of options *)

















Section FirstRun.

Variable isHls : bool.
Variable headerArgs : list string.
Variable inputUrl outputPath : string.
Variable transcoder : list (list string) -> list string -> ProcessRun.


End FirstRun.


(** *** A transcoder that rejects one group after the other *)

(** Three retries are made and the fourth rejection is final, although a
    run without the header group would have succeeded. *)
Example narrowing_gives_up_after_three :
  let '(result, calls) :=
    runWithNarrowing true ["-headers"; "User-Agent: x"] "in.m3u8" "out.mp4"
      pickyTranscoder in
  fr_ok result = false /\ List.length calls = 4%nat
  /\ fr_unsupportedOptions result = Some ["headers"].
Proof. vm_compute. repeat split; reflexivity. Qed.


End NarrowingFacts.

(** ** Quota counters *)

Module QuotaRunFacts.
Import JS Platform Db Quota Calendar QuotaRuns QuotaTerms QuotaFacts TextFacts DigitFacts.

Lemma secondsUntilNextDay_positive (ms : Z) : 0 < secondsUntilNextDay ms.
Proof. unfold secondsUntilNextDay. lia. Qed.

Lemma consumeTimes_state (u d : string) (ttl limit : Z) (c0 : Cache) :
  online c0 = true -> 0 < ttl -> counter c0 u d = 0 ->
  forall n,
    online (consumeTimes n u limit d ttl c0) = true
    /\ counter (consumeTimes n u limit d ttl c0) u d
       = Z.min (Z.of_nat n) (Z.max 0 limit).
Proof.
  intros Hon Httl H0 n. induction n as [|n [IHon IHc]].
  - cbn [consumeTimes]. split; [exact Hon|]. rewrite H0. lia.
  - cbn [consumeTimes]. set (c := consumeTimes n u limit d ttl c0) in *.
    destruct (Z.lt_ge_cases (counter c u d) limit) as [Hlt | Hge].
    + destruct (consume_allowed u d ttl limit c IHon Httl Hlt) as (c' & E & Hon' & Hc').
      rewrite E. cbn [snd]. split; [exact Hon'|]. rewrite Hc', IHc. lia.
    + rewrite (consume_denied u d ttl limit c IHon Hge). cbn [snd].
      split; [exact IHon|]. rewrite IHc in *. lia.
Qed.

(** X3.  For any daily limit: starting from a counter of 0, after [n]
    consuming calls the counter is the smaller of [n] and the limit, the
    next consuming call is allowed exactly when [n] is below the limit, and
    it then reports [limit - n - 1] downloads remaining.  The time to live
    is the one [secondsUntilNextDay] computes, the key the one
    [formatDateKey] gives. *)
Theorem quota_allows_exactly_the_limit
    (u : string) (date : LocalDate) (ms limit : Z) (c0 : Cache) (n : nat) :
  online c0 = true -> counter c0 u (formatDateKey date) = 0 ->
  let d := formatDateKey date in
  let ttl := secondsUntilNextDay ms in
  let c := consumeTimes n u limit d ttl c0 in
  let next := fst (checkAndConsumeQuota u true limit false d ttl c) in
  counter c u d = Z.min (Z.of_nat n) (Z.max 0 limit)
  /\ allowed next = (Z.of_nat n <? limit)
  /\ (Z.of_nat n < limit -> remaining next = Some (limit - Z.of_nat n - 1)).
Proof.
  intros Hon H0 d ttl c next.
  destruct (consumeTimes_state u d ttl limit c0 Hon
              (secondsUntilNextDay_positive ms) H0 n) as [Hc Hcount].
  fold c in Hc, Hcount. split; [exact Hcount|].
  destruct (Z.ltb_spec (Z.of_nat n) limit) as [Hlt | Hge].
  - assert (counter c u d < limit) as Hlt' by lia.
    destruct (consume_allowed u d ttl limit c Hc
                (secondsUntilNextDay_positive ms) Hlt') as (c' & E & _ & _).
    subst next. rewrite E. cbn [fst allowed remaining].
    split; [reflexivity|]. intros _. f_equal. lia.
  - assert (limit <= counter c u d) as Hge'.
    { rewrite Hcount. pose proof (Nat2Z.is_nonneg n). lia. }
    subst next. rewrite (consume_denied u d ttl limit c Hc Hge').
    split; [reflexivity | lia].
Qed.

Lemma quota_allows_exactly_the_limit_witness :
  let d := formatDateKey newYearsDay in
  let c := consumeTimes 5 "alice" 5 d (secondsUntilNextDay 1500) freshCache in
  counter c "alice" d = 5
  /\ allowed (fst (checkAndConsumeQuota "alice" true 5 false d
                     (secondsUntilNextDay 1500) c)) = false.
Proof.
  pose proof (quota_allows_exactly_the_limit "alice" newYearsDay 1500 5
                freshCache 5 eq_refl eq_refl) as (H1 & H2 & _).
  split; [exact H1 | exact H2].
Defined.

(** The counter of any user and day is read off the entry of its key. *)
Lemma counter_insert_other (c : Cache) (key : string) (v : CacheValue) (e : Z)
    (u d : string) :
  key <> quotaKey u d ->
  counter {| now := now c; entries := <[key := (v, e)]> (entries c);
             online := online c |} u d
  = counter c u d.
Proof.
  intros Hne. unfold counter, getCache. cbn [online entries now].
  now rewrite lookup_insert_ne.
Qed.

(** X4.  Refunding a consuming call gives back what the call took: with the
    cache reachable, after [checkAndConsumeQuota] (consuming) followed by
    [refundQuota] on its result, every counter, of any user and day, has the
    value it had before, whether the call was allowed, denied, or made with
    the limit switched off. *)
Theorem refund_undoes_consumption
    (u : string) (date : LocalDate) (ms limit : Z) (enabled : bool) (c : Cache)
    (u' d' : string) :
  online c = true ->
  let d := formatDateKey date in
  let ttl := secondsUntilNextDay ms in
  let r := checkAndConsumeQuota u enabled limit false d ttl c in
  counter (refundQuota enabled (fst r) (snd r)) u' d' = counter c u' d'.
Proof.
  intros Hon d ttl r. pose proof (secondsUntilNextDay_positive ms) as Httl.
  fold ttl in Httl.
  assert (r = checkAndConsumeQuota u enabled limit false d ttl c) as Er
    by reflexivity.
  clearbody r. unfold checkAndConsumeQuota in Er.
  destruct enabled; cbn [negb] in Er; [|subst r; reflexivity].
  destruct (limit <=? 0) eqn:El; [subst r; reflexivity|].
  destruct (getCache_online c (quotaKey u d) Hon) as (raw & Hget).
  pose proof (counter_online c u d raw Hget) as Hcount.
  rewrite Hget in Er.
  destruct (limit <=? currentCountOf raw) eqn:Ec; [subst r; reflexivity|].
  unfold setCache in Er. rewrite Hon in Er. cbn [negb] in Er.
  subst r. cbn [fst snd].
  unfold refundQuota. cbn [cacheKey expireSeconds negb orb].
  rewrite quotaKey_nonempty. cbn [orb].
  destruct (Z.eqb_spec ttl 0) as [E0|_]; [lia|].
  set (c1 := {| now := now c;
                entries := <[quotaKey u d := (VNumber (currentCountOf raw + 1),
                                               now c + ttl)]> (entries c);
                online := true |}).
  assert (getCache c1 (quotaKey u d) = Ret (Some (VNumber (currentCountOf raw + 1))))
    as Hget1.
  { unfold getCache, c1. cbn [online entries now negb]. rewrite lookup_insert_eq.
    cbn. destruct (Z.ltb_spec (now c) (now c + ttl)); [reflexivity | lia]. }
  rewrite Hget1. pose proof (currentCountOf_nonneg raw) as Hnn.
  cbn [currentCountOf].
  replace (Z.max 0 (currentCountOf raw + 1)) with (currentCountOf raw + 1) by lia.
  destruct (Z.ltb_spec 0 (currentCountOf raw + 1)) as [_|]; [|lia].
  unfold setCache, c1. cbn [online now entries negb].
  rewrite insert_insert_eq.
  replace (currentCountOf raw + 1 - 1) with (currentCountOf raw) by lia.
  destruct (String.eqb_spec (quotaKey u d) (quotaKey u' d')) as [E | Hne].
  - unfold counter at 1. unfold getCache at 1. cbn [online entries now negb].
    rewrite E, lookup_insert_eq.
    destruct (Z.ltb_spec (now c) (now c + ttl)); [|lia].
    unfold counter. rewrite <- E, Hget. cbn. lia.
  - rewrite <- (counter_insert_other c (quotaKey u d)
                  (VNumber (currentCountOf raw)) (now c + ttl) u' d' Hne).
    now rewrite Hon.
Qed.

Lemma refund_undoes_consumption_witness :
  let d := formatDateKey newYearsDay in
  let r := checkAndConsumeQuota "alice" true 3 false d
             (secondsUntilNextDay 1500) freshCache in
  counter (refundQuota true (fst r) (snd r)) "alice" d = 0.
Proof.
  exact (refund_undoes_consumption "alice" newYearsDay 1500 3 true freshCache
           "alice" (formatDateKey newYearsDay) eq_refl).
Defined.

(** *** Keys *)

Lemma formatDateKey_free (c : ascii) (date : LocalDate) :
  Playlist.isDigit c = false -> Ascii.eqb "-" c = false ->
  hasChar c (formatDateKey date) = false.
Proof.
  intros Hd Hc. unfold formatDateKey.
  rewrite !hasChar_app. cbn [hasChar]. rewrite Hc. cbn [orb].
  rewrite !(digits_free c) by
    (rewrite ?digitsNat_padStart0, ?digitsNat_natToString; discriminate || exact Hd).
  reflexivity.
Qed.

Lemma formatDateKey_inj (d1 d2 : LocalDate) :
  formatDateKey d1 = formatDateKey d2 -> d1 = d2.
Proof.
  unfold formatDateKey. intros E.
  change (?a +:+ "-" +:+ ?b) with (a +:+ String "-" b) in E.
  assert (forall n, hasChar "-" (natToString n) = false) as Hn
    by (intros n; apply digits_free; [rewrite digitsNat_natToString; discriminate
                                     | reflexivity]).
  assert (forall n, hasChar "-" (Fetcher.padStart0 2 (natToString n)) = false) as Hp
    by (intros n; apply digits_free; [rewrite digitsNat_padStart0; discriminate
                                     | reflexivity]).
  apply app_separator_inj in E as [Ey E]; [|apply Hn..].
  change (?a +:+ "-" +:+ ?b) with (a +:+ String "-" b) in E.
  apply app_separator_inj in E as [Em Ed]; [|apply Hp..].
  apply (f_equal digitsNat) in Ey, Em, Ed.
  rewrite !digitsNat_natToString in Ey. rewrite !digitsNat_padStart0 in Em, Ed.
  destruct d1 as [y1 m1 a1], d2 as [y2 m2 a2]. cbn in *.
  injection Ey as ->. injection Ed as ->. injection Em as Em.
  f_equal. lia.
Qed.

(** X5.  Quota counters are kept apart: the cache keys of two different
    pairs of a user name and a local calendar day are different, whatever
    characters the user names hold. *)
Theorem quota_keys_are_separate (u1 u2 : string) (d1 d2 : LocalDate) :
  quotaKey u1 (formatDateKey d1) = quotaKey u2 (formatDateKey d2) ->
  u1 = u2 /\ d1 = d2.
Proof.
  unfold quotaKey. intros E.
  apply (f_equal (JS.drop 15)) in E. cbn [JS.drop String.append] in E.
  change (?a +:+ ":" +:+ ?b) with (a +:+ String ":" b) in E.
  apply app_separator_inj_r in E as [Eu Ed];
    [| apply formatDateKey_free; reflexivity..].
  split; [exact Eu | now apply formatDateKey_inj].
Qed.

Lemma quota_keys_are_separate_witness :
  "alice" = "alice" /\ newYearsDay = newYearsDay.
Proof.
  exact (quota_keys_are_separate "alice" "alice" newYearsDay newYearsDay eq_refl).
Defined.

End QuotaRunFacts.

(** ** The proxy gateway and its tokens *)

Module GatewayMoreFacts.
Import JS Platform Parser Db Playlist Gateway GatewayTerms Core CoreTerms TextFacts.

Lemma isPrivate172_spec (lower : string) :
  isPrivate172 lower = true
  <-> exists n r, (16 <= n <= 31)%nat
                  /\ lower = "172." +:+ natToString n +:+ "." +:+ r.
Proof.
  unfold isPrivate172. rewrite existsb_exists. split.
  - intros (p & Hp & Hs). apply startsWith_iff in Hs as (r & ->).
    cbn [In] in Hp.
    repeat (destruct Hp as [<- | Hp];
            [match goal with
             | |- context [String "1" (String "7" (String "2" (String "."
                             (String ?a (String ?b _)))))] =>
                 exists (Nat.of_uint
                           (default Decimal.Nil
                              (NilEmpty.uint_of_string (String a (String b "")))))
             end; exists r; split; [cbn; lia | reflexivity] |]).
    contradiction.
  - intros (n & r & Hn & ->).
    assert (In n (seq 16 16)) as Hin by (apply in_seq; lia).
    cbn [seq In] in Hin.
    repeat (destruct Hin as [<- | Hin];
            [match goal with
             | |- context [natToString ?k] =>
                 exists (("172." +:+ natToString k) +:+ ".")
             end; split; [vm_compute; tauto | vm_compute; reflexivity] |]).
    contradiction.
Qed.

Lemma isPrivateHost_spec (host : string) :
  Gateway.isPrivateHost host = true <-> privateForm (toLowerCase host).
Proof.
  unfold Gateway.isPrivateHost, privateForm.
  rewrite !orb_true_iff, !String.eqb_eq, !startsWith_iff, isPrivate172_spec.
  tauto.
Qed.

(** The download route and the gateway apply the same rule. *)
Lemma isPrivateHost_same (host : string) :
  Core.isPrivateHost host = Gateway.isPrivateHost host.
Proof. reflexivity. Qed.

Lemma blockedForm_private (lower : string) :
  blockedForm lower -> privateForm lower.
Proof. unfold blockedForm, privateForm. tauto. Qed.

(** A host name in brackets, which is how a URL reports an IPv6 address, is
    not one the rule names. *)
Lemma bracketed_not_private (host : string) :
  startsWith "[" host = true -> Gateway.isPrivateHost host = false.
Proof.
  intros H. apply startsWith_iff in H. destruct H as (r & ->).
  change ("[" +:+ r) with (String "[" r).
  unfold Gateway.isPrivateHost, isPrivate172.
  rewrite toLowerCase_cons by (vm_compute; reflexivity).
  reflexivity.
Qed.

#[local] Arguments includesStr : simpl never.
#[local] Arguments Gateway.isPrivateHost : simpl never.
#[local] Arguments hasImageExtension : simpl never.
#[local] Arguments toLowerCase : simpl never.
#[local] Arguments split : simpl never.
#[local] Arguments head : simpl never.
#[local] Arguments startsWith : simpl never.

(** X6.  With a valid token, a target whose host name, as the parsed URL
    reports it, is [localhost] or starts with [127.], [0.], [10.],
    [192.168.] or [172.16.] to [172.31.] (in any letter case), and which is
    not the host the request itself names, is answered 403 [Blocked host],
    whatever the upstream would say.  The rule does not reach IPv6: a host
    name in brackets, such as [[::1]], always passes it. *)
Theorem gateway_blocks_private_targets
    (parseURL : string -> string -> option URL)
    (base64urlDecode : string -> string)
    (upstream : string -> list (string * string) -> Upstream)
    (request : GatewayRequest) (cache : Cache) :
  (forall token v target,
     namesTarget request = true ->
     param_token request = Some token -> isEmpty token = false ->
     getCache cache (tokenKey token) = Ret (Some v) ->
     truthyValue (Some v) = true ->
     targetOf parseURL base64urlDecode request = Some target ->
     includesStr (protocol target) ["http:"; "https:"] = true ->
     blockedForm (toLowerCase (hostname target)) ->
     foreignHost request target ->
     GET parseURL base64urlDecode upstream request cache
     = Ret (jsonError "Blocked host" 403))
  /\ (forall target,
        startsWith "[" (hostname target) = true ->
        hostAllowed request target = true).
Proof.
  split.
  - unfold namesTarget, targetOf, foreignHost, GET.
    intros token v target Hn Ht He Hg Hv Htarget Hp Hpriv Hf.
    apply negb_true_iff in Hn. rewrite Hn, Ht. simpl.
    rewrite He, Hg, Hv. simpl. rewrite Htarget, Hp. simpl.
    apply blockedForm_private, isPrivateHost_spec in Hpriv.
    rewrite Hpriv. simpl.
    rewrite bool_decide_eq_false_2; [reflexivity|].
    destruct (header_host request) as [h|]; [|discriminate].
    intros [= E]. now apply Hf.
  - intros target H. unfold hostAllowed.
    now rewrite (bracketed_not_private _ H).
Qed.

Lemma gateway_blocks_private_targets_witness :
  GET routerParseURL (fun s => s) exampleUpstream
      (requestFor routerUrl "t1") tokenCache
  = Ret (jsonError "Blocked host" 403)
  /\ hostAllowed (requestFor loopbackUrl "t1")
       {| protocol := "http:"; hostname := "[::1]";
          pathname := "/seg/0001.ts"; href := loopbackUrl |} = true.
Proof.
  split.
  - refine (proj1 (gateway_blocks_private_targets routerParseURL (fun s => s)
              exampleUpstream (requestFor routerUrl "t1") tokenCache) "t1"
              (VToken plainContext)
              {| protocol := "http:"; hostname := "192.168.1.1";
                 pathname := "/seg/0001.ts"; href := routerUrl |}
              eq_refl eq_refl eq_refl _ eq_refl eq_refl eq_refl _ _).
    + vm_compute. reflexivity.
    + right. right. right. right. right. exists "1.1". reflexivity.
    + vm_compute. discriminate.
  - exact (proj2 (gateway_blocks_private_targets routerParseURL (fun s => s)
             exampleUpstream (requestFor loopbackUrl "t1") tokenCache)
             {| protocol := "http:"; hostname := "[::1]";
                pathname := "/seg/0001.ts"; href := loopbackUrl |} eq_refl).
Defined.

(** X7.  What the gateway relays is never a page, a JSON document or an
    image: every answer is either one the gateway writes itself (a JSON
    error or a plain-text message) or a relayed body whose content type, if
    it has one, starts with neither [text/html], [application/json] nor
    [image/] in any letter case. *)
Theorem gateway_relays_only_media_types
    (parseURL : string -> string -> option URL)
    (base64urlDecode : string -> string)
    (upstream : string -> list (string * string) -> Upstream)
    (request : GatewayRequest) (cache : Cache) (resp : GatewayResponse) :
  GET parseURL base64urlDecode upstream request cache = Ret resp ->
  ownAnswer resp
  \/ forall contentType, g_contentType resp = Some contentType ->
       mediaType contentType.
Proof.
  unfold GET, ownAnswer, unexpectedContentType.
  repeat match goal with
         | |- Ret _ = Ret _ -> _ =>
             intros [= <-]; try (left; eexists; eexists; (left + right); reflexivity)
         | |- Throw _ = Ret _ -> _ => discriminate
         | |- context [match getCache ?c ?k with _ => _ end] =>
             destruct (getCache c k) as [tokenValue|]
         | |- context [match parseURL ?a ?b with _ => _ end] =>
             destruct (parseURL a b) as [targetUrl|]
         | |- context [if ?b then _ else _] =>
             lazymatch b with
             | context [if _ then _ else _] => fail
             | (startsWith "text/html" _ || startsWith "application/json" _)%bool =>
                 destruct b eqn:Etext
             | startsWith "image/" _ => destruct b eqn:Eimage
             | _ => destruct b
             end
         end.
  all: right; cbn [g_contentType]; intros ct Hct; try discriminate.
  all: injection Hct as <-.
  all: first
         [ split; [|split]; reflexivity
         | apply orb_false_elim in Etext as [E1 E2];
           split; [exact E1 | split; [exact E2 | exact Eimage]] ].
Qed.

Lemma gateway_relays_only_media_types_witness :
  ownAnswer {| g_status := 200; g_contentType := Some "video/mp2t";
               g_body := "G" |}
  \/ forall contentType, Some "video/mp2t" = Some contentType ->
        mediaType contentType.
Proof.
  refine (gateway_relays_only_media_types tsParseURL (fun s => s) tsUpstream
            (requestFor tsUrl "t1") tokenCache
            {| g_status := 200; g_contentType := Some "video/mp2t";
               g_body := "G" |} _).
  vm_compute. reflexivity.
Defined.



(** X9.  The gateway speaks for the core.  Under a token the core stored
    (with or without the image permission), a request whose target parses
    makes at most one upstream request, to the target's address, and that
    request carries every non-empty header the core sends on its own
    requests (User-Agent, Referer, Origin, Cookie, Authorization) next to
    [Accept-Encoding: identity]: the answer is the same for any two
    upstreams that agree on this one request. *)
Theorem gateway_forwards_core_headers
    (parseURL : string -> string -> option URL)
    (base64urlDecode : string -> string)
    (upstream : string -> list (string * string) -> Upstream)
    (request : GatewayRequest) (cache : Cache) (token username : string)
    (fh : ForwardHeaders) (ctx : TokenContext) (target : URL) :
  param_token request = Some token -> isEmpty token = false ->
  getCache cache (tokenKey token) = Ret (Some (VToken ctx)) ->
  (ctx = tokenContext username fh
   \/ exists enc, ctx = imageTokenContext username fh enc) ->
  targetOf parseURL base64urlDecode request = Some target ->
  exists hs,
    (forall name value,
        In (name, value) (requestHeaders fh) -> isEmpty value = false ->
        In (name, value) hs)
    /\ In ("Accept-Encoding", "identity") hs
    /\ forall upstream',
         upstream' (href target) hs = upstream (href target) hs ->
         GET parseURL base64urlDecode upstream' request cache
         = GET parseURL base64urlDecode upstream request cache.
Proof.
  intros Ht He Hg Hctx Htarget.
  set (hs :=
         [("User-Agent", orElse (userAgent fh) Gateway.DEFAULT_USER_AGENT);
          ("Accept", "*/*"); ("Accept-Encoding", "identity");
          ("Connection", "keep-alive")]
           ++ whenSet (referer fh) (fun v => ("Referer", v))
           ++ whenSet (origin fh) (fun v => ("Origin", v))
           ++ whenSet (cookie fh) (fun v => ("Cookie", v))
           ++ whenSet (authorization fh) (fun v => ("Authorization", v))
           ++ (if falsy (header_range request) then []
               else [("Range", default "" (header_range request))])).
  exists hs. split; [|split].
  - intros name value Hin Hv. unfold requestHeaders in Hin. subst hs.
    apply in_app_or in Hin as [[E | []] | Hin].
    + injection E as <- <-. left. unfold orElse. now rewrite Hv.
    + right. right. right. right. cbn [app]. apply in_or_app.
      apply in_app_or in Hin as [Hin | Hin]; [now left | right].
      apply in_or_app. apply in_app_or in Hin as [Hin | Hin]; [now left | right].
      apply in_or_app. apply in_app_or in Hin as [Hin | Hin]; [now left | right].
      apply in_or_app. now left.
  - subst hs. right. right. now left.
  - intros upstream' Hsame. unfold targetOf in Htarget. unfold GET.
    destruct (falsy (param_u request) && falsy (param_url request))%bool;
      [reflexivity|].
    rewrite Ht. cbn [falsy from_option id]. rewrite He, Hg.
    cbn [truthyValue negb tokenDataOf]. rewrite Htarget.
    assert ([("User-Agent",
              orElse (default "" (tc_userAgent ctx)) Gateway.DEFAULT_USER_AGENT);
             ("Accept", "*/*"); ("Accept-Encoding", "identity");
             ("Connection", "keep-alive")]
              ++ (if falsy (tc_referer ctx) then []
                  else [("Referer", default "" (tc_referer ctx))])
              ++ (if falsy (tc_origin ctx) then []
                  else [("Origin", default "" (tc_origin ctx))])
              ++ (if falsy (tc_cookie ctx) then []
                  else [("Cookie", default "" (tc_cookie ctx))])
              ++ (if falsy (tc_authorization ctx) then []
                  else [("Authorization", default "" (tc_authorization ctx))])
              ++ (if falsy (header_range request) then []
                  else [("Range", default "" (header_range request))])
            = hs) as Hhs.
    { subst hs. unfold whenSet.
      assert (forall (x : option string) (name : string),
                (if falsy (orNull x None) then []
                 else [(name, default "" (orNull x None))])
                = (if falsy x then [] else [(name, default "" x)])) as Hn.
      { intros [x|] name; [|reflexivity]. unfold orNull, falsy.
        destruct x; reflexivity. }
      destruct Hctx as [-> | (enc & ->)]; cbn [tc_userAgent tc_referer tc_origin
        tc_cookie tc_authorization tokenContext imageTokenContext];
        rewrite !Hn; reflexivity. }
    cbn [tokenDataOf]. rewrite Hhs, Hsame. reflexivity.
Qed.

Lemma gateway_forwards_core_headers_witness :
  exists hs,
    In ("Referer", "http://cdn.example") hs
    /\ GET tsParseURL (fun s => s) (fun u hs' => tsUpstream u hs)
         (requestFor tsUrl "t9")
         {| now := 0;
            entries := {[ tokenKey "t9"
                          := (VToken (tokenContext "alice" exampleHeaders), 1800) ]};
            online := true |}
       = GET tsParseURL (fun s => s) tsUpstream (requestFor tsUrl "t9")
           {| now := 0;
              entries := {[ tokenKey "t9"
                            := (VToken (tokenContext "alice" exampleHeaders), 1800) ]};
              online := true |}.
Proof.
  destruct (gateway_forwards_core_headers tsParseURL (fun s => s) tsUpstream
              (requestFor tsUrl "t9")
              {| now := 0;
                 entries := {[ tokenKey "t9"
                               := (VToken (tokenContext "alice" exampleHeaders),
                                   1800) ]};
                 online := true |}
              "t9" "alice" exampleHeaders (tokenContext "alice" exampleHeaders)
              {| protocol := "http:"; hostname := "cdn.example";
                 pathname := "/seg/0001.ts"; href := tsUrl |}
              eq_refl eq_refl) as (hs & Hin & _ & Hsame).
  - vm_compute. reflexivity.
  - left. reflexivity.
  - reflexivity.
  - exists hs. split.
    + apply Hin; [|reflexivity]. right. left. reflexivity.
    + apply Hsame. reflexivity.
Defined.

End GatewayMoreFacts.

(** ** Header values *)

Module HeaderFacts.
Import JS Platform Parser ParserTerms Gateway Core CoreTerms TextFacts.

Lemma collapseCRLF_fixed (s : string) :
  noCRLF s -> collapseCRLF s = s.
Proof.
  intros [Hr Hn]. induction s as [|c r IH]; [reflexivity|].
  cbn [hasChar] in Hr, Hn.
  apply orb_false_elim in Hr as [Hc1 Hr]. apply orb_false_elim in Hn as [Hc2 Hn].
  cbn [collapseCRLF]. unfold isCRLF at 1. rewrite Hc1, Hc2. cbn [orb].
  now rewrite IH.
Qed.

Lemma sanitizeHeaderValue_fixed (value : string) :
  sanitizeHeaderValue (sanitizeHeaderValue value) = sanitizeHeaderValue value.
Proof.
  unfold sanitizeHeaderValue at 1.
  rewrite (collapseCRLF_fixed _ (ParserFacts.sanitizeHeaderValue_clean value)).
  apply trim_idem.
Qed.

(** X10.  Sanitising a header value twice is sanitising it once: the result
    of [sanitizeHeaderValue] holds no line break, has no white space around
    it, and is left as it is by a second pass. *)
Theorem sanitizeHeaderValue_is_idempotent (value : string) :
  noCRLF (sanitizeHeaderValue value)
  /\ trim (sanitizeHeaderValue value) = sanitizeHeaderValue value
  /\ sanitizeHeaderValue (sanitizeHeaderValue value) = sanitizeHeaderValue value.
Proof.
  pose proof (ParserFacts.sanitizeHeaderValue_clean value) as Hc.
  split; [exact Hc|]. split; [apply trim_idem|].
  apply sanitizeHeaderValue_fixed.
Qed.

(** X11.  Every header the URL directive yields is ready to send: its name
    is one of the five forwarded names, its value is not empty, holds no
    line break, and is a fixed point of [sanitizeHeaderValue] (so the
    second pass [executeDownloadCore] makes over it changes nothing). *)
Theorem directive_headers_are_sanitized (rawUrl name v : string) :
  headers (parseUrlWithHeaders rawUrl) !! name = Some v ->
  In name forwardedNames /\ isEmpty v = false /\ noCRLF v
  /\ sanitizeHeaderValue v = v.
Proof.
  unfold parseUrlWithHeaders.
  destruct (indexOf "|" (trim rawUrl)) as [i|];
    [|cbn [headers]; rewrite lookup_empty; discriminate].
  destruct (isEmpty _); cbn [headers];
    [rewrite lookup_empty; discriminate|].
  intros H.
  apply (ParserFacts.fold_parsePair_inv
           (split "&" (trim (drop (S i) (trim rawUrl))))) in H.
  - destruct H as (Hname & Hclean & Hne & pair & _ & _ & E).
    split; [exact Hname|]. split; [now destruct v|]. split; [exact Hclean|].
    rewrite E. apply sanitizeHeaderValue_fixed.
  - auto.
  - intros n w. rewrite lookup_empty. discriminate.
Qed.

Lemma directive_headers_are_sanitized_witness :
  sanitizeHeaderValue "x y" = "x y".
Proof.
  refine (proj2 (proj2 (proj2
            (directive_headers_are_sanitized "http://a/v.m3u8|ua=x%0D%0Ay&k=v"
               "User-Agent" "x y" _)))).
  vm_compute. reflexivity.
Defined.

Lemma noCRLF_app (a b : string) : noCRLF a -> noCRLF b -> noCRLF (a +:+ b).
Proof.
  intros [Ha1 Ha2] [Hb1 Hb2]. unfold noCRLF.
  now rewrite !hasChar_app, Ha1, Ha2, Hb1, Hb2.
Qed.

Lemma sanitizedOrNull_clean (x : option string) : cleanValue (sanitizedOrNull x).
Proof.
  unfold cleanValue, sanitizedOrNull. intros v.
  destruct (falsy x); [discriminate|]. intros [= <-].
  apply ParserFacts.sanitizeHeaderValue_clean.
Qed.

Lemma hlsDefault_clean (isHls : bool) (targetOrigin : string) (x : option string) :
  noCRLF targetOrigin -> cleanValue x ->
  cleanValue (if (isHls && falsy x)%bool then Some targetOrigin else x).
Proof.
  intros Ho Hx. destruct (isHls && falsy x)%bool; [|exact Hx].
  intros v [= <-]. exact Ho.
Qed.

Lemma whenSet_In {A} (x : option string) (f : string -> A) (y : A) :
  In y (whenSet x f) -> exists v, x = Some v /\ isEmpty v = false /\ y = f v.
Proof.
  unfold whenSet, falsy. destruct x as [v|]; [|intros []].
  destruct (isEmpty v) eqn:E; [intros [] | intros [<- | []]]. eauto.
Qed.

(** X12.  No header injection.  Whatever the URL directive and the
    [referer] parameter hold, every header value of the core's own
    requests and every line of the transcoder's [-headers] block is free
    of CR and LF (the target's origin, used as a default for HLS, being
    free of them); and the [-headers] pair is always passed, since the
    User-Agent line is always there. *)
Theorem forwarded_headers_hold_no_line_break
    (urlParam : string) (refererParam : option string) (isHls : bool)
    (targetOrigin : string) :
  noCRLF targetOrigin ->
  let fh := withHlsDefaults isHls targetOrigin
              (deriveHeaders (headers (parseUrlWithHeaders urlParam))
                 refererParam) in
  (forall name value, In (name, value) (requestHeaders fh) -> noCRLF value)
  /\ (forall line, In line (headerLines fh) -> noCRLF line)
  /\ headerArgs fh = ["-headers"; join CRLF (headerLines fh) +:+ CRLF].
Proof.
  intros Ho fh.
  assert (noCRLF (userAgent fh)) as Hua
    by apply ParserFacts.sanitizeHeaderValue_clean.
  assert (cleanValue (referer fh)) as Hr
    by (apply hlsDefault_clean; [exact Ho | apply sanitizedOrNull_clean]).
  assert (cleanValue (origin fh)) as Hor
    by (apply hlsDefault_clean; [exact Ho | apply sanitizedOrNull_clean]).
  assert (cleanValue (cookie fh)) as Hck by apply sanitizedOrNull_clean.
  assert (cleanValue (authorization fh)) as Hau by apply sanitizedOrNull_clean.
  clearbody fh. split; [|split].
  - intros name value Hin. unfold requestHeaders in Hin.
    repeat (apply in_app_or in Hin as [Hin | Hin]).
    + destruct Hin as [[= _ <-] | []]. exact Hua.
    + apply whenSet_In in Hin as (v & E & _ & [= _ ->]). now apply Hr.
    + apply whenSet_In in Hin as (v & E & _ & [= _ ->]). now apply Hor.
    + apply whenSet_In in Hin as (v & E & _ & [= _ ->]). now apply Hck.
    + apply whenSet_In in Hin as (v & E & _ & [= _ ->]). now apply Hau.
  - intros line Hin. unfold headerLines in Hin.
    repeat (apply in_app_or in Hin as [Hin | Hin]).
    + destruct Hin as [<- | []]. apply noCRLF_app; [now split | exact Hua].
    + apply whenSet_In in Hin as (v & E & _ & ->).
      apply noCRLF_app; [now split | now apply Hr].
    + apply whenSet_In in Hin as (v & E & _ & ->).
      apply noCRLF_app; [now split | now apply Hor].
    + apply whenSet_In in Hin as (v & E & _ & ->).
      apply noCRLF_app; [now split | now apply Hck].
    + apply whenSet_In in Hin as (v & E & _ & ->).
      apply noCRLF_app; [now split | now apply Hau].
  - reflexivity.
Qed.

Lemma forwarded_headers_hold_no_line_break_witness :
  let fh := withHlsDefaults true "http://a"
              (deriveHeaders
                 (headers (parseUrlWithHeaders "http://a/v.m3u8|ua=x%0D%0Ay"))
                 (Some injectedReferer)) in
  (forall name value, In (name, value) (requestHeaders fh) -> noCRLF value)
  /\ (forall line, In line (headerLines fh) -> noCRLF line)
  /\ headerArgs fh = ["-headers"; join CRLF (headerLines fh) +:+ CRLF].
Proof.
  exact (forwarded_headers_hold_no_line_break
           "http://a/v.m3u8|ua=x%0D%0Ay" (Some injectedReferer)
           true "http://a" (conj eq_refl eq_refl)).
Defined.

End HeaderFacts.

(** ** File names *)

Module NamingFacts.
Import Naming NamingTerms.

Local Open Scope nat_scope.

(** *** Trimming *)

Lemma trimStartU_shape (s : ustring) :
  trimStartU s = [] \/ exists c r, trimStartU s = c :: r /\ isWhiteSpace c = false.
Proof.
  induction s as [|c r IH]; cbn [trimStartU]; [now left|].
  destruct (isWhiteSpace c) eqn:E; [exact IH | right; eauto].
Qed.

Lemma trimEndU_cons (c : N) (r : ustring) :
  isWhiteSpace c = false -> trimEndU (c :: r) = c :: trimEndU r.
Proof. intros H. cbn [trimEndU]. rewrite H. now destruct (trimEndU r). Qed.

Lemma trimEndU_idem (s : ustring) : trimEndU (trimEndU s) = trimEndU s.
Proof.
  induction s as [|c r IH]; [reflexivity|].
  cbn [trimEndU]. destruct (trimEndU r) as [|d r'] eqn:E.
  - destruct (isWhiteSpace c) eqn:Ec; [reflexivity|].
    cbn [trimEndU]. now rewrite Ec.
  - change (trimEndU (c :: d :: r'))
      with (match trimEndU (d :: r') with
            | [] => if isWhiteSpace c then [] else [c]
            | r'' => c :: r''
            end).
    now rewrite IH.
Qed.

Lemma trimU_cons (c : N) (r : ustring) :
  isWhiteSpace c = false -> trimU (c :: r) = c :: trimEndU r.
Proof. intros H. unfold trimU. cbn [trimStartU]. rewrite H. now apply trimEndU_cons. Qed.

Lemma trimU_idem (s : ustring) : trimU (trimU s) = trimU s.
Proof.
  unfold trimU at 2 3. destruct (trimStartU_shape s) as [E | (c & r & E & Hc)]; rewrite E.
  - reflexivity.
  - rewrite (trimEndU_cons c r Hc), (trimU_cons c _ Hc). now rewrite trimEndU_idem.
Qed.

Lemma trimStartU_In (c : N) (s : ustring) : In c (trimStartU s) -> In c s.
Proof.
  induction s as [|a r IH]; cbn [trimStartU]; [auto|].
  destruct (isWhiteSpace a); [right; auto | auto].
Qed.

Lemma trimEndU_In (c : N) (s : ustring) : In c (trimEndU s) -> In c s.
Proof.
  induction s as [|a r IH]; cbn [trimEndU]; [auto|].
  destruct (trimEndU r) as [|d r'].
  - destruct (isWhiteSpace a); [intros [] | intros [<- | []]; now left].
  - intros [<- | H]; [now left | right; auto].
Qed.

Lemma trimU_In (c : N) (s : ustring) : In c (trimU s) -> In c s.
Proof. intros H. now apply trimStartU_In, trimEndU_In. Qed.

Lemma trimStartU_length (s : ustring) : length (trimStartU s) <= length s.
Proof.
  induction s as [|a r IH]; cbn [trimStartU length]; [lia|].
  destruct (isWhiteSpace a); cbn [length]; lia.
Qed.

Lemma trimEndU_length (s : ustring) : length (trimEndU s) <= length s.
Proof.
  induction s as [|a r IH]; cbn [trimEndU length]; [lia|].
  destruct (trimEndU r) as [|d r']; [destruct (isWhiteSpace a)|];
    cbn [length] in *; lia.
Qed.

Lemma trimU_length (s : ustring) : length (trimU s) <= length s.
Proof.
  unfold trimU. pose proof (trimEndU_length (trimStartU s)).
  pose proof (trimStartU_length s). lia.
Qed.

(** *** Reserved characters *)

Lemma removeReserved_unreserved (s : ustring) : unreserved (removeReserved s).
Proof.
  intros c H. apply filter_In in H as [_ H]. now apply negb_true_iff in H.
Qed.

Lemma removeReserved_fixed (s : ustring) : unreserved s -> removeReserved s = s.
Proof.
  intros H. induction s as [|c r IH]; [reflexivity|].
  cbn [removeReserved List.filter]. rewrite (H c) by now left. cbn [negb].
  f_equal. apply IH. intros d Hd. apply H. now right.
Qed.

Lemma collapseWhiteSpace_In (c : N) (s : ustring) :
  In c (collapseWhiteSpace s) -> In c s \/ c = 32%N.
Proof.
  induction s as [|a r IH]; [intros []|].
  cbn [collapseWhiteSpace]. destruct (isWhiteSpace a).
  - destruct r as [|d r']; [intros [<- | []]; now right|].
    destruct (isWhiteSpace d).
    + intros H. destruct (IH H) as [H' | H']; [left; now right | now right].
    + intros [<- | H]; [now right|].
      destruct (IH H) as [H' | H']; [left; now right | now right].
  - intros [<- | H]; [left; now left|].
    destruct (IH H) as [H' | H']; [left; now right | now right].
Qed.

Lemma unreserved_collapse (s : ustring) :
  unreserved s -> unreserved (collapseWhiteSpace s).
Proof.
  intros H c Hc. apply collapseWhiteSpace_In in Hc as [Hc | ->]; [auto | reflexivity].
Qed.

Lemma unreserved_app (a b : ustring) :
  unreserved a -> unreserved b -> unreserved (a ++ b).
Proof. intros Ha Hb c Hc. apply in_app_or in Hc as [Hc | Hc]; auto. Qed.

Lemma firstn_In_of {A} (n : nat) (l : list A) (x : A) : In x (firstn n l) -> In x l.
Proof.
  revert l. induction n as [|n IH]; intros [|a l]; cbn [firstn In]; try tauto.
  intros [<- | H]; [now left | right; auto].
Qed.

(** *** Single spaces *)

Lemma collapse_head (s : ustring) :
  match collapseWhiteSpace s, s with
  | d :: _, a :: _ => isWhiteSpace d = isWhiteSpace a
  | [], [] => True
  | _, _ => False
  end.
Proof.
  induction s as [|a r IH]; [exact I|].
  cbn [collapseWhiteSpace]. destruct (isWhiteSpace a) eqn:Ea.
  - destruct r as [|d r']; [reflexivity|].
    destruct (isWhiteSpace d) eqn:Ed.
    + destruct (collapseWhiteSpace (d :: r')) as [|e t]; [contradiction|].
      congruence.
    + reflexivity.
  - exact Ea.
Qed.

Lemma collapse_singleSpaced (s : ustring) : singleSpaced (collapseWhiteSpace s).
Proof.
  induction s as [|a r IH]; [exact I|].
  cbn [collapseWhiteSpace]. destruct (isWhiteSpace a) eqn:Ea.
  - destruct r as [|d r']; [cbn; tauto|].
    destruct (isWhiteSpace d) eqn:Ed; [exact IH|].
    cbn [singleSpaced]. split; [|exact IH].
    intros _. split; [reflexivity|].
    pose proof (collapse_head (d :: r')) as Hh.
    destruct (collapseWhiteSpace (d :: r')) as [|e t]; [exact I | congruence].
  - cbn [singleSpaced]. split; [congruence | exact IH].
Qed.

Lemma collapse_fixed (s : ustring) : singleSpaced s -> collapseWhiteSpace s = s.
Proof.
  induction s as [|a r IH]; [reflexivity|].
  cbn [singleSpaced collapseWhiteSpace]. intros [Ha Hr].
  destruct (isWhiteSpace a) eqn:Ea.
  - destruct (Ha eq_refl) as [-> Hnext]. destruct r as [|d r']; [reflexivity|].
    rewrite Hnext. f_equal. now apply IH.
  - f_equal. now apply IH.
Qed.

Lemma singleSpaced_trimStartU (s : ustring) :
  singleSpaced s -> singleSpaced (trimStartU s).
Proof.
  induction s as [|a r IH]; [auto|].
  intros H. cbn [trimStartU]. destruct (isWhiteSpace a); [|exact H].
  apply IH. apply H.
Qed.

Lemma singleSpaced_trimEndU (s : ustring) :
  singleSpaced s -> singleSpaced (trimEndU s).
Proof.
  induction s as [|a r IH]; [auto|].
  cbn [singleSpaced]. intros [Ha Hr]. specialize (IH Hr).
  cbn [trimEndU]. destruct (trimEndU r) as [|d r'] eqn:E.
  - destruct (isWhiteSpace a) eqn:Ea; [exact I|]. cbn. split; [congruence | exact I].
  - cbn [singleSpaced]. split; [|exact IH].
    intros Hw. destruct (Ha Hw) as [-> Hnext]. split; [reflexivity|].
    destruct r as [|e r'']; [discriminate|].
    cbn [trimEndU] in E. destruct (trimEndU r'') as [|f t].
    + destruct (isWhiteSpace e) eqn:Ee; [discriminate|].
      injection E as <- _. exact Ee.
    + injection E as <- _. exact Hnext.
Qed.

Lemma singleSpaced_firstn (n : nat) (s : ustring) :
  singleSpaced s -> singleSpaced (firstn n s).
Proof.
  revert s. induction n as [|n IH]; intros [|a r]; cbn [firstn]; try (intros; exact I).
  cbn [singleSpaced]. intros [Ha Hr]. split; [|now apply IH].
  intros Hw. destruct (Ha Hw) as [-> Hnext]. split; [reflexivity|].
  destruct n as [|n]; [exact I|]. destruct r as [|d r']; [exact I | exact Hnext].
Qed.

(** *** [sanitizeFilename] *)

Lemma trimmed_is_safe (s : ustring) :
  unreserved s -> singleSpaced s -> trimU s <> [] -> length (trimU s) <= 150 ->
  safeName (trimU s).
Proof.
  intros Hu Hs Hne Hlen. split; [exact Hne|]. split; [exact Hlen|].
  split; [intros c Hc; apply Hu; now apply trimU_In|].
  split; [apply trimU_idem|].
  now apply singleSpaced_trimEndU, singleSpaced_trimStartU.
Qed.

Lemma video_is_safe : safeName (ofString "video").
Proof.
  split; [discriminate|]. split; [cbn; lia|]. split; [|split].
  - intros c Hc. cbn in Hc.
    repeat (destruct Hc as [<- | Hc]; [reflexivity|]). contradiction.
  - reflexivity.
  - cbn. repeat split; discriminate.
Qed.

Lemma sanitizeFilename_is_safe (input : ustring) : safeName (sanitizeFilename input).
Proof.
  unfold sanitizeFilename.
  set (cleaned := collapseWhiteSpace (removeReserved input)).
  assert (unreserved cleaned) as Hu
    by apply unreserved_collapse, removeReserved_unreserved.
  assert (singleSpaced cleaned) as Hs by apply collapse_singleSpaced.
  destruct (trimU cleaned) as [|c0 t0] eqn:E; cbn [isEmptyU].
  - apply video_is_safe.
  - rewrite <- E.
    assert (unreserved (trimU cleaned)) as Hu'
      by (intros c Hc; apply Hu; now apply trimU_In).
    assert (singleSpaced (trimU cleaned)) as Hs'
      by now apply singleSpaced_trimEndU, singleSpaced_trimStartU.
    destruct (Nat.ltb_spec 150 (length (trimU cleaned))) as [Hlong | Hshort].
    + apply trimmed_is_safe.
      * intros c Hc. apply Hu'. now apply firstn_In_of in Hc.
      * now apply singleSpaced_firstn.
      * assert (isWhiteSpace c0 = false) as Hc0.
        { unfold trimU in E.
          destruct (trimStartU_shape cleaned) as [E0 | (c & r & E0 & Hc)];
            rewrite E0 in E; [discriminate|].
          rewrite (trimEndU_cons c r Hc) in E. now injection E as <- _. }
        rewrite E. cbn [firstn]. rewrite (trimU_cons c0 _ Hc0). discriminate.
      * pose proof (trimU_length (firstn 150 (trimU cleaned))) as H1.
        pose proof (firstn_le_length 150 (trimU cleaned)). lia.
    + apply trimmed_is_safe; [exact Hu | exact Hs | rewrite E; discriminate | exact Hshort].
Qed.

Lemma sanitizeFilename_fixed (s : ustring) : safeName s -> sanitizeFilename s = s.
Proof.
  intros (Hne & Hlen & Hu & Ht & Hs). unfold sanitizeFilename.
  rewrite (removeReserved_fixed s Hu), (collapse_fixed s Hs), Ht.
  destruct s as [|c r]; [contradiction|]. cbn [isEmptyU].
  destruct (Nat.ltb_spec 150 (length (c :: r))); [lia | reflexivity].
Qed.

(** X13.  A sanitised file name is safe to use as one: whatever the input,
    the result of [sanitizeFilename] is not empty, has at most 150 code
    units, holds none of the reserved characters (backslash, slash, colon,
    asterisk, question mark, double quote, less-than, greater-than,
    vertical bar), has no white space at either end, and holds white space
    only as single spaces. *)
Theorem sanitizeFilename_gives_a_safe_name (input : ustring) :
  let name := sanitizeFilename input in
  name <> [] /\ length name <= 150
  /\ (forall c, In c name -> isReserved c = false)
  /\ trimU name = name
  /\ singleSpaced name.
Proof. exact (sanitizeFilename_is_safe input). Qed.

(** X14.  [sanitizeFilename] is idempotent: a name it has produced passes
    through it unchanged. *)
Theorem sanitizeFilename_is_idempotent (input : ustring) :
  sanitizeFilename (sanitizeFilename input) = sanitizeFilename input.
Proof. apply sanitizeFilename_fixed, sanitizeFilename_is_safe. Qed.

(** *** [buildFilename] and the download header *)

Lemma stripMp4_unreserved (s : ustring) : unreserved s -> unreserved (stripMp4 s).
Proof.
  intros H. unfold stripMp4.
  destruct (rev s) as [|c4 [|p [|m [|dot r]]]] eqn:E; try exact H.
  destruct (_ && _)%bool; [|exact H].
  intros c Hc. apply H. apply in_rev. rewrite E.
  do 4 right. now apply in_rev in Hc.
Qed.

Lemma joinU_unreserved (sep : ustring) (parts : list ustring) :
  unreserved sep -> (forall part, In part parts -> unreserved part) ->
  unreserved (joinU sep parts).
Proof.
  intros Hsep. induction parts as [|x t IH]; intros H; [intros c []|].
  cbn [joinU]. destruct t as [|y t'].
  - apply H. now left.
  - apply unreserved_app; [apply H; now left|].
    apply unreserved_app; [exact Hsep|].
    apply IH. intros part Hp. apply H. now right.
Qed.

Lemma literal_unreserved (s : ustring) :
  forallb (fun c => negb (isReserved c)) s = true -> unreserved s.
Proof.
  intros H c Hc. rewrite forallb_forall in H. apply negb_true_iff. now apply H.
Qed.

Lemma buildFilename_unreserved (params : FilenameParams) :
  plainEpisode params -> unreserved (buildFilename params).
Proof.
  intros Hep. unfold buildFilename.
  apply unreserved_app; [|now apply literal_unreserved].
  apply joinU_unreserved; [now apply literal_unreserved|].
  intros part Hp. apply in_app_or in Hp as [[<- | []] | Hp].
  - apply stripMp4_unreserved, sanitizeFilename_is_safe.
  - apply in_app_or in Hp as [Hp | Hp].
    + destruct (isEmptyU _); [destruct Hp|]. destruct Hp as [<- | []].
      apply unreserved_app; [now apply literal_unreserved|].
      apply unreserved_app; [|now apply literal_unreserved].
      destruct (truthyU (year params)); [apply sanitizeFilename_is_safe | intros c []].
    + destruct (isEmptyU _); [destruct Hp|]. destruct Hp as [<- | []].
      destruct (truthyU (episodeTitle params)) eqn:Et;
        [apply sanitizeFilename_is_safe|].
      destruct (truthyU (episode params)) eqn:Ee; [|intros c []].
      destruct Hep as [Hep | Hep]; [congruence|].
      destruct (episode params) as [e|]; [|discriminate]. cbn [default from_option id].
      apply unreserved_app; [now apply literal_unreserved|].
      apply unreserved_app; [now apply Hep | now apply literal_unreserved].
Qed.

Lemma filter_printable_app (front suffix : ustring) :
  forallb (fun c => ((32 <=? c) && (c <=? 126))%N%bool) suffix = true ->
  List.filter (fun c => ((32 <=? c) && (c <=? 126))%N%bool) (front ++ suffix)
  = List.filter (fun c => ((32 <=? c) && (c <=? 126))%N%bool) front ++ suffix.
Proof.
  intros H. rewrite List.filter_app. f_equal.
  induction suffix as [|c r IH]; [reflexivity|].
  cbn [forallb] in H. apply andb_true_iff in H as [Hc Hr].
  cbn [List.filter]. rewrite Hc. f_equal. now apply IH.
Qed.

Lemma trimEndU_solid (s : ustring) :
  (forall c, In c s -> isWhiteSpace c = false) -> trimEndU s = s.
Proof.
  induction s as [|c r IH]; intros H; [reflexivity|].
  rewrite trimEndU_cons by (apply H; now left).
  f_equal. apply IH. intros d Hd. apply H. now right.
Qed.

Lemma trimEndU_app_solid (front s : ustring) :
  (forall c, In c s -> isWhiteSpace c = false) -> s <> [] ->
  trimEndU (front ++ s) = front ++ s.
Proof.
  intros Hs Hne. induction front as [|c r IH]; [now apply trimEndU_solid|].
  cbn [app trimEndU]. rewrite IH.
  destruct (r ++ s) eqn:E; [|reflexivity].
  apply app_eq_nil in E as [_ E]. contradiction.
Qed.

Lemma trimStartU_app_solid (front s : ustring) :
  (forall c, In c s -> isWhiteSpace c = false) -> s <> [] ->
  exists front', trimStartU (front ++ s) = front' ++ s.
Proof.
  intros Hs Hne. induction front as [|c r IH].
  - exists []. cbn [app]. destruct s as [|d t]; [contradiction|].
    cbn [trimStartU]. now rewrite (Hs d) by now left.
  - cbn [app trimStartU]. destruct (isWhiteSpace c); [exact IH|].
    now exists (c :: r).
Qed.

(** X15.  The name a download is saved under.  Provided the episode
    number, when it is pasted into the name, holds none of the reserved
    characters, the name [buildFilename] gives ends in [.mp4] and holds no
    reserved character; and its ASCII fallback for the Content-Disposition
    header is not empty, is made of printable ASCII characters, still ends
    in [.mp4] and holds neither a double quote nor a backslash, so that the
    quoted [filename] parameter is well formed. *)
Theorem download_name_is_safe (params : FilenameParams) :
  plainEpisode params ->
  let name := buildFilename params in
  let fallback := asciiFallback name in
  (endsWithU (ofString ".mp4") name /\ unreserved name)
  /\ fallback <> []
  /\ (forall c, In c fallback -> (32 <= c <= 126)%N)
  /\ endsWithU (ofString ".mp4") fallback
  /\ unreserved fallback.
Proof.
  intros Hep name fallback.
  pose proof (buildFilename_unreserved params Hep) as Hu. fold name in Hu.
  assert (endsWithU (ofString ".mp4") name) as Hend by (eexists; reflexivity).
  split; [now split|].
  destruct Hend as (front & Hname).
  assert (forall c, In c (ofString ".mp4") -> isWhiteSpace c = false) as Hsolid.
  { intros c Hc. cbn in Hc.
    repeat (destruct Hc as [<- | Hc]; [reflexivity|]). contradiction. }
  assert (exists front',
             trimU (List.filter (fun c => ((32 <=? c) && (c <=? 126))%N%bool) name)
             = front' ++ ofString ".mp4") as (front' & Htrim).
  { rewrite Hname, filter_printable_app by reflexivity. unfold trimU.
    destruct (trimStartU_app_solid
                (List.filter (fun c => ((32 <=? c) && (c <=? 126))%N%bool) front)
                (ofString ".mp4") Hsolid) as (f' & ->); [discriminate|].
    exists f'. apply trimEndU_app_solid; [exact Hsolid | discriminate]. }
  assert (fallback
          = trimU (List.filter (fun c => ((32 <=? c) && (c <=? 126))%N%bool) name))
    as Hfb.
  { unfold fallback, asciiFallback. rewrite Htrim.
    now destruct front'. }
  split; [rewrite Hfb, Htrim; now destruct front'|].
  split; [|split].
  - intros c Hc. rewrite Hfb in Hc. apply trimU_In, filter_In in Hc as [_ Hc].
    apply andb_true_iff in Hc as [H1 H2].
    apply N.leb_le in H1, H2. lia.
  - exists front'. now rewrite Hfb.
  - intros c Hc. rewrite Hfb in Hc. apply trimU_In, filter_In in Hc as [Hc _].
    now apply Hu.
Qed.

Lemma download_name_is_safe_witness :
  unreserved (asciiFallback (buildFilename exampleParams)).
Proof.
  refine (proj2 (proj2 (proj2 (proj2
            (download_name_is_safe exampleParams _))))).
  right. intros e [= <-].
  intros c [<- | []]. reflexivity.
Defined.

End NamingFacts.

(** ** Splitting and joining lines *)

Module LineFacts.
Import JS Platform Playlist CommonTerms RepairTerms LineTerms TextFacts.

(** A one-byte space after a string does not complete a white-space
    character of several bytes. *)
Lemma whiteSpaceLength_app_space (x : string) (c : ascii) :
  isSpace c = true -> x <> "" -> whiteSpaceLength x = 0%nat ->
  whiteSpaceLength (x +:+ String c "") = 0%nat.
Proof.
  intros Hc Hx. destruct x as [|a [|b [|d r]]]; [congruence | | |];
    rewrite ?append_cons; change ("" +:+ String c "") with (String c "");
    cbn [whiteSpaceLength]; destruct (isSpace a); try discriminate.
  - intros _. destruct ((N_of_ascii a =? 194) && (N_of_ascii c =? 160))%N eqn:E;
      [|reflexivity].
    apply andb_true_iff in E as [_ E]. apply N.eqb_eq in E.
    destruct c as [[] [] [] [] [] [] [] []]; discriminate.
  - destruct ((N_of_ascii a =? 194) && (N_of_ascii b =? 160))%N;
      [discriminate|]. intros _.
    match goal with |- (if ?t then _ else _) = _ => destruct t eqn:E end;
      [|reflexivity].
    destruct c as [[] [] [] [] [] [] [] []]; try discriminate Hc;
      cbn in E; rewrite ?andb_false_r in E; cbn in E; discriminate.
  - auto.
Qed.

Lemma trimStart_app_space (x : string) (c : ascii) :
  isSpace c = true ->
  trimStart (x +:+ String c "")
  = if isWhiteSpaceOnly x then "" else trimStart x +:+ String c "".
Proof.
  intros Hc. unfold isWhiteSpaceOnly.
  induction x as [x IH] using string_length_ind.
  destruct (whiteSpaceLength x) as [|n] eqn:E.
  - destruct x as [|a r].
    + change ("" +:+ String c "") with (String c "").
      cbn [trimStart whiteSpaceLength]. now rewrite Hc.
    + rewrite (trimStart_fixed _ E).
      rewrite trimStart_fixed; [reflexivity|].
      now apply whiteSpaceLength_app_space.
  - pose proof (whiteSpaceLength_le x) as Hle.
    rewrite (trimStart_eq (x +:+ String c "")),
      (whiteSpaceLength_app x _ n E), drop_app by lia.
    rewrite (trimStart_eq x), E. apply IH. rewrite length_drop. lia.
Qed.

Lemma trimEnd_app_space (y : string) (c : ascii) :
  isSpace c = true -> trimEnd (y +:+ String c "") = trimEnd y.
Proof.
  intros Hc. induction y as [|a r IH].
  - change ("" +:+ String c "") with (String c "").
    cbn [trimEnd]. unfold isWhiteSpaceOnly.
    cbn [trimStart whiteSpaceLength]. now rewrite Hc.
  - rewrite append_cons. cbn [trimEnd]. rewrite IH.
    rewrite <- append_cons. unfold isWhiteSpaceOnly at 1.
    rewrite (trimStart_app_space _ c Hc).
    destruct (isWhiteSpaceOnly (String a r)) eqn:E; [reflexivity|].
    unfold isWhiteSpaceOnly in E.
    destruct (trimStart (String a r)); [discriminate | reflexivity].
Qed.

Lemma trim_app_cr (x : string) : trim (x +:+ String CR "") = trim x.
Proof.
  unfold trim. rewrite (trimStart_app_space x CR eq_refl).
  destruct (isWhiteSpaceOnly x) eqn:E.
  - unfold isWhiteSpaceOnly in E.
    destruct (trimStart x); [reflexivity | discriminate].
  - now apply trimEnd_app_space.
Qed.

Lemma trim_sameLine (l' l : string) : sameLine l' l -> trim l' = trim l.
Proof. intros [-> | ->]; [reflexivity | now rewrite trim_app_cr]. Qed.

Lemma splitLines_nonempty (s : string) : splitLines s <> [].
Proof.
  induction s as [|a r IH]; [discriminate|]. cbn [splitLines].
  destruct (Ascii.eqb a "010"); [discriminate|].
  destruct (_ && _)%bool; [exact IH|].
  destruct (splitLines r); discriminate.
Qed.

(** No line holds a line feed. *)
Lemma splitLines_no_LF (s l : string) : In l (splitLines s) -> hasChar LF l = false.
Proof.
  revert l. induction s as [|a r IH]; intros l.
  - intros [<- | []]. reflexivity.
  - cbn [splitLines]. destruct (Ascii.eqb a "010") eqn:Ea.
    + intros [<- | H]; [reflexivity | now apply IH].
    + destruct (_ && _)%bool; [apply IH|].
      destruct (splitLines r) as [|h t] eqn:E;
        [intros [<- | []]; cbn [hasChar]; unfold LF; now rewrite Ea|].
      intros [<- | H].
      * cbn [hasChar]. unfold LF. rewrite Ea. apply IH. now left.
      * apply IH. now right.
Qed.

Lemma splitLines_single (l : string) : hasChar LF l = false -> splitLines l = [l].
Proof.
  induction l as [|a r IH]; [reflexivity|].
  cbn [hasChar]. intros H. apply orb_false_elim in H as [Ha Hr].
  cbn [splitLines]. unfold LF in Ha. rewrite Ha.
  destruct r as [|b r'].
  - now rewrite andb_false_r.
  - cbn [startsWith]. cbn [hasChar] in Hr. apply orb_false_elim in Hr as [Hb Hr'].
    unfold LF in Hb. rewrite (Ascii.eqb_sym "010" b), Hb, andb_false_r.
    now rewrite IH by (cbn [hasChar]; rewrite Hr'; unfold LF; now rewrite Hb).
Qed.

Lemma splitLines_line (l rest : string) :
  hasChar LF l = false ->
  exists l', splitLines (l +:+ String LF rest) = l' :: splitLines rest
             /\ sameLine l' l.
Proof.
  induction l as [|a r IH]; intros H.
  - exists "". split; [reflexivity | now left].
  - cbn [hasChar] in H. apply orb_false_elim in H as [Ha Hr].
    destruct (IH Hr) as (r' & E & Hsame).
    change (String a r +:+ String LF rest) with (String a (r +:+ String LF rest)).
    cbn [splitLines]. unfold LF in Ha. rewrite Ha.
    destruct (Ascii.eqb a "013" && startsWith (String "010" "") (r +:+ String LF rest))%bool
      eqn:Ecr.
    + apply andb_true_iff in Ecr as [Ea Es]. apply Ascii.eqb_eq in Ea. subst a.
      destruct r as [|b r0].
      * exists "". split; [reflexivity | now right].
      * change (String b r0 +:+ String LF rest)
          with (String b (r0 +:+ String LF rest)) in Es.
        cbn [startsWith] in Es. cbn [hasChar] in Hr.
        apply orb_false_elim in Hr as [Hb _]. unfold LF in Hb.
        rewrite (Ascii.eqb_sym "010" b), Hb in Es. discriminate.
    + rewrite E. exists (String a r'). split; [reflexivity|].
      destruct Hsame as [-> | ->]; [now left | now right].
Qed.

Lemma splitLines_join (ls : list string) :
  ls <> [] -> (forall l, In l ls -> hasChar LF l = false) ->
  Forall2 sameLine (splitLines (join (String LF "") ls)) ls.
Proof.
  induction ls as [|x t IH]; intros Hne H; [contradiction|].
  destruct t as [|y t'].
  - cbn [join]. rewrite splitLines_single by (apply H; now left).
    constructor; [now left | constructor].
  - change (join (String LF "") (x :: y :: t'))
      with (x +:+ String LF "" +:+ join (String LF "") (y :: t')).
    change (x +:+ String LF "" +:+ join (String LF "") (y :: t'))
      with (x +:+ String LF (join (String LF "") (y :: t'))).
    destruct (splitLines_line x (join (String LF "") (y :: t')))
      as (x' & -> & Hsame); [apply H; now left|].
    constructor; [exact Hsame|].
    apply IH; [discriminate|]. intros l Hl. apply H. now right.
Qed.

Lemma sameLine_trims (ls' ls : list string) :
  Forall2 sameLine ls' ls -> map trim ls' = map trim ls.
Proof.
  induction 1 as [|a b s t Hab _ IH]; [reflexivity|].
  cbn [map]. now rewrite (trim_sameLine a b Hab), IH.
Qed.

(** When lines that hold no line feed are joined with LF, splitting the
    result gives back as many lines, each with the same trimmed text. *)
Lemma lines_survive_join_and_split (ls : list string) :
  ls <> [] -> (forall l, In l ls -> hasChar LF l = false) ->
  map trim (splitLines (join (String LF "") ls)) = map trim ls.
Proof. intros Hne H. now apply sameLine_trims, splitLines_join. Qed.

End LineFacts.

(** ** The segment filter *)

Module FilterFacts.
Import JS Platform Playlist CommonTerms RepairTerms LineTerms TextFacts LineFacts.

Section WithPlatform.

Variable resolveUrl : string -> string -> string.

(** The scans read each line through [trim] only. *)
Lemma findInvalidLoop_trims (a b : list string) (baseUrl : string) :
  map trim a = map trim b ->
  findInvalidLoop resolveUrl a baseUrl = findInvalidLoop resolveUrl b baseUrl.
Proof.
  revert b. induction a as [|x a IH]; intros [|y b] E; try discriminate;
    [reflexivity|].
  cbn [map] in E. injection E as Ex E. cbn [findInvalidLoop]. rewrite Ex.
  now rewrite (IH b E).
Qed.

Lemma existsb_trims (p : string -> bool) (a b : list string) :
  map trim a = map trim b ->
  existsb (fun l => p (trim l)) a = existsb (fun l => p (trim l)) b.
Proof.
  revert b. induction a as [|x a IH]; intros [|y b] E; try discriminate;
    [reflexivity|].
  cbn [map] in E. injection E as Ex E. cbn [existsb]. rewrite Ex.
  now rewrite (IH b E).
Qed.

Lemma filter_trims (p : string -> bool) (a b : list string) :
  map trim a = map trim b ->
  map trim (List.filter (fun l => p (trim l)) a)
  = map trim (List.filter (fun l => p (trim l)) b).
Proof.
  revert b. induction a as [|x a IH]; intros [|y b] E; try discriminate;
    [reflexivity|].
  cbn [map] in E. injection E as Ex E. cbn [List.filter]. rewrite Ex.
  destruct (p (trim y)); cbn [map]; now rewrite ?Ex, (IH b E).
Qed.

Lemma findInvalidLoop_none (lines : list string) (baseUrl : string) :
  Forall (fun l => isUriLine l = true -> invalidLine resolveUrl baseUrl l = false)
    lines ->
  findInvalidLoop resolveUrl lines baseUrl = None.
Proof.
  induction 1 as [|l lines Hl _ IH]; [reflexivity|].
  cbn [findInvalidLoop]. unfold isUriLine, invalidLine in Hl.
  destruct (isEmpty (trim l)); [exact IH|].
  destruct (startsWith "#" (trim l)); [exact IH|].
  cbn [negb andb orb] in *. now rewrite (Hl eq_refl).
Qed.

(** What the loop of the filter does to the segment lines, and where its
    lines come from. *)
Lemma filterLoop_account (baseUrl : string) (lines filtered pending : list string)
    (removed : nat) :
  Forall (fun l => isUriLine l = false) pending ->
  snd (filterLoop resolveUrl lines baseUrl filtered pending removed)
  = (removed + List.length (List.filter (invalidUri resolveUrl baseUrl) lines))%nat
  /\ List.filter isUriLine
       (fst (filterLoop resolveUrl lines baseUrl filtered pending removed))
     = List.filter isUriLine filtered
         ++ List.filter (validUri resolveUrl baseUrl) lines
  /\ forall l,
       In l (fst (filterLoop resolveUrl lines baseUrl filtered pending removed)) ->
       In l filtered \/ In l pending \/ In l lines.
Proof.
  revert filtered pending removed.
  induction lines as [|l lines IH]; intros filtered pending removed Hp.
  - cbn. rewrite app_nil_r, Nat.add_0_r. auto.
  - assert (List.filter isUriLine pending = []) as Hpf.
    { clear -Hp. induction Hp as [|x t Hx _ IH]; [reflexivity|].
      cbn [List.filter]. now rewrite Hx. }
    cbn [filterLoop List.filter].
    change (invalidUri resolveUrl baseUrl l)
      with (isUriLine l && invalidLine resolveUrl baseUrl l)%bool.
    change (validUri resolveUrl baseUrl l)
      with (isUriLine l && negb (invalidLine resolveUrl baseUrl l))%bool.
    destruct (isEmpty (trim l)) eqn:Hemp.
    { assert (isUriLine l = false) as Hl by (unfold isUriLine; now rewrite Hemp).
      rewrite Hl. cbn [andb].
      destruct pending as [|p0 pt].
      - destruct (IH (filtered ++ [l]) [] removed Hp) as (H1 & H2 & H3).
        split; [exact H1|]. split.
        + rewrite H2, List.filter_app. cbn [List.filter]. rewrite Hl.
          now rewrite app_nil_r.
        + intros x Hx. destruct (H3 x Hx) as [H | [[] | H]];
            [|right; right; now right].
          apply in_app_or in H as [H | [<- | []]];
            [now left | right; right; now left].
      - destruct (IH filtered (p0 :: pt) removed Hp) as (H1 & H2 & H3).
        split; [exact H1|]. split; [exact H2|].
        intros x Hx. destruct (H3 x Hx) as [H | [H | H]]; auto.
        right; right; now right. }
    destruct (startsWith "#EXTINF" (trim l) || startsWith "#EXT-X-BYTERANGE" (trim l))%bool
      eqn:Hseg.
    { assert (startsWith "#" (trim l) = true) as Hsharp
        by (apply orb_true_iff in Hseg as [E|E];
            now apply StringFacts.startsWith_first in E).
      assert (isUriLine l = false) as Hl
        by (unfold isUriLine; rewrite Hsharp; apply andb_false_r).
      rewrite Hl. cbn [andb].
      assert (Forall (fun l => isUriLine l = false) (pending ++ [l])) as Hp'.
      { apply Forall_app. split; [exact Hp|]. constructor; [exact Hl | constructor]. }
      destruct (IH filtered (pending ++ [l]) removed Hp') as (H1 & H2 & H3).
      split; [exact H1|]. split; [exact H2|].
      intros x Hx. destruct (H3 x Hx) as [H | [H | H]]; auto.
      - apply in_app_or in H as [H | [<- | []]]; auto. right; right; now left.
      - right; right; now right. }
    destruct (startsWith "#" (trim l)) eqn:Hsharp.
    { assert (isUriLine l = false) as Hl
        by (unfold isUriLine; rewrite Hsharp; apply andb_false_r).
      rewrite Hl. cbn [andb].
      destruct (IH (filtered ++ pending ++ [l]) [] removed (List.Forall_nil _))
        as (H1 & H2 & H3).
      split; [exact H1|]. split.
      + rewrite H2, !List.filter_app, Hpf. cbn [List.filter]. rewrite Hl.
        now rewrite !app_nil_r.
      + intros x Hx. destruct (H3 x Hx) as [H | [[] | H]];
          [|right; right; now right].
        apply in_app_or in H as [H | H]; [now left|].
        apply in_app_or in H as [H | [<- | []]]; auto. right; right; now left. }
    assert (isUriLine l = true) as Hl
      by (unfold isUriLine; now rewrite Hemp, Hsharp).
    rewrite Hl. cbn [andb]. unfold invalidLine at 1 2.
    destruct (hasInvalidExtension (resolveUrl (trim l) baseUrl)) eqn:Hinv;
      cbn [negb].
    { destruct (IH filtered [] (S removed) (List.Forall_nil _)) as (H1 & H2 & H3).
      split; [rewrite H1; cbn [List.length]; lia|]. split; [exact H2|].
      intros x Hx. destruct (H3 x Hx) as [H | [[] | H]]; auto.
      right; right; now right. }
    destruct (IH (filtered ++ pending ++ [l]) [] removed (List.Forall_nil _))
      as (H1 & H2 & H3).
    split; [exact H1|]. split.
    + rewrite H2, !List.filter_app, Hpf. cbn [List.filter]. rewrite Hl.
      cbn [app]. now rewrite <- app_assoc.
    + intros x Hx. destruct (H3 x Hx) as [H | [[] | H]];
        [|right; right; now right].
      apply in_app_or in H as [H | H]; [now left|].
      apply in_app_or in H as [H | [<- | []]]; auto. right; right; now left.
Qed.

Lemma isUriLine_trims (l : string) :
  isUriLine l = (fun t => negb (isEmpty t) && negb (startsWith "#" t))%bool (trim l).
Proof. reflexivity. Qed.

End WithPlatform.

(** X16.  After the filter no image-extension segment is left: whatever
    the playlist and the URL resolver, [findInvalidSegmentLine] finds
    nothing in the content [filterInvalidSegments] returns. *)
Theorem filtered_playlist_has_no_invalid_segment
    (resolveUrl : string -> string -> string) (content baseUrl : string) :
  findInvalidSegmentLine resolveUrl
    (flt_content (filterInvalidSegments resolveUrl content baseUrl)) baseUrl
  = None.
Proof.
  unfold filterInvalidSegments.
  destruct (hasMediaSegments content) eqn:Hm; cbn [negb].
  2: { cbn [flt_content]. unfold findInvalidSegmentLine. now rewrite Hm. }
  destruct (filterLoop resolveUrl (splitLines content) baseUrl [] [] 0)
    as [filtered removed] eqn:E.
  cbn [flt_content]. unfold findInvalidSegmentLine.
  destruct (hasMediaSegments (join (String "010" "") filtered)); cbn [negb];
    [|reflexivity].
  pose proof (RepairFacts.filterLoop_keeps_valid resolveUrl baseUrl (splitLines content)
                [] [] 0 (List.Forall_nil _) (List.Forall_nil _)) as Hvalid.
  pose proof (filterLoop_account resolveUrl baseUrl (splitLines content) [] [] 0
                (List.Forall_nil _)) as (_ & _ & Hsub).
  rewrite E in Hvalid, Hsub. cbn [fst] in Hvalid, Hsub.
  destruct filtered as [|f0 ft]; [reflexivity|].
  rewrite (findInvalidLoop_trims resolveUrl _ (f0 :: ft)).
  - now apply findInvalidLoop_none.
  - apply lines_survive_join_and_split; [discriminate|].
    intros l Hl. destruct (Hsub l Hl) as [[] | [[] | H]].
    now apply splitLines_no_LF in H.
Qed.

(** X17.  The filter drops exactly the image-extension segments.  On a
    playlist with media segments, the count [filterInvalidSegments] reports
    is the number of segment lines whose resolved URL has an image
    extension, and the segment lines of the content it returns are the
    other segment lines of the playlist, in their order. *)
Theorem filter_keeps_exactly_the_valid_segments
    (resolveUrl : string -> string -> string) (content baseUrl : string) :
  hasMediaSegments content = true ->
  let filtered := filterInvalidSegments resolveUrl content baseUrl in
  flt_removed filtered
  = List.length (List.filter (invalidUri resolveUrl baseUrl) (splitLines content))
  /\ map trim (List.filter isUriLine (splitLines (flt_content filtered)))
     = map trim (List.filter (validUri resolveUrl baseUrl) (splitLines content)).
Proof.
  intros Hm. unfold filterInvalidSegments. rewrite Hm. cbn [negb].
  pose proof (filterLoop_account resolveUrl baseUrl (splitLines content) [] [] 0
                (List.Forall_nil _)) as (Hcount & Hkept & Hsub).
  destruct (filterLoop resolveUrl (splitLines content) baseUrl [] [] 0)
    as [kept removed] eqn:E.
  cbn [fst snd flt_content flt_removed] in *.
  split; [exact Hcount|].
  change (List.filter isUriLine [] ++ ?x) with x in Hkept. rewrite <- Hkept.
  destruct kept as [|k0 kt]; [reflexivity|].
  apply (filter_trims (fun t => negb (isEmpty t) && negb (startsWith "#" t))%bool).
  apply lines_survive_join_and_split; [discriminate|].
  intros l Hl. destruct (Hsub l Hl) as [[] | [[] | H]].
  now apply splitLines_no_LF in H.
Qed.

Lemma filter_keeps_exactly_the_valid_segments_witness :
  flt_removed (filterInvalidSegments resolveAbsolute mixedPlaylist playlistUrl)
  = List.length (List.filter (invalidUri resolveAbsolute playlistUrl)
                   (splitLines mixedPlaylist)).
Proof.
  exact (proj1 (filter_keeps_exactly_the_valid_segments resolveAbsolute
                  mixedPlaylist playlistUrl eq_refl)).
Defined.

End FilterFacts.

(** ** The sanitiser keeps the segments *)

Module SanitizerFacts.
Import JS Platform Playlist Fetcher Sanitizer SanitizerTerms CommonTerms
       LineTerms TextFacts LineFacts.

Lemma join_cons (sep x : string) (y : string) (t : list string) :
  join sep (x :: y :: t) = x +:+ sep +:+ join sep (y :: t).
Proof. reflexivity. Qed.

Lemma string_app_assoc (a b c : string) : (a +:+ b) +:+ c = a +:+ (b +:+ c).
Proof.
  induction a as [|x a IH]; [reflexivity|].
  change (String x a +:+ b) with (String x (a +:+ b)).
  change (String x (a +:+ b) +:+ c) with (String x ((a +:+ b) +:+ c)).
  now rewrite IH.
Qed.

(** Whatever precedes a line feed, the lines after it are read as they
    would be alone. *)
Lemma splitLines_after_LF (a b : string) :
  exists first front,
    splitLines (a +:+ String LF b) = first :: front ++ splitLines b.
Proof.
  induction a as [|c r (first & front & IH)].
  - exists "", []. reflexivity.
  - change (String c r +:+ String LF b) with (String c (r +:+ String LF b)).
    cbn [splitLines]. destruct (Ascii.eqb c "010").
    + exists "", (first :: front). now rewrite IH.
    + destruct (_ && _)%bool; [now exists first, front|].
      rewrite IH. now exists (String c first), front.
Qed.

(** A line without line feed is found again, up to a trailing carriage
    return, when the joined lines are split. *)
Lemma join_keeps_line (xs : list string) (t : string) (ys : list string) :
  hasChar LF t = false ->
  exists t', In t' (splitLines (join (String LF "") (xs ++ t :: ys)))
             /\ sameLine t' t.
Proof.
  intros Ht. induction xs as [|x xs IH].
  - cbn [app]. destruct ys as [|y ys].
    + cbn [join]. rewrite splitLines_single by exact Ht.
      exists t. split; [now left | now left].
    + rewrite join_cons.
      change (t +:+ String LF "" +:+ join (String LF "") (y :: ys))
        with (t +:+ String LF (join (String LF "") (y :: ys))).
      destruct (splitLines_line t (join (String LF "") (y :: ys)) Ht)
        as (t' & -> & Hsame).
      exists t'. split; [now left | exact Hsame].
  - destruct IH as (t' & Hin & Hsame). exists t'. split; [|exact Hsame].
    cbn [app]. destruct (xs ++ t :: ys) as [|z zs] eqn:E.
    + now destruct xs.
    + rewrite join_cons.
      change (x +:+ String LF "" +:+ join (String LF "") (z :: zs))
        with (x +:+ String LF (join (String LF "") (z :: zs))).
      destruct (splitLines_after_LF x (join (String LF "") (z :: zs)))
        as (first & front & ->).
      right. apply in_or_app. now right.
Qed.

Lemma trimmed_has_no_LF (l : string) : hasChar LF l = false -> hasChar LF (trim l) = false.
Proof. apply StringFacts.hasChar_trim. Qed.

Section WithPlatform.

Variable resolveUrl : string -> string -> string.
Variable protocolOf : string -> option string.
Variable base64url : string -> string.
Variable formEncode : string -> string.

Lemma sanitizeLine_segment_tag (baseUrl : string) (proxyBase token : option string)
    (l : string) :
  startsWith "#EXTINF" (trim l) = true ->
  sanitizeLine resolveUrl protocolOf base64url formEncode baseUrl proxyBase token l
  = trim l.
Proof.
  intros H. unfold sanitizeLine.
  rewrite (StringFacts.startsWith_nonempty _ _ _ H).
  rewrite (StringFacts.startsWith_first _ _ _ H).
  assert (carriesUri (trim l) = false) as ->; [|reflexivity].
  apply startsWith_iff in H as (r & ->). reflexivity.
Qed.

Lemma sanitizer_keeps_segments (content baseUrl : string)
    (proxyBase token : option string) :
  hasMediaSegments content = true ->
  hasMediaSegments
    (sanitizeM3U8Content resolveUrl protocolOf base64url formEncode
       content baseUrl proxyBase token) = true.
Proof.
  unfold hasMediaSegments at 1. intros H.
  apply existsb_exists in H as (l & Hin & Hl).
  unfold sanitizeM3U8Content.
  destruct (isEmpty content) eqn:Ec.
  { destruct content; [|discriminate]. cbn in Hin. destruct Hin as [<- | []].
    discriminate. }
  apply in_split in Hin as (xs & ys & E). rewrite E, map_app. cbn [map].
  rewrite (sanitizeLine_segment_tag baseUrl proxyBase token l Hl).
  assert (hasChar LF l = false) as Hlf.
  { apply (splitLines_no_LF content). rewrite E. apply in_or_app. right. now left. }
  destruct (join_keeps_line
              (map (sanitizeLine resolveUrl protocolOf base64url formEncode
                      baseUrl proxyBase token) xs)
              (trim l)
              (map (sanitizeLine resolveUrl protocolOf base64url formEncode
                      baseUrl proxyBase token) ys)
              (trimmed_has_no_LF l Hlf)) as (t' & Hin' & Hsame).
  unfold hasMediaSegments. apply existsb_exists. exists t'.
  split; [exact Hin'|].
  rewrite (trim_sameLine t' (trim l) Hsame), trim_idem. exact Hl.
Qed.

End WithPlatform.

(** X18.  The sanitiser never loses the segments, and the transcoder never
    gets the playlist unsanitised: if the content handed to
    [sanitizeM3U8Content] has an [#EXTINF] line, so has its result, for any
    URL parser and proxy settings; so whenever the attempt goes on, it goes
    on with the sanitised content, and it stops with the error only when
    the content had no segment in the first place. *)
Theorem transcoder_gets_the_sanitised_playlist
    (resolveUrl : string -> string -> string)
    (protocolOf : string -> option string)
    (base64url formEncode : string -> string)
    (content baseUrl : string) (proxyBase token : option string) :
  let sanitized :=
    sanitizeM3U8Content resolveUrl protocolOf base64url formEncode
      content baseUrl proxyBase token in
  let chosen :=
    choosePlaylistContent resolveUrl protocolOf base64url formEncode
      content baseUrl proxyBase token in
  (hasMediaSegments content = true ->
   hasMediaSegments sanitized = true /\ chosen = Ret sanitized)
  /\ (forall playlistContent,
        chosen = Ret playlistContent -> playlistContent = sanitized)
  /\ (forall message, chosen = Throw message ->
        hasMediaSegments content = false).
Proof.
  intros sanitized chosen.
  assert (hasMediaSegments content = true -> hasMediaSegments sanitized = true)
    as Hkeep by apply sanitizer_keeps_segments.
  subst chosen. unfold choosePlaylistContent. fold sanitized.
  destruct (hasMediaSegments sanitized) eqn:Hs; cbn [negb].
  - rewrite Hs. cbn [negb]. repeat split; congruence.
  - destruct (hasMediaSegments content) eqn:Hc; cbn [negb].
    + discriminate (Hkeep eq_refl).
    + repeat split; congruence.
Qed.

Lemma transcoder_gets_the_sanitised_playlist_witness :
  choosePlaylistContent resolveAbsolute httpProtocol (fun s => s) (fun s => s)
    shortPlaylist "http://cdn.example/s/index.m3u8" proxyBaseUrl (Some "t1")
  = Ret (sanitizeM3U8Content resolveAbsolute httpProtocol (fun s => s)
           (fun s => s) shortPlaylist "http://cdn.example/s/index.m3u8"
           proxyBaseUrl (Some "t1")).
Proof.
  exact (proj2 (proj1 (transcoder_gets_the_sanitised_playlist resolveAbsolute
                         httpProtocol (fun s => s) (fun s => s) shortPlaylist
                         "http://cdn.example/s/index.m3u8" proxyBaseUrl
                         (Some "t1")) eq_refl)).
Defined.

End SanitizerFacts.

(** ** The local manifest of the segment pool *)

Module LocalFacts.
Import JS Platform Playlist Fetcher CommonTerms PlanTerms EngageTerms LocalTerms
       QuotaRuns TextFacts DigitFacts.

Local Open Scope nat_scope.

(** *** Indices *)

Lemma uriIndices_app (a b : list string) (i : nat) :
  uriIndices (a ++ b) i = uriIndices a i ++ uriIndices b (i + length a).
Proof.
  revert i. induction a as [|x a IH]; intros i.
  - cbn. now rewrite Nat.add_0_r.
  - cbn [app uriIndices length]. rewrite IH.
    replace (S i + length a) with (i + S (length a)) by lia.
    now destruct (isUriLine x).
Qed.

Lemma uriIndices_bounds (lines : list string) (i j : nat) :
  In j (uriIndices lines i) ->
  i <= j < i + length lines /\ exists l, lines !! (j - i) = Some l /\ isUriLine l = true.
Proof.
  revert i. induction lines as [|x lines IH]; intros i; [intros []|].
  cbn [uriIndices length]. destruct (isUriLine x) eqn:Ex.
  - intros [<- | H].
    + split; [lia|]. exists x. now rewrite Nat.sub_diag.
    + destruct (IH (S i) H) as (Hb & l & Hl & Hu). split; [lia|].
      exists l. replace (j - i) with (S (j - S i)) by lia. now split.
  - intros H. destruct (IH (S i) H) as (Hb & l & Hl & Hu). split; [lia|].
    exists l. replace (j - i) with (S (j - S i)) by lia. now split.
Qed.

Lemma uriIndices_complete (lines : list string) (i k : nat) (l : string) :
  lines !! k = Some l -> isUriLine l = true -> In (i + k) (uriIndices lines i).
Proof.
  revert i k. induction lines as [|x lines IH]; intros i k; [discriminate|].
  destruct k as [|k]; cbn [uriIndices].
  - intros [= ->] ->. rewrite Nat.add_0_r. now left.
  - intros Hl Hu. replace (i + S k) with (S i + k) by lia.
    destruct (isUriLine x); [right|]; now apply IH.
Qed.

Lemma uriIndices_NoDup (lines : list string) (i : nat) :
  List.NoDup (uriIndices lines i).
Proof.
  revert i. induction lines as [|x lines IH]; intros i; [constructor|].
  cbn [uriIndices]. destruct (isUriLine x); [|apply IH].
  constructor; [|apply IH].
  intros H. apply uriIndices_bounds in H as [Hb _]. lia.
Qed.

Lemma uriIndices_length (lines : list string) (i : nat) :
  length (uriIndices lines i) = length (List.filter isUriLine lines).
Proof.
  revert i. induction lines as [|x lines IH]; intros i; [reflexivity|].
  cbn [uriIndices List.filter]. destruct (isUriLine x); cbn [length]; now rewrite IH.
Qed.

(** *** Line tables *)

Lemma lineTable_skip (xs : list Parsed) (m : gmap nat string) (j : nat) :
  (forall x, In x xs -> lineIndex x <> j) ->
  fold_left (fun m x => <[lineIndex x := localPath x]> m) xs m !! j = m !! j.
Proof.
  revert m. induction xs as [|x xs IH]; intros m H; [reflexivity|].
  cbn [fold_left]. rewrite IH by (intros y Hy; apply H; now right).
  apply lookup_insert_ne. apply H. now left.
Qed.

Lemma lineTable_none (xs : list Parsed) (j : nat) :
  (forall x, In x xs -> lineIndex x <> j) -> lineTable xs !! j = None.
Proof.
  intros H. unfold lineTable. rewrite lineTable_skip by exact H.
  apply lookup_empty.
Qed.

Lemma lineTable_some (xs : list Parsed) (x : Parsed) :
  List.NoDup (map lineIndex xs) -> In x xs ->
  lineTable xs !! lineIndex x = Some (localPath x).
Proof.
  unfold lineTable. generalize (∅ : gmap nat string).
  induction xs as [|y xs IH]; intros m Hd Hin; [destruct Hin|].
  cbn [map] in Hd. apply List.NoDup_cons_iff in Hd as [Hy Hd].
  cbn [fold_left]. destruct Hin as [-> | Hin].
  - rewrite lineTable_skip.
    + apply lookup_insert_eq.
    + intros z Hz E. apply Hy. rewrite <- E. now apply in_map.
  - now apply IH.
Qed.

(** *** Names *)

Section Names.

Variable resolveUrl : string -> string -> string.
Variable urlPathname : string -> option string.

Lemma segmentName_inj (k k' : nat) (u u' : string) :
  segmentName urlPathname k u = segmentName urlPathname k' u' -> k = k'.
Proof.
  unfold segmentName. intros E.
  apply (f_equal (JS.drop 4)) in E. cbn [JS.drop String.append] in E.
  destruct (PlanFacts.getSafeSegmentExtension_shape urlPathname u)
    as [(r & Er & _) _].
  destruct (PlanFacts.getSafeSegmentExtension_shape urlPathname u')
    as [(r' & Er' & _) _].
  rewrite Er, Er' in E.
  apply app_separator_inj in E as [E _].
  - apply (f_equal digitsNat) in E. rewrite !digitsNat_padStart0 in E.
    injection E as E. lia.
  - apply digits_free; [rewrite digitsNat_padStart0; discriminate | reflexivity].
  - apply digits_free; [rewrite digitsNat_padStart0; discriminate | reflexivity].
Qed.

Lemma segmentName_nonempty (k : nat) (u : string) :
  isEmpty (joinPath "segments" (segmentName urlPathname k u)) = false.
Proof. reflexivity. Qed.

Lemma snoc_lookup {A} (xs : list A) (x : A) (k : nat) (y : A) :
  (xs ++ [x]) !! k = Some y ->
  xs !! k = Some y \/ (k = length xs /\ y = x).
Proof.
  intros H. destruct (Nat.lt_ge_cases k (length xs)) as [Hlt | Hge].
  - left. now rewrite lookup_app_l in H.
  - rewrite lookup_app_r in H by exact Hge.
    destruct (k - length xs) as [|n] eqn:E; [|now destruct n].
    injection H as <-. right. split; [lia | reflexivity].
Qed.

Lemma grown_lookup (done : list string) (l : string) (j : nat) (line : string) :
  done !! j = Some line -> (done ++ [l]) !! j = Some line.
Proof. intros H. rewrite lookup_app_l; [exact H|]. now apply lookup_lt_Some in H. Qed.

Lemma last_lookup (done : list string) (l : string) :
  (done ++ [l]) !! length done = Some l.
Proof. rewrite lookup_app_r by lia. now rewrite Nat.sub_diag. Qed.

(** One more entry in a list of keys or maps, at the line just read. *)
Lemma named_entries_grow (tagName : string) (done : list string) (l : string)
    (entries : list Parsed) (cond : bool) (resolved path : string) :
  startsWith tagName (trim l) = true ->
  (forall p, In p entries ->
     exists line, done !! lineIndex p = Some line
                  /\ startsWith tagName (trim line) = true) ->
  forall p,
    In p (if cond then entries
          else entries ++ [{| lineIndex := length done; resolved := resolved;
                              localPath := path |}]) ->
    exists line, (done ++ [l]) !! lineIndex p = Some line
                 /\ startsWith tagName (trim line) = true.
Proof.
  intros Hl H p Hp.
  assert (In p entries \/ p = {| lineIndex := length done; resolved := resolved;
                                 localPath := path |}) as [Hin | ->].
  { destruct cond; [now left|]. apply in_app_or in Hp as [Hp | [<- | []]]; auto. }
  - destruct (H p Hin) as (line & Hline & Ht). exists line.
    split; [now apply grown_lookup | exact Ht].
  - exists l. split; [apply last_lookup | exact Hl].
Qed.

Lemma localPlan_grow (baseUrl : string) (done : list string) (l : string)
    (st st' : PlanState) :
  localPlan resolveUrl urlPathname baseUrl done st ->
  (forall p, In p (keys st') ->
     exists line, (done ++ [l]) !! lineIndex p = Some line
                  /\ startsWith "#EXT-X-KEY" (trim line) = true) ->
  (forall p, In p (maps st') ->
     exists line, (done ++ [l]) !! lineIndex p = Some line
                  /\ startsWith "#EXT-X-MAP" (trim line) = true) ->
  isUriLine l = false -> segments st' = segments st ->
  localPlan resolveUrl urlPathname baseUrl (done ++ [l]) st'.
Proof.
  intros (H1 & H2 & _ & _) Hk Hm Hl Hs. split; [|split; [|split]].
  - rewrite Hs, H1, uriIndices_app. cbn [uriIndices]. rewrite Hl.
    now rewrite app_nil_r.
  - rewrite Hs. intros k s Hks. destruct (H2 k s Hks) as (Hp & line & Hline & Hr).
    split; [exact Hp|]. exists line. split; [now apply grown_lookup | exact Hr].
  - exact Hk.
  - exact Hm.
Qed.

Lemma kept_entries (tagName : string) (done : list string) (l : string)
    (entries : list Parsed) :
  (forall p, In p entries ->
     exists line, done !! lineIndex p = Some line
                  /\ startsWith tagName (trim line) = true) ->
  forall p, In p entries ->
    exists line, (done ++ [l]) !! lineIndex p = Some line
                 /\ startsWith tagName (trim line) = true.
Proof.
  intros H p Hp. destruct (H p Hp) as (line & Hline & Ht).
  exists line. split; [now apply grown_lookup | exact Ht].
Qed.

Lemma planLine_local (baseUrl : string) (done : list string) (l : string)
    (st st' : PlanState) :
  localPlan resolveUrl urlPathname baseUrl done st ->
  planLine resolveUrl urlPathname baseUrl (length done) l st = Some st' ->
  localPlan resolveUrl urlPathname baseUrl (done ++ [l]) st'.
Proof.
  intros Hinv. pose proof Hinv as (H1 & H2 & H3 & H4). unfold planLine.
  destruct (isEmpty (trim l)) eqn:Hemp.
  { intros [= <-]. apply (localPlan_grow baseUrl done l st st Hinv);
      [now apply kept_entries | now apply kept_entries | | reflexivity].
    unfold isUriLine. now rewrite Hemp. }
  destruct (startsWith "#EXT-X-BYTERANGE" (trim l)) eqn:Hbr.
  { intros [= <-]. apply (localPlan_grow baseUrl done l st _ Hinv);
      [now apply kept_entries | now apply kept_entries | | reflexivity].
    unfold isUriLine. apply StringFacts.startsWith_first in Hbr.
    rewrite Hbr. apply andb_false_r. }
  destruct (startsWith "#EXT-X-PART" (trim l) || startsWith "#EXT-X-PRELOAD-HINT" (trim l))%bool
    eqn:Hpart.
  { intros [= <-]. apply (localPlan_grow baseUrl done l st _ Hinv);
      [now apply kept_entries | now apply kept_entries | | reflexivity].
    unfold isUriLine.
    apply orb_true_iff in Hpart as [E | E];
      apply StringFacts.startsWith_first in E; rewrite E; apply andb_false_r. }
  destruct (startsWith "#EXT-X-KEY" (trim l)) eqn:Hkey.
  { assert (isUriLine l = false) as Hl.
    { unfold isUriLine. apply StringFacts.startsWith_first in Hkey.
      rewrite Hkey. apply andb_false_r. }
    destruct (_ && _)%bool; [discriminate|].
    destruct (_ && _)%bool.
    - intros [= <-]. apply (localPlan_grow baseUrl done l st _ Hinv);
        [| now apply kept_entries | exact Hl | reflexivity].
      cbn [keys]. now apply named_entries_grow.
    - intros [= <-]. apply (localPlan_grow baseUrl done l st st Hinv);
        [now apply kept_entries | now apply kept_entries | exact Hl | reflexivity]. }
  destruct (startsWith "#EXT-X-MAP" (trim l)) eqn:Hmap.
  { assert (isUriLine l = false) as Hl.
    { unfold isUriLine. apply StringFacts.startsWith_first in Hmap.
      rewrite Hmap. apply andb_false_r. }
    destruct (negb _).
    - intros [= <-]. apply (localPlan_grow baseUrl done l st _ Hinv);
        [now apply kept_entries | | exact Hl | reflexivity].
      cbn [maps]. now apply named_entries_grow.
    - intros [= <-]. apply (localPlan_grow baseUrl done l st st Hinv);
        [now apply kept_entries | now apply kept_entries | exact Hl | reflexivity]. }
  destruct (startsWith "#" (trim l)) eqn:Hsharp.
  { intros [= <-]. apply (localPlan_grow baseUrl done l st st Hinv);
      [now apply kept_entries | now apply kept_entries | | reflexivity].
    unfold isUriLine. rewrite Hsharp. apply andb_false_r. }
  intros [= <-]. cbn [segments keys maps].
  assert (isUriLine l = true) as Hl by (unfold isUriLine; now rewrite Hemp, Hsharp).
  split; [|split; [|split]].
  - cbn [segments]. rewrite map_app, H1, uriIndices_app. cbn [map uriIndices lineIndex].
    now rewrite Hl.
  - cbn [segments]. intros k s Hks. apply snoc_lookup in Hks as [Hks | [-> ->]].
    + destruct (H2 k s Hks) as (Hp & line & Hline & Hr).
      split; [exact Hp|]. exists line. split; [now apply grown_lookup | exact Hr].
    + cbn [localPath resolved lineIndex]. split; [reflexivity|].
      exists l. split; [apply last_lookup | reflexivity].
  - now apply kept_entries.
  - now apply kept_entries.
Qed.

Lemma planLoop_local (baseUrl : string) (lines done : list string)
    (st st' : PlanState) :
  localPlan resolveUrl urlPathname baseUrl done st ->
  planLoop resolveUrl urlPathname baseUrl lines (length done) st = Some st' ->
  localPlan resolveUrl urlPathname baseUrl (done ++ lines) st'.
Proof.
  revert done st. induction lines as [|l lines IH]; intros done st Hinv.
  - cbn [planLoop]. intros [= <-]. now rewrite app_nil_r.
  - cbn [planLoop].
    destruct (planLine resolveUrl urlPathname baseUrl (length done) l st)
      as [st1|] eqn:E; [|discriminate].
    intros Hloop. apply (planLine_local baseUrl done l st st1 Hinv) in E.
    replace (done ++ l :: lines) with ((done ++ [l]) ++ lines)
      by now rewrite <- app_assoc.
    apply (IH (done ++ [l]) st1 E). now rewrite length_app, Nat.add_1_r.
Qed.

Lemma planDownload_local (content baseUrl : string) (st : PlanState) :
  planDownload resolveUrl urlPathname content baseUrl = Some st ->
  localPlan resolveUrl urlPathname baseUrl (splitLines content) st.
Proof.
  unfold planDownload. destruct (_ || _)%bool; [discriminate|].
  destruct (planLoop _ _ _ _ _ _) as [st1|] eqn:E; [|discriminate].
  destruct (_ || _)%bool; [discriminate|].
  destruct (Nat.ltb _ _); [discriminate|]. intros [= <-].
  apply (planLoop_local baseUrl (splitLines content) [] emptyPlan st1); [|exact E].
  split; [reflexivity|]. split; [intros k s H; discriminate|].
  split; intros p [].
Qed.

End Names.

(** X19.  Downloaded segments do not overwrite one another.  In every plan
    of the segment pool the segments are the segment lines of the playlist,
    in their order and at least six of them, and no two of them share a
    local file: the [k]-th is stored under [segments/seg_] followed by its
    number [k + 1] padded to five digits and a safe extension. *)
Theorem segment_files_do_not_collide
    (resolveUrl : string -> string -> string)
    (urlPathname : string -> option string)
    (content baseUrl : string) (st : PlanState) :
  planDownload resolveUrl urlPathname content baseUrl = Some st ->
  map lineIndex (segments st) = uriIndices (splitLines content) 0
  /\ 6 <= length (segments st)
  /\ (forall k s, segments st !! k = Some s ->
        localPath s
        = "segments/seg_" +:+ padStart0 5 (natToString (k + 1))
            +:+ getSafeSegmentExtension urlPathname (resolved s))
  /\ List.NoDup (map localPath (segments st)).
Proof.
  intros Hplan.
  pose proof (planDownload_local resolveUrl urlPathname content baseUrl st Hplan)
    as (H1 & H2 & _ & _).
  split; [exact H1|]. split.
  { revert Hplan. unfold planDownload. destruct (_ || _)%bool; [discriminate|].
    destruct (planLoop _ _ _ _ _ _) as [st1|]; [|discriminate].
    destruct (_ || _)%bool; [discriminate|].
    destruct (Nat.ltb_spec (length (segments st1)) DEFAULT_SEGMENT_MIN_COUNT);
      [discriminate|].
    intros [= <-]. exact H. }
  split.
  { intros k s Hks. destruct (H2 k s Hks) as [-> _]. reflexivity. }
  apply NoDup_ListNoDup. apply NoDup_alt. intros i j p Hi Hj.
  rewrite list_lookup_fmap in Hi, Hj.
  destruct (segments st !! i) as [si|] eqn:Ei; [|discriminate].
  destruct (segments st !! j) as [sj|] eqn:Ej; [|discriminate].
  cbn in Hi, Hj. injection Hi as Hi. injection Hj as Hj.
  destruct (H2 i si Ei) as [Epi _]. destruct (H2 j sj Ej) as [Epj _].
  rewrite Epi in Hi. rewrite Epj in Hj. rewrite <- Hj in Hi.
  unfold joinPath in Hi.
  apply (f_equal (JS.drop 9)) in Hi. cbn [JS.drop String.append] in Hi.
  now apply segmentName_inj in Hi.
Qed.

Lemma segment_files_do_not_collide_witness :
  exists st,
    planDownload (fun line base => line) examplePathname disguisedPlaylist
      "http://cdn.example/v/index.m3u8" = Some st
    /\ List.NoDup (map localPath (segments st)).
Proof.
  destruct (planDownload (fun line base => line) examplePathname
              disguisedPlaylist "http://cdn.example/v/index.m3u8")
    as [st|] eqn:E; [|vm_compute in E; discriminate].
  exists st. split; [reflexivity|].
  exact (proj2 (proj2 (proj2
           (segment_files_do_not_collide (fun line base => line)
              examplePathname disguisedPlaylist
              "http://cdn.example/v/index.m3u8" st E)))).
Defined.

(** X20.  The local manifest names local files.  In the manifest the
    segment pool writes, every segment line of the playlist is replaced by
    the local path of the segment downloaded for that line, the one the
    line's resolved URL was stored under; a line that is neither a segment
    line nor an [#EXT-X-KEY] or [#EXT-X-MAP] tag is written as it is; and
    the manifest has as many lines as the playlist. *)
Theorem local_manifest_names_local_files
    (resolveUrl : string -> string -> string)
    (urlPathname : string -> option string)
    (content baseUrl : string) (st : PlanState) :
  planDownload resolveUrl urlPathname content baseUrl = Some st ->
  let lines := splitLines content in
  length (rewriteManifest st lines) = length lines
  /\ forall i line, lines !! i = Some line ->
       (isUriLine line = true ->
        exists k s,
          segments st !! k = Some s /\ lineIndex s = i
          /\ resolved s = resolveUrl (trim line) baseUrl
          /\ localPath s
             = joinPath "segments" (segmentName urlPathname k (resolved s))
          /\ rewriteManifest st lines !! i = Some (localPath s))
       /\ (isUriLine line = false ->
           startsWith "#EXT-X-KEY" (trim line) = false ->
           startsWith "#EXT-X-MAP" (trim line) = false ->
           rewriteManifest st lines !! i = Some line).
Proof.
  intros Hplan lines.
  pose proof (planDownload_local resolveUrl urlPathname content baseUrl st Hplan)
    as (H1 & H2 & H3 & H4). fold lines in H1, H2, H3, H4.
  split; [apply length_imap|].
  intros i line Hline.
  assert (forall tagName (entries : list Parsed),
            (forall p, In p entries ->
               exists l, lines !! lineIndex p = Some l
                         /\ startsWith tagName (trim l) = true) ->
            startsWith tagName (trim line) = false ->
            lineTable entries !! i = None) as Hskip.
  { intros tagName entries Hall Hno. apply lineTable_none.
    intros x Hx E. destruct (Hall x Hx) as (l & Hl & Ht).
    rewrite E, Hline in Hl. injection Hl as <-. congruence. }
  unfold rewriteManifest. rewrite list_lookup_imap, Hline. cbn [fmap option_fmap option_map].
  split.
  - intros Hu.
    assert (startsWith "#" (trim line) = false) as Hsharp.
    { unfold isUriLine in Hu. apply andb_true_iff in Hu as [_ Hu].
      now apply negb_true_iff in Hu. }
    assert (forall tagName, startsWith (String "#" tagName) (trim line) = false)
      as Hnotag.
    { intros tagName.
      destruct (startsWith (String "#" tagName) (trim line)) eqn:E; [|reflexivity].
      apply StringFacts.startsWith_first in E. congruence. }
    pose proof (uriIndices_complete lines 0 i line Hline Hu) as Hin.
    rewrite <- H1 in Hin. cbn [Nat.add] in Hin.
    apply in_map_iff in Hin as (s & Hs & Hin).
    pose proof Hin as Hk. apply list_elem_of_In, list_elem_of_lookup_1 in Hk
      as (k & Hk).
    destruct (H2 k s Hk) as (Hpath & l & Hl & Hr).
    rewrite Hs, Hline in Hl. injection Hl as <-.
    exists k, s. split; [exact Hk|]. split; [exact Hs|]. split; [exact Hr|].
    split; [exact Hpath|].
    unfold rewriteLine.
    rewrite (Hskip _ (keys st) H3 (Hnotag _)), (Hskip _ (maps st) H4 (Hnotag _)).
    rewrite <- Hs, lineTable_some; [| rewrite H1; apply uriIndices_NoDup | exact Hin].
    rewrite Hpath. reflexivity.
  - intros Hu Hkey Hmap. unfold rewriteLine.
    rewrite (Hskip _ (keys st) H3 Hkey), (Hskip _ (maps st) H4 Hmap).
    rewrite lineTable_none; [reflexivity|].
    intros x Hx E.
    assert (In i (uriIndices lines 0)) as Hin
      by (rewrite <- H1, <- E; now apply in_map).
    apply uriIndices_bounds in Hin as (_ & l & Hl & Hlu).
    rewrite Nat.sub_0_r, Hline in Hl. injection Hl as <-. congruence.
Qed.

Lemma local_manifest_names_local_files_witness :
  exists st,
    planDownload (fun line base => line) examplePathname disguisedPlaylist
      "http://cdn.example/v/index.m3u8" = Some st
    /\ length (rewriteManifest st (splitLines disguisedPlaylist))
       = length (splitLines disguisedPlaylist).
Proof.
  destruct (planDownload (fun line base => line) examplePathname
              disguisedPlaylist "http://cdn.example/v/index.m3u8")
    as [st|] eqn:E; [|vm_compute in E; discriminate].
  exists st. split; [reflexivity|].
  exact (proj1 (local_manifest_names_local_files (fun line base => line)
                  examplePathname disguisedPlaylist
                  "http://cdn.example/v/index.m3u8" st E)).
Defined.

End LocalFacts.

(** ** Narrowing only removes *)

Module ChainFacts.
Import JS Platform Playlist Driver NarrowingTerms ChainTerms.

Lemma narrow_is_narrower (o : OptionState) (unsupported : list string) :
  snd (narrow o unsupported) = true -> narrower (fst (narrow o unsupported)) o.
Proof.
  unfold narrow, narrower. cbn [fst snd includeHeaders includeProtocolWhitelist
    includeAllowedExtensions includeAllowedSegmentExtensions].
  destruct o as [h w e s]. cbn [includeHeaders includeProtocolWhitelist
    includeAllowedExtensions includeAllowedSegmentExtensions].
  destruct h, w, e, s;
    destruct (includesStr "headers" unsupported || includesStr "user_agent" unsupported)%bool,
             (includesStr "protocol_whitelist" unsupported),
             (includesStr "allowed_extensions" unsupported),
             (includesStr "allowed_segment_extensions" unsupported);
    cbn; intros H; try discriminate H; repeat split; auto; discriminate.
Qed.

Section Loop.

Variable isHls : bool.
Variable headerArgs : list string.
Variable inputUrl outputPath : string.
Variable transcoder : list (list string) -> list string -> ProcessRun.

Lemma narrowLoop_chain (n : nat) (o : OptionState) (r : FfmpegResult)
    (calls : list (list string)) :
  exists os,
    snd (narrowLoop isHls headerArgs inputUrl outputPath transcoder n o r calls)
    = calls ++ map (buildArgs isHls headerArgs inputUrl outputPath) os
    /\ narrowingChain o os /\ (List.length os <= n)%nat.
Proof.
  revert o r calls. induction n as [|n IH]; intros o r calls.
  - exists []. cbn [narrowLoop]. destruct (fr_ok r); cbn; rewrite app_nil_r; auto.
  - cbn [narrowLoop]. destruct (fr_ok r).
    { exists []. cbn. rewrite app_nil_r. split; [reflexivity|]. split; [exact I | lia]. }
    destruct (Nat.eqb _ 0).
    { exists []. cbn. rewrite app_nil_r. split; [reflexivity|]. split; [exact I | lia]. }
    destruct (narrow o (default [] (fr_unsupportedOptions r))) as [o' changed] eqn:E.
    destruct changed; cbn [negb].
    2: { exists []. cbn. rewrite app_nil_r. split; [reflexivity|]. split; [exact I | lia]. }
    destruct (IH o' (runFfmpeg isHls headerArgs inputUrl outputPath transcoder calls o')
                (calls ++ [buildArgs isHls headerArgs inputUrl outputPath o']))
      as (os & Hcalls & Hchain & Hlen).
    exists (o' :: os). split; [|split].
    + rewrite Hcalls. cbn [map]. now rewrite <- app_assoc.
    + cbn [narrowingChain]. split; [|exact Hchain].
      pose proof (narrow_is_narrower o (default [] (fr_unsupportedOptions r))) as H.
      rewrite E in H. now apply H.
    + cbn [List.length]. lia.
Qed.

End Loop.

(** X21.  Narrowing only removes.  The runs of the transcoder in one
    attempt are the first run and at most three retries; each retry's
    arguments are built from an option state that passes no flag group the
    run before it did not pass, and at least one group fewer: a group that
    was dropped never comes back, and no run repeats the options of the
    run before it. *)
Theorem narrowing_only_removes
    (isHls : bool) (headerArgs : list string) (inputUrl outputPath : string)
    (transcoder : list (list string) -> list string -> ProcessRun) :
  exists os,
    snd (runWithNarrowing isHls headerArgs inputUrl outputPath transcoder)
    = map (buildArgs isHls headerArgs inputUrl outputPath)
        (initialOptionState isHls headerArgs :: os)
    /\ narrowingChain (initialOptionState isHls headerArgs) os
    /\ (List.length os <= 3)%nat.
Proof.
  unfold runWithNarrowing.
  destruct (narrowLoop_chain isHls headerArgs inputUrl outputPath transcoder
              MAX_NARROWING_RETRIES (initialOptionState isHls headerArgs)
              (runFfmpeg isHls headerArgs inputUrl outputPath transcoder []
                 (initialOptionState isHls headerArgs))
              [buildArgs isHls headerArgs inputUrl outputPath
                 (initialOptionState isHls headerArgs)])
    as (os & Hcalls & Hchain & Hlen).
  exists os. split; [exact Hcalls|]. split; [exact Hchain | exact Hlen].
Qed.

End ChainFacts.

(** ** Before and around the attempts *)

Module PrecheckFacts.
Import JS Platform Parser Playlist Db Quota Gateway GatewayTerms Core CoreTerms.
Import Precheck Attempts AttemptTerms QuotaFacts.

(** A call of [checkAndConsumeQuota] leaves the cache alone or counts one
    download. *)
Lemma quota_change (u d : string) (enabled checkOnly : bool) (limit ttl : Z)
    (c : Cache) :
  snd (checkAndConsumeQuota u enabled limit checkOnly d ttl c) = c
  \/ (checkOnly = false
      /\ allowed (fst (checkAndConsumeQuota u enabled limit checkOnly d ttl c))
         = true
      /\ setCache c (quotaKey u d) (VNumber (counter c u d + 1)) ttl
         = Ret (snd (checkAndConsumeQuota u enabled limit checkOnly d ttl c))).
Proof.
  unfold checkAndConsumeQuota, counter.
  destruct enabled; cbn [negb]; [|now left].
  destruct (limit <=? 0); [now left|].
  destruct (getCache c (quotaKey u d)) as [raw|m] eqn:Hget; [|now left].
  destruct (limit <=? currentCountOf raw); [now left|].
  destruct checkOnly; [now left|].
  destruct (setCache c (quotaKey u d) (VNumber (currentCountOf raw + 1)) ttl)
    as [c'|m] eqn:Hset; [|now left].
  right. cbn [fst snd allowed]. auto.
Qed.

#[local] Arguments includesStr : simpl never.
#[local] Arguments Core.isPrivateHost : simpl never.
#[local] Arguments toLowerCase : simpl never.
#[local] Arguments split : simpl never.
#[local] Arguments head : simpl never.
#[local] Arguments parseUrlWithHeaders : simpl never.
#[local] Arguments checkAndConsumeQuota : simpl never.

(** X22.  Quota is spent only on a download that passed every check.
    The checks before a download either leave the cache as it was, or the
    request was not a check-only one, it passed (valid http or https
    target, no foreign private host, known user who is not banned, quota
    left) and the one change is the write that puts the user's counter of
    the day one higher.  So a refused request costs nothing, and it is
    refused with status 400, 403 or 429. *)
Theorem quota_is_spent_only_on_cleared_downloads
    (parseURL : string -> string -> option URL)
    (urlParam : option string) (request : CoreRequest)
    (users : list UserEntry) (username : string) (checkOnly : bool)
    (dateKey : string) (ttl : Z) (c : Cache) :
  (snd (precheck parseURL urlParam request users username checkOnly dateKey
          ttl c) = c
   \/ (checkOnly = false
       /\ (exists cleared,
             fst (precheck parseURL urlParam request users username checkOnly
                    dateKey ttl c) = Passed cleared
             /\ allowed (cl_quotaResult cleared) = true)
       /\ setCache c (quotaKey username dateKey)
            (VNumber (counter c username dateKey + 1)) ttl
          = Ret (snd (precheck parseURL urlParam request users username
                        checkOnly dateKey ttl c))))
  /\ (forall error,
        fst (precheck parseURL urlParam request users username checkOnly
               dateKey ttl c) = Rejected error ->
        snd (precheck parseURL urlParam request users username checkOnly
               dateKey ttl c) = c
        /\ In (de_status error) [400; 403; 429]).
Proof.
  unfold precheck.
  destruct (falsy urlParam);
    [split; [now left | intros e [= <-]; cbn; auto]|].
  destruct (parseURL _ _) as [targetUrl|];
    [|split; [now left | intros e [= <-]; cbn; auto]].
  destruct (negb (includesStr _ _));
    [split; [now left | intros e [= <-]; cbn; auto]|].
  destruct (_ && _)%bool;
    [split; [now left | intros e [= <-]; cbn; auto]|].
  destruct (findUser users username) as [userEntry|];
    [|split; [now left | intros e [= <-]; cbn; auto]].
  destruct (ue_banned userEntry);
    [split; [now left | intros e [= <-]; cbn; auto]|].
  set (enabled := negb _). set (limit := Z.max 0 _).
  pose proof (quota_change username dateKey enabled checkOnly limit ttl c) as Hq.
  destruct (checkAndConsumeQuota username enabled limit checkOnly dateKey ttl c)
    as [quotaResult c'] eqn:E.
  cbn [fst snd] in Hq.
  destruct (allowed quotaResult) eqn:Ha; cbn [negb fst snd].
  - split; [|intros e He; discriminate He].
    destruct Hq as [Hq | (Hc & _ & Hset)]; [now left|].
    right. split; [exact Hc|]. split; [|exact Hset].
    eexists. split; [reflexivity|]. exact Ha.
  - destruct Hq as [Hq | (_ & Hal & _)]; [|discriminate Hal].
    split; [now left|]. intros e [= <-]. split; [exact Hq|]. cbn. auto.
Qed.

Lemma findUser_banned (users : list UserEntry) (username : string)
    (userEntry : UserEntry) :
  (forall user, In user users -> ue_username user = username ->
                ue_banned user = true) ->
  findUser users username = Some userEntry -> ue_banned userEntry = true.
Proof.
  intros Hall Hfind. unfold findUser in Hfind.
  apply find_some in Hfind as [Hin Heq].
  apply String.eqb_eq in Heq. now apply Hall.
Qed.

(** X23.  A banned or unknown user gets nothing.  When every entry of the
    user list under the caller's name is banned (in particular when there
    is none), the request is refused with status 400 or 403 whatever else
    it holds, and the cache is left as it was: no quota is counted. *)
Theorem banned_or_unknown_user_is_refused
    (parseURL : string -> string -> option URL)
    (urlParam : option string) (request : CoreRequest)
    (users : list UserEntry) (username : string) (checkOnly : bool)
    (dateKey : string) (ttl : Z) (c : Cache) :
  (forall user, In user users -> ue_username user = username ->
                ue_banned user = true) ->
  exists error,
    precheck parseURL urlParam request users username checkOnly dateKey ttl c
    = (Rejected error, c)
    /\ (de_status error = 400 \/ de_status error = 403).
Proof.
  intros Hall. unfold precheck.
  destruct (falsy urlParam); [eexists; split; [reflexivity|now left]|].
  destruct (parseURL _ _) as [targetUrl|];
    [|eexists; split; [reflexivity|now left]].
  destruct (negb (includesStr _ _)); [eexists; split; [reflexivity|now left]|].
  destruct (_ && _)%bool; [eexists; split; [reflexivity|now right]|].
  destruct (findUser users username) as [userEntry|] eqn:Hfind;
    [|eexists; split; [reflexivity|now right]].
  rewrite (findUser_banned users username userEntry Hall Hfind).
  eexists; split; [reflexivity|now right].
Qed.

Lemma banned_or_unknown_user_is_refused_witness :
  exists error,
    precheck tsParseURL (Some tsUrl) exampleRequest exampleUsers "mallory"
      false "2026-01-01" 3600 emptyCache
    = (Rejected error, emptyCache)
    /\ (de_status error = 400 \/ de_status error = 403).
Proof.
  refine (banned_or_unknown_user_is_refused tsParseURL (Some tsUrl)
            exampleRequest exampleUsers "mallory" false "2026-01-01" 3600
            emptyCache _).
  intros user Hin Hname. cbn [exampleUsers In] in Hin.
  destruct Hin as [<- | [<- | []]]; [reflexivity | discriminate Hname].
Defined.

Lemma corePrivateHost_spec (host : string) :
  blockedForm (toLowerCase host) -> Core.isPrivateHost host = true.
Proof.
  intros H. rewrite GatewayMoreFacts.isPrivateHost_same.
  now apply GatewayMoreFacts.isPrivateHost_spec,
    GatewayMoreFacts.blockedForm_private.
Qed.

(** X24.  A download target that parses to an http or https URL whose host
    name, as the parsed URL reports it, is [localhost] or starts with
    [127.], [0.], [10.], [192.168.] or [172.16.] to [172.31.] (in any
    letter case), and is not the host the request itself names, is refused
    with status 403 before the user list or the quota is looked at: the
    cache is left as it was.  The rule does not reach IPv6: a host name in
    brackets, such as [[::1]], is never counted as private. *)
Theorem download_refuses_private_targets
    (parseURL : string -> string -> option URL)
    (request : CoreRequest)
    (users : list UserEntry) (username : string) (checkOnly : bool)
    (dateKey : string) (ttl : Z) (c : Cache) :
  (forall urlParam target,
     isEmpty urlParam = false ->
     parseURL (url (parseUrlWithHeaders urlParam)) (cr_url request)
     = Some target ->
     includesStr (protocol target) ["http:"; "https:"] = true ->
     blockedForm (toLowerCase (hostname target)) ->
     (forall h, cr_host request = Some h ->
                toLowerCase (head (split ":" h))
                <> toLowerCase (hostname target)) ->
     precheck parseURL (Some urlParam) request users username checkOnly
       dateKey ttl c
     = (Rejected (downloadError "目标地址被阻止" 403), c))
  /\ (forall host, startsWith "[" host = true ->
                   Core.isPrivateHost host = false).
Proof.
  split.
  - intros urlParam target He Hp Hproto Hpriv Hf.
    unfold precheck. cbn [falsy default].
    rewrite He. cbn [default id from_option]. rewrite Hp, Hproto. cbn [negb].
    rewrite (corePrivateHost_spec _ Hpriv). cbn [andb].
    rewrite bool_decide_eq_false_2; [reflexivity|].
    destruct (cr_host request) as [h|]; [|discriminate].
    intros [= E]. now apply (Hf h).
  - intros host H. rewrite GatewayMoreFacts.isPrivateHost_same.
    now apply GatewayMoreFacts.bracketed_not_private.
Qed.

Lemma download_refuses_private_targets_witness :
  precheck routerParseURL (Some routerUrl) exampleRequest exampleUsers
    "alice" false "2026-01-01" 3600 emptyCache
  = (Rejected (downloadError "目标地址被阻止" 403), emptyCache)
  /\ Core.isPrivateHost "[::1]" = false.
Proof.
  split.
  - refine (proj1 (download_refuses_private_targets routerParseURL
              exampleRequest exampleUsers "alice" false "2026-01-01" 3600
              emptyCache) routerUrl
              {| protocol := "http:"; hostname := "192.168.1.1";
                 pathname := "/seg/0001.ts"; href := routerUrl |}
              eq_refl _ eq_refl _ _).
    + vm_compute. reflexivity.
    + right. right. right. right. right. exists "1.1". reflexivity.
    + intros h [= <-]. vm_compute. discriminate.
  - exact (proj2 (download_refuses_private_targets routerParseURL
             exampleRequest exampleUsers "alice" false "2026-01-01" 3600
             emptyCache) "[::1]" eq_refl).
Defined.

End PrecheckFacts.

(** ** The attempts and what follows a failure *)

Module AttemptFacts.
Import JS Platform Db Quota Precheck Attempts AttemptTerms.
Local Open Scope Z_scope.

Ltac run_attempts runAttempt :=
  unfold runAttempts, tryBlock, attemptModes, refundAndCleanup;
  cbn [attemptLoop tried ffmpegFailed lastError app negb];
  repeat match goal with
         | |- context [runAttempt ?before ?mode] =>
             let E := fresh "E" in
             destruct (runAttempt before mode) as [?size | ?stage ?failure] eqn:E;
             cbn [attemptLoop tried ffmpegFailed lastError app negb orb]
         end.

Ltac no_such_attempt :=
  let k := fresh "k" in
  let Hk := fresh "Hk" in
  let Hr := fresh "Hr" in
  intros (k & ?m & ?e & Hk & Hr);
  destruct k as [|[|k]]; cbn in Hk, Hr; try discriminate Hk;
  injection Hk as <-; congruence.

(** X25.  A download fails only after every mode has been tried.  When the
    attempts end in an error, the modes tried are all those planned, in
    their order (for an HLS target the proxy and the direct mode, the
    preferred one first; otherwise the direct mode only), each of them
    failed, and the error reported is that of the last one: a
    [DownloadError] as it was thrown, any other error as a
    [DownloadError] of status 500 with the same message. *)
Theorem download_fails_only_after_every_mode
    (isHls preferProxy : bool)
    (runAttempt : list bool -> bool -> AttemptOutcome)
    (error : DownloadError) (events : list CoreEvent) :
  runAttempts isHls runAttempt preferProxy = (Rejected error, events) ->
  attemptsOf events = attemptModes isHls preferProxy
  /\ (forall k useProxy,
        attemptModes isHls preferProxy !! k = Some useProxy ->
        exists stage failure,
          runAttempt (firstn k (attemptModes isHls preferProxy)) useProxy
          = Failed stage failure
          /\ (S k = List.length (attemptModes isHls preferProxy) ->
              error = errorAfterLoop (Some failure))).
Proof.
  destruct isHls, preferProxy; run_attempts runAttempt;
    intros [= <- <-];
    repeat match goal with
           | s : bool |- _ => destruct s
           end;
    (split; [reflexivity|]);
    intros k useProxy Hk; destruct k as [|[|k]]; cbn in Hk;
    try discriminate Hk; injection Hk as <-; cbn [firstn];
    eexists; eexists; (split; [eassumption|]); cbn [List.length];
    intros Hlen; try discriminate Hlen; reflexivity.
Qed.

Lemma download_fails_only_after_every_mode_witness :
  attemptsOf
    (snd (runAttempts true alwaysFfmpegFails false))
  = attemptModes true false
  /\ (forall k useProxy,
        attemptModes true false !! k = Some useProxy ->
        exists stage failure,
          alwaysFfmpegFails (firstn k (attemptModes true false)) useProxy
          = Failed stage failure
          /\ (S k = List.length (attemptModes true false) ->
              downloadError "FFmpeg failed" 500
              = errorAfterLoop (Some failure))).
Proof.
  exact (download_fails_only_after_every_mode true false alwaysFfmpegFails
           (downloadError "FFmpeg failed" 500)
           (snd (runAttempts true alwaysFfmpegFails false)) eq_refl).
Defined.

(** What a failing run asks for after the attempts: the same two steps
    twice, the refund only when some attempt failed in the transcoding
    stage. *)
Lemma failed_run_shape
    (isHls preferProxy : bool)
    (runAttempt : list bool -> bool -> AttemptOutcome)
    (error : DownloadError) (events : list CoreEvent) :
  runAttempts isHls runAttempt preferProxy = (Rejected error, events) ->
  exists b,
    events
    = map Attempt (attemptsOf events)
        ++ (refundsIf b ++ [Cleanup]) ++ (refundsIf b ++ [Cleanup])
    /\ (b = true <-> transcodingFailed runAttempt (attemptsOf events)).
Proof.
  unfold transcodingFailed.
  destruct isHls, preferProxy; run_attempts runAttempt;
    intros [= <- <-];
    repeat match goal with
           | s : bool |- _ => destruct s
           end;
    cbn [orb app map attemptsOf flat_map];
    first
      [ exists true; split; [reflexivity|]; split; [intros _|reflexivity];
        first [ exists 0%nat; eexists; eexists; split;
                [reflexivity | cbn [firstn]; eassumption]
              | exists 1%nat; eexists; eexists; split;
                [reflexivity | cbn [firstn]; eassumption] ]
      | exists false; split; [reflexivity|]; split; [discriminate|];
        intros H; exfalso; revert H; no_such_attempt ].
Qed.

Lemma count_after_attempts (f : CoreEvent -> bool) (modes : list bool)
    (rest : list CoreEvent) :
  (forall m, f (Attempt m) = false) ->
  List.filter f (map Attempt modes ++ rest) = List.filter f rest.
Proof.
  intros Hf. induction modes as [|m modes IH]; [reflexivity|].
  cbn [map app List.filter]. now rewrite Hf.
Qed.

(** X26.  After a failed download the temporary directory is removed and
    the quota handed back, each twice over.  The error thrown after the
    loop is thrown inside the [try] whose [catch] repeats the same two
    steps, so a failing run calls [cleanupTemp] exactly twice, and calls
    [refundQuota] exactly twice when some attempt failed in the
    transcoding stage and not at all otherwise. *)
Theorem failed_download_refunds_and_cleans_twice
    (isHls preferProxy : bool)
    (runAttempt : list bool -> bool -> AttemptOutcome)
    (error : DownloadError) (events : list CoreEvent) :
  runAttempts isHls runAttempt preferProxy = (Rejected error, events) ->
  List.length (List.filter isCleanup events) = 2%nat
  /\ (transcodingFailed runAttempt (attemptsOf events) ->
      List.length (List.filter isRefund events) = 2%nat)
  /\ (~ transcodingFailed runAttempt (attemptsOf events) ->
      List.length (List.filter isRefund events) = 0%nat).
Proof.
  intros Hrun.
  destruct (failed_run_shape isHls preferProxy runAttempt error events Hrun)
    as (b & Hevents & Hb).
  remember (attemptsOf events) as modes eqn:Hmodes in *.
  rewrite Hevents, !count_after_attempts by reflexivity.
  split; [now destruct b|]. split.
  - intros H. apply Hb in H. now subst b.
  - intros H. destruct b; [|reflexivity]. exfalso. now apply H, Hb.
Qed.

Lemma failed_download_refunds_and_cleans_twice_witness :
  List.length
    (List.filter isCleanup (snd (runAttempts true alwaysFfmpegFails false)))
  = 2%nat
  /\ (transcodingFailed alwaysFfmpegFails
        (attemptsOf (snd (runAttempts true alwaysFfmpegFails false))) ->
      List.length
        (List.filter isRefund (snd (runAttempts true alwaysFfmpegFails false)))
      = 2%nat)
  /\ (~ transcodingFailed alwaysFfmpegFails
          (attemptsOf (snd (runAttempts true alwaysFfmpegFails false))) ->
      List.length
        (List.filter isRefund (snd (runAttempts true alwaysFfmpegFails false)))
      = 0%nat).
Proof.
  exact (failed_download_refunds_and_cleans_twice true false alwaysFfmpegFails
           (downloadError "FFmpeg failed" 500)
           (snd (runAttempts true alwaysFfmpegFails false)) eq_refl).
Defined.

Lemma settle_attempts (enabled : bool) (r : QuotaResult) (modes : list bool)
    (rest : list CoreEvent) (c : Cache) :
  settle enabled r (map Attempt modes ++ rest) c = settle enabled r rest c.
Proof.
  unfold settle. rewrite fold_left_app.
  assert (fold_left
            (fun cache e =>
               match e with
               | Refund => refundQuota enabled r cache
               | _ => cache
               end) (map Attempt modes) c = c) as ->; [|reflexivity].
  induction modes as [|m modes IH]; [reflexivity | exact IH].
Qed.

(** X27.  A download that fails in the transcoder gives back two.  The
    request counted one download; when the run fails after some attempt
    failed in the transcoding stage, and the refunds it asked for are
    carried out one after the other, the user's counter of the day ends
    one below its value before the request (or at 0): the failed download
    is handed back, and an earlier one with it. *)
Theorem failed_transcoding_hands_back_two
    (isHls preferProxy : bool)
    (runAttempt : list bool -> bool -> AttemptOutcome)
    (error : DownloadError) (events : list CoreEvent)
    (u d : string) (ttl limit : Z) (c : Cache) :
  online c = true -> 0 < ttl -> counter c u d < limit ->
  runAttempts isHls runAttempt preferProxy = (Rejected error, events) ->
  transcodingFailed runAttempt (attemptsOf events) ->
  counter (snd (checkAndConsumeQuota u true limit false d ttl c)) u d
  = counter c u d + 1
  /\ counter
       (settle true (fst (checkAndConsumeQuota u true limit false d ttl c))
          events (snd (checkAndConsumeQuota u true limit false d ttl c))) u d
     = Z.max 0 (counter c u d - 1).
Proof.
  intros Hon Httl Hlt Hrun Hfailed.
  destruct (failed_run_shape isHls preferProxy runAttempt error events Hrun)
    as (b & Hevents & Hb).
  apply Hb in Hfailed. subst b.
  remember (attemptsOf events) as modes eqn:Hmodes in *.
  destruct (QuotaFacts.consume_allowed u d ttl limit c Hon Httl Hlt)
    as (c' & Hcall & Hon' & Hcount).
  rewrite Hcall. cbn [fst snd]. split; [exact Hcount|].
  rewrite Hevents, settle_attempts. unfold settle, refundsIf.
  cbn [app fold_left].
  set (r := {| allowed := true;
               remaining := Some (Z.max 0 (limit - (counter c u d + 1)));
               reason := None; cacheKey := Some (quotaKey u d);
               expireSeconds := Some ttl |}).
  destruct (QuotaFacts.refund_counter u d ttl r c' Hon' Httl eq_refl eq_refl)
    as (H1 & Hon1).
  destruct (QuotaFacts.refund_counter u d ttl r (refundQuota true r c') Hon1
              Httl eq_refl eq_refl) as (H2 & _).
  rewrite H2, H1, Hcount.
  pose proof (QuotaFacts.counter_nonneg c u d). lia.
Qed.

Lemma failed_transcoding_hands_back_two_witness :
  counter (snd (checkAndConsumeQuota "alice" true 3 false "2026-01-01" 3600
                  cacheAfterOne)) "alice" "2026-01-01"
  = counter cacheAfterOne "alice" "2026-01-01" + 1
  /\ counter
       (settle true
          (fst (checkAndConsumeQuota "alice" true 3 false "2026-01-01" 3600
                  cacheAfterOne))
          (snd (runAttempts true alwaysFfmpegFails false))
          (snd (checkAndConsumeQuota "alice" true 3 false "2026-01-01" 3600
                  cacheAfterOne))) "alice" "2026-01-01"
     = Z.max 0 (counter cacheAfterOne "alice" "2026-01-01" - 1).
Proof.
  refine (failed_transcoding_hands_back_two true false alwaysFfmpegFails
            (downloadError "FFmpeg failed" 500)
            (snd (runAttempts true alwaysFfmpegFails false))
            "alice" "2026-01-01" 3600 3 cacheAfterOne _ _ _ eq_refl _).
  - vm_compute. reflexivity.
  - reflexivity.
  - vm_compute. reflexivity.
  - exists 0%nat, false, (FailedDownload (downloadError "FFmpeg failed" 500)).
    split; reflexivity.
Defined.

(** X28.  A download that succeeds stops at the first attempt that does.
    The modes tried are the planned ones up to the first that succeeds,
    the size returned is the one that attempt reports, and the core calls
    neither [refundQuota] nor [cleanupTemp]: the quota stays spent even
    when an earlier mode failed in the transcoder, and removing the
    temporary directory is left to the caller. *)
Theorem successful_download_stops_at_first_success
    (isHls preferProxy : bool)
    (runAttempt : list bool -> bool -> AttemptOutcome)
    (sizeBytes : Z) (events : list CoreEvent) :
  runAttempts isHls runAttempt preferProxy = (Passed sizeBytes, events) ->
  exists earlier useProxy later,
    attemptModes isHls preferProxy = earlier ++ useProxy :: later
    /\ events = map Attempt (earlier ++ [useProxy])
    /\ runAttempt earlier useProxy = Succeeded sizeBytes
    /\ (forall k mode, earlier !! k = Some mode ->
          exists stage failure,
            runAttempt (firstn k earlier) mode = Failed stage failure).
Proof.
  destruct isHls, preferProxy; run_attempts runAttempt;
    intros [= <- <-];
    first
      [ exists []; eexists; eexists; split; [reflexivity|];
        split; [reflexivity|]; split; [eassumption|];
        intros k mode Hk; destruct k; discriminate Hk
      | eexists [_]; eexists; exists []; split; [reflexivity|];
        split; [reflexivity|]; split; [eassumption|];
        intros k mode Hk; destruct k as [|k]; cbn in Hk;
        [injection Hk as <-; eexists; eexists; eassumption
        | destruct k; discriminate Hk] ].
Qed.

Lemma successful_download_stops_at_first_success_witness :
  exists earlier useProxy later,
    attemptModes true true = earlier ++ useProxy :: later
    /\ snd (runAttempts true (fun before useProxy => Succeeded 1024) true)
       = map Attempt (earlier ++ [useProxy])
    /\ (fun (before : list bool) (useProxy : bool) => Succeeded 1024)
         earlier useProxy = Succeeded 1024
    /\ (forall k mode, earlier !! k = Some mode ->
          exists stage failure,
            (fun (before : list bool) (useProxy : bool) => Succeeded 1024)
              (firstn k earlier) mode = Failed stage failure).
Proof.
  exact (successful_download_stops_at_first_success true true
           (fun before useProxy => Succeeded 1024) 1024
           (snd (runAttempts true (fun before useProxy => Succeeded 1024) true))
           eq_refl).
Defined.

End AttemptFacts.
